(** * IRC4Fun add-ons for The Lounge: avatars and colour settings

    A shallow embedding of [data/js/avatars.js] (avatar cache, fetch
    queue, injection into the chat DOM) and of the colour-settings script
    (load/save, the tagged comment block used for syncing, the hex text
    field), together with the properties of these programs.

    Conventions.
    - A JavaScript string is a [string]: a sequence of 8-bit code units,
      read as the Latin-1 range U+0000..U+00FF of JavaScript's UTF-16
      code units.  Code units above U+00FF are outside the model.
    - A JavaScript number is an integer [Z]; the programs only compare,
      subtract and count with them.
    - A value produced by [JSON.parse] is a [json]; [undefined] is the
      [None] of an [option json].
    - An exception is an explicit result ([Throw]) of the functions that
      can raise one. *)

From Stdlib Require Import ZArith Lia String Ascii List Bool DecimalString.
From stdpp Require Import base gmap strings list.
Import ListNotations.
Set Warnings "-register-all".
Open Scope string_scope.
Open Scope Z_scope.
Open Scope list_scope.

(* ================================================================== *)
(** * JavaScript strings *)
(* ================================================================== *)

Module JsString.

Definition code (c : ascii) : N := N_of_ascii c.

(** The upper-case letters of Latin-1: A-Z, and U+00C0..U+00DE without
    the multiplication sign U+00D7.  Each has its lower-case form 32
    code points later. *)
Definition is_upper (c : ascii) : bool :=
  let n := code c in
  ((65 <=? n) && (n <=? 90) || (192 <=? n) && (n <=? 214)
   || (216 <=? n) && (n <=? 222))%N.

Definition lower_char (c : ascii) : ascii :=
  if is_upper c then ascii_of_N (code c + 32) else c.

(** [String.prototype.toLowerCase]. *)
Fixpoint toLowerCase (s : string) : string :=
  match s with
  | EmptyString => EmptyString
  | String c s' => String (lower_char c) (toLowerCase s')
  end.

(** The class [\s] of regular expressions, which is also what
    [String.prototype.trim] removes: TAB, LF, VT, FF, CR, SPACE and the
    no-break space U+00A0. *)
Definition is_space (c : ascii) : bool :=
  let n := code c in
  ((9 <=? n) && (n <=? 13) || (n =? 32) || (n =? 160))%N.

(** Greedy [\s*]: drop the longest run of white space at the front. *)
Fixpoint skip_space (s : string) : string :=
  match s with
  | String c s' => if is_space c then skip_space s' else s
  | EmptyString => EmptyString
  end.

Fixpoint trim_end (s : string) : string :=
  match s with
  | EmptyString => EmptyString
  | String c s' =>
      match trim_end s' with
      | EmptyString => if is_space c then EmptyString else String c EmptyString
      | r => String c r
      end
  end.

(** [String.prototype.trim]. *)
Definition trim (s : string) : string := trim_end (skip_space s).

(** [s] without its first [length p] code units, when [p] is a prefix. *)
Fixpoint strip_prefix (p s : string) : option string :=
  match p, s with
  | EmptyString, _ => Some s
  | String a p', String b s' =>
      if Ascii.eqb a b then strip_prefix p' s' else None
  | String _ _, EmptyString => None
  end.

(** [s.startsWith(p)], which is also [s.indexOf(p) === 0]. *)
Definition startsWith (p s : string) : bool :=
  match strip_prefix p s with Some _ => true | None => false end.

Definition is_hex_digit (c : ascii) : bool :=
  let n := code c in
  ((48 <=? n) && (n <=? 57) || (65 <=? n) && (n <=? 70)
   || (97 <=? n) && (n <=? 102))%N.

Definition is_digit (c : ascii) : bool :=
  let n := code c in ((48 <=? n) && (n <=? 57))%N.

Fixpoint all_chars (p : ascii -> bool) (s : string) : bool :=
  match s with
  | EmptyString => true
  | String c s' => p c && all_chars p s'
  end.

(** A string is truthy when it is not empty. *)
Definition nonempty (s : string) : bool :=
  match s with EmptyString => false | _ => true end.

End JsString.

(* ================================================================== *)
(** * JSON values, [JSON.stringify] and [JSON.parse] *)
(* ================================================================== *)

Inductive json : Type :=
  | JNull
  | JBool (b : bool)
  | JNum (n : Z)
  | JStr (s : string)
  | JArr (items : list json)
  | JObj (members : list (string * json)).

(** ToBoolean: what [if (v)], [v && ...] and [v ? a : b] test. *)
Definition truthy (v : json) : bool :=
  match v with
  | JNull => false
  | JBool b => b
  | JNum n => negb (n =? 0)
  | JStr s => JsString.nonempty s
  | JArr _ | JObj _ => true
  end.

(** ToBoolean of a value that may be [undefined]. *)
Definition truthy_opt (v : option json) : bool :=
  match v with Some v => truthy v | None => false end.

(** ** Objects as ordered lists of own properties *)

Module Obj.

(** The own properties in the order in which JavaScript enumerates
    them: the names that are array indices first, in ascending order,
    then the other names in the order of their creation. *)
Definition t := list (string * json).

(** [o[k]] for an own property; [None] is [undefined]. *)
Fixpoint get (k : string) (o : t) : option json :=
  match o with
  | [] => None
  | (k', v) :: o' => if String.eqb k k' then Some v else get k o'
  end.

Definition has (k : string) (o : t) : bool :=
  match get k o with Some _ => true | None => false end.

Fixpoint digits_value (acc : N) (s : string) : N :=
  match s with
  | String c s' => digits_value (10 * acc + (JsString.code c - 48)) s'
  | EmptyString => acc
  end.

(** An array index: the decimal text, without a leading zero, of an
    integer below 2^32 - 1. *)
Definition index_of (k : string) : option N :=
  match k with
  | EmptyString => None
  | String c r =>
      if JsString.all_chars JsString.is_digit k
         && (negb (Ascii.eqb c "0") || Nat.eqb (String.length r) 0)
         && (digits_value 0 k <? 4294967295)%N
      then Some (digits_value 0 k)
      else None
  end.

(** An existing property keeps its place; a new one goes last. *)
Fixpoint set_named (k : string) (v : json) (o : t) : t :=
  match o with
  | [] => [(k, v)]
  | (k', v') :: o' =>
      if String.eqb k k' then (k, v) :: o' else (k', v') :: set_named k v o'
  end.

(** A new property whose name is the array index [n] goes after the
    smaller indices. *)
Fixpoint insert_index (n : N) (k : string) (v : json) (o : t) : t :=
  match o with
  | [] => [(k, v)]
  | (k', v') :: o' =>
      match index_of k' with
      | Some m =>
          if (m <? n)%N then (k', v') :: insert_index n k v o'
          else (k, v) :: o
      | None => (k, v) :: o
      end
  end.

(** [o[k] = v] on own data properties. *)
Definition set (k : string) (v : json) (o : t) : t :=
  match index_of k with
  | Some n => if has k o then set_named k v o else insert_index n k v o
  | None => set_named k v o
  end.

Definition keys (o : t) : list string := map fst o.

(** Two objects are the same mapping when every name reads the same. *)
Definition same_mapping (a b : t) : Prop := forall k, get k a = get k b.

End Obj.

(** ** [JSON.stringify] *)

Module Json.

Definition quote : ascii := "034"%char.
Definition backslash : ascii := "092"%char.

Definition hex_char (n : N) : ascii :=
  if (n <? 10)%N then ascii_of_N (48 + n) else ascii_of_N (87 + n).

(** The text of one code unit inside a JSON string, as [JSON.stringify]
    writes it. *)
Definition escape_char (c : ascii) : string :=
  let n := JsString.code c in
  if Ascii.eqb c quote then String backslash (String quote EmptyString)
  else if Ascii.eqb c backslash then String backslash (String backslash EmptyString)
  else if (n =? 8)%N then String backslash "b"
  else if (n =? 9)%N then String backslash "t"
  else if (n =? 10)%N then String backslash "n"
  else if (n =? 12)%N then String backslash "f"
  else if (n =? 13)%N then String backslash "r"
  else if (n <? 32)%N then
    String backslash
      (String "u" (String "0" (String "0"
         (String (hex_char (n / 16)) (String (hex_char (n mod 16)) EmptyString)))))
  else String c EmptyString.

Fixpoint escape (s : string) : string :=
  match s with
  | EmptyString => EmptyString
  | String c s' => escape_char c +:+ escape s'
  end.

Definition quoted (s : string) : string :=
  String quote (escape s +:+ String quote EmptyString).

Definition number_text (n : Z) : string := NilZero.string_of_int (Z.to_int n).

Fixpoint stringify (v : json) : string :=
  match v with
  | JNull => "null"
  | JBool true => "true"
  | JBool false => "false"
  | JNum n => number_text n
  | JStr s => quoted s
  | JArr items =>
      "[" +:+
      (fix elems (l : list json) : string :=
         match l with
         | [] => EmptyString
         | x :: l' =>
             stringify x +:+
             match l' with [] => EmptyString | _ => "," +:+ elems l' end
         end) items +:+ "]"
  | JObj members =>
      "{" +:+
      (fix props (l : list (string * json)) : string :=
         match l with
         | [] => EmptyString
         | (k, x) :: l' =>
             quoted k +:+ ":" +:+ stringify x +:+
             match l' with [] => EmptyString | _ => "," +:+ props l' end
         end) members +:+ "}"
  end.

(** ** [JSON.parse] *)

(** JSON white space: space, TAB, LF, CR. *)
Definition is_ws (c : ascii) : bool :=
  let n := JsString.code c in
  ((n =? 32) || (n =? 9) || (n =? 10) || (n =? 13))%N.

Fixpoint skip_ws (s : string) : string :=
  match s with
  | String c s' => if is_ws c then skip_ws s' else s
  | EmptyString => EmptyString
  end.

Definition hex_value (c : ascii) : option N :=
  let n := JsString.code c in
  if ((48 <=? n) && (n <=? 57))%N then Some (n - 48)%N
  else if ((65 <=? n) && (n <=? 70))%N then Some (n - 55)%N
  else if ((97 <=? n) && (n <=? 102))%N then Some (n - 87)%N
  else None.

(** The code unit a one-letter escape stands for. *)
Definition unescape (c : ascii) : option ascii :=
  if Ascii.eqb c quote then Some quote
  else if Ascii.eqb c backslash then Some backslash
  else if Ascii.eqb c "/" then Some "/"%char
  else if Ascii.eqb c "b" then Some (ascii_of_N 8)
  else if Ascii.eqb c "f" then Some (ascii_of_N 12)
  else if Ascii.eqb c "n" then Some (ascii_of_N 10)
  else if Ascii.eqb c "r" then Some (ascii_of_N 13)
  else if Ascii.eqb c "t" then Some (ascii_of_N 9)
  else None.

Definition cons_char (c : ascii) (r : option (string * string))
  : option (string * string) :=
  match r with
  | Some (s, rest) => Some (String c s, rest)
  | None => None
  end.

(** The characters of a string literal after its opening quote, and the
    text after its closing quote.  An escape [\uXXXX] above U+00FF is
    outside the model and read as an error. *)
Fixpoint parse_chars (s : string) : option (string * string) :=
  match s with
  | EmptyString => None
  | String c r =>
      if Ascii.eqb c quote then Some (EmptyString, r)
      else if Ascii.eqb c backslash then
        match r with
        | String e r' =>
            match unescape e with
            | Some ch => cons_char ch (parse_chars r')
            | None =>
                if Ascii.eqb e "u" then
                  match r' with
                  | String h1 (String h2 (String h3 (String h4 r''))) =>
                      match hex_value h1, hex_value h2, hex_value h3, hex_value h4 with
                      | Some a, Some b, Some c', Some d =>
                          let n := (((a * 16 + b) * 16 + c') * 16 + d)%N in
                          if (n <? 256)%N
                          then cons_char (ascii_of_N n) (parse_chars r'')
                          else None
                      | _, _, _, _ => None
                      end
                  | _ => None
                  end
                else None
            end
        | EmptyString => None
        end
      else if (JsString.code c <? 32)%N then None
      else cons_char c (parse_chars r)
  end.

Fixpoint take_digits (s : string) : string * string :=
  match s with
  | String c s' =>
      if JsString.is_digit c
      then let '(d, r) := take_digits s' in (String c d, r)
      else (EmptyString, s)
  | EmptyString => (EmptyString, EmptyString)
  end.

Fixpoint digits_value (acc : Z) (s : string) : Z :=
  match s with
  | String c s' => digits_value (10 * acc + Z.of_N (JsString.code c - 48)) s'
  | EmptyString => acc
  end.

Definition next_is (c : ascii) (s : string) : bool :=
  match s with
  | String d _ => Ascii.eqb c d
  | EmptyString => false
  end.

Definition rest_of (s : string) : string :=
  match s with
  | String _ r => r
  | EmptyString => EmptyString
  end.

(** An integer literal: digits without a leading zero.  A fraction or an
    exponent makes a number that is not an integer: outside the model,
    read as an error. *)
Definition parse_digits (s : string) : option (Z * string) :=
  let '(d, r) := take_digits s in
  if Nat.eqb (String.length d) 0 then None
  else if next_is "0" d && Nat.ltb 1 (String.length d) then None
  else if next_is "." r || next_is "e" r || next_is "E" r then None
  else Some (digits_value 0 d, r).

Definition parse_number (s : string) : option (Z * string) :=
  if next_is "-" s then
    match parse_digits (rest_of s) with
    | Some (n, r) => Some (- n, r)
    | None => None
    end
  else parse_digits s.

Definition literal (word : string) (v : json) (s : string)
  : option (json * string) :=
  match JsString.strip_prefix word s with
  | Some r => Some (v, r)
  | None => None
  end.

(** A member list read left to right makes an object in which a
    repeated name keeps its first place and its last value. *)
Definition object_of (members : list (string * json)) : Obj.t :=
  fold_left (fun o kv => Obj.set (fst kv) (snd kv) o) members [].

(** Recursive descent; [fuel] bounds the depth of the calls. *)
Fixpoint parse_value (fuel : nat) (s : string) : option (json * string) :=
  match fuel with
  | O => None
  | S f =>
      match skip_ws s with
      | String c r =>
          if Ascii.eqb c "n" then literal "ull" JNull r
          else if Ascii.eqb c "t" then literal "rue" (JBool true) r
          else if Ascii.eqb c "f" then literal "alse" (JBool false) r
          else if Ascii.eqb c quote then
            match parse_chars r with
            | Some (str, r') => Some (JStr str, r')
            | None => None
            end
          else if Ascii.eqb c "[" then
            if next_is "]" (skip_ws r) then Some (JArr [], rest_of (skip_ws r))
            else
              match parse_elems f (skip_ws r) with
              | Some (l, r') => Some (JArr l, r')
              | None => None
              end
          else if Ascii.eqb c "{" then
            if next_is "}" (skip_ws r) then Some (JObj [], rest_of (skip_ws r))
            else
              match parse_members f (skip_ws r) with
              | Some (l, r') => Some (JObj (object_of l), r')
              | None => None
              end
          else
            match parse_number (String c r) with
            | Some (n, r') => Some (JNum n, r')
            | None => None
            end
      | EmptyString => None
      end
  end
with parse_elems (fuel : nat) (s : string) : option (list json * string) :=
  match fuel with
  | O => None
  | S f =>
      match parse_value f s with
      | Some (v, r) =>
          if next_is "," (skip_ws r) then
            match parse_elems f (rest_of (skip_ws r)) with
            | Some (l, r') => Some (v :: l, r')
            | None => None
            end
          else if next_is "]" (skip_ws r) then Some ([v], rest_of (skip_ws r))
          else None
      | None => None
      end
  end
with parse_members (fuel : nat) (s : string)
  : option (list (string * json) * string) :=
  match fuel with
  | O => None
  | S f =>
      if next_is quote (skip_ws s) then
        match parse_chars (rest_of (skip_ws s)) with
        | Some (k, r1) =>
            if next_is ":" (skip_ws r1) then
              match parse_value f (rest_of (skip_ws r1)) with
              | Some (v, r3) =>
                  if next_is "," (skip_ws r3) then
                    match parse_members f (rest_of (skip_ws r3)) with
                    | Some (l, r5) => Some ((k, v) :: l, r5)
                    | None => None
                    end
                  else if next_is "}" (skip_ws r3)
                  then Some ([(k, v)], rest_of (skip_ws r3))
                  else None
              | None => None
              end
            else None
        | None => None
        end
      else None
  end.

(** [JSON.parse(text)]; [None] is a SyntaxError. *)
Definition parse (text : string) : option json :=
  match parse_value (2 * String.length text + 2) text with
  | Some (v, r) =>
      if Nat.eqb (String.length (skip_ws r)) 0 then Some v else None
  | None => None
  end.

End Json.

(* ================================================================== *)
(** * The document tree *)
(* ================================================================== *)

(** How a JavaScript function ends: normally, or by an exception that
    nothing inside it catches.  Both carry the state reached, since
    what was written before a [throw] stays written. *)
Inductive completion (A : Type) : Type :=
  | Normal (a : A)
  | Throw (a : A).
Arguments Normal {A} a.
Arguments Throw {A} a.

Definition outcome_of {A} (c : completion A) : A :=
  match c with Normal a | Throw a => a end.

Definition threw {A} (c : completion A) : bool :=
  match c with Normal _ => false | Throw _ => true end.

Module Dom.

(** An element: its identity (what a JavaScript reference to it
    denotes), tag, class list, attributes and child nodes in document
    order. *)
Inductive node : Type :=
  | Node (nid : nat) (tag : string) (classes : list string)
         (attrs : list (string * string)) (children : list node).

Definition node_id (n : node) : nat :=
  match n with Node i _ _ _ _ => i end.
Definition node_classes (n : node) : list string :=
  match n with Node _ _ c _ _ => c end.
Definition node_attrs (n : node) : list (string * string) :=
  match n with Node _ _ _ a _ => a end.
Definition children (n : node) : list node :=
  match n with Node _ _ _ _ k => k end.

(** [el.getAttribute(name)]; [None] is [null]. *)
Fixpoint assoc (name : string) (l : list (string * string)) : option string :=
  match l with
  | [] => None
  | (k, v) :: l' => if String.eqb name k then Some v else assoc name l'
  end.

Definition getAttribute (name : string) (n : node) : option string :=
  assoc name (node_attrs n).

Definition has_class (c : string) (n : node) : bool :=
  existsb (String.eqb c) (node_classes n).

(** The proper descendants of a node, in document order. *)
Fixpoint descendants (n : node) : list node :=
  match n with
  | Node _ _ _ _ kids =>
      (fix over (ks : list node) : list node :=
         match ks with
         | [] => []
         | k :: ks' => (k :: descendants k) ++ over ks'
         end) kids
  end.

Definition subtree (n : node) : list node := n :: descendants n.

(** [n.querySelector(sel)]: the first proper descendant that matches. *)
Definition querySelector (sel : node -> bool) (n : node) : option node :=
  List.find sel (descendants n).

(** The element a reference [i] denotes in the tree under [root]. *)
Definition find_node (i : nat) (root : node) : option node :=
  List.find (fun n => Nat.eqb (node_id n) i) (subtree root).

(** The element [i] followed by its ancestors, nearest first. *)
Fixpoint chain_to (i : nat) (n : node) : option (list node) :=
  if Nat.eqb (node_id n) i then Some [n]
  else
    match n with
    | Node _ _ _ _ kids =>
        (fix over (ks : list node) : option (list node) :=
           match ks with
           | [] => None
           | k :: ks' =>
               match chain_to i k with
               | Some c => Some (c ++ [n])
               | None => over ks'
               end
           end) kids
    end.

(** [el.closest(sel)] on the chain of [el]: the element itself or its
    nearest ancestor that matches. *)
Definition closest (sel : node -> bool) (chain : list node) : option node :=
  List.find sel chain.

(** [el.parentElement] on the chain of [el]. *)
Definition parentElement (chain : list node) : option node :=
  match chain with
  | _ :: p :: _ => Some p
  | _ => None
  end.

(** Replace the element [i] by [f] of it, everywhere under [n]. *)
Fixpoint update_node (i : nat) (f : node -> node) (n : node) : node :=
  if Nat.eqb (node_id n) i then f n
  else
    match n with
    | Node j t c a kids => Node j t c a (map (update_node i f) kids)
    end.

(** Detach the first proper descendant of [n] that matches [sel]: this is
    [old.parentNode.removeChild(old)] for [old = n.querySelector(sel)].
    The flag tells whether there was one. *)
Fixpoint remove_first (sel : node -> bool) (n : node) : node * bool :=
  match n with
  | Node j t c a kids =>
      let '(kids', found) :=
        (fix over (ks : list node) : list node * bool :=
           match ks with
           | [] => ([], false)
           | k :: ks' =>
               if sel k then (ks', true)
               else
                 let '(k', found) := remove_first sel k in
                 if found then (k' :: ks', true)
                 else let '(ks'', found') := over ks' in (k :: ks'', found')
           end) kids in
      (Node j t c a kids', found)
  end.

(** [n.insertBefore(child, n.firstChild)]. *)
Definition prepend (child : node) (n : node) : node :=
  match n with
  | Node j t c a kids => Node j t c a (child :: kids)
  end.

(** The elements matched by a selector [#chat sel]: those matching [sel]
    that lie strictly inside an element whose [id] is [chat], in document
    order. *)
Fixpoint select_in_chat (sel : node -> bool) (inside : bool) (n : node)
  : list node :=
  (if inside && sel n then [n] else []) ++
  match n with
  | Node _ _ _ a kids =>
      let inside' :=
        inside || match assoc "id" a with
                  | Some v => String.eqb v "chat"
                  | None => false
                  end in
      (fix over (ks : list node) : list node :=
         match ks with
         | [] => []
         | k :: ks' => select_in_chat sel inside' k ++ over ks'
         end) kids
  end.

End Dom.

(* ================================================================== *)
(** * avatars.js *)
(* ================================================================== *)

Module Avatars.
Import Dom.

(** ** Config *)

Definition AVATAR_ORIGIN : string := EmptyString.
Definition NEGATIVE_TTL : Z := 5 * 60 * 1000.
Definition MAX_CONCURRENT : Z := 3.

Definition SERVICE_NICKS : list string :=
  [ "chanserv"; "nickserv"; "memoserv"; "operserv"; "hostserv";
    "botserv"; "saslserv"; "global"; "helpserv"; "statserv";
    "alis"; "gameserv"; "groupserv"; "infoserv"; "reportserv" ].

(** [serviceSet[k] === true].  [serviceSet] is an object literal filled
    from [SERVICE_NICKS]; what it inherits ([constructor], ...) is not
    [true], so the strict comparison holds for the listed names only. *)
Definition serviceSet (k : string) : bool :=
  existsb (String.eqb k) SERVICE_NICKS.

(** ** State *)

(** A cache entry [{ url, ts }]; [url] is [JNull] for [null]. *)
Record entry : Type := Entry { url : json; ts : Z }.

(** A queue item [{ nick, key }]; a request is the item it was started
    for. *)
Record item : Type := Item { nick : string; key : string }.

Record state : Type := State {
  doc : node;                     (* the document *)
  fresh : nat;                    (* identity of the next created element *)
  cache : gmap string entry;      (* own properties of [cache] *)
  queue : list item;
  activeCount : Z;
  inflight : list item;           (* requests sent, response awaited *)
  settled : list item             (* response handled, [.finally] to run *)
}.

Definition set_doc (d : node) (st : state) : state :=
  State d (fresh st) (cache st) (queue st) (activeCount st) (inflight st)
        (settled st).
Definition set_fresh (n : nat) (st : state) : state :=
  State (doc st) n (cache st) (queue st) (activeCount st) (inflight st)
        (settled st).
Definition set_cache (c : gmap string entry) (st : state) : state :=
  State (doc st) (fresh st) c (queue st) (activeCount st) (inflight st)
        (settled st).
Definition set_queue (q : list item) (st : state) : state :=
  State (doc st) (fresh st) (cache st) q (activeCount st) (inflight st)
        (settled st).
Definition set_activeCount (a : Z) (st : state) : state :=
  State (doc st) (fresh st) (cache st) (queue st) a (inflight st)
        (settled st).
Definition set_inflight (l : list item) (st : state) : state :=
  State (doc st) (fresh st) (cache st) (queue st) (activeCount st) l
        (settled st).
Definition set_settled (l : list item) (st : state) : state :=
  State (doc st) (fresh st) (cache st) (queue st) (activeCount st)
        (inflight st) l.

(** What [cache[key]] reads.  [cache] is an object literal, so besides
    its own entries it answers for the two all-lower-case names it
    inherits from [Object.prototype]: [constructor] and [__proto__] (a
    key is always lower-cased, which rules out [toString] and the like).
    An inherited value is truthy and has neither [url] nor [ts]. *)
Inductive cache_value : Type :=
  | Undefined
  | Inherited
  | Own (e : entry).

Definition inherited_name (k : string) : bool :=
  String.eqb k "constructor" || String.eqb k "__proto__".

Definition cache_get (c : gmap string entry) (k : string) : cache_value :=
  match c !! k with
  | Some e => Own e
  | None => if inherited_name k then Inherited else Undefined
  end.

(** ** Helpers *)

Definition isServiceNick (nick : string) : bool :=
  serviceSet (JsString.toLowerCase nick).

Definition is_avatar (n : node) : bool := has_class "tl-avatar" n.

(** [createAvatarEl(nick, url)] with the identities [i] and [i + 1] for
    the two created elements.  [url.startsWith] exists on strings only:
    for any other value the call raises a TypeError ([None]). *)
Definition createAvatarEl (i : nat) (nick : string) (url : json)
  : option node :=
  match url with
  | JStr u =>
      let src := if JsString.startsWith "/" u then AVATAR_ORIGIN +:+ u else u in
      Some (Node i "span" ["tl-avatar"] [("data-nick", nick)]
              [Node (S i) "img" ["tl-avatar-img"]
                 [("src", src); ("alt", nick); ("loading", "lazy")] []])
  | _ => None
  end.

Definition add_class (c : string) (n : node) : node :=
  match n with
  | Node i t cs a k => Node i t (cs ++ [c]) a k
  end.

(** ** Inject into DOM *)

Inductive context : Type := Nicklist | Msg | Whois | Other.

(** [getContext(el)] on the chain of [el]. *)
Definition getContext (chain : list node) : context :=
  match closest (has_class "userlist") chain with
  | Some _ => Nicklist
  | None =>
      match closest (has_class "from") chain with
      | Some _ => Msg
      | None =>
          match closest (has_class "msg") chain with
          | Some msg =>
              match getAttribute "data-type" msg with
              | Some t => if String.eqb t "whois" then Whois else Other
              | None => Other
              end
          | None => Other
          end
      end
  end.

(** The injection target of [el] in context [ctx]. *)
Definition target_of (ctx : context) (chain : list node) (el : node) : node :=
  match ctx with
  | Msg => default el (closest (has_class "from") chain)
  | Whois => default el (parentElement chain)
  | _ => el
  end.

Definition same_nick (recorded : option string) (nick : string) : bool :=
  match recorded with
  | Some n => String.eqb n nick
  | None => false
  end.

Definition context_class (ctx : context) (avatar : node) : node :=
  match ctx with
  | Msg => add_class "tl-avatar-msg" avatar
  | Whois => add_class "tl-avatar-whois" avatar
  | _ => avatar
  end.

(** [injectAvatar(userEl, nick, url)]. *)
Definition injectAvatar (userEl : nat) (nick : string) (url : json)
    (st : state) : completion state :=
  match chain_to userEl (doc st) with
  | Some ((el :: _) as chain) =>
      match getContext chain with
      | Other => Normal st
      | ctx =>
          let target := target_of ctx chain el in
          let t := node_id target in
          let old := querySelector is_avatar target in
          if match old with
             | Some o => same_nick (getAttribute "data-nick" o) nick
             | None => false
             end
          then Normal st
          else
            let st1 :=
              match old with
              | Some _ =>
                  set_doc (update_node t (fun n => fst (remove_first is_avatar n))
                             (doc st)) st
              | None => st
              end in
            match createAvatarEl (fresh st1) nick url with
            | None => Throw st1
            | Some avatar =>
                Normal
                  (set_fresh (2 + fresh st1)
                     (set_doc
                        (update_node t (prepend (context_class ctx avatar))
                           (doc st1)) st1))
            end
      end
  | _ => Normal st
  end.

(** What the selector [[data-name="..."]] made of [CSS.escape(nick)]
    compares the attribute with: [nick] itself, but for a nickname that
    holds U+0000, which [CSS.escape] writes as U+FFFD, a character that
    no attribute value of the model holds ([None]). *)
Definition escaped_name (nick : string) : option string :=
  if JsString.all_chars (fun c => negb (JsString.code c =? 0)%N) nick
  then Some nick
  else None.

Definition is_user_named (nick : string) (n : node) : bool :=
  has_class "user" n &&
  match getAttribute "data-name" n, escaped_name nick with
  | Some v, Some name => String.eqb v name
  | _, _ => false
  end.

Fixpoint injectAll (els : list nat) (nick : string) (url : json)
    (st : state) : completion state :=
  match els with
  | [] => Normal st
  | el :: els' =>
      match injectAvatar el nick url st with
      | Normal st' => injectAll els' nick url st'
      | Throw st' => Throw st'
      end
  end.

(** [injectAllForNick(nick, url)]: the selector is
    [#chat .user[data-name="<nick>"]], with [nick] escaped
    ([escaped_name]). *)
Definition injectAllForNick (nick : string) (url : json) (st : state)
  : completion state :=
  let els := select_in_chat (is_user_named nick) false (doc st) in
  injectAll (map node_id els) nick url st.

(** ** Fetch queue *)

(** [doFetch(nick, key)] up to the point where the request is sent. *)
Definition doFetch (it : item) (st : state) : state :=
  set_inflight (inflight st ++ [it])
    (set_activeCount (activeCount st + 1) st).

(** The loop of [drainQueue] over the queue [q] of [st]. *)
Fixpoint drain (q : list item) (st : state) : state :=
  match q with
  | it :: q' =>
      if activeCount st <? MAX_CONCURRENT
      then drain q' (doFetch it (set_queue q' st))
      else set_queue q st
  | [] => set_queue [] st
  end.

Definition drainQueue (st : state) : state := drain (queue st) st.

Definition queued (k : string) (q : list item) : bool :=
  existsb (fun it => String.eqb (key it) k) q.

Definition enqueue (n : string) (st : state) : state :=
  let k := JsString.toLowerCase n in
  match cache_get (cache st) k with
  | Undefined =>
      if queued k (queue st) then st
      else drainQueue (set_queue (queue st ++ [Item n k]) st)
  | _ => st
  end.

(** How a request ends: [fetch] rejects, or it yields a response with
    its [ok] flag and what [res.json()] makes of the body ([None] when
    the body is not JSON and [res.json()] rejects). *)
Inductive response : Type :=
  | NetworkError
  | Http (ok : bool) (body : option json).

(** [data.avatar_url]: only an object has such a property. *)
Definition avatar_url (data : json) : option json :=
  match data with
  | JObj o => Obj.get "avatar_url" o
  | _ => None
  end.

(** [(data && data.avatar_url) ? data.avatar_url : null]. *)
Definition url_of_data (data : json) : json :=
  if truthy data && truthy_opt (avatar_url data)
  then default JNull (avatar_url data)
  else JNull.

(** [if (url && url.indexOf("/static/") === 0) url = null;]
    A string has [String.prototype.indexOf], an array has
    [Array.prototype.indexOf], which finds the position of an element
    strictly equal to its argument; on any other truthy value
    [url.indexOf] is not a function and the call raises a TypeError
    ([None]). *)
Definition skip_static (u : json) : option json :=
  if truthy u then
    match u with
    | JStr s => Some (if JsString.startsWith "/static/" s then JNull else u)
    | JArr (JStr s :: _) => Some (if String.eqb s "/static/" then JNull else u)
    | JArr _ => Some u
    | _ => None
    end
  else Some u.

(** The second [.then] callback of [doFetch], run on [data] at time
    [now].  [cache[key] = ...] makes an own property for every key but
    [__proto__], a key that [enqueue] never lets through. *)
Definition on_data (it : item) (data : json) (now : Z) (st : state)
  : completion state :=
  match skip_static (url_of_data data) with
  | None => Throw st
  | Some u =>
      let st1 := set_cache (<[key it := Entry u now]> (cache st)) st in
      if truthy u then injectAllForNick (nick it) u st1 else Normal st1
  end.

(** The [.catch] callback. *)
Definition on_error (it : item) (now : Z) (st : state) : state :=
  set_cache (<[key it := Entry JNull now]> (cache st)) st.

(** The [.finally] callback. *)
Definition on_finally (st : state) : state :=
  drainQueue (set_activeCount (activeCount st - 1) st).

(** The promise chain of [doFetch] up to [.finally]: the state after the
    callbacks have handled the result [r] of the request for [it] at
    time [now]. *)
Definition settle (it : item) (r : response) (now : Z) (st : state) : state :=
  match r with
  | NetworkError => on_error it now st
  | Http false _ => outcome_of (on_data it JNull now st)
  | Http true None => on_error it now st
  | Http true (Some data) =>
      match on_data it data now st with
      | Normal st' => st'
      | Throw st' => on_error it now st'
      end
  end.

(** ** Scanning *)

(** [processUserElement(el)] at time [now], for an element of the
    document.  The reference [userEl] is looked up in the document as it
    is now.  An element that is no longer in it (one that lay inside an
    avatar detached earlier in the same scan) is outside the model: the
    script goes on to work in the detached subtree, which changes
    nothing in the document but may start a lookup; here such an
    element is passed over. *)
Definition processUserElement (now : Z) (userEl : nat) (st : state)
  : completion state :=
  match chain_to userEl (doc st) with
  | Some ((el :: _) as chain) =>
      match getAttribute "data-name" el with
      | None => Normal st
      | Some n =>
          if negb (JsString.nonempty n) then Normal st
          else if isServiceNick n then Normal st
          else
            match getContext chain with
            | Other => Normal st
            | ctx =>
                let k := JsString.toLowerCase n in
                let cached := cache_get (cache st) k in
                let container := target_of ctx chain el in
                let existing := querySelector is_avatar container in
                if match existing with
                   | Some e => same_nick (getAttribute "data-nick" e) n
                   | None => false
                   end
                then Normal st
                else
                  let st1 :=
                    match existing with
                    | Some _ =>
                        set_doc
                          (update_node (node_id container)
                             (fun c => fst (remove_first is_avatar c))
                             (doc st)) st
                    | None => st
                    end in
                  match cached with
                  | Own e =>
                      if truthy (url e) then injectAvatar userEl n (url e) st1
                      else if now - ts e <? NEGATIVE_TTL then Normal st1
                      else
                        Normal
                          (enqueue n (set_cache (delete k (cache st1)) st1))
                  | Inherited =>
                      (* no [url]; [Date.now() - undefined] is NaN, and
                         NaN < NEGATIVE_TTL is false; [delete] finds no
                         own property *)
                      Normal (enqueue n st1)
                  | Undefined => Normal (enqueue n st1)
                  end
            end
      end
  | _ => Normal st
  end.

(** The loop of [scanAll]; the element at position [k] is processed at
    time [clock k]. *)
Fixpoint scan (clock : nat -> Z) (els : list nat) (st : state)
  : completion state :=
  match els with
  | [] => Normal st
  | el :: els' =>
      match processUserElement (clock 0%nat) el st with
      | Normal st' => scan (fun k => clock (S k)) els' st'
      | Throw st' => Throw st'
      end
  end.

Definition is_user (n : node) : bool :=
  has_class "user" n &&
  match getAttribute "data-name" n with Some _ => true | None => false end.

(** [scanAll()]; the selector is [#chat .user[data-name]]. *)
Definition scanAll (clock : nat -> Z) (st : state) : completion state :=
  scan clock (map node_id (select_in_chat is_user false (doc st))) st.

(** ** Runs of the script *)

(** Every avatar element of [d'] records a nickname that some avatar
    element of [d] records: the host application may rebuild the page
    and move, keep or drop what the script injected, but it makes no
    avatar elements of its own. *)
Definition avatar_nicks (d : node) : list (option string) :=
  map (getAttribute "data-nick") (filter is_avatar (subtree d)).

Definition host_render (d d' : node) : Prop :=
  incl (avatar_nicks d') (avatar_nicks d).

Definition remove_nth {A} (i : nat) (l : list A) : list A :=
  firstn i l ++ skipn (S i) l.

(** What can happen from one callback to the next.  The callbacks of a
    request that has its response run one after the other, and a scan
    can come in between: an injection changes the page, and the
    observer is told before [.catch] and [.finally] run.  The relation
    keeps no record of a callback that raised, so that it has every run
    of the script among its runs, and some more: after [step_raise] the
    request is still awaited, and [.catch] is its [step_settle] with a
    failure. *)
Inductive step : state -> state -> Prop :=
  | step_scan clock st :
      (* the observer, the interval or a navigation timer runs scanAll *)
      step st (outcome_of (scanAll clock st))
  | step_raise i it data now st st' :
      (* the second callback raises on the data of the i-th request *)
      nth_error (inflight st) i = Some it ->
      on_data it data now st = Throw st' ->
      step st st'
  | step_settle i it r now st :
      (* the i-th request awaited has its result handled *)
      nth_error (inflight st) i = Some it ->
      step st
        (set_settled (settled st ++ [it])
           (set_inflight (remove_nth i (inflight st)) (settle it r now st)))
  | step_finally j it st :
      (* [.finally] runs for the j-th request handled *)
      nth_error (settled st) j = Some it ->
      step st (on_finally (set_settled (remove_nth j (settled st)) st))
  | step_host d' st :
      (* the host application renders, or an image fails to load and
         its avatar is removed *)
      host_render (doc st) d' ->
      step st (set_doc d' st).

(** The script starts with an empty cache and queue on a page that has
    no avatar element. *)
Definition initial (st : state) : Prop :=
  cache st = ∅ /\ queue st = [] /\ activeCount st = 0 /\ inflight st = [] /\
  settled st = [] /\
  filter is_avatar (subtree (doc st)) = [].

Inductive reachable : state -> Prop :=
  | reach_init st : initial st -> reachable st
  | reach_step st st' : reachable st -> step st st' -> reachable st'.

End Avatars.

(* ================================================================== *)
(** * The colour-settings script *)
(* ================================================================== *)

(** A value returned by a function that may raise instead. *)
Inductive result (A : Type) : Type :=
  | Returns (a : A)
  | Raises.
Arguments Returns {A} a.
Arguments Raises {A}.

Module Colors.

Definition STORAGE_KEY : string := "irc4fun-color-settings".
Definition SYNC_TAG : string := "IRC4FUN_COLORS".

(** ** Default values *)

Definition DEFAULTS : Obj.t :=
  [ ("coloredNicks",    JBool true);
    ("nickBold",        JBool false);
    ("timestampColor",  JStr "#64748b");
    ("linkColor",       JStr "#5aa5ff");
    ("joinColor",       JStr "#4ade80");
    ("partColor",       JStr "#f87171");
    ("quitColor",       JStr "#f87171");
    ("actionColor",     JStr "#fbbf24");
    ("noticeColor",     JStr "#5aa5ff");
    ("highlightBg",     JStr "#1c2d4a");
    ("highlightBorder", JStr "#0076f9");
    ("unreadMarker",    JStr "#ef4444");
    ("dateMarker",      JStr "#14b8a6");
    ("bgColor",         JStr "#0f1115");
    ("windowBg",        JStr "#1a1e25");
    ("sidebarBg",       JStr "#0c0e12");
    ("textColor",       JStr "#e4e7eb");
    ("mutedColor",      JStr "#8a94a8");
    ("inputBg",         JStr "#11141a");
    ("borderColor",     JStr "#2a3545");
    ("accentColor",     JStr "#0076f9") ].

(** ** [Object.assign] *)

Definition index_key (i : nat) : string :=
  NilEmpty.string_of_uint (Nat.to_uint i).

Fixpoint indexed {A} (f : A -> json) (i : nat) (l : list A)
  : list (string * json) :=
  match l with
  | [] => []
  | x :: l' => (index_key i, f x) :: indexed f (S i) l'
  end.

Definition char_string (c : ascii) : json := JStr (String c EmptyString).

(** The own enumerable properties of a source of [Object.assign]: the
    members of an object, the elements of an array and the code units of
    a string under their indices; [null], booleans and numbers have
    none. *)
Definition own_properties (v : json) : list (string * json) :=
  match v with
  | JObj o => o
  | JArr l => indexed (fun x => x) 0 l
  | JStr s => indexed char_string 0 (list_ascii_of_string s)
  | _ => []
  end.

(** [target[k] = v] on a plain object: the name [__proto__] is the
    inherited accessor, which makes no own property (given an object it
    changes what the target inherits, which no read of an own property
    sees). *)
Definition put (o : Obj.t) (kv : string * json) : Obj.t :=
  if String.eqb (fst kv) "__proto__" then o else Obj.set (fst kv) (snd kv) o.

(** [Object.assign(target, ...sources)]. *)
Definition Object_assign (target : Obj.t) (sources : list json) : Obj.t :=
  fold_left (fun o src => fold_left put (own_properties src) o) sources target.

(** ** Load / Save *)

(** [localStorage.getItem(STORAGE_KEY)]: it raises when storage is
    denied, and otherwise yields the stored text or [null]. *)
Inductive storage_read : Type :=
  | GetItemRaises
  | GetItem (raw : option string).

(** The regular expression of [parseTagFromCSS] tried at the start of
    [s]:  [/\*], [\s*], the tag and a colon, [\s*], the shortest text
    [([\s\S]*?)] after which [\s*] and [*/] follow.  It yields the
    captured text. *)
Fixpoint capture_until_close (s : string) : option string :=
  match JsString.strip_prefix "*/" (JsString.skip_space s) with
  | Some _ => Some EmptyString
  | None =>
      match s with
      | String c s' =>
          match capture_until_close s' with
          | Some cap => Some (String c cap)
          | None => None
          end
      | EmptyString => None
      end
  end.

Definition tag_open (s : string) : option string :=
  match JsString.strip_prefix "/*" s with
  | Some s1 =>
      JsString.strip_prefix (SYNC_TAG +:+ ":") (JsString.skip_space s1)
  | None => None
  end.

Definition match_tag_at (s : string) : option string :=
  match tag_open s with
  | Some s1 => capture_until_close (JsString.skip_space s1)
  | None => None
  end.

(** [css.match(re)]: the leftmost position at which [re] matches; [m[1]]
    is returned. *)
Fixpoint match_tag (css : string) : option string :=
  match match_tag_at css with
  | Some cap => Some cap
  | None =>
      match css with
      | String _ css' => match_tag css'
      | EmptyString => None
      end
  end.

(** [parseTagFromCSS(css)]; [JNull] is [null]. *)
Definition parseTagFromCSS (css : string) : json :=
  match match_tag css with
  | None => JNull
  | Some text => default JNull (Json.parse text)
  end.

(** [loadFromUserStyles()]: [style] is the [innerHTML] of the element
    [user-specified-css] when the page has it. *)
Definition loadFromUserStyles (style : option string) : json :=
  match style with
  | None => JNull
  | Some html => parseTagFromCSS html
  end.

(** The [try] block of [load]. *)
Definition load_try (read : storage_read) (style : option string)
  : result Obj.t :=
  match read with
  | GetItemRaises => Raises
  | GetItem raw =>
      match raw with
      | Some (String _ _ as text) =>
          match Json.parse text with
          | Some saved => Returns (Object_assign [] [JObj DEFAULTS; saved])
          | None => Raises
          end
      | _ =>
          let fromServer := loadFromUserStyles style in
          if truthy fromServer
          then Returns (Object_assign [] [JObj DEFAULTS; fromServer])
          else Returns (Object_assign [] [JObj DEFAULTS])
      end
  end.

(** [load()]. *)
Definition load (read : storage_read) (style : option string)
  : result Obj.t :=
  match load_try read style with
  | Returns o => Returns o
  | Raises => Returns (Object_assign [] [JObj DEFAULTS])
  end.

(** ** Server sync via userStyles *)

(** The regular expression of [buildSyncCSS] tried at the start of [s]:
    [/\*], [\s*], the tag and a colon, the shortest text [[\s\S]*?] up to
    [*/], then [\s*].  It yields what follows the match. *)
Fixpoint after_close (s : string) : option string :=
  match JsString.strip_prefix "*/" s with
  | Some r => Some r
  | None =>
      match s with
      | String _ s' => after_close s'
      | EmptyString => None
      end
  end.

Definition match_block_at (s : string) : option string :=
  match tag_open s with
  | Some s1 =>
      match after_close s1 with
      | Some r => Some (JsString.skip_space r)
      | None => None
      end
  | None => None
  end.

(** The leftmost match: the text before it and the text after it. *)
Fixpoint find_block (s : string) : option (string * string) :=
  match match_block_at s with
  | Some r => Some (EmptyString, r)
  | None =>
      match s with
      | String c s' =>
          match find_block s' with
          | Some (b, r) => Some (String c b, r)
          | None => None
          end
      | EmptyString => None
      end
  end.

(** [s.replace] by the empty string, for a pattern without the [g] flag: the first
    match goes. *)
Definition strip_block (s : string) : string :=
  match find_block s with
  | Some (b, r) => b +:+ r
  | None => s
  end.

(** [buildSyncCSS(existingCSS)], reading the variable [settings]. *)
Definition buildSyncCSS (settings : Obj.t) (existingCSS : string) : string :=
  let clean := JsString.trim (strip_block existingCSS) in
  let tag := "/* " +:+ SYNC_TAG +:+ ": " +:+ Json.stringify (JObj settings) +:+ " */" in
  if JsString.nonempty clean then tag +:+ String "010"%char clean else tag.

(** ** The page *)

Record page : Type := Page {
  settings : Obj.t;            (* the variable [settings] *)
  stored : option string;      (* localStorage[STORAGE_KEY] *)
  writable : bool;             (* whether [localStorage.setItem] goes through *)
  applied : option Obj.t;      (* the settings [applyAll] last ran with *)
  userStyles : option string   (* value of textarea[name=userStyles] *)
}.

Definition set_settings (s : Obj.t) (p : page) : page :=
  Page s (stored p) (writable p) (applied p) (userStyles p).

(** [save(settings)]: [localStorage.setItem] raises where storage is
    denied or full, and nothing in [save] catches that. *)
Definition save (p : page) : result page :=
  if writable p then
    Returns (Page (settings p) (Some (Json.stringify (JObj (settings p))))
                  (writable p) (applied p) (userStyles p))
  else Raises.

(** [applyAll()]: the style variables and the style block it writes are
    computed from [settings] alone; the page keeps which settings they
    were computed from. *)
Definition applyAll (p : page) : page :=
  Page (settings p) (stored p) (writable p) (Some (settings p)) (userStyles p).

(** [syncToServer()]: the new value of the text area, and whether there
    was one. *)
Definition syncToServer (p : page) : page * bool :=
  match userStyles p with
  | None => (p, false)
  | Some css =>
      (Page (settings p) (stored p) (writable p) (applied p)
            (Some (buildSyncCSS (settings p) css)), true)
  end.

(** The click handler of the reset button, up to the rebuilding of the
    panel; an exception of [save] ends it. *)
Definition reset (p : page) : page :=
  let p1 := set_settings (Object_assign [] [JObj DEFAULTS]) p in
  match save p1 with
  | Returns p2 => applyAll p2
  | Raises => p1
  end.

(** ** The hex text field of a colour *)

(** [/^#[0-9a-fA-F]{6}$/.test(v)]. *)
Definition is_hex_color (v : string) : bool :=
  match v with
  | String c r =>
      Ascii.eqb c "#" && Nat.eqb (String.length r) 6
      && JsString.all_chars JsString.is_hex_digit r
  | EmptyString => false
  end.

(** ToString of a JSON value; [None] is a TypeError (an object whose own
    [toString] is not a function). *)
Fixpoint to_string (v : json) : option string :=
  match v with
  | JNull => Some "null"
  | JBool true => Some "true"
  | JBool false => Some "false"
  | JNum n => Some (Json.number_text n)
  | JStr s => Some s
  | JArr items =>
      (fix join (l : list json) : option string :=
         match l with
         | [] => Some EmptyString
         | x :: l' =>
             let sx := match x with JNull => Some EmptyString | _ => to_string x end in
             match sx, l' with
             | Some a, [] => Some a
             | Some a, _ =>
                 match join l' with
                 | Some b => Some (a +:+ "," +:+ b)
                 | None => None
                 end
             | None, _ => None
             end
         end) items
  | JObj o =>
      match Obj.get "toString" o with
      | Some _ => None
      | None => Some "[object Object]"
      end
  end.

(** What [input.value = v] stores: [null] gives the empty string. *)
Definition dom_string (v : option json) : option string :=
  match v with
  | None => Some "undefined"
  | Some JNull => Some EmptyString
  | Some v => to_string v
  end.

(** The two inputs of one colour row; [maxLength] is what [buildUI] sets
    on the text input. *)
Record color_row : Type := Row {
  row_key : string;      (* the setting the row edits *)
  swatch : string;       (* value of the colour input *)
  hex : string           (* value of the text input *)
}.

Definition maxLength : nat := 7.

(** What a text input keeps of a value assigned to it: line feeds and
    carriage returns are stripped. *)
Fixpoint strip_newlines (s : string) : string :=
  match s with
  | EmptyString => EmptyString
  | String c s' =>
      if ((JsString.code c =? 10) || (JsString.code c =? 13))%N
      then strip_newlines s'
      else String c (strip_newlines s')
  end.

(** The [change] listener of the text input; an exception of [save]
    ends it. *)
Definition hex_change (row : color_row) (p : page) : color_row * page :=
  let v := JsString.trim (hex row) in
  if is_hex_color v then
    let p1 := set_settings (Obj.set (row_key row) (JStr v) (settings p)) p in
    (* a colour input keeps its value in lower case *)
    let row1 := Row (row_key row) (JsString.toLowerCase v) (hex row) in
    match save p1 with
    | Returns p2 => (row1, applyAll p2)
    | Raises => (row1, p1)
    end
  else
    match dom_string (Obj.get (row_key row) (settings p)) with
    | Some text => (Row (row_key row) (swatch row) (strip_newlines text), p)
    | None => (row, p)
    end.

End Colors.

(* ================================================================== *)
(** * Vocabulary of the properties *)
(* ================================================================== *)

(** ** Trees *)

Section TreeVocabulary.
Import Dom.

(** What an element is by itself: identity, classes and attributes. *)
Definition info (n : node) : nat * list string * list (string * string) :=
  (node_id n, node_classes n, node_attrs n).

(** The chain of [i] inside the first of the trees [ks] that has it. *)
Fixpoint chain_in (i : nat) (ks : list node) : option (list node) :=
  match ks with
  | [] => None
  | k :: ks' =>
      match chain_to i k with
      | Some c => Some c
      | None => chain_in i ks'
      end
  end.

(** [remove_first] on a list of sibling trees. *)
Fixpoint remove_first_in (sel : node -> bool) (ks : list node)
  : list node * bool :=
  match ks with
  | [] => ([], false)
  | k :: ks' =>
      if sel k then (ks', true)
      else
        let '(k', found) := remove_first sel k in
        if found then (k' :: ks', true)
        else let '(ks'', found') := remove_first_in sel ks' in (k :: ks'', found')
  end.

(** [pruned d d']: [d'] is [d] with some subtrees below the root
    detached. *)
Inductive pruned : node -> node -> Prop :=
  | pruned_node i t c a ks ks' :
      pruned_kids ks ks' -> pruned (Node i t c a ks) (Node i t c a ks')
with pruned_kids : list node -> list node -> Prop :=
  | pruned_nil : pruned_kids [] []
  | pruned_drop k ks ks' : pruned_kids ks ks' -> pruned_kids (k :: ks) ks'
  | pruned_keep k k' ks ks' :
      pruned k k' -> pruned_kids ks ks' -> pruned_kids (k :: ks) (k' :: ks').

Scheme pruned_mut := Minimality for pruned Sort Prop
  with pruned_kids_mut := Minimality for pruned_kids Sort Prop.
Combined Scheme pruned_mutind from pruned_mut, pruned_kids_mut.

(** Two chains of the same element, before and after pruning. *)
Definition same_chain (ch ch' : list node) : Prop :=
  Forall2 (fun n n' => info n' = info n /\ pruned n n') ch ch'.

(** Element identities are distinct. *)
Definition distinct_ids (d : node) : Prop :=
  NoDup (map node_id (subtree d)).

End TreeVocabulary.

(** ** The avatar script *)

Section AvatarVocabulary.
Import Dom Avatars.

(** The part of the state that the queue machinery works on. *)
Definition control (st : state)
  : gmap string entry * list item * Z * list item * list item :=
  (cache st, queue st, activeCount st, inflight st, settled st).

(** The counter agrees with the requests whose [.finally] has not run
    and respects the limit. *)
Definition count_ok (st : state) : Prop :=
  activeCount st = Z.of_nat (length (inflight st) + length (settled st)) /\
  activeCount st <= MAX_CONCURRENT.

(** What one run of [drainQueue] does: it moves a prefix of the queue to
    the requests in flight, one count each, never past the limit, and
    leaves something queued only at the limit. *)
Definition drained (q : list item) (st st' : state) : Prop :=
  exists pulled rest,
    q = pulled ++ rest /\
    queue st' = rest /\
    inflight st' = inflight st ++ pulled /\
    activeCount st' = activeCount st + Z.of_nat (length pulled) /\
    activeCount st' <= MAX_CONCURRENT /\
    (rest <> [] -> activeCount st' = MAX_CONCURRENT) /\
    cache st' = cache st /\ doc st' = doc st /\ fresh st' = fresh st /\
    settled st' = settled st.

(** The injection target of the name element [el] in the document [d]:
    the element [injectAvatar] and [processUserElement] look into, when
    the context of [el] is not [Other]. *)
Definition injection_target (el : nat) (d : node) : option node :=
  match chain_to el d with
  | Some ((e :: _) as chain) =>
      match getContext chain with
      | Other => None
      | ctx => Some (target_of ctx chain e)
      end
  | _ => None
  end.

(** The avatar elements inside [n], in document order. *)
Definition avatars_of (n : node) : list node :=
  filter is_avatar (descendants n).

(** The avatar element [a] records the nickname [n]. *)
Definition records (n : string) (a : node) : Prop :=
  getAttribute "data-nick" a = Some n.

(** What reconciling the name element whose injection target is
    [target], for the nickname [n], may do between [st] and [st']: the
    target is still there; it holds at most one avatar, or no more than
    before; and either nothing changed at all, or what it holds are
    avatars it held before other than the first one, possibly preceded
    by one that records [n]. *)
Definition reconciled (n : string) (target : node) (st st' : state) : Prop :=
  exists target',
    find_node (node_id target) (doc st') = Some target' /\
    (length (avatars_of target') <= Nat.max 1 (length (avatars_of target)))%nat /\
    (st' = st \/
     exists kept,
       kept `sublist_of` tail (avatars_of target) /\
       (avatars_of target' = kept \/
        exists a, records n a /\ avatars_of target' = a :: kept)).

Definition service_recorded (o : option string) : bool :=
  match o with
  | Some n => isServiceNick n
  | None => false
  end.

(** No avatar element of the document records a service nickname. *)
Definition no_service_avatar (d : node) : Prop :=
  Forall (fun o => service_recorded o = false) (avatar_nicks d).

(** The key of every lookup, queued or in flight, names an own property
    of the cache once it is written. *)
Definition own_keys (st : state) : Prop :=
  Forall (fun it => inherited_name (key it) = false) (queue st ++ inflight st).

(** No lookup, queued or in flight, is for a service nickname. *)
Definition no_service_lookup (st : state) : Prop :=
  Forall (fun it => isServiceNick (nick it) = false) (queue st ++ inflight st).

(** An avatar element is not an avatar for a service nickname, as a
    property of what the element is by itself. *)
Definition harmless (i : nat * list string * list (string * string)) : Prop :=
  existsb (String.eqb "tl-avatar") (snd (fst i)) = true ->
  service_recorded (assoc "data-nick" (snd i)) = false.

(** What a settled request amounts to: a usable URL, no avatar, or an
    [avatar_url] that is an array, which the documented interface
    ([string | null]) does not have. *)
Inductive verdict : Type :=
  | Positive (u : string)
  | Negative
  | Undocumented (u : json).

Definition verdict_of (r : response) : verdict :=
  match r with
  | NetworkError => Negative
  | Http false _ => Negative
  | Http true None => Negative
  | Http true (Some data) =>
      match avatar_url data with
      | Some (JStr s) =>
          if JsString.nonempty s && negb (JsString.startsWith "/static/" s)
          then Positive s
          else Negative
      | Some (JArr l) => Undocumented (JArr l)
      | _ => Negative
      end
  end.

(** The first half of C3 read to the letter: any [avatar_url] that is
    not [null] and does not begin with [/static/] ends up in the cache
    as it is. *)
Definition not_null_not_static_is_cached : Prop :=
  forall st it data s now,
    inherited_name (key it) = false ->
    avatar_url data = Some (JStr s) ->
    JsString.startsWith "/static/" s = false ->
    cache (settle it (Http true (Some data)) now st) !! key it
    = Some (Entry (JStr s) now).

End AvatarVocabulary.

(** ** Sample pages and states *)

Section AvatarSamples.
Import Dom Avatars.

Definition user_el (i : nat) (n : string) : node :=
  Node i "span" ["user"] [("data-name", n)] [].

(** A chat window: a nick list, a message, a whois reply and a join
    line. *)
Definition sample_page : node :=
  Node 0 "html" [] []
    [Node 1 "div" [] [("id", "chat")]
       [Node 2 "div" ["userlist"] [] [user_el 3 "alice"; user_el 4 "ChanServ"];
        Node 5 "div" ["msg"] [] [Node 6 "span" ["from"] [] [user_el 7 "alice"]];
        Node 8 "div" ["msg"] [("data-type", "whois")]
          [Node 9 "p" [] [] [user_el 10 "Bob"]];
        Node 11 "div" ["msg"] [("data-type", "join")] [user_el 12 "carol"]]].

Definition start (page : node) : state := State page 100 ∅ [] 0 [] [].

(** A clock that stands still during a scan. *)
Definition at_time (t : Z) : nat -> Z := fun _ => t.

(** A nick list in which alice shows twice. *)
Definition busy_page : node :=
  Node 0 "html" [] []
    [Node 1 "div" [] [("id", "chat")]
       [Node 2 "div" ["userlist"] []
          [user_el 3 "alice"; user_el 4 "bob"; user_el 5 "carol";
           user_el 6 "dave"; user_el 7 "Alice"]]].

(** A nick list and a message of the same user. *)
Definition bob_page : node :=
  Node 0 "html" [] []
    [Node 1 "div" [] [("id", "chat")]
       [Node 2 "div" ["userlist"] [] [user_el 3 "bob"];
        Node 4 "div" ["msg"] [] [Node 5 "span" ["from"] [] [user_el 6 "bob"]]]].

(** A nick-list entry of alice that still carries the avatar of bob,
    as after the host application reused the element. *)
Definition stale_page : node :=
  Node 0 "html" [] []
    [Node 1 "div" [] [("id", "chat")]
       [Node 2 "div" ["userlist"] []
          [Node 3 "span" ["user"] [("data-name", "alice")]
             [Node 50 "span" ["tl-avatar"] [("data-nick", "bob")]
                [Node 51 "img" ["tl-avatar-img"]
                   [("src", "/media/b.png"); ("alt", "bob"); ("loading", "lazy")]
                   []]]]]].

Definition stale_state : state :=
  State stale_page 100 (<["alice" := Entry (JStr "/media/a.png") 5]> ∅) [] 0 [] [].

Definition avatar_json (u : json) : response :=
  Http true (Some (JObj [("avatar_url", u)])).

(** The two steps of a run in which the [i]-th request awaited has its
    result [r] handled at time [now] and [.finally] runs right after. *)
Definition complete (i : nat) (r : response) (now : Z) (st : state) : state :=
  match nth_error (inflight st) i with
  | Some it =>
      on_finally (set_inflight (remove_nth i (inflight st)) (settle it r now st))
  | None => st
  end.

End AvatarSamples.

(** ** The colour settings *)

Section ColorVocabulary.
Import Colors.

(** A code unit that is neither white space nor an asterisk. *)
Definition solid (c : ascii) : bool :=
  negb (JsString.is_space c) && negb (JsString.code c =? 42)%N.

(** A solid code unit that [JSON.stringify] writes as it is: no control
    character, quote or backslash. *)
Definition tidy (c : ascii) : bool :=
  let n := JsString.code c in
  solid c && (32 <? n)%N && negb (n =? 34)%N && negb (n =? 92)%N.

(** The text of the members of an object in [JSON.stringify]. *)
Fixpoint props_text (l : list (string * json)) : string :=
  match l with
  | [] => EmptyString
  | (k, x) :: l' =>
      Json.quoted k +:+ ":" +:+ Json.stringify x +:+
      match l' with [] => EmptyString | _ => "," +:+ props_text l' end
  end.

(** A flat object of booleans and tidy strings under tidy names. *)
Definition flat_value (v : json) : bool :=
  match v with
  | JBool _ => true
  | JStr s => JsString.all_chars tidy s
  | _ => false
  end.

Definition flat_object (o : Obj.t) : bool :=
  forallb (fun kv => JsString.all_chars tidy (fst kv) && flat_value (snd kv)) o.

(** A value of the kind its default has: a boolean for a toggle, a
    colour [#rrggbb] for a colour. *)
Definition same_kind (d v : json) : bool :=
  match d, v with
  | JBool _, JBool _ => true
  | JStr _, JStr h => is_hex_color h
  | _, _ => false
  end.

Definition has_key (o : Obj.t) (k : string) : bool :=
  match Obj.get k o with Some _ => true | None => false end.

(** A settings mapping over the documented keys: each documented key
    once, with a value of its kind, and no other key. *)
Definition valid_settings (s : Obj.t) : bool :=
  bool_decide (NoDup (Obj.keys s))
  && forallb (fun kd => match Obj.get (fst kd) s with
                        | Some v => same_kind (snd kd) v
                        | None => false
                        end) DEFAULTS
  && forallb (has_key DEFAULTS) (Obj.keys s).


(** The number of tagged blocks in a text: the matches of the pattern of
    [buildSyncCSS] found one after the other from left to right. *)
Fixpoint count_blocks_from (fuel : nat) (s : string) : nat :=
  match fuel with
  | O => O
  | S f =>
      match find_block s with
      | Some (_, r) => S (count_blocks_from f r)
      | None => O
      end
  end.

Definition count_blocks (s : string) : nat :=
  count_blocks_from (S (String.length s)) s.

(** The block that [buildSyncCSS] writes around a JSON text. *)
Definition block_of (json_text : string) : string :=
  "/* " +:+ SYNC_TAG +:+ ": " +:+ json_text +:+ " */".

(** The second half of C7 read to the letter. *)
Definition sync_leaves_one_block : Prop :=
  forall s existing,
    valid_settings s = true ->
    count_blocks (buildSyncCSS s existing) = 1%nat.

(** A text field in which two blocks were embedded. *)
Definition two_blocks : string :=
  "/* IRC4FUN_COLORS: {} */ a { color: red } /* IRC4FUN_COLORS: {} */".

Definition sample_settings : Obj.t :=
  Obj.set "linkColor" (JStr "#AAbbcc") (Obj.set "nickBold" (JBool true) DEFAULTS).

Definition sample_panel : page :=
  Page sample_settings None true None (Some "a { color: red }").

Definition fresh_panel : page := Page DEFAULTS None true None None.

End ColorVocabulary.

(* ================================================================== *)
(** * Further vocabulary for avatars.js *)
(* ================================================================== *)

Section PageVocabulary.
Import Dom Avatars.

(** The page as the host application made it: every avatar element
    below the root is left out, with all it holds. *)
Fixpoint strip_avatars (n : node) : node :=
  match n with
  | Node i t c a kids =>
      Node i t c a
        ((fix over (ks : list node) : list node :=
            match ks with
            | [] => []
            | k :: ks' =>
                if is_avatar k then over ks' else strip_avatars k :: over ks'
            end) kids)
  end.

Fixpoint strip_kids (ks : list node) : list node :=
  match ks with
  | [] => []
  | k :: ks' =>
      if is_avatar k then strip_kids ks' else strip_avatars k :: strip_kids ks'
  end.

(** The key of a lookup is its nickname in lower case. *)
Definition keyed (it : item) : Prop := key it = JsString.toLowerCase (nick it).

(** What the cache may hold for a URL: [null], a string that is not
    empty and is not a static avatar, or (outside the documented
    answers) an array. *)
Definition cacheable (u : json) : Prop :=
  match u with
  | JNull => True
  | JStr s =>
      JsString.nonempty s = true /\ JsString.startsWith "/static/" s = false
  | JArr _ => True
  | _ => False
  end.

(** An entry of the cache under its key. *)
Definition entry_ok (k : string) (e : entry) : Prop :=
  JsString.toLowerCase k = k /\ serviceSet k = false /\
  inherited_name k = false /\ cacheable (url e).

(** The element [createAvatarEl(nick, url)] makes for a string [url],
    with the class of the context [ctx]; [i] is the identity of the
    wrapper. *)
Definition avatar_markup (i : nat) (ctx : context) (nick url : string) : node :=
  Node i "span"
    ("tl-avatar" ::
     match ctx with
     | Msg => ["tl-avatar-msg"]
     | Whois => ["tl-avatar-whois"]
     | _ => []
     end)
    [("data-nick", nick)]
    [Node (S i) "img" ["tl-avatar-img"]
       [("src", url); ("alt", nick); ("loading", "lazy")] []].

End PageVocabulary.

(* ================================================================== *)
(** * Further vocabulary for avatars.js: what an injection does to the page *)
(* ================================================================== *)

Section EditVocabulary.
Import Dom Avatars.

(** [pruned_by P d d']: [d'] is [d] with some subtrees below the root
    detached, each of them rooted at an element that satisfies [P]. *)
Inductive pruned_by (P : node -> Prop) : node -> node -> Prop :=
  | pruned_by_node i t c a ks ks' :
      pruned_kids_by P ks ks' ->
      pruned_by P (Node i t c a ks) (Node i t c a ks')
with pruned_kids_by (P : node -> Prop) : list node -> list node -> Prop :=
  | pruned_by_nil : pruned_kids_by P [] []
  | pruned_by_drop k ks ks' :
      P k -> pruned_kids_by P ks ks' -> pruned_kids_by P (k :: ks) ks'
  | pruned_by_keep k k' ks ks' :
      pruned_by P k k' -> pruned_kids_by P ks ks' ->
      pruned_kids_by P (k :: ks) (k' :: ks').

Scheme pruned_by_mut := Minimality for pruned_by Sort Prop
  with pruned_kids_by_mut := Minimality for pruned_kids_by Sort Prop.
Combined Scheme pruned_by_mutind from pruned_by_mut, pruned_kids_by_mut.

(** Every element of [d] has an identity below [n]. *)
Definition ids_below (n : nat) (d : node) : Prop :=
  Forall (fun i => (i < n)%nat) (map node_id (subtree d)).

(** The elements of the page are told apart by their identities, and
    the elements that [createAvatarEl] makes next are new ones. *)
Definition well_identified (st : state) : Prop :=
  distinct_ids (doc st) /\ ids_below (fresh st) (doc st).

(** An avatar element that is not one for [n]. *)
Definition stale (n : string) (k : node) : Prop :=
  is_avatar k = true /\ ~ records n k.

(** The name elements that the selector of [injectAllForNick] matches
    for the nickname [n], in document order. *)
Definition matching (n : string) (d : node) : list nat :=
  map node_id (select_in_chat (is_user_named n) false d).

(** The element [target] shows an avatar for [n]: the avatar element
    that [target.querySelector(".tl-avatar")] finds records [n]. *)
Definition shows (n : string) (target : node) : Prop :=
  exists a, querySelector is_avatar target = Some a /\ records n a.

(** The state [st] once the markup of a new avatar went in front of
    what the element [t] holds. *)
Definition attached (st : state) (t : nat) (ctx : context) (n u : string) : state :=
  set_fresh (2 + fresh st)
    (set_doc (update_node t (prepend (avatar_markup (fresh st) ctx n u)) (doc st)) st).

(** [T] is the injection target of the name element [el] of [d]: of an
    element [.user[data-name]] that has a context. *)
Definition name_target (d : node) (el : nat) (T : node) : Prop :=
  (exists e ch, chain_to el d = Some (e :: ch) /\ is_user e = true) /\
  injection_target el d = Some T.

(** No injection target lies inside another one. *)
Definition targets_apart (d : node) : Prop :=
  forall el1 T1 el2 T2,
    name_target d el1 T1 -> name_target d el2 T2 ->
    node_id T1 <> node_id T2 ->
    node_id T1 ∉ map node_id (descendants T2).

(** Every injection target holds at most one avatar element. *)
Definition one_avatar_each (d : node) : Prop :=
  forall el T, name_target d el T -> (length (avatars_of T) <= 1)%nat.

Definition orderly (st : state) : Prop :=
  well_identified st /\ targets_apart (doc st) /\ one_avatar_each (doc st).

(** The reference [el] denotes a name element of [d], or an element
    that is not in [d]. *)
Definition name_or_absent (d : node) (el : nat) : Prop :=
  forall e ch, chain_to el d = Some (e :: ch) -> is_user e = true.

(** The injection targets of the name elements of [d], in document
    order, one for each name element that has a context. *)
Definition name_targets (d : node) : list node :=
  omap (fun m => if is_user m then injection_target (node_id m) d else None)
    (subtree d).

(** What [targets_apart] and [one_avatar_each] ask, on the list of the
    injection targets. *)
Definition targets_apart_in (ts : list node) : Prop :=
  Forall (fun T1 =>
    Forall (fun T2 =>
      node_id T1 = node_id T2 \/ node_id T1 ∉ map node_id (descendants T2)) ts) ts.

Definition one_avatar_in (ts : list node) : Prop :=
  Forall (fun T => (length (avatars_of T) <= 1)%nat) ts.

#[export] Instance targets_apart_in_dec ts : Decision (targets_apart_in ts) :=
  Forall_dec _ ts.

#[export] Instance one_avatar_in_dec ts : Decision (one_avatar_in ts) :=
  Forall_dec _ ts.

(** The references that denote a name element of the page of [st], or
    no element of it, do so on the page of [st'], which has the newer
    elements. *)
Definition carried_over (st st' : state) : Prop :=
  (fresh st <= fresh st')%nat /\
  forall el, (el < fresh st)%nat ->
    name_or_absent (doc st) el -> name_or_absent (doc st') el.

(** What the script itself does to a state between two renders of the
    host application, on name elements of the page. *)
Inductive script_result (st : state) : state -> Prop :=
  | result_scan clock :
      script_result st (outcome_of (scanAll clock st))
  | result_settle it r now :
      script_result st (settle it r now st)
  | result_raise it data now :
      script_result st (outcome_of (on_data it data now st))
  | result_finally :
      script_result st (on_finally st)
  | result_inject el n u :
      name_or_absent (doc st) el ->
      script_result st (outcome_of (injectAvatar el n u st))
  | result_process now el :
      name_or_absent (doc st) el ->
      script_result st (outcome_of (processUserElement now el st)).

(** The first half of C6 read to the letter: in every state of a run,
    the injection target of every name element holds at most one
    avatar element. *)
Definition one_avatar_per_target : Prop :=
  forall st, reachable st -> one_avatar_each (doc st).

(** A whois reply whose paragraph holds the name element of alice and,
    in a nick list of its own, the name element of bob. *)
Definition nested_page : node :=
  Node 0 "html" [] []
    [Node 1 "div" [] [("id", "chat")]
       [Node 2 "div" ["msg"] [("data-type", "whois")]
          [Node 3 "p" [] []
             [user_el 4 "alice";
              Node 5 "div" ["userlist"] [] [user_el 6 "bob"]]]]].

(** The run in which the nested page is scanned and both lookups are
    answered with an avatar. *)
Definition nested_state : state :=
  complete 0 (avatar_json (JStr "/media/b.png")) 20
    (complete 0 (avatar_json (JStr "/media/a.png")) 10
       (outcome_of (scanAll (at_time 0) (start nested_page)))).

End EditVocabulary.

(* ================================================================== *)
(** * avatars.js: the observer and its timers *)
(* ================================================================== *)

Module Observer.
Import Avatars.

Definition THROTTLE_MS : Z := 120.
Definition TRAILING_MS : Z := 250.

(** What a timeout of the observer does when it fires: the function
    that clears [throttleTimer], or [scanAll]. *)
Inductive task : Type := ResetThrottle | TrailingScan.

(** A timeout that is set: its id, the time before which it does not
    fire, and its task. *)
Record timer : Type := Timer { tid : nat; due : Z; job : task }.

(** What happened, for the properties only (the script keeps no such
    record): a call of [scanAll], from the leading edge or not, which
    raised or not; and a callback of the observer that ran to its
    end. *)
Inductive happened : Type :=
  | Scanned (time : Z) (leading : bool) (raised : bool)
  | Observed (time : Z).

Record ostate : Type := OState {
  throttleTimer : option nat;     (* [null] or the id of a timeout *)
  trailingTimer : option nat;
  timers : list timer;            (* timeouts set, not fired, not cleared *)
  next_id : nat;                  (* the id the next [setTimeout] returns *)
  page : state;                   (* what [scanAll] works on *)
  now : Z;                        (* the time of the event that runs *)
  history : list happened         (* latest first *)
}.

Definition set_throttleTimer (t : option nat) (o : ostate) : ostate :=
  OState t (trailingTimer o) (timers o) (next_id o) (page o) (now o) (history o).
Definition set_trailingTimer (t : option nat) (o : ostate) : ostate :=
  OState (throttleTimer o) t (timers o) (next_id o) (page o) (now o) (history o).
Definition set_timers (l : list timer) (o : ostate) : ostate :=
  OState (throttleTimer o) (trailingTimer o) l (next_id o) (page o) (now o) (history o).
Definition set_page (p : state) (o : ostate) : ostate :=
  OState (throttleTimer o) (trailingTimer o) (timers o) (next_id o) p (now o) (history o).
Definition set_now (t : Z) (o : ostate) : ostate :=
  OState (throttleTimer o) (trailingTimer o) (timers o) (next_id o) (page o) t (history o).
Definition set_next_id (n : nat) (o : ostate) : ostate :=
  OState (throttleTimer o) (trailingTimer o) (timers o) n (page o) (now o) (history o).
Definition record (h : happened) (o : ostate) : ostate :=
  OState (throttleTimer o) (trailingTimer o) (timers o) (next_id o) (page o) (now o)
         (h :: history o).

(** [!timer]: [null] and zero are falsy; the ids that [setTimeout]
    returns are greater than zero. *)
Definition falsy (t : option nat) : bool :=
  match t with
  | None => true
  | Some i => Nat.eqb i 0
  end.

(** [setTimeout(job, delay)]: the id it returns and the state with the
    timeout set.  Ids are handed out in increasing order, as browsers
    do. *)
Definition setTimeout (j : task) (delay : Z) (o : ostate) : nat * ostate :=
  (next_id o,
   OState (throttleTimer o) (trailingTimer o)
          (timers o ++ [Timer (next_id o) (now o + delay) j])
          (S (next_id o)) (page o) (now o) (history o)).

Fixpoint without (i : nat) (l : list timer) : list timer :=
  match l with
  | [] => []
  | x :: l' => if Nat.eqb (tid x) i then without i l' else x :: without i l'
  end.

(** [clearTimeout(t)]: nothing for [null] and for an id that is not
    set. *)
Definition clearTimeout (t : option nat) (o : ostate) : ostate :=
  match t with
  | None => o
  | Some i => set_timers (without i (timers o)) o
  end.

(** A call of [scanAll], with its record. *)
Definition run_scan (leading : bool) (clock : nat -> Z) (o : ostate)
  : completion ostate :=
  match scanAll clock (page o) with
  | Normal p => Normal (record (Scanned (now o) leading false) (set_page p o))
  | Throw p => Throw (record (Scanned (now o) leading true) (set_page p o))
  end.

(** The trailing edge: the last two statements of the callback. *)
Definition rearm (o : ostate) : ostate :=
  let o1 := clearTimeout (trailingTimer o) o in
  let '(i, o2) := setTimeout TrailingScan TRAILING_MS o1 in
  record (Observed (now o)) (set_trailingTimer (Some i) o2).

(** The callback of the [MutationObserver]; an exception of [scanAll]
    ends it. *)
Definition callback (clock : nat -> Z) (o : ostate) : completion ostate :=
  let led :=
    if falsy (throttleTimer o) then
      match run_scan true clock o with
      | Normal o1 =>
          let '(i, o2) := setTimeout ResetThrottle THROTTLE_MS o1 in
          Normal (set_throttleTimer (Some i) o2)
      | Throw o1 => Throw o1
      end
    else Normal o in
  match led with
  | Normal o1 => Normal (rearm o1)
  | Throw o1 => Throw o1
  end.

(** What the timeout [x] does when it fires. *)
Definition fire (x : timer) (clock : nat -> Z) (o : ostate) : ostate :=
  match job x with
  | ResetThrottle => set_throttleTimer None o
  | TrailingScan => outcome_of (run_scan false clock o)
  end.

(** What can happen, one event at a time; time does not go back, and a
    timeout does not fire before it is due. *)
Inductive ostep : ostate -> ostate -> Prop :=
  | step_mutation t clock o :
      (* the observer reports changes under [#app] *)
      now o <= t ->
      ostep o (outcome_of (callback clock (set_now t o)))
  | step_fire i x t clock o :
      (* the i-th timeout fires *)
      nth_error (timers o) i = Some x ->
      due x <= t -> now o <= t ->
      ostep o (fire x clock (set_timers (remove_nth i (timers o)) (set_now t o)))
  | step_poll t clock o :
      (* the interval, a navigation or a click on the sidebar runs scanAll *)
      now o <= t ->
      ostep o (outcome_of (run_scan false clock (set_now t o)))
  | step_page p o :
      (* a request is answered, or the host application renders *)
      step (page o) p ->
      ostep o (set_page p o)
  | step_foreign n o :
      (* other code sets timeouts, which takes ids *)
      ostep o (set_next_id (next_id o + n) o).

(** The script starts with no timeout set. *)
Definition oinitial (o : ostate) : Prop :=
  throttleTimer o = None /\ trailingTimer o = None /\ timers o = [] /\
  (0 < next_id o)%nat /\ history o = [].

Inductive oreachable : ostate -> Prop :=
  | oreach_init o : oinitial o -> oreachable o
  | oreach_step o o' : oreachable o -> ostep o o' -> oreachable o'.

(** ** Vocabulary *)

(** Leading scans keep their distance: a leading scan comes no sooner
    than [THROTTLE_MS] after an earlier leading scan that returned. *)
Fixpoint spaced (h : list happened) : Prop :=
  match h with
  | [] => True
  | Scanned t2 true _ :: h' =>
      (forall t1, Scanned t1 true false ∈ h' -> t1 + THROTTLE_MS <= t2) /\ spaced h'
  | _ :: h' => spaced h'
  end.

(** The time of the latest callback that ran to its end. *)
Fixpoint last_observed (h : list happened) : option Z :=
  match h with
  | [] => None
  | Observed t :: _ => Some t
  | _ :: h' => last_observed h'
  end.

(** The times of the scans, other than leading ones, since that
    callback. *)
Fixpoint scans_since (h : list happened) : list Z :=
  match h with
  | [] => []
  | Observed _ :: _ => []
  | Scanned t false _ :: h' => t :: scans_since h'
  | _ :: h' => scans_since h'
  end.

Definition same_job (a b : task) : bool :=
  match a, b with
  | ResetThrottle, ResetThrottle => true
  | TrailingScan, TrailingScan => true
  | _, _ => false
  end.

(** The timeouts that are set for the task [j]. *)
Definition pending (j : task) (l : list timer) : list timer :=
  List.filter (fun x => same_job (job x) j) l.

Definition time_of (h : happened) : Z :=
  match h with
  | Scanned t _ _ => t
  | Observed t => t
  end.

(** The ids of the timeouts that are set are distinct, and every id in
    use is below the next one; the id in [trailingTimer], when it is
    still the id of a timeout, is that of a trailing scan. *)
Definition ids_ok (o : ostate) : Prop :=
  Forall (fun x => (tid x < next_id o)%nat) (timers o) /\
  NoDup (map tid (timers o)) /\
  (0 < next_id o)%nat /\
  match trailingTimer o with
  | Some j =>
      (j < next_id o)%nat /\
      forall x, x ∈ timers o -> tid x = j -> job x = TrailingScan
  | None => True
  end.

(** [throttleTimer] holds the id of the one timeout that will clear it,
    due [THROTTLE_MS] after the latest leading scan or later; or it is
    [null], no such timeout is set, and the leading scans that
    returned are [THROTTLE_MS] old. *)
Definition throttle_ok (o : ostate) : Prop :=
  match throttleTimer o with
  | Some i =>
      (0 < i)%nat /\
      exists d,
        pending ResetThrottle (timers o) = [Timer i d ResetThrottle] /\
        forall t, Scanned t true false ∈ history o -> t + THROTTLE_MS <= d
  | None =>
      pending ResetThrottle (timers o) = [] /\
      forall t, Scanned t true false ∈ history o -> t + THROTTLE_MS <= now o
  end.

(** At most one trailing scan is set: the one [trailingTimer] names,
    due [TRAILING_MS] after the latest callback that ran to its end; and
    when none is set, a scan has run [TRAILING_MS] or more after that
    callback. *)
Definition trailing_ok (o : ostate) : Prop :=
  match pending TrailingScan (timers o) with
  | [] =>
      match last_observed (history o) with
      | None => True
      | Some t => exists t', t' ∈ scans_since (history o) /\ t + TRAILING_MS <= t'
      end
  | [x] =>
      trailingTimer o = Some (tid x) /\
      last_observed (history o) = Some (due x - TRAILING_MS)
  | _ => False
  end.

Definition observer_ok (o : ostate) : Prop :=
  ids_ok o /\ throttle_ok o /\ trailing_ok o /\ spaced (history o).

(** A sample run: a change is reported at time 0, another at time 50,
    the throttle is cleared at 130, the trailing scan runs at 300, and
    a change is reported at time 400. *)
Definition sample_start : ostate :=
  OState None None [] 1 (start sample_page) 0 [].

Definition sample_run : ostate :=
  let o1 := outcome_of (callback (at_time 0) (set_now 0 sample_start)) in
  let o2 := outcome_of (callback (at_time 50) (set_now 50 o1)) in
  let o3 := fire (Timer 1 120 ResetThrottle) (at_time 130)
              (set_timers (remove_nth 0 (timers o2)) (set_now 130 o2)) in
  let o4 := fire (Timer 3 300 TrailingScan) (at_time 300)
              (set_timers (remove_nth 0 (timers o3)) (set_now 300 o3)) in
  outcome_of (callback (at_time 400) (set_now 400 o4)).

End Observer.

(* ================================================================== *)
(** * Colour settings: the listeners of the panel *)
(* ================================================================== *)

Module Panel.
Import Colors.

(** The type of a row: a checkbox or a colour. *)
Inductive kind : Type := Toggle | Color.

Definition same_type (a b : kind) : bool :=
  match a, b with
  | Toggle, Toggle => true
  | Color, Color => true
  | _, _ => false
  end.

(** [SETTING_GROUPS]: the title of a group and its items
    [[key, label, type]]. *)
Definition SETTING_GROUPS : list (string * list (string * string * kind)) :=
  [ ("Nicknames",
     [ ("coloredNicks", "Colored nicks", Toggle);
       ("nickBold", "Bold nicks", Toggle) ]);
    ("Messages",
     [ ("timestampColor", "Timestamp", Color);
       ("linkColor", "Links", Color);
       ("joinColor", "Join messages", Color);
       ("partColor", "Part messages", Color);
       ("quitColor", "Quit messages", Color);
       ("actionColor", "Action (/me)", Color);
       ("noticeColor", "Notices", Color) ]);
    ("Highlights & Markers",
     [ ("highlightBg", "Highlight background", Color);
       ("highlightBorder", "Highlight border", Color);
       ("unreadMarker", "Unread marker", Color);
       ("dateMarker", "Date marker", Color) ]);
    ("Interface",
     [ ("bgColor", "Page background", Color);
       ("windowBg", "Chat background", Color);
       ("sidebarBg", "Sidebar background", Color);
       ("inputBg", "Input background", Color);
       ("textColor", "Text color", Color);
       ("mutedColor", "Muted text", Color);
       ("borderColor", "Borders", Color);
       ("accentColor", "Accent / buttons", Color) ]) ].

(** The items in the order in which [buildUI] makes their rows. *)
Definition items : list (string * string * kind) :=
  concat (map snd SETTING_GROUPS).

(** Whether [buildUI] makes a row of type [t] for [key]. *)
Definition has_row (key : string) (t : kind) : bool :=
  existsb (fun it => String.eqb (fst (fst it)) key && same_type (snd it) t) items.

(** The [change] listener of a checkbox; [checked] is [cb.checked].
    Writing [settings.accentColor] into the style of the slider
    converts it to a string, which raises for an object whose
    [toString] is no function; that, or an exception of [save], ends
    the listener. *)
Definition toggle_change (key : string) (checked : bool) (p : page) : page :=
  let p1 := set_settings (Obj.set key (JBool checked) (settings p)) p in
  let slider :=
    if checked then dom_string (Obj.get "accentColor" (settings p1))
    else Some "#2a3545" in
  match slider with
  | None => p1
  | Some _ =>
      match save p1 with
      | Returns p2 => applyAll p2
      | Raises => p1
      end
  end.

(** The [input] listener of a colour input; an exception of [save] ends
    it. *)
Definition swatch_input (row : color_row) (p : page) : color_row * page :=
  let v := swatch row in
  let p1 := set_settings (Obj.set (row_key row) (JStr v) (settings p)) p in
  let row1 := Row (row_key row) v (strip_newlines v) in
  match save p1 with
  | Returns p2 => (row1, applyAll p2)
  | Raises => (row1, p1)
  end.

(** The click listener of the sync button: the page, and the value of
    [ok] by which the button picks its text; [None] when [save] raised
    and the listener ended there. *)
Definition sync_click (p : page) : page * option bool :=
  match save p with
  | Returns p1 => let '(p2, ok) := syncToServer p1 in (p2, Some ok)
  | Raises => (p, None)
  end.

(** What the user does in the panel. *)
Inductive event : Type :=
  | ToggleChange (key : string) (checked : bool)
  | SwatchInput (row : color_row)
  | HexChange (row : color_row)
  | SyncClick
  | ResetClick.

Definition handle (ev : event) (p : page) : page :=
  match ev with
  | ToggleChange key checked => toggle_change key checked p
  | SwatchInput row => snd (swatch_input row p)
  | HexChange row => snd (hex_change row p)
  | SyncClick => fst (sync_click p)
  | ResetClick => reset p
  end.

(** An event of a row that [buildUI] makes: the key is an item of the
    type of the row, and a colour input holds a colour. *)
Definition from_panel (ev : event) : bool :=
  match ev with
  | ToggleChange key _ => has_row key Toggle
  | SwatchInput row => has_row (row_key row) Color && is_hex_color (swatch row)
  | HexChange row => has_row (row_key row) Color
  | SyncClick | ResetClick => true
  end.

(** The key of the row of an event. *)
Definition edited (ev : event) : option string :=
  match ev with
  | ToggleChange key _ => Some key
  | SwatchInput row | HexChange row => Some (row_key row)
  | SyncClick | ResetClick => None
  end.

(** A text in a hex field that the listener does not take. *)
Definition rejected (ev : event) : bool :=
  match ev with
  | HexChange row => negb (is_hex_color (JsString.trim (hex row)))
  | _ => false
  end.

(** ** Vocabulary *)

(** The storage holds the settings in memory. *)
Definition persisted (p : page) : Prop :=
  stored p = Some (Json.stringify (JObj (settings p))).

(** The page shows the settings in memory. *)
Definition shown (p : page) : Prop := applied p = Some (settings p).

(** What a session loads: every documented key, with the values of
    [s]. *)
Definition restores (r : result Obj.t) (s : Obj.t) : Prop :=
  exists o, r = Returns o /\ Obj.same_mapping o s /\
            Obj.keys o = Obj.keys DEFAULTS.

(** The same page with a storage that takes the write. *)
Definition with_storage (p : page) : page :=
  Page (settings p) (stored p) true (applied p) (userStyles p).

(** ** Samples *)

(** The panel after [init], where storage takes no write. *)
Definition denied_panel : page :=
  Page sample_settings None false (Some sample_settings) (Some "a { color: red }").

(** The panel after [init], with a text in the style field that holds
    a block. *)
Definition shown_panel : page :=
  Page sample_settings None true (Some sample_settings)
       (Some "b { } /* IRC4FUN_COLORS: {} */ a { color: red }").

Definition sample_row : color_row := Row "linkColor" "#00ff7f" "#AAbbcc".

End Panel.

(* ================================================================== *)
(** * Properties of avatars.js: the fetch queue *)
(* ================================================================== *)

Section FetchQueue.
Import Dom Avatars.

Lemma injectAvatar_control el n u st :
  control (outcome_of (injectAvatar el n u st)) = control st.
Proof.
  unfold injectAvatar.
  repeat (case_match; try reflexivity).
Qed.

Lemma injectAll_control els n u st :
  control (outcome_of (injectAll els n u st)) = control st.
Proof.
  revert st. induction els as [|el els IH]; intros st; simpl; [reflexivity|].
  pose proof (injectAvatar_control el n u st) as H.
  destruct (injectAvatar el n u st) as [st'|st']; simpl in *.
  - rewrite IH. exact H.
  - exact H.
Qed.

Lemma injectAllForNick_control n u st :
  control (outcome_of (injectAllForNick n u st)) = control st.
Proof. apply injectAll_control. Qed.

Lemma drain_drained q st :
  activeCount st <= MAX_CONCURRENT -> drained q st (drain q st).
Proof.
  revert st. induction q as [|it q IH]; intros st Hle; simpl.
  - exists [], []. simpl. rewrite app_nil_r. repeat split; try lia; congruence.
  - destruct (activeCount st <? MAX_CONCURRENT) eqn:Hlt.
    + apply Z.ltb_lt in Hlt.
      destruct (IH (doFetch it (set_queue q st))) as
        (pulled & rest & Hq & Hq' & Hin & Hac & Hmax & Hfull & Hc & Hd & Hf & Hs).
      { simpl. lia. }
      exists (it :: pulled), rest. simpl in *.
      rewrite Hq', Hin, Hac, <- app_assoc. simpl.
      repeat split; try congruence; try lia.
      intros Hr. specialize (Hfull Hr). lia.
    + apply Z.ltb_ge in Hlt.
      exists [], (it :: q). simpl. rewrite app_nil_r.
      repeat split; lia.
Qed.

Lemma drainQueue_count_ok st : count_ok st -> count_ok (drainQueue st).
Proof.
  intros [Hlen Hle].
  destruct (drain_drained (queue st) st Hle) as
    (pulled & rest & _ & _ & Hin & Hac & Hmax & _ & _ & _ & _ & Hs).
  unfold drainQueue. split; [|exact Hmax].
  rewrite Hac, Hin, Hs, length_app, Hlen. lia.
Qed.

Lemma enqueue_count_ok n st : count_ok st -> count_ok (enqueue n st).
Proof.
  intros H. unfold enqueue.
  destruct (cache_get (cache st) (JsString.toLowerCase n)); try exact H.
  destruct (queued _ _); [exact H|].
  apply drainQueue_count_ok. exact H.
Qed.

Lemma count_ok_control st st' :
  control st' = control st -> count_ok st -> count_ok st'.
Proof.
  unfold control, count_ok. intros Heq. injection Heq as Hc Hq Ha Hi Hs.
  rewrite Ha, Hi, Hs. tauto.
Qed.

Lemma count_ok_set_doc d st : count_ok (set_doc d st) <-> count_ok st.
Proof. reflexivity. Qed.

Lemma count_ok_set_cache c st : count_ok (set_cache c st) <-> count_ok st.
Proof. reflexivity. Qed.

Lemma processUserElement_count_ok now el st :
  count_ok st -> count_ok (outcome_of (processUserElement now el st)).
Proof.
  intros H. unfold processUserElement.
  repeat (case_match; simpl; try exact H);
    try (apply enqueue_count_ok; assumption);
    try (eapply count_ok_control; [apply injectAvatar_control|]; assumption).
Qed.

Lemma scan_count_ok clock els st :
  count_ok st -> count_ok (outcome_of (scan clock els st)).
Proof.
  revert clock st. induction els as [|el els IH]; intros clock st H; simpl; [exact H|].
  pose proof (processUserElement_count_ok (clock 0%nat) el st H) as H'.
  destruct (processUserElement (clock 0%nat) el st); simpl in *; auto.
Qed.

Lemma on_data_control it data now st :
  let st' := outcome_of (on_data it data now st) in
  queue st' = queue st /\ activeCount st' = activeCount st /\
  inflight st' = inflight st /\ settled st' = settled st.
Proof.
  unfold on_data. destruct (skip_static _) as [u|]; simpl; [|tauto].
  destruct (truthy u); simpl; [|tauto].
  pose proof (injectAllForNick_control (nick it) u
                (set_cache (<[key it:=Entry u now]> (cache st)) st)) as H.
  unfold control in H. injection H as _ Hq Ha Hi Hs. simpl in *. tauto.
Qed.

(** Handling the result of a request writes the cache and the page
    only. *)
Lemma settle_control it r now st :
  queue (settle it r now st) = queue st /\
  activeCount (settle it r now st) = activeCount st /\
  inflight (settle it r now st) = inflight st /\
  settled (settle it r now st) = settled st.
Proof.
  unfold settle. destruct r as [|[] [data|]]; simpl; try tauto.
  pose proof (on_data_control it data now st) as H. simpl in H.
  destruct (on_data it data now st); simpl in *; tauto.
Qed.

Lemma length_remove_nth {A} i (l : list A) x :
  nth_error l i = Some x -> length l = S (length (remove_nth i l)).
Proof.
  intros H. unfold remove_nth.
  assert (Hlt : (i < length l)%nat) by (apply nth_error_Some; congruence).
  rewrite length_app, length_firstn, length_skipn. lia.
Qed.

Lemma reachable_count_ok st : reachable st -> count_ok st.
Proof.
  induction 1 as [st (Hc & Hq & Ha & Hi & Hs & _)|st st' _ IH Hstep].
  - unfold count_ok. rewrite Ha, Hi, Hs. simpl. unfold MAX_CONCURRENT. lia.
  - destruct Hstep as
      [clock st|i it data now st st' _ Hraise|i it r now st Hnth|j it st Hnth|d' st _].
    + apply scan_count_ok, IH.
    + pose proof (on_data_control it data now st) as Hc. rewrite Hraise in Hc.
      cbn [outcome_of] in Hc. destruct Hc as (_ & Ha & Hi & Hs).
      unfold count_ok. rewrite Ha, Hi, Hs. exact IH.
    + destruct IH as [Hlen Hle].
      pose proof (length_remove_nth _ _ _ Hnth) as Hrm.
      destruct (settle_control it r now st) as (Hq & Ha & Hi & Hs).
      unfold count_ok. simpl. rewrite Ha, length_app. simpl. lia.
    + destruct IH as [Hlen Hle].
      pose proof (length_remove_nth _ _ _ Hnth) as Hrm.
      apply drainQueue_count_ok. unfold count_ok. simpl. lia.
    + exact IH.
Qed.

(** C1: in every reachable state the count of requests in flight,
    [activeCount], is the number of requests whose [.finally] has not
    run, and it is at most [MAX_CONCURRENT].  Handling the result of a
    request, whatever it is, leaves the count and the queue alone, and
    the [.finally] that follows takes one off the count and drains the
    queue: a prefix of the queue is started, one count per item, never
    past the maximum, and items stay queued only when the maximum is
    reached. *)
Theorem active_count_never_exceeds_max st :
  reachable st ->
  (0 <= activeCount st <= MAX_CONCURRENT) /\
  activeCount st = Z.of_nat (length (inflight st) + length (settled st)) /\
  (forall it r now,
     activeCount (settle it r now st) = activeCount st /\
     queue (settle it r now st) = queue st) /\
  forall j it,
    nth_error (settled st) j = Some it ->
    let st' := on_finally (set_settled (remove_nth j (settled st)) st) in
    exists pulled rest,
      queue st = pulled ++ rest /\
      queue st' = rest /\
      inflight st' = inflight st ++ pulled /\
      settled st' = remove_nth j (settled st) /\
      activeCount st' = activeCount st - 1 + Z.of_nat (length pulled) /\
      activeCount st' <= MAX_CONCURRENT /\
      (rest <> [] -> activeCount st' = MAX_CONCURRENT).
Proof.
  intros Hr. destruct (reachable_count_ok st Hr) as [Hlen Hle].
  split; [lia|]. split; [exact Hlen|]. split.
  { intros it r now. destruct (settle_control it r now st) as (Hq & Ha & _).
    split; assumption. }
  intros j it Hnth st'.
  destruct (drain_drained (queue st)
              (set_activeCount (activeCount st - 1)
                 (set_settled (remove_nth j (settled st)) st)))
    as (pulled & rest & Hq1 & Hq2 & Hin & Hac & Hmax & Hfull & _ & _ & _ & Hs).
  { simpl. lia. }
  exists pulled, rest. subst st'. unfold on_finally, drainQueue.
  simpl in *. repeat split; assumption.
Qed.

End FetchQueue.

(* ================================================================== *)
(** * Facts about document trees *)
(* ================================================================== *)

Section TreeFacts.
Import Dom.

Lemma node_ind2 (P : node -> Prop) :
  (forall i t c a kids, Forall P kids -> P (Node i t c a kids)) ->
  forall n, P n.
Proof.
  intros H. fix IH 1. intros [i t c a kids]. apply H.
  induction kids as [|k kids IHk]; constructor; [apply IH | exact IHk].
Qed.

Lemma descendants_Node i t c a kids :
  descendants (Node i t c a kids) = flat_map subtree kids.
Proof.
  induction kids as [|k ks IH]; [reflexivity|].
  simpl in *. rewrite IH. reflexivity.
Qed.

Lemma subtree_Node i t c a kids :
  subtree (Node i t c a kids) = Node i t c a kids :: flat_map subtree kids.
Proof. unfold subtree. rewrite descendants_Node. reflexivity. Qed.

Lemma chain_to_Node i j t c a kids :
  chain_to i (Node j t c a kids) =
  if Nat.eqb j i then Some [Node j t c a kids]
  else match chain_in i kids with
       | Some ch => Some (ch ++ [Node j t c a kids])
       | None => None
       end.
Proof.
  simpl. destruct (Nat.eqb j i); [reflexivity|].
  generalize (Node j t c a kids). intros m.
  induction kids as [|k ks IH]; [reflexivity|].
  simpl. destruct (chain_to i k); [reflexivity|]. exact IH.
Qed.

Lemma remove_first_Node sel j t c a kids :
  remove_first sel (Node j t c a kids) =
  (Node j t c a (fst (remove_first_in sel kids)),
   snd (remove_first_in sel kids)).
Proof.
  simpl.
  match goal with
  | |- (let '(_, _) := ?x in _) = _ =>
      assert (E : x = remove_first_in sel kids)
  end.
  { induction kids as [|k ks IH]; [reflexivity|].
    simpl. destruct (sel k); [reflexivity|].
    destruct (remove_first sel k) as [k' []]; [reflexivity|].
    rewrite IH. reflexivity. }
  rewrite E. destruct (remove_first_in sel kids); reflexivity.
Qed.

Lemma update_node_Node i f j t c a kids :
  update_node i f (Node j t c a kids) =
  if Nat.eqb j i then f (Node j t c a kids)
  else Node j t c a (map (update_node i f) kids).
Proof. reflexivity. Qed.

Lemma select_in_chat_Node sel inside j t c a kids :
  select_in_chat sel inside (Node j t c a kids) =
  (if inside && sel (Node j t c a kids) then [Node j t c a kids] else []) ++
  flat_map
    (select_in_chat sel
       (inside || match assoc "id" a with
                  | Some v => String.eqb v "chat"
                  | None => false
                  end)) kids.
Proof.
  reflexivity.
Qed.

#[local] Arguments descendants : simpl never.
#[local] Arguments subtree : simpl never.
#[local] Arguments chain_to : simpl never.
#[local] Arguments remove_first : simpl never.
#[local] Arguments update_node : simpl never.
#[local] Arguments select_in_chat : simpl never.

Lemma flat_map_cons {A B} (f : A -> list B) x l :
  flat_map f (x :: l) = f x ++ flat_map f l.
Proof. reflexivity. Qed.

(** *** Pruning *)

Lemma pruned_refl_both :
  (forall d, pruned d d) /\ (forall ks, pruned_kids ks ks).
Proof.
  assert (H : forall d, pruned d d).
  { induction d as [i t c a kids IH] using node_ind2. constructor.
    induction IH; [apply pruned_nil | apply pruned_keep; assumption]. }
  split; [exact H|].
  induction ks; [apply pruned_nil | apply pruned_keep; auto].
Qed.

Lemma pruned_refl d : pruned d d.
Proof. apply pruned_refl_both. Qed.

Lemma pruned_info_sublist_both :
  (forall d d', pruned d d' ->
     map info (subtree d') `sublist_of` map info (subtree d)) /\
  (forall ks ks', pruned_kids ks ks' ->
     map info (flat_map subtree ks') `sublist_of` map info (flat_map subtree ks)).
Proof.
  apply pruned_mutind.
  - intros i t c a ks ks' _ IH. rewrite !subtree_Node. simpl.
    apply sublist_skip. exact IH.
  - constructor.
  - intros k ks ks' _ IH. rewrite flat_map_cons, map_app.
    apply sublist_inserts_l. exact IH.
  - intros k k' ks ks' _ IHk _ IHks. rewrite !flat_map_cons, !map_app.
    apply sublist_app; assumption.
Qed.

Lemma pruned_info_sublist d d' :
  pruned d d' -> map info (subtree d') `sublist_of` map info (subtree d).
Proof. apply pruned_info_sublist_both. Qed.

Lemma map_id_info l : map node_id l = map (fun x => fst (fst x)) (map info l).
Proof. rewrite map_map. reflexivity. Qed.

Lemma pruned_ids_sublist d d' :
  pruned d d' -> map node_id (subtree d') `sublist_of` map node_id (subtree d).
Proof.
  intros H. rewrite !map_id_info.
  apply (fmap_sublist (fun x => fst (fst x))), pruned_info_sublist, H.
Qed.

Lemma pruned_distinct_ids d d' :
  pruned d d' -> distinct_ids d -> distinct_ids d'.
Proof.
  unfold distinct_ids. intros H Hd.
  eapply sublist_NoDup; [exact Hd|]. apply pruned_ids_sublist, H.
Qed.

Lemma remove_first_pruned_both sel :
  (forall n, pruned n (fst (remove_first sel n))) /\
  (forall ks, pruned_kids ks (fst (remove_first_in sel ks))).
Proof.
  assert (H : forall n, pruned n (fst (remove_first sel n))).
  { induction n as [i t c a kids IH] using node_ind2.
    rewrite remove_first_Node. simpl. constructor.
    induction IH as [|k ks Hk _ IHks]; simpl; [constructor|].
    destruct (sel k).
    - simpl. apply pruned_drop, pruned_refl_both.
    - destruct (remove_first sel k) as [k' []] eqn:E; simpl in *.
      + apply pruned_keep; [exact Hk | apply pruned_refl_both].
      + destruct (remove_first_in sel ks) as [ks'' f'] eqn:E'. simpl in *.
        apply pruned_keep; [apply pruned_refl | exact IHks]. }
  split; [exact H|].
  induction ks as [|k ks IHks]; simpl; [constructor|].
  destruct (sel k).
  - simpl. apply pruned_drop, pruned_refl_both.
  - pose proof (H k) as Hk.
    destruct (remove_first sel k) as [k' []] eqn:E; simpl in *.
    + apply pruned_keep; [exact Hk | apply pruned_refl_both].
    + destruct (remove_first_in sel ks) as [ks'' f'] eqn:E'. simpl in *.
      apply pruned_keep; [apply pruned_refl | exact IHks].
Qed.

Lemma remove_first_pruned sel n : pruned n (fst (remove_first sel n)).
Proof. apply remove_first_pruned_both. Qed.

Lemma update_node_pruned t f d :
  (forall n, pruned n (f n)) -> pruned d (update_node t f d).
Proof.
  intros Hf. induction d as [i tg c a kids IH] using node_ind2.
  rewrite update_node_Node. destruct (Nat.eqb i t); [apply Hf|].
  constructor.
  induction IH; simpl; [apply pruned_nil | apply pruned_keep; assumption].
Qed.

Lemma pruned_kids_ids_sublist ks ks' :
  pruned_kids ks ks' ->
  map node_id (flat_map subtree ks') `sublist_of` map node_id (flat_map subtree ks).
Proof.
  intros H. rewrite !map_id_info.
  apply (fmap_sublist (fun x => fst (fst x))), pruned_info_sublist_both, H.
Qed.

Lemma pruned_info d d' : pruned d d' -> info d' = info d.
Proof. destruct 1. reflexivity. Qed.

(** *** Chains *)

Lemma chain_none_both i :
  (forall d, chain_to i d = None <-> i ∉ map node_id (subtree d)) /\
  (forall ks, chain_in i ks = None <-> i ∉ map node_id (flat_map subtree ks)).
Proof.
  assert (K : forall ks,
             Forall (fun d => chain_to i d = None <-> i ∉ map node_id (subtree d)) ks ->
             chain_in i ks = None <-> i ∉ map node_id (flat_map subtree ks)).
  { induction 1 as [|k ks Hk _ IH]; cbn [chain_in].
    - split; [intros _; apply not_elem_of_nil | reflexivity].
    - rewrite flat_map_cons, map_app, not_elem_of_app.
      destruct (chain_to i k) eqn:E.
      + split; [discriminate|]. intros [Hn _]. apply Hk in Hn. discriminate.
      + rewrite IH. split; [intros ?; split; [apply Hk; reflexivity | assumption]
                           | intros [_ ?]; assumption]. }
  assert (H : forall d, chain_to i d = None <-> i ∉ map node_id (subtree d)).
  { induction d as [j t c a kids IH] using node_ind2.
    rewrite chain_to_Node, subtree_Node. simpl. rewrite not_elem_of_cons.
    destruct (Nat.eqb_spec j i) as [->|Hne].
    - split; [discriminate | intros [? _]; congruence].
    - specialize (K kids IH). destruct (chain_in i kids).
      + split; [discriminate|]. intros [_ Hn]. apply K in Hn. discriminate.
      + split; [|reflexivity]. intros _. split; [congruence | apply K; reflexivity]. }
  split; [exact H|]. intros ks. apply K. apply Forall_forall. intros d _. apply H.
Qed.

Lemma chain_to_None i d : chain_to i d = None <-> i ∉ map node_id (subtree d).
Proof. apply chain_none_both. Qed.

Lemma chain_in_None i ks :
  chain_in i ks = None <-> i ∉ map node_id (flat_map subtree ks).
Proof. apply chain_none_both. Qed.

Lemma elem_of_subtree_self d : d ∈ subtree d.
Proof. unfold subtree. apply list_elem_of_here. Qed.

Lemma elem_of_subtree_kid m k i t c a kids :
  k ∈ kids -> m ∈ subtree k -> m ∈ subtree (Node i t c a kids).
Proof.
  intros Hk Hm. rewrite subtree_Node. apply list_elem_of_further.
  apply list_elem_of_In, in_flat_map. exists k.
  split; apply list_elem_of_In; assumption.
Qed.

(** A chain starts at the element asked for and stays inside the tree. *)
Lemma chain_to_Some i d ch :
  chain_to i d = Some ch ->
  (exists e rest, ch = e :: rest /\ node_id e = i) /\
  Forall (fun m => m ∈ subtree d) ch.
Proof.
  revert ch. induction d as [j t c a kids IH] using node_ind2. intros ch.
  rewrite chain_to_Node. destruct (Nat.eqb_spec j i) as [->|Hne].
  - intros [= <-]. split; [eauto|]. repeat constructor; apply elem_of_subtree_self.
  - destruct (chain_in i kids) as [c0|] eqn:E; [|discriminate].
    intros [= <-].
    assert (H : (exists e rest, c0 = e :: rest /\ node_id e = i) /\
                Forall (fun m => exists k, k ∈ kids /\ m ∈ subtree k) c0).
    { clear Hne. induction IH as [|k ks Hk _ IHks]; simpl in E; [discriminate|].
      destruct (chain_to i k) as [c1|] eqn:E1.
      - injection E as ->. destruct (Hk _ eq_refl) as [H1 H2]. split; [exact H1|].
        eapply Forall_impl; [exact H2|]. intros m Hm. exists k.
        split; [apply list_elem_of_here | exact Hm].
      - destruct (IHks E) as [H1 H2]. split; [exact H1|].
        eapply Forall_impl; [exact H2|]. intros m (k' & Hk' & Hm). exists k'.
        split; [apply list_elem_of_further, Hk' | exact Hm]. }
    destruct H as [(e & rest & -> & He) H2]. split.
    + exists e, (rest ++ [Node j t c a kids]). split; [reflexivity | exact He].
    + apply Forall_app. split.
      * eapply Forall_impl; [exact H2|]. intros m (k & Hk & Hm).
        eapply elem_of_subtree_kid; eassumption.
      * repeat constructor; apply elem_of_subtree_self.
Qed.

Lemma chain_pruned_both i :
  (forall d d', pruned d d' -> distinct_ids d -> forall ch,
     chain_to i d = Some ch ->
     chain_to i d' = None \/
     exists ch', chain_to i d' = Some ch' /\ same_chain ch ch') /\
  (forall ks ks', pruned_kids ks ks' ->
     NoDup (map node_id (flat_map subtree ks)) -> forall ch,
     chain_in i ks = Some ch ->
     chain_in i ks' = None \/
     exists ch', chain_in i ks' = Some ch' /\ same_chain ch ch').
Proof.
  apply pruned_mutind.
  - intros j t c a ks ks' Hks IH Hd ch. rewrite !chain_to_Node.
    destruct (Nat.eqb j i).
    + intros [= <-]. right. eexists. split; [reflexivity|].
      repeat constructor. exact Hks.
    + unfold distinct_ids in Hd. rewrite subtree_Node in Hd. simpl in Hd.
      apply NoDup_cons in Hd as [_ Hd].
      destruct (chain_in i ks) as [c0|] eqn:E; [|discriminate].
      intros [= <-]. destruct (IH Hd _ eq_refl) as [->|(c' & -> & Hc')].
      * left. reflexivity.
      * right. eexists. split; [reflexivity|].
        apply Forall2_app; [exact Hc'|]. repeat constructor. exact Hks.
  - intros _ ch. discriminate.
  - intros k ks ks' Hks IH Hd ch. rewrite flat_map_cons, map_app in Hd.
    apply NoDup_app in Hd as (_ & Hdis & Hd). simpl.
    destruct (chain_to i k) eqn:E.
    + intros _. left. apply chain_in_None. intros Hin.
      apply (Hdis i).
      * destruct (decide (i ∈ map node_id (subtree k))) as [?|Hn]; [assumption|].
        apply chain_to_None in Hn. congruence.
      * eapply elem_of_sublist; [exact Hin|]. apply pruned_kids_ids_sublist, Hks.
    + apply IH, Hd.
  - intros k k' ks ks' Hk IHk Hks IHks Hd ch.
    rewrite flat_map_cons, map_app in Hd.
    apply NoDup_app in Hd as (Hdk & Hdis & Hd). simpl.
    destruct (chain_to i k) as [c0|] eqn:E.
    + intros [= <-]. destruct (IHk Hdk _ eq_refl) as [E'|(c' & E' & Hc')]; rewrite E'.
      * left. apply chain_in_None. intros Hin. apply (Hdis i).
        -- destruct (decide (i ∈ map node_id (subtree k))) as [?|Hn]; [assumption|].
           apply chain_to_None in Hn. congruence.
        -- eapply elem_of_sublist; [exact Hin|]. apply pruned_kids_ids_sublist, Hks.
      * right. eauto.
    + intros Hch.
      assert (E' : chain_to i k' = None).
      { apply chain_to_None. intros Hin. apply chain_to_None in E. apply E.
        eapply elem_of_sublist; [exact Hin|]. apply pruned_ids_sublist, Hk. }
      rewrite E'. apply IHks; assumption.
Qed.

Lemma chain_pruned i d d' ch :
  pruned d d' -> distinct_ids d -> chain_to i d = Some ch ->
  chain_to i d' = None \/
  exists ch', chain_to i d' = Some ch' /\ same_chain ch ch'.
Proof. intros. eapply chain_pruned_both; eassumption. Qed.

(** *** Looking an element up *)

Lemma find_app {A} (p : A -> bool) l1 l2 :
  List.find p (l1 ++ l2) =
  match List.find p l1 with Some x => Some x | None => List.find p l2 end.
Proof.
  induction l1 as [|x l1 IH]; [reflexivity|].
  simpl. destruct (p x); [reflexivity | exact IH].
Qed.

Lemma find_unique {A} (f : A -> nat) (l : list A) (m : A) :
  NoDup (map f l) -> m ∈ l ->
  List.find (fun n => Nat.eqb (f n) (f m)) l = Some m.
Proof.
  induction l as [|x l IH]; intros Hd Hm; [inversion Hm|].
  simpl in Hd. apply NoDup_cons in Hd as [Hx Hd]. simpl.
  apply elem_of_cons in Hm as [->|Hm].
  - rewrite Nat.eqb_refl. reflexivity.
  - destruct (Nat.eqb_spec (f x) (f m)) as [E|_]; [|apply IH; assumption].
    exfalso. apply Hx. rewrite E.
    apply list_elem_of_In, in_map, list_elem_of_In, Hm.
Qed.

Lemma find_node_distinct d m :
  distinct_ids d -> m ∈ subtree d -> find_node (node_id m) d = Some m.
Proof. intros Hd Hm. apply (find_unique node_id); assumption. Qed.

Lemma find_node_Node x j t c a kids :
  find_node x (Node j t c a kids) =
  if Nat.eqb j x then Some (Node j t c a kids)
  else List.find (fun n => Nat.eqb (node_id n) x) (flat_map subtree kids).
Proof. unfold find_node. rewrite subtree_Node. reflexivity. Qed.

Lemma find_node_self x n : node_id n = x -> find_node x n = Some n.
Proof.
  intros <-. destruct n. rewrite find_node_Node. simpl.
  rewrite Nat.eqb_refl. reflexivity.
Qed.

(** Updating the element [t] and looking it up. *)
Lemma find_node_update t f d :
  (forall n, node_id (f n) = node_id n) ->
  find_node t (update_node t f d) = f <$> find_node t d.
Proof.
  intros Hf. induction d as [j tg c a kids IH] using node_ind2.
  rewrite update_node_Node. destruct (Nat.eqb_spec j t) as [E|Hne].
  - rewrite (find_node_self t (Node j tg c a kids)) by exact E.
    apply find_node_self. rewrite Hf. exact E.
  - rewrite !find_node_Node. apply Nat.eqb_neq in Hne. rewrite Hne.
    induction IH as [|k ks Hk _ IHks]; [reflexivity|].
    cbn [map]. rewrite !flat_map_cons, !find_app.
    unfold find_node in Hk. rewrite Hk.
    destruct (List.find _ (subtree k)); [reflexivity | exact IHks].
Qed.

(** *** Selected descendants *)

Lemma find_head_filter {A} (p : A -> bool) (l : list A) :
  List.find p l = head (filter p l).
Proof.
  induction l as [|x l IH]; [reflexivity|].
  rewrite filter_cons. simpl. destruct (p x); simpl; [reflexivity | exact IH].
Qed.

Lemma filter_subtree (sel : node -> bool) n :
  filter sel (subtree n) = (if sel n then [n] else []) ++ filter sel (descendants n).
Proof.
  unfold subtree. rewrite filter_cons. destruct (sel n); reflexivity.
Qed.

(** What [remove_first] does to the selected descendants: nothing when
    there is none, and otherwise the first goes, along with any that lie
    inside it. *)
Lemma remove_first_filter (sel : node -> bool) :
  (forall a b, info a = info b -> sel a = sel b) ->
  forall n,
    match filter sel (descendants n) with
    | [] => remove_first sel n = (n, false)
    | _ :: rest =>
        snd (remove_first sel n) = true /\
        filter sel (descendants (fst (remove_first sel n))) `sublist_of` rest
    end.
Proof.
  intros Hsel. induction n as [j t c a kids IH] using node_ind2.
  rewrite remove_first_Node, !descendants_Node. cbn [fst snd].
  enough (K : match filter sel (flat_map subtree kids) with
              | [] => remove_first_in sel kids = (kids, false)
              | _ :: rest =>
                  snd (remove_first_in sel kids) = true /\
                  filter sel (flat_map subtree (fst (remove_first_in sel kids)))
                    `sublist_of` rest
              end).
  { destruct (filter sel (flat_map subtree kids)).
    - rewrite K. reflexivity.
    - rewrite descendants_Node. exact K. }
  induction IH as [|k ks Hk _ IHks]; [reflexivity|].
  rewrite flat_map_cons, filter_app, filter_subtree. cbn [remove_first_in].
  destruct (sel k) eqn:Ek.
  - cbn [fst snd app]. split; [reflexivity|]. apply sublist_inserts_l. reflexivity.
  - cbn [app]. destruct (filter sel (descendants k)) as [|x rest] eqn:Efk.
    + rewrite Hk. cbn [app].
      destruct (filter sel (flat_map subtree ks)) as [|y rest'] eqn:Efks.
      * rewrite IHks. reflexivity.
      * destruct IHks as [Hfound Hsub].
        destruct (remove_first_in sel ks) as [ks'' found']. cbn [fst snd] in *.
        subst found'. split; [reflexivity|].
        rewrite flat_map_cons, filter_app, filter_subtree, Ek, Efk. exact Hsub.
    + destruct Hk as [Hfound Hsub].
      pose proof (pruned_info _ _ (remove_first_pruned sel k)) as Hinfo.
      destruct (remove_first sel k) as [k' found]. cbn [fst snd] in *.
      subst found. cbn [fst snd app]. split; [reflexivity|].
      rewrite flat_map_cons, filter_app, filter_subtree.
      rewrite (Hsel k' k Hinfo), Ek. cbn [app].
      apply sublist_app; [exact Hsub | reflexivity].
Qed.

Lemma descendants_prepend a n :
  descendants (prepend a n) = subtree a ++ descendants n.
Proof. destruct n. unfold prepend. rewrite !descendants_Node. reflexivity. Qed.

Lemma node_id_prepend a n : node_id (prepend a n) = node_id n.
Proof. destruct n. reflexivity. Qed.

Lemma node_id_remove_first sel n : node_id (fst (remove_first sel n)) = node_id n.
Proof. destruct n. rewrite remove_first_Node. reflexivity. Qed.

End TreeFacts.

#[local] Arguments Dom.descendants : simpl never.
#[local] Arguments Dom.subtree : simpl never.
#[local] Arguments Dom.chain_to : simpl never.
#[local] Arguments Dom.remove_first : simpl never.
#[local] Arguments Dom.update_node : simpl never.
#[local] Arguments Dom.select_in_chat : simpl never.

(* ================================================================== *)
(** * Properties of avatars.js: service nicknames *)
(* ================================================================== *)

Section ServiceNicks.
Import Dom Avatars.

Lemma Forall_info_pruned (Q : _ -> Prop) d d' :
  pruned d d' ->
  Forall (fun n => Q (info n)) (subtree d) ->
  Forall (fun n => Q (info n)) (subtree d').
Proof.
  intros Hp H. apply Forall_forall. intros n Hn.
  assert (Hi : info n ∈ map info (subtree d)).
  { eapply elem_of_sublist; [|apply pruned_info_sublist, Hp].
    apply list_elem_of_In, in_map, list_elem_of_In, Hn. }
  apply list_elem_of_In, in_map_iff in Hi as (m & <- & Hm).
  rewrite Forall_forall in H. apply H, list_elem_of_In, Hm.
Qed.

Lemma Forall_info_update (Q : _ -> Prop) t f d :
  (forall n, Forall (fun n => Q (info n)) (subtree n) ->
             Forall (fun n => Q (info n)) (subtree (f n))) ->
  Forall (fun n => Q (info n)) (subtree d) ->
  Forall (fun n => Q (info n)) (subtree (update_node t f d)).
Proof.
  intros Hf. induction d as [j tg c a kids IH] using node_ind2.
  rewrite update_node_Node. destruct (Nat.eqb j t); [apply Hf|].
  rewrite !subtree_Node. intros H. apply Forall_cons in H as [H0 H].
  apply Forall_cons. split; [exact H0|].
  induction IH as [|k ks Hk _ IHks]; [constructor|].
  rewrite flat_map_cons in H. apply Forall_app in H as [H1 H2].
  cbn [map]. rewrite flat_map_cons. apply Forall_app. auto.
Qed.

Lemma Forall_info_prepend (Q : _ -> Prop) a n :
  Forall (fun n => Q (info n)) (subtree a) ->
  Forall (fun n => Q (info n)) (subtree n) ->
  Forall (fun n => Q (info n)) (subtree (prepend a n)).
Proof.
  intros Ha Hn. unfold subtree at 1. rewrite descendants_prepend.
  unfold subtree in Hn at 1. apply Forall_cons in Hn as [H0 Hn].
  apply Forall_cons. split; [destruct n; exact H0|].
  apply Forall_app. auto.
Qed.

Lemma no_service_avatar_harmless d :
  no_service_avatar d <-> Forall (fun n => harmless (info n)) (subtree d).
Proof.
  unfold no_service_avatar, avatar_nicks.
  induction (subtree d) as [|n l IH]; [split; constructor|].
  rewrite filter_cons, Forall_cons.
  assert (E : harmless (info n) <->
              (is_avatar n = true ->
               service_recorded (getAttribute "data-nick" n) = false)).
  { destruct n. reflexivity. }
  rewrite E. destruct (is_avatar n) eqn:Ea; simpl.
  - rewrite Forall_cons, IH. tauto.
  - rewrite IH. split; [intros ?; split; [discriminate|assumption] | tauto].
Qed.

Lemma createAvatarEl_harmless i n u ctx av :
  isServiceNick n = false ->
  createAvatarEl i n u = Some av ->
  Forall (fun m => harmless (info m)) (subtree (context_class ctx av)).
Proof.
  intros Hn. destruct u; try discriminate. intros [= <-].
  destruct ctx; simpl; rewrite !subtree_Node; simpl;
    repeat constructor; unfold harmless; simpl; try discriminate;
    intros _; exact Hn.
Qed.

(** The document after [injectAvatar]: as before, or with the first
    avatar of the target detached, a new one put first, or both. *)
Lemma injectAvatar_doc el n u st :
  let d' := doc (outcome_of (injectAvatar el n u st)) in
  d' = doc st \/
  exists t,
    d' = update_node t (fun m => fst (remove_first is_avatar m)) (doc st) \/
    exists ctx av i,
      createAvatarEl i n u = Some av /\
      (d' = update_node t (prepend (context_class ctx av)) (doc st) \/
       d' = update_node t (prepend (context_class ctx av))
              (update_node t (fun m => fst (remove_first is_avatar m)) (doc st))).
Proof.
  unfold injectAvatar.
  destruct (chain_to el (doc st)) as [[|e ch]|]; try (left; reflexivity).
  destruct (getContext (e :: ch)) eqn:Ec; try (left; reflexivity).
  all: match goal with
       | |- context [target_of ?c _ _] =>
           set (ctx := c); set (tg := target_of ctx (e :: ch) e)
       end.
  all: destruct (querySelector is_avatar tg) as [old|];
    [destruct (same_nick (getAttribute "data-nick" old) n); [left; reflexivity|]|].
  all: cbn [doc set_doc fresh].
  all: match goal with
       | |- context [createAvatarEl ?i ?a ?b] =>
           destruct (createAvatarEl i a b) as [av|] eqn:Eav
       end.
  all: cbn [outcome_of doc set_doc set_fresh].
  all: try (right; exists (node_id tg); left; reflexivity).
  all: try (left; reflexivity).
  all: right; exists (node_id tg); right; exists ctx, av; eexists;
    (split; [exact Eav|]); first [left; reflexivity | right; reflexivity].
Qed.

Lemma injectAvatar_harmless el n u st :
  isServiceNick n = false ->
  Forall (fun m => harmless (info m)) (subtree (doc st)) ->
  Forall (fun m => harmless (info m))
         (subtree (doc (outcome_of (injectAvatar el n u st)))).
Proof.
  intros Hn H.
  assert (Hrm : forall t,
    Forall (fun m => harmless (info m))
      (subtree (update_node t (fun m => fst (remove_first is_avatar m)) (doc st)))).
  { intros t. apply Forall_info_update; [|exact H].
    intros m Hm. eapply Forall_info_pruned; [apply remove_first_pruned | exact Hm]. }
  destruct (injectAvatar_doc el n u st) as
    [->|(t & [->|(ctx & av & i & Eav & [-> | ->])])].
  - exact H.
  - apply Hrm.
  - apply Forall_info_update; [|exact H].
    intros m Hm. apply Forall_info_prepend; [|exact Hm].
    eapply createAvatarEl_harmless; eassumption.
  - apply Forall_info_update; [|apply Hrm].
    intros m Hm. apply Forall_info_prepend; [|exact Hm].
    eapply createAvatarEl_harmless; eassumption.
Qed.

Lemma injectAll_harmless els n u st :
  isServiceNick n = false ->
  Forall (fun m => harmless (info m)) (subtree (doc st)) ->
  Forall (fun m => harmless (info m))
         (subtree (doc (outcome_of (injectAll els n u st)))).
Proof.
  intros Hn. revert st. induction els as [|el els IH]; intros st H; [exact H|].
  simpl. pose proof (injectAvatar_harmless el n u st Hn H) as H'.
  destruct (injectAvatar el n u st); simpl in *; auto.
Qed.

Lemma drain_doc q st : doc (drain q st) = doc st.
Proof.
  revert st. induction q as [|it q IH]; intros st; simpl; [reflexivity|].
  destruct (activeCount st <? MAX_CONCURRENT); [|reflexivity].
  rewrite IH. reflexivity.
Qed.

Lemma enqueue_doc n st : doc (enqueue n st) = doc st.
Proof.
  unfold enqueue. destruct (cache_get _ _); try reflexivity.
  destruct (queued _ _); [reflexivity|].
  unfold drainQueue. rewrite drain_doc. reflexivity.
Qed.

Lemma drain_lookups (P : item -> Prop) q st :
  Forall P q -> Forall P (inflight st) ->
  Forall P (queue (drain q st) ++ inflight (drain q st)).
Proof.
  revert st. induction q as [|it q IH]; intros st Hq Hi; simpl; [exact Hi|].
  apply Forall_cons in Hq as [Hit Hq].
  destruct (activeCount st <? MAX_CONCURRENT).
  - apply IH; [exact Hq|]. simpl. apply Forall_app. split; [exact Hi|].
    repeat constructor. exact Hit.
  - simpl. constructor; [exact Hit|]. apply Forall_app. split; assumption.
Qed.

Lemma enqueue_lookups n st :
  isServiceNick n = false -> no_service_lookup st -> no_service_lookup (enqueue n st).
Proof.
  unfold no_service_lookup, enqueue. intros Hn H.
  destruct (cache_get _ _); try exact H.
  destruct (queued _ _); [exact H|].
  apply Forall_app in H as [Hq Hi].
  unfold drainQueue. apply drain_lookups; [|exact Hi]. simpl.
  apply Forall_app. split; [exact Hq|]. repeat constructor. exact Hn.
Qed.

(** How [processUserElement] goes once the element has a nickname that
    is no service nickname and a context: the wrong avatar, if any, is
    detached, which gives [st1]; then comes one of four endings. *)
Lemma processUserElement_cases now el st :
  processUserElement now el st = Normal st \/
  exists e ch n st1,
    chain_to el (doc st) = Some (e :: ch) /\
    getAttribute "data-name" e = Some n /\
    isServiceNick n = false /\
    getContext (e :: ch) <> Other /\
    (let tg := target_of (getContext (e :: ch)) (e :: ch) e in
     (querySelector is_avatar tg = None /\ st1 = st) \/
     (exists old,
        querySelector is_avatar tg = Some old /\
        same_nick (getAttribute "data-nick" old) n = false /\
        st1 = set_doc (update_node (node_id tg)
                         (fun c => fst (remove_first is_avatar c)) (doc st)) st)) /\
    ((exists en, cache_get (cache st) (JsString.toLowerCase n) = Own en /\
                 truthy (url en) = true /\
                 processUserElement now el st = injectAvatar el n (url en) st1) \/
     ((exists en, cache_get (cache st) (JsString.toLowerCase n) = Own en /\
                  truthy (url en) = false /\ now - ts en < NEGATIVE_TTL) /\
      processUserElement now el st = Normal st1) \/
     ((exists en, cache_get (cache st) (JsString.toLowerCase n) = Own en /\
                  truthy (url en) = false /\ NEGATIVE_TTL <= now - ts en) /\
      processUserElement now el st =
        Normal (enqueue n (set_cache (delete (JsString.toLowerCase n) (cache st1)) st1))) \/
     (forall en, cache_get (cache st) (JsString.toLowerCase n) <> Own en) /\
      processUserElement now el st = Normal (enqueue n st1)).
Proof.
  unfold processUserElement.
  destruct (chain_to el (doc st)) as [[|e ch]|] eqn:Ech; try (left; reflexivity).
  destruct (getAttribute "data-name" e) as [n|] eqn:En; [|left; reflexivity].
  destruct (JsString.nonempty n); [|left; reflexivity]. cbn [negb].
  destruct (isServiceNick n) eqn:Hs; [left; reflexivity|].
  destruct (getContext (e :: ch)) eqn:Ec; try (left; reflexivity).
  all: match goal with
       | |- context [target_of ?c _ _] =>
           set (ctx := c); set (tg := target_of ctx (e :: ch) e)
       end.
  all: destruct (querySelector is_avatar tg) as [old|] eqn:Eq;
    [destruct (same_nick (getAttribute "data-nick" old) n) eqn:Esn;
     [left; reflexivity|]|].
  all: right; exists e, ch, n.
  all: match goal with
       | |- context [match cache_get _ _ with _ => _ end] =>
           match goal with
           | |- context [injectAvatar _ _ _ ?s1] => exists s1
           end
       end.
  all: (split; [reflexivity|]); (split; [exact En|]); (split; [exact Hs|]).
  all: split; [rewrite Ec; discriminate|].
  all: split; [cbn zeta; rewrite Ec; fold ctx; fold tg;
               first [left; split; [exact Eq | reflexivity]
                     | right; exists old; repeat split; assumption]|].
  all: cbn [cache set_doc].
  all: destruct (cache_get (cache st) (JsString.toLowerCase n)) as [| |en] eqn:Ecg.
  all: try (right; right; right;
            split; [intros ?; discriminate | reflexivity]).
  all: destruct (truthy (url en)) eqn:Ht;
         [left; exists en; auto|].
  all: destruct (now - ts en <? NEGATIVE_TTL) eqn:Hlt.
  all: try (apply Z.ltb_lt in Hlt; right; left; split; [exists en; auto | reflexivity]).
  all: apply Z.ltb_ge in Hlt; right; right; left;
         split; [exists en; auto | reflexivity].
Qed.

(** The invariant behind C5. *)
Lemma no_service_lookup_control st st' :
  control st' = control st -> no_service_lookup st -> no_service_lookup st'.
Proof.
  unfold control, no_service_lookup. intros [= _ -> _ -> _]. tauto.
Qed.

Lemma processUserElement_no_service now el st :
  Forall (fun m => harmless (info m)) (subtree (doc st)) ->
  no_service_lookup st ->
  let st' := outcome_of (processUserElement now el st) in
  Forall (fun m => harmless (info m)) (subtree (doc st')) /\ no_service_lookup st'.
Proof.
  intros Hd Hl.
  destruct (processUserElement_cases now el st) as
    [->|(e & ch & n & st1 & _ & _ & Hn & _ & Hst1 & Hend)]; [split; assumption|].
  assert (H1 : Forall (fun m => harmless (info m)) (subtree (doc st1)) /\
               no_service_lookup st1).
  { destruct Hst1 as [[_ ->]|(old & _ & _ & ->)]; [split; assumption|].
    split; [|exact Hl].
    simpl. apply Forall_info_update; [|exact Hd].
    intros m Hm. eapply Forall_info_pruned; [apply remove_first_pruned | exact Hm]. }
  destruct H1 as [Hd1 Hl1].
  destruct Hend as [(en & _ & _ & ->)|[[_ ->]|[[_ ->]|[_ ->]]]]; cbn zeta.
  - split; [apply injectAvatar_harmless; assumption|].
    eapply no_service_lookup_control; [apply injectAvatar_control | exact Hl1].
  - split; assumption.
  - simpl. rewrite enqueue_doc. split; [exact Hd1|].
    apply enqueue_lookups; assumption.
  - simpl. rewrite enqueue_doc. split; [exact Hd1|].
    apply enqueue_lookups; assumption.
Qed.

Lemma scan_no_service clock els st :
  Forall (fun m => harmless (info m)) (subtree (doc st)) ->
  no_service_lookup st ->
  let st' := outcome_of (scan clock els st) in
  Forall (fun m => harmless (info m)) (subtree (doc st')) /\ no_service_lookup st'.
Proof.
  revert clock st.
  induction els as [|el els IH]; intros clock st Hd Hl; [split; assumption|].
  simpl.
  destruct (processUserElement_no_service (clock 0%nat) el st Hd Hl) as [Hd' Hl'].
  destruct (processUserElement (clock 0%nat) el st); simpl in *; auto.
Qed.

Lemma on_data_no_service it data now st :
  isServiceNick (nick it) = false ->
  Forall (fun m => harmless (info m)) (subtree (doc st)) ->
  Forall (fun m => harmless (info m))
         (subtree (doc (outcome_of (on_data it data now st)))).
Proof.
  intros Hn Hd. unfold on_data. destruct (skip_static _) as [u|]; [|exact Hd].
  destruct (truthy u); [|exact Hd].
  apply injectAll_harmless; assumption.
Qed.

Lemma settle_no_service it r now st :
  isServiceNick (nick it) = false ->
  Forall (fun m => harmless (info m)) (subtree (doc st)) ->
  Forall (fun m => harmless (info m)) (subtree (doc (settle it r now st))).
Proof.
  intros Hn Hd.
  pose proof (fun data => on_data_no_service it data now st Hn Hd) as Hdata.
  unfold settle. destruct r as [|[] [data|]]; try exact Hd; try apply Hdata.
  specialize (Hdata data). destruct (on_data it data now st); exact Hdata.
Qed.

Lemma lookup_in_flight (P : item -> Prop) i it st :
  Forall P (queue st ++ inflight st) ->
  nth_error (inflight st) i = Some it -> P it.
Proof.
  intros H Hnth. rewrite Forall_forall in H.
  apply H, elem_of_app. right. apply list_elem_of_In. eapply nth_error_In, Hnth.
Qed.

Lemma Forall_remove_nth {A} (P : A -> Prop) i (l : list A) :
  Forall P l -> Forall P (remove_nth i l).
Proof.
  intros H. unfold remove_nth. apply Forall_app. split.
  - rewrite <- (firstn_skipn i l) in H. apply Forall_app in H. tauto.
  - rewrite <- (firstn_skipn (S i) l) in H. apply Forall_app in H. tauto.
Qed.

Lemma reachable_no_service st :
  reachable st ->
  Forall (fun m => harmless (info m)) (subtree (doc st)) /\ no_service_lookup st.
Proof.
  induction 1 as [st (Hc & Hq & Ha & Hi & Hs & Hav)|st st' _ [Hd Hl] Hstep].
  - split.
    + apply no_service_avatar_harmless. unfold no_service_avatar, avatar_nicks.
      rewrite Hav. constructor.
    + unfold no_service_lookup. rewrite Hq, Hi. constructor.
  - destruct Hstep as
      [clock st|i it data now st st' Hnth Hraise|i it r now st Hnth
      |j it st Hnth|d' st Hhost].
    + apply scan_no_service; assumption.
    + pose proof (lookup_in_flight _ i it st Hl Hnth) as Hit. cbv beta in Hit.
      pose proof (on_data_no_service it data now st Hit Hd) as Hd'.
      pose proof (on_data_control it data now st) as Hc.
      rewrite Hraise in Hd', Hc. cbn [outcome_of] in Hd', Hc.
      destruct Hc as (Hq' & _ & Hi' & _).
      split; [exact Hd'|]. unfold no_service_lookup. rewrite Hq', Hi'. exact Hl.
    + pose proof (lookup_in_flight _ i it st Hl Hnth) as Hit. cbv beta in Hit.
      pose proof (settle_no_service it r now st Hit Hd) as Hd'.
      destruct (settle_control it r now st) as (Hq' & Ha' & Hi' & Hs').
      split; [exact Hd'|].
      unfold no_service_lookup in *. simpl. rewrite Hq'.
      apply Forall_app in Hl as [Hlq Hli]. apply Forall_app. split; [exact Hlq|].
      apply Forall_remove_nth, Hli.
    + unfold on_finally, drainQueue. rewrite drain_doc. split; [exact Hd|].
      unfold no_service_lookup in *. apply Forall_app in Hl as [Hlq Hli].
      apply drain_lookups; simpl; assumption.
    + split; [|exact Hl]. simpl. apply no_service_avatar_harmless.
      apply no_service_avatar_harmless in Hd.
      unfold no_service_avatar in *. rewrite Forall_forall in *.
      intros o Ho. apply Hd, list_elem_of_In, Hhost, list_elem_of_In, Ho.
Qed.


End ServiceNicks.

(* ================================================================== *)
(** * Properties of avatars.js: reconciliation *)
(* ================================================================== *)

Section Reconciliation.
Import Dom Avatars.

Lemma is_avatar_info a b : info a = info b -> is_avatar a = is_avatar b.
Proof. destruct a, b. intros [= _ -> _]. reflexivity. Qed.

Lemma closest_in sel ch m : closest sel ch = Some m -> m ∈ ch.
Proof.
  unfold closest. intros H. apply find_some in H as [H _].
  apply list_elem_of_In, H.
Qed.

Lemma target_of_in ctx e ch : target_of ctx (e :: ch) e ∈ e :: ch.
Proof.
  destruct ctx; cbn [target_of]; try apply list_elem_of_here.
  - destruct (closest (has_class "from") (e :: ch)) eqn:E; cbn [default];
      [|apply list_elem_of_here].
    eapply closest_in, E.
  - destruct ch; cbn [parentElement default]; [apply list_elem_of_here|].
    apply list_elem_of_further, list_elem_of_here.
Qed.

Lemma target_found d el e ch ctx :
  distinct_ids d -> chain_to el d = Some (e :: ch) ->
  find_node (node_id (target_of ctx (e :: ch) e)) d = Some (target_of ctx (e :: ch) e).
Proof.
  intros Hd Hch. apply find_node_distinct; [exact Hd|].
  apply chain_to_Some in Hch as [_ Hin]. rewrite Forall_forall in Hin.
  apply Hin, target_of_in.
Qed.

Lemma querySelector_head sel n :
  querySelector sel n = head (filter sel (descendants n)).
Proof. apply find_head_filter. Qed.

Lemma same_nick_records n a :
  same_nick (getAttribute "data-nick" a) n = true <-> records n a.
Proof.
  unfold records. destruct (getAttribute "data-nick" a) as [x|]; simpl.
  - rewrite String.eqb_eq. split; congruence.
  - split; discriminate.
Qed.

(** Detaching the first avatar of [target]. *)
Lemma detach_first target :
  let base := fst (remove_first is_avatar target) in
  node_id base = node_id target /\
  avatars_of base `sublist_of` tail (avatars_of target) /\
  (avatars_of target = [] -> base = target).
Proof.
  intros base. split; [apply node_id_remove_first|].
  pose proof (remove_first_filter is_avatar is_avatar_info target) as H.
  unfold avatars_of. fold base in H.
  destruct (filter is_avatar (descendants target)) as [|x rest].
  - split; [|intros _; subst base; rewrite H; reflexivity].
    subst base. rewrite H. simpl. unfold avatars_of.
    pose proof (remove_first_filter is_avatar is_avatar_info target) as H'.
    destruct (filter is_avatar (descendants target)) eqn:E; [reflexivity|].
    rewrite H in H'. destruct H' as [H' _]. discriminate.
  - split; [apply H | discriminate].
Qed.

Lemma avatars_of_prepend_created i n u ctx av target :
  createAvatarEl i n u = Some av ->
  exists a, records n a /\
            avatars_of (prepend (context_class ctx av) target) = a :: avatars_of target.
Proof.
  destruct u; try discriminate. intros [= <-].
  exists (context_class ctx
            (Node i "span" ["tl-avatar"] [("data-nick", n)]
               [Node (S i) "img" ["tl-avatar-img"]
                  [("src", if JsString.startsWith "/" s then AVATAR_ORIGIN +:+ s else s);
                   ("alt", n); ("loading", "lazy")] []])).
  split; [destruct ctx; reflexivity|].
  unfold avatars_of. rewrite descendants_prepend, filter_app. f_equal.
  destruct ctx; reflexivity.
Qed.

Lemma reconciled_same n target st :
  find_node (node_id target) (doc st) = Some target -> reconciled n target st st.
Proof.
  intros H. exists target. split; [exact H|]. split; [lia | left; reflexivity].
Qed.

Lemma reconciled_intro n target st st' target' kept :
  find_node (node_id target) (doc st') = Some target' ->
  kept `sublist_of` tail (avatars_of target) ->
  (avatars_of target' = kept \/
   exists a, records n a /\ avatars_of target' = a :: kept) ->
  reconciled n target st st'.
Proof.
  intros Hf Hk Hav. exists target'. split; [exact Hf|]. split; [|right; eauto].
  apply sublist_length in Hk.
  assert (length (tail (avatars_of target)) = length (avatars_of target) - 1)%nat
    by (destruct (avatars_of target); simpl; lia).
  destruct Hav as [->|(a & _ & ->)]; simpl; lia.
Qed.

Lemma querySelector_None_avatars n :
  querySelector is_avatar n = None -> avatars_of n = [].
Proof.
  rewrite querySelector_head. unfold avatars_of.
  destruct (filter is_avatar (descendants n)); [reflexivity | discriminate].
Qed.

(** [injectAvatar] on a name element with a context. *)
Lemma injectAvatar_reconciles el n u st e ch :
  distinct_ids (doc st) ->
  chain_to el (doc st) = Some (e :: ch) ->
  getContext (e :: ch) <> Other ->
  reconciled n (target_of (getContext (e :: ch)) (e :: ch) e) st
    (outcome_of (injectAvatar el n u st)) /\
  forall old,
    querySelector is_avatar (target_of (getContext (e :: ch)) (e :: ch) e) = Some old ->
    records n old -> injectAvatar el n u st = Normal st.
Proof.
  intros Hd Hch Hctx.
  pose proof (target_found _ _ _ _ (getContext (e :: ch)) Hd Hch) as Hfind.
  unfold injectAvatar. rewrite Hch.
  set (ctx := getContext (e :: ch)) in *.
  set (tg := target_of ctx (e :: ch) e) in *.
  assert (Hbody :
    let r :=
      if match querySelector is_avatar tg with
         | Some o => same_nick (getAttribute "data-nick" o) n
         | None => false
         end
      then Normal st
      else
        let st1 :=
          match querySelector is_avatar tg with
          | Some _ =>
              set_doc (update_node (node_id tg)
                         (fun m => fst (remove_first is_avatar m)) (doc st)) st
          | None => st
          end in
        match createAvatarEl (fresh st1) n u with
        | None => Throw st1
        | Some avatar =>
            Normal (set_fresh (2 + fresh st1)
                      (set_doc (update_node (node_id tg)
                                  (prepend (context_class ctx avatar)) (doc st1)) st1))
        end in
    reconciled n tg st (outcome_of r) /\
    forall old, querySelector is_avatar tg = Some old -> records n old -> r = Normal st).
  { cbn zeta.
    destruct (detach_first tg) as (Hid & Hsub & Hnone).
    destruct (querySelector is_avatar tg) as [old|] eqn:Eq.
    - destruct (same_nick (getAttribute "data-nick" old) n) eqn:Es.
      + split; [apply reconciled_same, Hfind | reflexivity].
      + split; [|intros old' [= <-] Hrec; apply same_nick_records in Hrec; congruence].
        cbn [fresh doc set_doc].
        assert (Hf1 : find_node (node_id tg)
                        (update_node (node_id tg)
                           (fun m => fst (remove_first is_avatar m)) (doc st)) =
                      Some (fst (remove_first is_avatar tg))).
        { rewrite find_node_update by (intros; apply node_id_remove_first).
          rewrite Hfind. reflexivity. }
        destruct (createAvatarEl (fresh st) n u) as [av|] eqn:Eav; cbn [outcome_of].
        * destruct (avatars_of_prepend_created _ _ _ ctx _
                      (fst (remove_first is_avatar tg)) Eav) as (a & Ha & Hav).
          eapply reconciled_intro; [|exact Hsub|right; exists a; split; [exact Ha|exact Hav]].
          cbn [doc set_doc set_fresh].
          rewrite find_node_update by (intros; apply node_id_prepend).
          rewrite Hf1. reflexivity.
        * eapply reconciled_intro; [exact Hf1 | exact Hsub | left; reflexivity].
    - split; [|discriminate].
      pose proof (querySelector_None_avatars _ Eq) as Hempty.
      destruct (createAvatarEl (fresh st) n u) as [av|] eqn:Eav; cbn [outcome_of].
      + destruct (avatars_of_prepend_created _ _ _ ctx _ tg Eav) as (a & Ha & Hav).
        eapply reconciled_intro with (kept := []);
          [|rewrite Hempty; reflexivity
           |right; exists a; split; [exact Ha|rewrite Hav, Hempty; reflexivity]].
        cbn [doc set_doc set_fresh].
        rewrite find_node_update by (intros; apply node_id_prepend).
        rewrite Hfind. reflexivity.
      + apply reconciled_same, Hfind. }
  destruct ctx eqn:Ec; try exact Hbody. congruence.
Qed.

(** *** The chain of an element after pruning *)

Lemma same_chain_closest sel ch ch' :
  (forall a b, info a = info b -> sel a = sel b) ->
  same_chain ch ch' ->
  match closest sel ch, closest sel ch' with
  | Some m, Some m' => info m' = info m
  | None, None => True
  | _, _ => False
  end.
Proof.
  intros Hsel. unfold same_chain, closest.
  induction 1 as [|x y l l' [Hxy _] _ IH]; simpl; [exact I|].
  rewrite (Hsel y x Hxy). destruct (sel x); [exact Hxy | exact IH].
Qed.

Lemma has_class_info c a b : info a = info b -> has_class c a = has_class c b.
Proof. destruct a, b. intros [= _ -> _]. reflexivity. Qed.

Lemma getAttribute_info k a b : info a = info b -> getAttribute k a = getAttribute k b.
Proof. destruct a, b. intros [= _ _ ->]. reflexivity. Qed.

Lemma node_id_info a b : info a = info b -> node_id a = node_id b.
Proof. destruct a, b. intros [= -> _ _]. reflexivity. Qed.

Lemma getContext_same_chain ch ch' :
  same_chain ch ch' -> getContext ch' = getContext ch.
Proof.
  intros H. unfold getContext.
  pose proof (same_chain_closest (has_class "userlist") _ _ (has_class_info _) H) as H1.
  pose proof (same_chain_closest (has_class "from") _ _ (has_class_info _) H) as H2.
  pose proof (same_chain_closest (has_class "msg") _ _ (has_class_info _) H) as H3.
  destruct (closest (has_class "userlist") ch), (closest (has_class "userlist") ch');
    try contradiction; [reflexivity|].
  destruct (closest (has_class "from") ch), (closest (has_class "from") ch');
    try contradiction; [reflexivity|].
  destruct (closest (has_class "msg") ch), (closest (has_class "msg") ch');
    try contradiction; [|reflexivity].
  rewrite (getAttribute_info "data-type" _ _ H3). reflexivity.
Qed.

Lemma target_id_same_chain ctx e ch e' ch' :
  same_chain (e :: ch) (e' :: ch') ->
  node_id (target_of ctx (e' :: ch') e') = node_id (target_of ctx (e :: ch) e).
Proof.
  intros H.
  assert (He : info e' = info e) by (inversion H; subst; tauto).
  destruct ctx; cbn [target_of]; try (apply node_id_info, He).
  - pose proof (same_chain_closest (has_class "from") _ _ (has_class_info _) H) as H2.
    destruct (closest (has_class "from") (e :: ch)),
             (closest (has_class "from") (e' :: ch'));
      try contradiction; cbn [default]; apply node_id_info; assumption.
  - inversion H as [|? ? ? ? _ Hrest]; subst.
    destruct Hrest as [|p p' ? ? [Hp _] _]; cbn [parentElement default];
      apply node_id_info; assumption.
Qed.

Lemma sublist_tail {A} (l : list A) : tail l `sublist_of` l.
Proof. destruct l; simpl; [reflexivity | apply sublist_cons; reflexivity]. Qed.

(** [processUserElement] on a name element with a context. *)
Lemma processUserElement_reconciles now el st e ch n :
  distinct_ids (doc st) ->
  chain_to el (doc st) = Some (e :: ch) ->
  getAttribute "data-name" e = Some n ->
  reconciled n (target_of (getContext (e :: ch)) (e :: ch) e) st
    (outcome_of (processUserElement now el st)) /\
  forall old,
    querySelector is_avatar (target_of (getContext (e :: ch)) (e :: ch) e) = Some old ->
    records n old -> processUserElement now el st = Normal st.
Proof.
  intros Hd Hch Hn.
  set (tg := target_of (getContext (e :: ch)) (e :: ch) e).
  pose proof (target_found _ _ _ _ (getContext (e :: ch)) Hd Hch) as Hfind.
  fold tg in Hfind.
  destruct (processUserElement_cases now el st) as
    [->|(e0 & ch0 & n0 & st1 & Hch0 & Hn0 & _ & Hctx & Hst1 & Hend)].
  { split; [apply reconciled_same, Hfind | reflexivity]. }
  rewrite Hch in Hch0. injection Hch0 as <- <-.
  rewrite Hn in Hn0. injection Hn0 as <-.
  cbn zeta in Hst1. fold tg in Hst1.
  (* the state after the wrong avatar, if any, is detached *)
  assert (H1 : exists tg1,
             find_node (node_id tg) (doc st1) = Some tg1 /\
             node_id tg1 = node_id tg /\
             avatars_of tg1 `sublist_of` tail (avatars_of tg) /\
             pruned (doc st) (doc st1)).
  { destruct (detach_first tg) as (Hid & Hsub & Hnone).
    destruct Hst1 as [[Eq ->]|(old & Eq & Hsn & ->)].
    - exists tg. split; [exact Hfind|]. split; [reflexivity|].
      rewrite (querySelector_None_avatars _ Eq). split; [reflexivity|].
      apply pruned_refl.
    - exists (fst (remove_first is_avatar tg)). cbn [doc set_doc].
      split; [|split; [exact Hid|split; [exact Hsub|]]].
      + rewrite find_node_update by (intros; apply node_id_remove_first).
        rewrite Hfind. reflexivity.
      + apply update_node_pruned. intros m. apply remove_first_pruned. }
  destruct H1 as (tg1 & Hf1 & Hid1 & Hsub1 & Hpr).
  split.
  2:{ intros old Hq Hrec. exfalso.
      destruct Hst1 as [[Eq _]|(old' & Eq & Hsn & _)]; [congruence|].
      rewrite Hq in Eq. injection Eq as <-.
      apply same_nick_records in Hrec. congruence. }
  assert (Hkeep : forall st', doc st' = doc st1 -> reconciled n tg st st').
  { intros st' Hdoc. eapply reconciled_intro with (kept := avatars_of tg1);
      [rewrite Hdoc; exact Hf1 | exact Hsub1 | left; reflexivity]. }
  destruct Hend as [(en & _ & _ & ->)|[[_ ->]|[[_ ->]|[_ ->]]]]; cbn [outcome_of].
  - (* a cached URL: injectAvatar runs on the page as it is now *)
    destruct (chain_pruned el _ _ _ Hpr Hd Hch) as [Hnone|(ch' & Hch' & Hsame)].
    + unfold injectAvatar. rewrite Hnone. apply Hkeep. reflexivity.
    + destruct ch' as [|e' ch'']; [inversion Hsame|].
      pose proof (getContext_same_chain _ _ Hsame) as Hc.
      pose proof (target_id_same_chain (getContext (e :: ch)) _ _ _ _ Hsame) as Hid'.
      pose proof (pruned_distinct_ids _ _ Hpr Hd) as Hd1.
      destruct (injectAvatar_reconciles el n (url en) st1 e' ch'' Hd1 Hch')
        as [(tg' & Hf' & _ & Hform) _]; [rewrite Hc; exact Hctx|].
      rewrite Hc in Hf', Hform.
      pose proof (target_found _ _ _ _ (getContext (e :: ch)) Hd1 Hch') as Hfind1.
      rewrite Hid' in Hf', Hfind1. fold tg in Hf', Hfind1.
      rewrite Hf1 in Hfind1. injection Hfind1 as Htg1.
      rewrite <- Htg1 in Hform.
      destruct Hform as [->|(kept & Hk & Hav)].
      * apply Hkeep. reflexivity.
      * eapply reconciled_intro; [exact Hf'| |exact Hav].
        etrans; [exact Hk|]. etrans; [apply sublist_tail | exact Hsub1].
  - apply Hkeep. reflexivity.
  - apply Hkeep. rewrite enqueue_doc. reflexivity.
  - apply Hkeep. apply enqueue_doc.
Qed.

End Reconciliation.

(* ================================================================== *)
(** * Properties of avatars.js: settled requests *)
(* ================================================================== *)

Section SettledRequests.
Import Dom Avatars.

(** With a string for the URL nothing in the injection raises. *)
Lemma injectAvatar_string el n s st : threw (injectAvatar el n (JStr s) st) = false.
Proof.
  unfold injectAvatar. cbn [createAvatarEl].
  repeat (case_match; try reflexivity).
Qed.

Lemma injectAll_string els n s st :
  injectAll els n (JStr s) st = Normal (outcome_of (injectAll els n (JStr s) st)).
Proof.
  revert st. induction els as [|el els IH]; intros st; [reflexivity|].
  simpl. pose proof (injectAvatar_string el n s st) as H.
  destruct (injectAvatar el n (JStr s) st); [apply IH | discriminate].
Qed.

Lemma cache_of_control st st' : control st' = control st -> cache st' = cache st.
Proof. unfold control. intros [= -> _ _ _ _]. reflexivity. Qed.

(** *** The keys of the lookups *)

Lemma own_keys_control st st' : control st' = control st -> own_keys st -> own_keys st'.
Proof. unfold control, own_keys. intros [= _ -> _ -> _]. tauto. Qed.

Lemma enqueue_own_keys n st : own_keys st -> own_keys (enqueue n st).
Proof.
  unfold own_keys, enqueue, cache_get. intros H.
  destruct (cache st !! _); [exact H|].
  destruct (inherited_name _) eqn:E; [exact H|].
  destruct (queued _ _); [exact H|].
  apply Forall_app in H as [Hq Hi].
  unfold drainQueue. apply drain_lookups; [|exact Hi]. simpl.
  apply Forall_app. split; [exact Hq|]. repeat constructor. exact E.
Qed.

Lemma processUserElement_own_keys now el st :
  own_keys st -> own_keys (outcome_of (processUserElement now el st)).
Proof.
  intros H. unfold processUserElement.
  repeat (case_match; simpl; try exact H);
    try (apply enqueue_own_keys; exact H);
    try (eapply own_keys_control; [apply injectAvatar_control|]; exact H).
Qed.

Lemma scan_own_keys clock els st :
  own_keys st -> own_keys (outcome_of (scan clock els st)).
Proof.
  revert clock st. induction els as [|el els IH]; intros clock st H; simpl; [exact H|].
  pose proof (processUserElement_own_keys (clock 0%nat) el st H) as H'.
  destruct (processUserElement (clock 0%nat) el st); simpl in *; auto.
Qed.

(** In every reachable state the key of a lookup is none of the names
    that the cache inherits. *)
Lemma reachable_own_keys st : reachable st -> own_keys st.
Proof.
  induction 1 as [st (Hc & Hq & Ha & Hi & _)|st st' _ IH Hstep].
  - unfold own_keys. rewrite Hq, Hi. constructor.
  - destruct Hstep as
      [clock st|i it data now st st' _ Hraise|i it r now st Hnth|j it st Hnth|d' st _].
    + apply scan_own_keys, IH.
    + pose proof (on_data_control it data now st) as Hc. rewrite Hraise in Hc.
      cbn [outcome_of] in Hc. destruct Hc as (Hq' & _ & Hi' & _).
      unfold own_keys. rewrite Hq', Hi'. exact IH.
    + destruct (settle_control it r now st) as (Hq' & Ha' & Hi' & Hs').
      unfold own_keys in *. simpl. rewrite Hq'.
      apply Forall_app in IH as [Hlq Hli]. apply Forall_app. split; [exact Hlq|].
      apply Forall_remove_nth, Hli.
    + unfold own_keys in *. apply Forall_app in IH as [Hlq Hli].
      unfold on_finally, drainQueue. apply drain_lookups; simpl; assumption.
    + exact IH.
Qed.

(** C3 to the letter fails: an empty [avatar_url] is neither [null] nor
    the static avatar, and it is cached as [null]. *)
Lemma empty_avatar_url_is_cached_negative : ~ not_null_not_static_is_cached.
Proof.
  intros H.
  specialize (H (start sample_page) (Item "alice" "alice")
                (JObj [("avatar_url", JStr EmptyString)]) EmptyString 1000
                eq_refl eq_refl eq_refl).
  vm_compute in H. discriminate H.
Qed.

End SettledRequests.

(* ================================================================== *)
(** * Properties of avatars.js: duplicate lookups *)
(* ================================================================== *)

Section DuplicateLookups.
Import Dom Avatars.

(** What [enqueue] does check. *)
Lemma enqueue_cached_or_queued n st :
  cache_get (cache st) (JsString.toLowerCase n) <> Undefined \/
  queued (JsString.toLowerCase n) (queue st) = true ->
  enqueue n st = st.
Proof.
  unfold enqueue. intros [H|H].
  - destruct (cache_get _ _); [congruence | reflexivity | reflexivity].
  - rewrite H. destruct (cache_get _ _); reflexivity.
Qed.

Lemma drain_suffix q st : exists pulled, q = pulled ++ queue (drain q st).
Proof.
  revert st. induction q as [|it q IH]; intros st; simpl.
  - exists []. reflexivity.
  - destruct (activeCount st <? MAX_CONCURRENT).
    + destruct (IH (doFetch it (set_queue q st))) as [p Hp].
      exists (it :: p). simpl. f_equal. exact Hp.
    + exists []. reflexivity.
Qed.

Lemma drainQueue_distinct st :
  NoDup (map key (queue st)) -> NoDup (map key (queue (drainQueue st))).
Proof.
  intros H. unfold drainQueue.
  destruct (drain_suffix (queue st) st) as [p Hp].
  rewrite Hp, map_app in H. apply NoDup_app in H. tauto.
Qed.

Lemma queued_elem k q : queued k q = false -> k ∉ map key q.
Proof.
  induction q as [|it q IH]; simpl; [intros _; apply not_elem_of_nil|].
  intros H. apply orb_false_iff in H as [H1 H2].
  apply not_elem_of_cons. split; [|apply IH, H2].
  apply String.eqb_neq in H1. congruence.
Qed.

Lemma enqueue_distinct n st :
  NoDup (map key (queue st)) -> NoDup (map key (queue (enqueue n st))).
Proof.
  intros H. unfold enqueue. destruct (cache_get _ _); try exact H.
  destruct (queued _ _) eqn:Eq; [exact H|].
  apply drainQueue_distinct. simpl. rewrite map_app. apply NoDup_app.
  split; [exact H|]. split; [|repeat constructor; apply not_elem_of_nil].
  intros k Hk Hk'. simpl in Hk'. apply list_elem_of_singleton in Hk'. subst k.
  eapply queued_elem; eassumption.
Qed.

Lemma queue_of_control st st' : control st' = control st -> queue st' = queue st.
Proof. unfold control. intros [= _ -> _ _ _]. reflexivity. Qed.

Lemma processUserElement_distinct now el st :
  NoDup (map key (queue st)) ->
  NoDup (map key (queue (outcome_of (processUserElement now el st)))).
Proof.
  intros H.
  destruct (processUserElement_cases now el st) as
    [->|(e & ch & n & st1 & _ & _ & _ & _ & Hst1 & Hend)]; [exact H|].
  assert (H1 : queue st1 = queue st)
    by (destruct Hst1 as [[_ ->]|(? & _ & _ & ->)]; reflexivity).
  destruct Hend as [(en & _ & _ & ->)|[[_ ->]|[[_ ->]|[_ ->]]]]; cbn [outcome_of].
  - rewrite (queue_of_control st1) by apply injectAvatar_control. rewrite H1. exact H.
  - rewrite H1. exact H.
  - apply enqueue_distinct. simpl. rewrite H1. exact H.
  - apply enqueue_distinct. rewrite H1. exact H.
Qed.

(** The part of C2 that holds: no two queued lookups have the same
    key. *)
Lemma queue_keys_distinct st : reachable st -> NoDup (map key (queue st)).
Proof.
  induction 1 as [st (_ & Hq & _)|st st' _ IH Hstep].
  - rewrite Hq. constructor.
  - destruct Hstep as
      [clock st|i it data now st st' _ Hraise|i it r now st Hnth|j it st Hnth|d' st _];
      [| | | |exact IH].
    + unfold scanAll. generalize (map node_id (select_in_chat is_user false (doc st))).
      intros els. revert clock st IH.
      induction els as [|el els IHels]; intros clock st IH; [exact IH|].
      simpl. pose proof (processUserElement_distinct (clock 0%nat) el st IH) as H'.
      destruct (processUserElement (clock 0%nat) el st); simpl in *; auto.
    + pose proof (on_data_control it data now st) as Hc. rewrite Hraise in Hc.
      cbn [outcome_of] in Hc. destruct Hc as (Hq & _). rewrite Hq. exact IH.
    + simpl. destruct (settle_control it r now st) as (Hq & _). rewrite Hq. exact IH.
    + apply drainQueue_distinct. exact IH.
Qed.

(** The part of C4 that holds: while a [null] entry is younger than
    [NEGATIVE_TTL], processing a name element of that nickname starts
    and queues nothing and keeps the cache. *)
Lemma negative_entry_is_not_requeried now el st e ch n en :
  chain_to el (doc st) = Some (e :: ch) ->
  getAttribute "data-name" e = Some n ->
  cache st !! JsString.toLowerCase n = Some en ->
  truthy (url en) = false ->
  now - ts en < NEGATIVE_TTL ->
  control (outcome_of (processUserElement now el st)) = control st.
Proof.
  intros Hch Hn Hc Hu Hage.
  assert (Hget : cache_get (cache st) (JsString.toLowerCase n) = Own en)
    by (unfold cache_get; rewrite Hc; reflexivity).
  destruct (processUserElement_cases now el st) as
    [->|(e0 & ch0 & n0 & st1 & Hch0 & Hn0 & _ & _ & Hst1 & Hend)]; [reflexivity|].
  rewrite Hch in Hch0. injection Hch0 as <- <-.
  rewrite Hn in Hn0. injection Hn0 as <-.
  assert (H1 : control st1 = control st)
    by (destruct Hst1 as [[_ ->]|(? & _ & _ & ->)]; reflexivity).
  rewrite Hget in Hend.
  destruct Hend as [(en' & [= <-] & Ht & _)|[[_ ->]|[[(en' & [= <-] & _ & Hold) _]|[Hno _]]]].
  - congruence.
  - exact H1.
  - lia.
  - exfalso. eapply Hno. reflexivity.
Qed.

(** Steps of sample runs. *)
Lemma remove_nth_last {A} (l : list A) x : remove_nth (length l) (l ++ [x]) = l.
Proof.
  unfold remove_nth.
  rewrite firstn_app, firstn_all, Nat.sub_diag. simpl.
  rewrite skipn_all2 by (rewrite length_app; simpl; lia).
  rewrite !app_nil_r. reflexivity.
Qed.

Lemma reachable_start page :
  filter is_avatar (subtree page) = [] -> reachable (start page).
Proof. intros H. apply reach_init. repeat split. exact H. Qed.

Lemma reachable_scan clock st :
  reachable st -> reachable (outcome_of (scanAll clock st)).
Proof. intros H. eapply reach_step; [exact H | apply step_scan]. Qed.

(** [complete] is a step in which the result is handled followed by
    the step of [.finally]. *)
Lemma reachable_complete i r now st :
  reachable st -> (i < length (inflight st))%nat -> reachable (complete i r now st).
Proof.
  intros H Hi. unfold complete.
  destruct (nth_error (inflight st) i) as [it|] eqn:E.
  2:{ apply nth_error_None in E. lia. }
  pose proof (reach_step _ _ H (step_settle i it r now st E)) as H1.
  assert (Hj : nth_error (settled st ++ [it]) (length (settled st)) = Some it).
  { rewrite nth_error_app2 by lia. rewrite Nat.sub_diag. reflexivity. }
  pose proof (reach_step _ _ H1
                (step_finally (length (settled st)) it
                   (set_settled (settled st ++ [it])
                      (set_inflight (remove_nth i (inflight st))
                         (settle it r now st))) Hj)) as H2.
  cbn [settled set_settled set_inflight] in H2.
  rewrite remove_nth_last in H2.
  destruct (settle_control it r now st) as (_ & _ & _ & Hs).
  replace (set_inflight (remove_nth i (inflight st)) (settle it r now st))
    with (set_settled (settled st)
            (set_settled (settled st ++ [it])
               (set_inflight (remove_nth i (inflight st)) (settle it r now st)))).
  - exact H2.
  - unfold set_settled, set_inflight. cbn. rewrite Hs. reflexivity.
Qed.

(** C2 fails on the script.  One scan of a nick list with alice, bob,
    carol, dave and Alice starts three requests and queues dave and
    Alice, whose key [alice] already has a request in flight.  When that
    request is answered, with no avatar, the key is in the cache and
    still in the queue, and when the next request is answered a second
    request for the same key is sent. *)
Theorem key_in_flight_is_queued_again :
  let st1 := outcome_of (scanAll (at_time 0) (start busy_page)) in
  let st2 := complete 0 (avatar_json JNull) 10 st1 in
  let st3 := complete 0 (avatar_json JNull) 20 st2 in
  reachable st3 /\
  inflight st1 = [Item "alice" "alice"; Item "bob" "bob"; Item "carol" "carol"] /\
  queue st1 = [Item "dave" "dave"; Item "Alice" "alice"] /\
  cache st2 !! "alice" = Some (Entry JNull 10) /\
  queue st2 = [Item "Alice" "alice"] /\
  inflight st2 = [Item "bob" "bob"; Item "carol" "carol"; Item "dave" "dave"] /\
  inflight st3 = [Item "carol" "carol"; Item "dave" "dave"; Item "Alice" "alice"].
Proof.
  intros st1 st2 st3. split; [|vm_compute; repeat split; reflexivity].
  apply reachable_complete; [apply reachable_complete;
    [apply reachable_scan, reachable_start; reflexivity|]|]; vm_compute; lia.
Qed.

(** C4 fails on the script.  With bob in the nick list and in a message,
    and a [null] entry for bob written at time 0: a scan one millisecond
    before [NEGATIVE_TTL] asks nothing, and the scan at [NEGATIVE_TTL]
    evicts the entry and sends two requests for bob, one per name
    element. *)
Theorem expired_entry_is_requeried_per_element :
  let st0 := complete 0 (avatar_json JNull) 0
               (complete 0 (avatar_json JNull) 0
                  (outcome_of (scanAll (at_time 0) (start bob_page)))) in
  let early := outcome_of (scanAll (at_time (NEGATIVE_TTL - 1)) st0) in
  let late := outcome_of (scanAll (at_time NEGATIVE_TTL) st0) in
  reachable late /\
  cache st0 !! "bob" = Some (Entry JNull 0) /\
  queue st0 = [] /\ inflight st0 = [] /\ activeCount st0 = 0 /\
  early = st0 /\
  cache late !! "bob" = None /\
  queue late = [] /\
  inflight late = [Item "bob" "bob"; Item "bob" "bob"].
Proof.
  intros st0 early late. split; [|vm_compute; repeat split; reflexivity].
  apply reachable_scan, reachable_complete; [apply reachable_complete;
    [apply reachable_scan, reachable_start; reflexivity|]|]; vm_compute; lia.
Qed.

End DuplicateLookups.

#[local] Arguments String.append : simpl nomatch.

(* ================================================================== *)
(** * Facts about strings and JSON text *)
(* ================================================================== *)

Section StringFacts.

Lemma app_assoc_s (a b c : string) : (a +:+ b) +:+ c = a +:+ (b +:+ c).
Proof. induction a as [|x a IH]; simpl; [reflexivity | rewrite IH; reflexivity]. Qed.

Lemma app_nil_r_s (a : string) : a +:+ EmptyString = a.
Proof. induction a as [|x a IH]; simpl; [reflexivity | rewrite IH; reflexivity]. Qed.

Lemma length_app_s (a b : string) :
  String.length (a +:+ b) = (String.length a + String.length b)%nat.
Proof. induction a as [|x a IH]; simpl; [reflexivity | rewrite IH; reflexivity]. Qed.

Lemma all_chars_app p (a b : string) :
  JsString.all_chars p (a +:+ b) = JsString.all_chars p a && JsString.all_chars p b.
Proof.
  induction a as [|x a IH]; simpl; [reflexivity|].
  rewrite IH, andb_assoc. reflexivity.
Qed.

Lemma all_chars_impl (p q : ascii -> bool) s :
  (forall c, p c = true -> q c = true) ->
  JsString.all_chars p s = true -> JsString.all_chars q s = true.
Proof.
  intros H. induction s as [|c s IH]; simpl; [reflexivity|].
  intros Hs. apply andb_true_iff in Hs as [H1 H2].
  rewrite (H c H1), (IH H2). reflexivity.
Qed.

Lemma strip_prefix_app p s : JsString.strip_prefix p (p +:+ s) = Some s.
Proof.
  induction p as [|c p IH]; simpl; [reflexivity|].
  rewrite Ascii.eqb_refl. exact IH.
Qed.

Lemma strip_prefix_length p s r :
  JsString.strip_prefix p s = Some r ->
  String.length s = (String.length p + String.length r)%nat.
Proof.
  revert s. induction p as [|c p IH]; intros s; simpl.
  - intros [= ->]. reflexivity.
  - destruct s as [|d s]; [discriminate|].
    destruct (Ascii.eqb c d); [|discriminate].
    intros H. simpl. rewrite (IH _ H). reflexivity.
Qed.

Lemma skip_space_length s :
  (String.length (JsString.skip_space s) <= String.length s)%nat.
Proof.
  induction s as [|c s IH]; simpl; [lia|].
  destruct (JsString.is_space c); simpl; lia.
Qed.

Lemma skip_space_solid c s :
  solid c = true -> JsString.skip_space (String c s) = String c s.
Proof.
  unfold solid. intros H. apply andb_true_iff in H as [H _].
  simpl. destruct (JsString.is_space c); [discriminate | reflexivity].
Qed.

(** *** Trimming *)

Lemma trim_end_nonspace s :
  JsString.all_chars (fun c => negb (JsString.is_space c)) s = true ->
  JsString.trim_end s = s.
Proof.
  induction s as [|c s IH]; simpl; [reflexivity|].
  intros H. apply andb_true_iff in H as [Hc Hs]. rewrite (IH Hs).
  destruct s; [|reflexivity].
  destruct (JsString.is_space c); [discriminate | reflexivity].
Qed.

Lemma trim_end_length s :
  (String.length (JsString.trim_end s) <= String.length s)%nat.
Proof.
  induction s as [|c s IH]; simpl; [lia|].
  destruct (JsString.trim_end s); [destruct (JsString.is_space c)|]; simpl in *; lia.
Qed.

Lemma trim_end_same_length s :
  String.length (JsString.trim_end s) = String.length s -> JsString.trim_end s = s.
Proof.
  induction s as [|c s IH]; simpl; [reflexivity|].
  pose proof (trim_end_length s) as Hle.
  destruct (JsString.trim_end s) as [|d r] eqn:E.
  - destruct (JsString.is_space c); simpl; intros H.
    + discriminate.
    + f_equal. apply IH. simpl in *. lia.
  - simpl. intros H. f_equal. apply IH. simpl in *. lia.
Qed.

Lemma skip_space_same_length s :
  String.length (JsString.skip_space s) = String.length s -> JsString.skip_space s = s.
Proof.
  destruct s as [|c s]; simpl; [reflexivity|].
  pose proof (skip_space_length s).
  destruct (JsString.is_space c); simpl; [lia | reflexivity].
Qed.

Lemma trim_length s : (String.length (JsString.trim s) <= String.length s)%nat.
Proof.
  unfold JsString.trim. pose proof (skip_space_length s).
  pose proof (trim_end_length (JsString.skip_space s)). lia.
Qed.

Lemma trim_same_length s :
  String.length (JsString.trim s) = String.length s -> JsString.trim s = s.
Proof.
  unfold JsString.trim. intros H.
  pose proof (skip_space_length s).
  pose proof (trim_end_length (JsString.skip_space s)).
  assert (E : JsString.skip_space s = s) by (apply skip_space_same_length; lia).
  rewrite E in *. apply trim_end_same_length, H.
Qed.

(** A trimmed text does not begin with white space. *)
Lemma trim_end_head s c r :
  JsString.trim_end s = String c r -> exists r', s = String c r'.
Proof.
  destruct s as [|d s]; simpl; [discriminate|].
  destruct (JsString.trim_end s); [destruct (JsString.is_space d)|];
    intros [= <- _]; eauto.
Qed.

Lemma skip_space_head s c r :
  JsString.skip_space s = String c r -> JsString.is_space c = false.
Proof.
  induction s as [|d s IH]; simpl; [discriminate|].
  destruct (JsString.is_space d) eqn:E; [exact IH|].
  intros [= <- _]. exact E.
Qed.

Lemma skip_space_trim s : JsString.skip_space (JsString.trim s) = JsString.trim s.
Proof.
  unfold JsString.trim.
  destruct (JsString.trim_end (JsString.skip_space s)) as [|c r] eqn:E; [reflexivity|].
  destruct (trim_end_head _ _ _ E) as [r' Hr'].
  apply skip_space_head in Hr'. simpl. rewrite Hr'. reflexivity.
Qed.

End StringFacts.

Section JsonFacts.

Lemma code_inj c d : JsString.code c = JsString.code d -> c = d.
Proof.
  unfold JsString.code. intros H.
  rewrite <- (ascii_N_embedding c), <- (ascii_N_embedding d), H. reflexivity.
Qed.

Lemma eqb_code c d : Ascii.eqb c d = (JsString.code c =? JsString.code d)%N.
Proof.
  destruct (Ascii.eqb_spec c d) as [->|Hne].
  - symmetry. apply N.eqb_refl.
  - symmetry. apply N.eqb_neq. intros H. apply Hne, code_inj, H.
Qed.

Lemma tidy_facts c :
  tidy c = true ->
  Ascii.eqb c Json.quote = false /\ Ascii.eqb c Json.backslash = false /\
  (JsString.code c <? 32)%N = false /\ solid c = true /\
  Json.escape_char c = String c EmptyString.
Proof.
  unfold tidy, Json.escape_char. rewrite !eqb_code.
  change (JsString.code Json.quote) with 34%N.
  change (JsString.code Json.backslash) with 92%N.
  intros H. repeat (apply andb_true_iff in H as [H ?]).
  repeat match goal with
         | H : negb _ = true |- _ => apply negb_true_iff in H
         end.
  match goal with H : (32 <? _)%N = true |- _ => apply N.ltb_lt in H end.
  assert (E32 : (JsString.code c <? 32)%N = false) by (apply N.ltb_ge; lia).
  repeat match goal with
         | H : (_ =? _)%N = false |- _ => rewrite H
         end.
  rewrite E32.
  split; [reflexivity|]. split; [reflexivity|]. split; [reflexivity|].
  split; [unfold solid; rewrite H, H3; reflexivity|].
  assert (forall k, (k < 32)%N -> (JsString.code c =? k)%N = false)
    as Hk by (intros k Hk; apply N.eqb_neq; lia).
  rewrite !Hk by lia. reflexivity.
Qed.

Lemma escape_tidy s : JsString.all_chars tidy s = true -> Json.escape s = s.
Proof.
  induction s as [|c s IH]; simpl; [reflexivity|].
  intros H. apply andb_true_iff in H as [Hc Hs].
  destruct (tidy_facts c Hc) as (_ & _ & _ & _ & ->). rewrite (IH Hs). reflexivity.
Qed.

Lemma quoted_tidy s :
  JsString.all_chars tidy s = true ->
  Json.quoted s = String Json.quote (s +:+ String Json.quote EmptyString).
Proof. intros H. unfold Json.quoted. rewrite (escape_tidy s H). reflexivity. Qed.

Lemma parse_chars_tidy s rest :
  JsString.all_chars tidy s = true ->
  Json.parse_chars (s +:+ String Json.quote rest) = Some (s, rest).
Proof.
  induction s as [|c s IH]; intros H.
  - reflexivity.
  - simpl in H. apply andb_true_iff in H as [Hc Hs].
    destruct (tidy_facts c Hc) as (Hq & Hb & H32 & _).
    simpl. rewrite Hq, Hb, H32, (IH Hs). reflexivity.
Qed.

Lemma stringify_JObj o :
  Json.stringify (JObj o) = "{" +:+ props_text o +:+ "}".
Proof.
  reflexivity.
Qed.

Lemma parse_value_quote f x :
  Json.parse_value (S f) (String Json.quote x) =
  match Json.parse_chars x with
  | Some (str, r') => Some (JStr str, r')
  | None => None
  end.
Proof. reflexivity. Qed.

Lemma parse_members_quote f x :
  Json.parse_members (S f) (String Json.quote x) =
  match Json.parse_chars x with
  | Some (k, r1) =>
      if Json.next_is ":" (Json.skip_ws r1) then
        match Json.parse_value f (Json.rest_of (Json.skip_ws r1)) with
        | Some (v, r3) =>
            if Json.next_is "," (Json.skip_ws r3) then
              match Json.parse_members f (Json.rest_of (Json.skip_ws r3)) with
              | Some (l, r5) => Some ((k, v) :: l, r5)
              | None => None
              end
            else if Json.next_is "}" (Json.skip_ws r3)
            then Some ([(k, v)], Json.rest_of (Json.skip_ws r3))
            else None
        | None => None
        end
      else None
  | None => None
  end.
Proof. reflexivity. Qed.

Lemma quoted_app_tidy s rest :
  JsString.all_chars tidy s = true ->
  Json.quoted s +:+ rest = String Json.quote (s +:+ String Json.quote rest).
Proof.
  intros H. rewrite (quoted_tidy s H). cbn [String.append].
  rewrite app_assoc_s. reflexivity.
Qed.

Lemma parse_value_flat f v rest :
  flat_value v = true ->
  Json.parse_value (S f) (Json.stringify v +:+ rest) = Some (v, rest).
Proof.
  destruct v as [|[]| |s| |]; try discriminate; intros H; try reflexivity.
  simpl in H. cbn [Json.stringify]. rewrite (quoted_app_tidy s rest H).
  rewrite parse_value_quote, (parse_chars_tidy s rest H). reflexivity.
Qed.

Lemma parse_members_flat o : forall f rest,
  o <> [] -> flat_object o = true -> (length o < f)%nat ->
  Json.parse_members f (props_text o +:+ String "}" rest) = Some (o, rest).
Proof.
  induction o as [|[k v] o IH]; intros f rest Hne Hflat Hf; [congruence|].
  simpl in Hflat. apply andb_true_iff in Hflat as [Hkv Ho].
  apply andb_true_iff in Hkv as [Hk Hv].
  destruct f as [|f]; [simpl in Hf; lia|].
  cbn [props_text]. rewrite !app_assoc_s, (quoted_app_tidy k _ Hk).
  rewrite parse_members_quote, (parse_chars_tidy k _ Hk).
  cbn [String.append]. cbn [Json.skip_ws].
  change (Json.is_ws ":") with false. cbn iota.
  cbn [Json.next_is Json.rest_of].
  change (Ascii.eqb ":" ":") with true. cbn iota.
  assert (Hv' : forall tail,
             Json.parse_value f (Json.stringify v +:+ tail) = Some (v, tail)).
  { intros tail. destruct f as [|f]; [simpl in Hf; lia|].
    apply parse_value_flat, Hv. }
  rewrite Hv'. destruct o as [|kv o].
  - reflexivity.
  - cbn iota. cbn [String.append].
    cbn [Json.skip_ws].
    change (Json.is_ws ",") with false. cbn iota.
    cbn [Json.next_is Json.rest_of].
    change (Ascii.eqb "," ",") with true. cbn iota.
    rewrite IH; [reflexivity | discriminate | exact Ho | simpl in *; lia].
Qed.

Lemma get_set_named_same k v o : Obj.get k (Obj.set_named k v o) = Some v.
Proof.
  induction o as [|[k' v'] o IH]; simpl.
  - rewrite String.eqb_refl. reflexivity.
  - destruct (String.eqb k k') eqn:E; simpl; rewrite ?String.eqb_refl, ?E; auto.
Qed.

Lemma get_set_named_other k k' v o :
  k <> k' -> Obj.get k (Obj.set_named k' v o) = Obj.get k o.
Proof.
  intros Hne. induction o as [|[k'' v''] o IH]; simpl.
  - apply String.eqb_neq in Hne. rewrite Hne. reflexivity.
  - destruct (String.eqb k' k'') eqn:E; simpl.
    + apply String.eqb_eq in E. subst k''.
      apply String.eqb_neq in Hne. rewrite Hne. reflexivity.
    + destruct (String.eqb k k''); [reflexivity | exact IH].
Qed.

Lemma get_insert_index_same n k v o :
  Obj.index_of k = Some n -> Obj.get k (Obj.insert_index n k v o) = Some v.
Proof.
  intros Hk. induction o as [|[k' v'] o IH]; cbn [Obj.insert_index Obj.get].
  - rewrite String.eqb_refl. reflexivity.
  - destruct (Obj.index_of k') as [m|] eqn:Ek'.
    + destruct (m <? n)%N eqn:Em; cbn [Obj.get].
      * destruct (String.eqb_spec k k') as [->|_]; [|exact IH].
        rewrite Hk in Ek'. injection Ek' as ->. apply N.ltb_lt in Em. lia.
      * rewrite String.eqb_refl. reflexivity.
    + cbn [Obj.get]. rewrite String.eqb_refl. reflexivity.
Qed.

Lemma get_insert_index_other n k k' v o :
  k <> k' -> Obj.get k (Obj.insert_index n k' v o) = Obj.get k o.
Proof.
  intros Hne. apply String.eqb_neq in Hne.
  induction o as [|[k'' v''] o IH]; cbn [Obj.insert_index Obj.get].
  - rewrite Hne. reflexivity.
  - destruct (Obj.index_of k'') as [m|]; [destruct (m <? n)%N|];
      cbn [Obj.get]; rewrite ?Hne; try reflexivity.
    destruct (String.eqb k k''); [reflexivity | exact IH].
Qed.

Lemma get_set_same k v o : Obj.get k (Obj.set k v o) = Some v.
Proof.
  unfold Obj.set.
  destruct (Obj.index_of k) as [n|] eqn:E; [destruct (Obj.has k o)|];
    try apply get_set_named_same.
  apply get_insert_index_same, E.
Qed.

Lemma get_set_other k k' v o : k <> k' -> Obj.get k (Obj.set k' v o) = Obj.get k o.
Proof.
  intros Hne. unfold Obj.set.
  destruct (Obj.index_of k') as [n|]; [destruct (Obj.has k' o)|];
    try (apply get_set_named_other, Hne).
  apply get_insert_index_other, Hne.
Qed.

Lemma get_None_keys k o : Obj.get k o = None <-> k ∉ Obj.keys o.
Proof.
  induction o as [|[k' v'] o IH]; simpl.
  - split; [intros _; apply not_elem_of_nil | reflexivity].
  - rewrite not_elem_of_cons. destruct (String.eqb_spec k k') as [->|Hne].
    + split; [discriminate | intros [? _]; congruence].
    + rewrite IH. tauto.
Qed.

Lemma set_fresh_key k v o :
  Obj.index_of k = None -> k ∉ Obj.keys o -> Obj.set k v o = o ++ [(k, v)].
Proof.
  intros Hi. unfold Obj.set. rewrite Hi.
  induction o as [|[k' v'] o IH]; simpl; [reflexivity|].
  rewrite not_elem_of_cons. intros [Hne Hk].
  apply String.eqb_neq in Hne. rewrite Hne, (IH Hk). reflexivity.
Qed.

(** Members with distinct names, none an array index, make the object
    that lists them in their order. *)
Lemma object_of_distinct o :
  Forall (fun k => Obj.index_of k = None) (Obj.keys o) ->
  NoDup (Obj.keys o) -> Json.object_of o = o.
Proof.
  unfold Json.object_of.
  enough (H : forall acc,
                Forall (fun k => Obj.index_of k = None) (Obj.keys o) ->
                NoDup (Obj.keys (acc ++ o)) ->
                fold_left (fun a kv => Obj.set (fst kv) (snd kv) a) o acc = acc ++ o)
    by (intros Hi Hd; apply (H [] Hi Hd)).
  induction o as [|[k v] o IH]; intros acc Hi Hd; simpl.
  - rewrite app_nil_r. reflexivity.
  - simpl in Hi. apply Forall_cons in Hi as [Hk Hi].
    replace (acc ++ (k, v) :: o) with ((acc ++ [(k, v)]) ++ o) in *
      by (rewrite <- app_assoc; reflexivity).
    rewrite set_fresh_key; [apply IH; assumption|exact Hk|].
    unfold Obj.keys in Hd. rewrite !map_app in Hd.
    apply NoDup_app in Hd as (Hd & _). apply NoDup_app in Hd as (_ & Hdis & _).
    intros Hin. apply (Hdis k Hin). simpl. apply list_elem_of_here.
Qed.

Lemma props_text_length o : (length o <= String.length (props_text o))%nat.
Proof.
  induction o as [|[k v] o IH]; simpl; [lia|].
  rewrite !length_app_s. unfold Json.quoted. simpl.
  destruct o; simpl in *; [lia|]. rewrite ?length_app_s in *. simpl in *. lia.
Qed.

(** [JSON.parse] undoes [JSON.stringify] on a flat object with distinct
    names, none an array index. *)
Lemma parse_stringify_flat o :
  flat_object o = true ->
  Forall (fun k => Obj.index_of k = None) (Obj.keys o) ->
  NoDup (Obj.keys o) ->
  Json.parse (Json.stringify (JObj o)) = Some (JObj o).
Proof.
  intros Hflat Hi Hd. unfold Json.parse. rewrite stringify_JObj.
  set (text := "{" +:+ props_text o +:+ "}").
  assert (Hlen : (length o < 2 * String.length text + 1)%nat).
  { subst text. cbn [String.append String.length]. rewrite length_app_s.
    pose proof (props_text_length o). lia. }
  replace (2 * String.length text + 2)%nat with (S (2 * String.length text + 1)) by lia.
  generalize dependent (2 * String.length text + 1)%nat. intros f Hf.
  subst text. destruct o as [|kv o]; [reflexivity|].
  remember (kv :: o) as o' eqn:Eo.
  assert (Hstart : exists r, props_text o' +:+ "}" = String Json.quote r).
  { subst o'. destruct kv as [k v]. cbn [props_text]. unfold Json.quoted.
    cbn [String.append]. eauto. }
  destruct Hstart as (r & Hr).
  assert (Hval : Json.parse_value (S f) ("{" +:+ props_text o' +:+ "}") =
                 match Json.parse_members f (props_text o' +:+ "}") with
                 | Some (l, r') => Some (JObj (Json.object_of l), r')
                 | None => None
                 end).
  { rewrite Hr. reflexivity. }
  rewrite Hval.
  rewrite (parse_members_flat o' f EmptyString); [|subst o'; discriminate|exact Hflat|exact Hf].
  rewrite (object_of_distinct o' Hi Hd). reflexivity.
Qed.

Lemma stringify_JObj_cons o :
  Json.stringify (JObj o) = String "{" (props_text o +:+ "}").
Proof. reflexivity. Qed.

End JsonFacts.

(* ================================================================== *)
(** * Properties of the colour settings *)
(* ================================================================== *)

Section ColorFacts.
Import Colors.

(** *** Objects *)

Lemma get_put_other k o kv :
  k <> fst kv -> Obj.get k (put o kv) = Obj.get k o.
Proof.
  intros Hne. unfold put. destruct (String.eqb (fst kv) "__proto__"); [reflexivity|].
  apply get_set_other, Hne.
Qed.

Lemma get_fold_put_absent k props o :
  k ∉ Obj.keys props -> Obj.get k (fold_left put props o) = Obj.get k o.
Proof.
  revert o. induction props as [|kv props IH]; intros o Hk; [reflexivity|].
  simpl in Hk. apply not_elem_of_cons in Hk as [Hne Hk].
  simpl. rewrite (IH _ Hk). apply get_put_other, Hne.
Qed.

Lemma has_put k o kv :
  is_Some (Obj.get k o) -> is_Some (Obj.get k (put o kv)).
Proof.
  intros H. unfold put. destruct (String.eqb (fst kv) "__proto__"); [exact H|].
  destruct (String.eqb_spec k (fst kv)) as [->|Hne].
  - rewrite get_set_same. eauto.
  - rewrite get_set_other by exact Hne. exact H.
Qed.

Lemma has_fold_put k props o :
  is_Some (Obj.get k o) -> is_Some (Obj.get k (fold_left put props o)).
Proof.
  revert o. induction props as [|kv props IH]; intros o H; [exact H|].
  simpl. apply IH, has_put, H.
Qed.

Lemma get_fold_put k props o :
  "__proto__" ∉ Obj.keys props -> NoDup (Obj.keys props) ->
  Obj.get k (fold_left put props o) =
  match Obj.get k props with Some v => Some v | None => Obj.get k o end.
Proof.
  revert o. induction props as [|[k' v'] props IH]; intros o Hp Hd; [reflexivity|].
  simpl in Hp, Hd. apply not_elem_of_cons in Hp as [Hne Hp].
  apply NoDup_cons in Hd as [Hk' Hd]. cbn [fold_left Obj.get].
  rewrite (IH _ Hp Hd). unfold put. cbn [fst snd].
  assert (E : String.eqb k' "__proto__" = false)
    by (apply String.eqb_neq; congruence).
  rewrite E. destruct (String.eqb_spec k k') as [->|Hkk].
  - assert (Obj.get k' props = None) as -> by (apply get_None_keys, Hk').
    apply get_set_same.
  - rewrite get_set_other by exact Hkk. reflexivity.
Qed.

Lemma assign_defaults : Object_assign [] [JObj DEFAULTS] = DEFAULTS.
Proof. reflexivity. Qed.


Lemma assign_sources_spec recovered : forall acc,
  let o := fold_left (fun o src => fold_left put (own_properties src) o) recovered acc in
  (forall k, is_Some (Obj.get k acc) -> is_Some (Obj.get k o)) /\
  (forall k,
     Forall (fun src => k ∉ Obj.keys (own_properties src)) recovered ->
     Obj.get k o = Obj.get k acc).
Proof.
  induction recovered as [|src rec IH]; intros acc; [split; auto|].
  cbn [fold_left].
  destruct (IH (fold_left put (own_properties src) acc)) as [IH1 IH2]. split.
  - intros k Hk. apply IH1, has_fold_put, Hk.
  - intros k Hk. apply Forall_cons in Hk as [Hsrc Hrec].
    rewrite (IH2 k Hrec). apply get_fold_put_absent, Hsrc.
Qed.

(** *** The loader *)




(** *** Valid settings *)

Lemma hex_digit_tidy c : JsString.is_hex_digit c = true -> tidy c = true.
Proof.
  destruct c as [[] [] [] [] [] [] [] []]; vm_compute; intros H;
    first [reflexivity | discriminate H].
Qed.

Lemma hex_color_tidy h : is_hex_color h = true -> JsString.all_chars tidy h = true.
Proof.
  destruct h as [|c r]; [discriminate|]. cbn [is_hex_color JsString.all_chars].
  intros H. apply andb_true_iff in H as [H Hr]. apply andb_true_iff in H as [Hc _].
  apply Ascii.eqb_eq in Hc. subst c.
  rewrite (all_chars_impl _ _ r hex_digit_tidy Hr). reflexivity.
Qed.

Lemma elem_of_get k v (o : Obj.t) :
  NoDup (Obj.keys o) -> (k, v) ∈ o -> Obj.get k o = Some v.
Proof.
  induction o as [|[k' v'] o IH]; intros Hd Hin; [inversion Hin|].
  simpl in Hd. apply NoDup_cons in Hd as [Hk' Hd].
  apply elem_of_cons in Hin as [[= -> ->]|Hin]; simpl.
  - rewrite String.eqb_refl. reflexivity.
  - destruct (String.eqb_spec k k') as [->|_]; [|apply IH; assumption].
    exfalso. apply Hk'. apply list_elem_of_In, in_map_iff.
    exists (k', v). split; [reflexivity | apply list_elem_of_In, Hin].
Qed.

Lemma get_elem_of k v (o : Obj.t) : Obj.get k o = Some v -> (k, v) ∈ o.
Proof.
  induction o as [|[k' v'] o IH]; simpl; [discriminate|].
  destruct (String.eqb_spec k k') as [->|_].
  - intros [= ->]. apply list_elem_of_here.
  - intros H. apply list_elem_of_further, IH, H.
Qed.

Lemma default_keys_tidy k :
  is_Some (Obj.get k DEFAULTS) -> JsString.all_chars tidy k = true.
Proof.
  intros [d Hd]. apply get_elem_of in Hd.
  assert (H : forallb (fun kd : string * json => JsString.all_chars tidy (fst kd))
                DEFAULTS = true) by (vm_compute; reflexivity).
  rewrite forallb_forall in H. apply (H (k, d)), list_elem_of_In, Hd.
Qed.

Lemma default_keys_not_proto : "__proto__" ∉ Obj.keys DEFAULTS.
Proof. apply get_None_keys. reflexivity. Qed.

(** What [valid_settings] gives. *)
Lemma valid_settings_spec s :
  valid_settings s = true ->
  NoDup (Obj.keys s) /\
  (forall k, k ∈ Obj.keys s -> is_Some (Obj.get k DEFAULTS)) /\
  (forall k d, Obj.get k DEFAULTS = Some d ->
               exists v, Obj.get k s = Some v /\ same_kind d v = true).
Proof.
  unfold valid_settings. intros H.
  apply andb_true_iff in H as [H H3]. apply andb_true_iff in H as [H1 H2].
  apply bool_decide_eq_true in H1. split; [exact H1|]. split.
  - intros k Hk. rewrite forallb_forall in H3.
    specialize (H3 k (proj1 (list_elem_of_In _ _) Hk)). unfold has_key in H3.
    destruct (Obj.get k DEFAULTS); [eauto | discriminate].
  - intros k d Hd. rewrite forallb_forall in H2.
    specialize (H2 (k, d) (proj1 (list_elem_of_In _ _) (get_elem_of _ _ _ Hd))).
    cbn [fst snd] in H2. destruct (Obj.get k s) as [v|]; [eauto | discriminate].
Qed.

Lemma valid_settings_flat s : valid_settings s = true -> flat_object s = true.
Proof.
  intros H. destruct (valid_settings_spec s H) as (Hd & Hkeys & Hvals).
  unfold flat_object. apply forallb_forall. intros [k v] Hin.
  apply list_elem_of_In in Hin. cbn [fst snd].
  assert (Hk : k ∈ Obj.keys s).
  { apply list_elem_of_In, in_map_iff. exists (k, v).
    split; [reflexivity | apply list_elem_of_In, Hin]. }
  destruct (Hkeys k Hk) as [d Hdk].
  rewrite (default_keys_tidy k) by eauto. cbn [andb].
  destruct (Hvals k d Hdk) as (v' & Hv' & Hkind).
  rewrite (elem_of_get k v s Hd Hin) in Hv'. injection Hv' as <-.
  destruct d, v; try discriminate; [reflexivity|].
  apply hex_color_tidy, Hkind.
Qed.

Lemma default_keys_named k :
  is_Some (Obj.get k DEFAULTS) -> Obj.index_of k = None.
Proof.
  intros [d Hd]. apply get_elem_of in Hd.
  assert (H : forallb (fun kd : string * json =>
                         match Obj.index_of (fst kd) with
                         | None => true
                         | Some _ => false
                         end) DEFAULTS = true) by (vm_compute; reflexivity).
  rewrite forallb_forall in H.
  specialize (H (k, d) (proj1 (list_elem_of_In _ _) Hd)). cbn [fst] in H.
  destruct (Obj.index_of k); [discriminate | reflexivity].
Qed.

Lemma valid_settings_parse s :
  valid_settings s = true ->
  Json.parse (Json.stringify (JObj s)) = Some (JObj s).
Proof.
  intros H. destruct (valid_settings_spec s H) as (Hd & Hkeys & _).
  apply parse_stringify_flat; [apply valid_settings_flat, H| |exact Hd].
  apply Forall_forall. intros k Hk. apply default_keys_named, Hkeys, Hk.
Qed.

(** Loading what was saved. *)
Lemma load_saved s style :
  valid_settings s = true ->
  load (GetItem (Some (Json.stringify (JObj s)))) style
  = Returns (fold_left put s DEFAULTS).
Proof.
  intros H. unfold load, load_try. rewrite stringify_JObj.
  cbn [String.append]. rewrite <- stringify_JObj_cons.
  rewrite (valid_settings_parse s H). reflexivity.
Qed.

Lemma keys_set_named_existing k v (o : Obj.t) :
  k ∈ Obj.keys o -> Obj.keys (Obj.set_named k v o) = Obj.keys o.
Proof.
  induction o as [|[k' v'] o IH]; simpl; [intros H; inversion H|].
  intros H. destruct (String.eqb_spec k k') as [->|Hne]; [reflexivity|].
  apply elem_of_cons in H as [?|H]; [congruence|].
  simpl. rewrite (IH H). reflexivity.
Qed.

Lemma keys_set_existing k v (o : Obj.t) :
  k ∈ Obj.keys o -> Obj.keys (Obj.set k v o) = Obj.keys o.
Proof.
  intros H. unfold Obj.set, Obj.has.
  destruct (Obj.get k o) eqn:E.
  - destruct (Obj.index_of k); apply keys_set_named_existing, H.
  - apply get_None_keys in E. contradiction.
Qed.

Lemma keys_fold_put props (o : Obj.t) :
  (forall k, k ∈ Obj.keys props -> k ∈ Obj.keys o) ->
  Obj.keys (fold_left put props o) = Obj.keys o.
Proof.
  revert o. induction props as [|[k v] props IH]; intros o H; [reflexivity|].
  cbn [fold_left].
  assert (E : Obj.keys (put o (k, v)) = Obj.keys o).
  { unfold put. cbn [fst snd]. destruct (String.eqb k "__proto__"); [reflexivity|].
    apply keys_set_existing, H. simpl. apply list_elem_of_here. }
  rewrite IH; [exact E|]. intros k' Hk'. rewrite E. apply H.
  simpl. apply list_elem_of_further, Hk'.
Qed.

Lemma same_keys_same_mapping (a b : Obj.t) :
  Obj.keys a = Obj.keys b -> NoDup (Obj.keys a) -> Obj.same_mapping a b -> a = b.
Proof.
  revert b. induction a as [|[k v] a IH]; intros [|[k' v'] b]; simpl;
    try discriminate; [reflexivity|].
  intros [= <- Hk] Hd Hm. apply NoDup_cons in Hd as [Hka Hd].
  pose proof (Hm k) as Hv. simpl in Hv. rewrite String.eqb_refl in Hv.
  injection Hv as <-. f_equal. apply IH; [exact Hk | exact Hd|].
  intros x. specialize (Hm x). simpl in Hm. revert Hm.
  destruct (String.eqb x k) eqn:E; [intros _|intros Hm; exact Hm].
  apply String.eqb_eq in E. subst x.
  assert (Obj.get k a = None) as -> by (apply get_None_keys, Hka).
  symmetry. apply get_None_keys. unfold Obj.keys in *. rewrite <- Hk. exact Hka.
Qed.

(** C8: where storage takes the write, saving a settings mapping over
    the documented keys and loading in a fresh session gives back the
    same mapping (name by name, under the documented keys, and the very
    same object when its keys come in the documented order); after the
    reset the settings in memory, the settings applied and the settings
    a fresh session loads are the defaults. *)
Theorem saved_settings_load_back p style :
  valid_settings (settings p) = true ->
  writable p = true ->
  (exists p' o,
     save p = Returns p' /\
     settings p' = settings p /\
     load (GetItem (stored p')) style = Returns o /\
     Obj.same_mapping o (settings p) /\
     Obj.keys o = Obj.keys DEFAULTS /\
     (Obj.keys (settings p) = Obj.keys DEFAULTS -> o = settings p)) /\
  settings (reset p) = DEFAULTS /\
  applied (reset p) = Some DEFAULTS /\
  stored (reset p) = Some (Json.stringify (JObj DEFAULTS)) /\
  load (GetItem (stored (reset p))) style = Returns DEFAULTS.
Proof.
  intros H Hw. split.
  2:{ unfold reset, save. cbn [writable set_settings]. rewrite Hw.
      repeat split; reflexivity. }
  destruct (valid_settings_spec _ H) as (Hd & Hkeys & Hvals).
  unfold save. rewrite Hw. eexists. exists (fold_left put (settings p) DEFAULTS).
  split; [reflexivity|]. split; [reflexivity|].
  cbn [stored]. split; [apply load_saved, H|].
  assert (Hproto : "__proto__" ∉ Obj.keys (settings p)).
  { intros Hin. destruct (Hkeys _ Hin) as [d Hd']. discriminate Hd'. }
  assert (Hmap : Obj.same_mapping (fold_left put (settings p) DEFAULTS) (settings p)).
  { intros k. rewrite get_fold_put by assumption.
    destruct (Obj.get k (settings p)) as [v|] eqn:Ek; [reflexivity|].
    destruct (Obj.get k DEFAULTS) as [d|] eqn:Ed; [|reflexivity].
    destruct (Hvals k d Ed) as (v & Hv & _). congruence. }
  assert (Hk : Obj.keys (fold_left put (settings p) DEFAULTS) = Obj.keys DEFAULTS).
  { apply keys_fold_put. intros k Hin. destruct (Hkeys k Hin) as [d Hd'].
    destruct (decide (k ∈ Obj.keys DEFAULTS)) as [?|Hn]; [assumption|].
    apply get_None_keys in Hn. congruence. }
  split; [exact Hmap|]. split; [exact Hk|].
  intros Hsame. apply same_keys_same_mapping; [congruence| |exact Hmap].
  rewrite Hk, <- Hsame. exact Hd.
Qed.

(** *** The hex text field *)

Lemma hex_digit_nonspace c :
  JsString.is_hex_digit c = true -> negb (JsString.is_space c) = true.
Proof.
  destruct c as [[] [] [] [] [] [] [] []]; vm_compute; intros H;
    first [reflexivity | discriminate H].
Qed.

Lemma hex_color_trim v : is_hex_color v = true -> JsString.trim v = v.
Proof.
  destruct v as [|c r]; [discriminate|]. cbn [is_hex_color].
  intros H. apply andb_true_iff in H as [H Hr]. apply andb_true_iff in H as [Hc _].
  apply Ascii.eqb_eq in Hc. subst c.
  unfold JsString.trim. change (JsString.skip_space (String "#" r)) with (String "#" r).
  apply trim_end_nonspace. cbn [JsString.all_chars].
  change (negb (JsString.is_space "#")) with true. cbn [andb].
  apply (all_chars_impl _ _ r hex_digit_nonspace Hr).
Qed.

Lemma hex_color_length v : is_hex_color v = true -> String.length v = 7%nat.
Proof.
  destruct v as [|c r]; [discriminate|]. cbn [is_hex_color].
  intros H. apply andb_true_iff in H as [H _]. apply andb_true_iff in H as [_ Hl].
  apply Nat.eqb_eq in Hl. simpl. rewrite Hl. reflexivity.
Qed.

(** Within [maxLength] the trimmed text is a colour only if the text
    itself is. *)
Lemma trim_within_maxLength v :
  (String.length v <= maxLength)%nat ->
  is_hex_color (JsString.trim v) = is_hex_color v.
Proof.
  intros Hlen. destruct (is_hex_color v) eqn:Ev.
  - rewrite (hex_color_trim v Ev). exact Ev.
  - destruct (is_hex_color (JsString.trim v)) eqn:Et; [|reflexivity].
    pose proof (hex_color_length _ Et) as H7. pose proof (trim_length v) as Hle.
    unfold maxLength in Hlen.
    rewrite (trim_same_length v) in Et by lia. congruence.
Qed.

Lemma hex_color_no_newline v : is_hex_color v = true -> strip_newlines v = v.
Proof.
  intros H. rewrite <- (hex_color_trim v H) at 2.
  assert (Hs : JsString.all_chars (fun c => negb (JsString.is_space c)) v = true).
  { destruct v as [|c r]; [discriminate|]. cbn [is_hex_color] in H.
    apply andb_true_iff in H as [H Hr]. apply andb_true_iff in H as [Hc _].
    apply Ascii.eqb_eq in Hc. subst c. cbn [JsString.all_chars].
    change (negb (JsString.is_space "#")) with true. cbn [andb].
    apply (all_chars_impl _ _ r hex_digit_nonspace Hr). }
  rewrite (hex_color_trim v H). clear H.
  induction v as [|c r IH]; [reflexivity|].
  cbn [JsString.all_chars] in Hs. apply andb_true_iff in Hs as [Hc Hr].
  cbn [strip_newlines].
  assert (E : ((JsString.code c =? 10) || (JsString.code c =? 13))%N = false).
  { revert Hc. unfold JsString.is_space.
    destruct (JsString.code c =? 10)%N eqn:E10.
    - apply N.eqb_eq in E10. rewrite E10. discriminate.
    - destruct (JsString.code c =? 13)%N eqn:E13; [|reflexivity].
      apply N.eqb_eq in E13. rewrite E13. discriminate. }
  rewrite E, (IH Hr). reflexivity.
Qed.

(** C9: for a text within the [maxLength] of the field: when it is [#]
    and six hexadecimal digits, the setting of the row becomes that
    text and the colour input follows, and, where storage takes the
    write, the settings are saved and applied; otherwise the page is as
    before and the field shows the stored value again: a stored string
    as the field keeps it, without line breaks, which for a stored
    colour is the colour itself. *)
Theorem hex_input_is_validated row p :
  (String.length (hex row) <= maxLength)%nat ->
  (is_hex_color (hex row) = true ->
   let p' := snd (hex_change row p) in
   settings p' = Obj.set (row_key row) (JStr (hex row)) (settings p) /\
   Obj.get (row_key row) (settings p') = Some (JStr (hex row)) /\
   fst (hex_change row p) =
     Row (row_key row) (JsString.toLowerCase (hex row)) (hex row) /\
   (writable p = true ->
    stored p' = Some (Json.stringify (JObj (settings p'))) /\
    applied p' = Some (settings p'))) /\
  (is_hex_color (hex row) = false ->
   snd (hex_change row p) = p /\
   forall old,
     Obj.get (row_key row) (settings p) = Some (JStr old) ->
     fst (hex_change row p) = Row (row_key row) (swatch row) (strip_newlines old) /\
     (is_hex_color old = true ->
      fst (hex_change row p) = Row (row_key row) (swatch row) old)).
Proof.
  intros Hlen. pose proof (trim_within_maxLength _ Hlen) as Ht.
  unfold hex_change. split; intros Hv; rewrite Ht, Hv.
  - rewrite (hex_color_trim _ Hv). unfold save. cbn [writable set_settings].
    destruct (writable p); cbn [snd fst applyAll settings stored applied];
      (repeat split; try reflexivity; try discriminate); apply get_set_same.
  - split.
    + destruct (dom_string _); reflexivity.
    + intros old Hold. rewrite Hold. cbn [dom_string to_string fst].
      split; [reflexivity|].
      intros Hc. rewrite (hex_color_no_newline _ Hc). reflexivity.
Qed.

(** Past [maxLength] the listener takes a colour with white space
    around it, which is not of the strict form. *)
Lemma padded_colour_is_taken :
  is_hex_color " #AAbbcc " = false /\
  Obj.get "linkColor"
    (settings (snd (hex_change (Row "linkColor" "#5aa5ff" " #AAbbcc ")
                      fresh_panel)))
  = Some (JStr "#AAbbcc").
Proof. split; reflexivity. Qed.

(** *** The tagged block *)

Lemma tidy_solid c : tidy c = true -> solid c = true.
Proof. intros H. apply (tidy_facts c H). Qed.

Lemma solid_quoted k :
  JsString.all_chars tidy k = true -> JsString.all_chars solid (Json.quoted k) = true.
Proof.
  intros H. rewrite (quoted_tidy k H). cbn [JsString.all_chars].
  rewrite all_chars_app, (all_chars_impl _ _ k tidy_solid H). reflexivity.
Qed.

Lemma solid_flat_value v :
  flat_value v = true -> JsString.all_chars solid (Json.stringify v) = true.
Proof.
  destruct v as [|[]| |s| |]; try discriminate; try reflexivity.
  apply solid_quoted.
Qed.

Lemma solid_props o :
  flat_object o = true -> JsString.all_chars solid (props_text o) = true.
Proof.
  induction o as [|[k v] o IH]; [reflexivity|].
  unfold flat_object. cbn [forallb fst snd props_text]. intros H.
  apply andb_true_iff in H as [Hkv Ho]. apply andb_true_iff in Hkv as [Hk Hv].
  rewrite !all_chars_app, (solid_quoted k Hk), (solid_flat_value v Hv).
  destruct o; [reflexivity|].
  rewrite all_chars_app, (IH Ho). reflexivity.
Qed.

Lemma solid_stringify o :
  flat_object o = true -> JsString.all_chars solid (Json.stringify (JObj o)) = true.
Proof.
  intros H. rewrite stringify_JObj_cons. cbn [JsString.all_chars].
  rewrite all_chars_app, (solid_props o H). reflexivity.
Qed.

Lemma solid_not_star c : solid c = true -> Ascii.eqb "*" c = false.
Proof.
  unfold solid. intros H. apply andb_true_iff in H as [_ H].
  apply negb_true_iff in H. rewrite eqb_code, N.eqb_sym. exact H.
Qed.

(** The shortest capture ends where the text does. *)
Lemma capture_solid text tail :
  JsString.all_chars solid text = true ->
  capture_until_close (text +:+ String " " (String "*" (String "/" tail))) = Some text.
Proof.
  induction text as [|c text IH]; intros H; [reflexivity|].
  cbn [JsString.all_chars] in H. apply andb_true_iff in H as [Hc Ht].
  cbn [String.append capture_until_close].
  rewrite (skip_space_solid c _ Hc). cbn [JsString.strip_prefix].
  rewrite (solid_not_star c Hc), (IH Ht). reflexivity.
Qed.

Lemma after_close_no_star text tail :
  JsString.all_chars (fun c => negb (Ascii.eqb "*" c)) text = true ->
  after_close (text +:+ String "*" (String "/" tail)) = Some tail.
Proof.
  induction text as [|c text IH]; intros H; [reflexivity|].
  cbn [JsString.all_chars] in H. apply andb_true_iff in H as [Hc Ht].
  apply negb_true_iff in Hc.
  cbn [String.append after_close JsString.strip_prefix]. rewrite Hc. apply IH, Ht.
Qed.

Lemma match_tag_here css cap : match_tag_at css = Some cap -> match_tag css = Some cap.
Proof.
  intros H. destruct css; [discriminate H|].
  cbn [match_tag]. rewrite H. reflexivity.
Qed.

Lemma find_block_here s r : match_block_at s = Some r -> find_block s = Some (EmptyString, r).
Proof.
  intros H. destruct s; [discriminate H|].
  cbn [find_block]. rewrite H. reflexivity.
Qed.

Lemma block_app json_text tail :
  block_of json_text +:+ tail =
  "/* IRC4FUN_COLORS: " +:+ json_text +:+ String " " (String "*" (String "/" tail)).
Proof.
  unfold block_of, SYNC_TAG. cbn [String.append].
  rewrite !app_assoc_s. reflexivity.
Qed.

Lemma match_tag_block json_text tail :
  JsString.all_chars solid json_text = true ->
  json_text <> EmptyString ->
  match_tag (block_of json_text +:+ tail) = Some json_text.
Proof.
  intros Hs Hne. apply match_tag_here. rewrite block_app.
  unfold match_tag_at.
  change (tag_open ("/* IRC4FUN_COLORS: " +:+ ?x))
    with (Some (String " " x)).
  destruct json_text as [|c text]; [congruence|].
  cbn [String.append JsString.skip_space].
  change (JsString.is_space " ") with true. cbn iota.
  cbn [JsString.all_chars] in Hs. pose proof Hs as Hs'.
  apply andb_true_iff in Hs' as [Hc _].
  assert (Hsp : JsString.is_space c = false).
  { unfold solid in Hc. apply andb_true_iff in Hc as [Hc _].
    apply negb_true_iff in Hc. exact Hc. }
  rewrite Hsp. apply (capture_solid (String c text) tail Hs).
Qed.

Lemma find_block_block json_text tail :
  JsString.all_chars solid json_text = true ->
  find_block (block_of json_text +:+ tail) = Some (EmptyString, JsString.skip_space tail).
Proof.
  intros Hs. apply find_block_here. rewrite block_app.
  unfold match_block_at.
  change (tag_open ("/* IRC4FUN_COLORS: " +:+ ?x))
    with (Some (String " " x)).
  replace (String " " (json_text +:+ String " " (String "*" (String "/" tail))))
    with ((String " " (json_text +:+ " ")) +:+ String "*" (String "/" tail))
    by (cbn [String.append]; rewrite app_assoc_s; reflexivity).
  rewrite after_close_no_star; [reflexivity|].
  cbn [JsString.all_chars]. change (negb (Ascii.eqb "*" " ")) with true. cbn [andb].
  rewrite all_chars_app. cbn [JsString.all_chars].
  change (negb (Ascii.eqb "*" " ")) with true.
  rewrite (all_chars_impl solid _ json_text); [reflexivity| |exact Hs].
  intros c Hc. rewrite (solid_not_star c Hc). reflexivity.
Qed.

(** *** Counting blocks *)

Lemma after_close_length s r :
  after_close s = Some r -> (String.length r <= String.length s)%nat.
Proof.
  induction s as [|c s IH]; [discriminate|].
  cbn [after_close].
  destruct (JsString.strip_prefix "*/" (String c s)) as [r'|] eqn:E.
  - intros [= ->]. apply strip_prefix_length in E. lia.
  - intros H. simpl. specialize (IH H). lia.
Qed.

Lemma tag_open_length s s1 :
  tag_open s = Some s1 -> (String.length s1 < String.length s)%nat.
Proof.
  unfold tag_open.
  destruct (JsString.strip_prefix "/*" s) as [a|] eqn:E; [|discriminate].
  intros H. apply strip_prefix_length in E, H.
  pose proof (skip_space_length a). simpl in *. lia.
Qed.

Lemma match_block_at_length s r :
  match_block_at s = Some r -> (String.length r < String.length s)%nat.
Proof.
  unfold match_block_at. destruct (tag_open s) as [s1|] eqn:E; [|discriminate].
  destruct (after_close s1) as [r'|] eqn:E'; [|discriminate].
  intros [= <-]. apply tag_open_length in E. apply after_close_length in E'.
  pose proof (skip_space_length r'). lia.
Qed.

Lemma find_block_length s b r :
  find_block s = Some (b, r) -> (String.length r < String.length s)%nat.
Proof.
  revert b. induction s as [|c s IH]; intros b.
  - cbn [find_block]. destruct (match_block_at EmptyString) eqn:E; [|discriminate].
    discriminate E.
  - cbn [find_block]. destruct (match_block_at (String c s)) as [r'|] eqn:E.
    + intros [= _ <-]. apply match_block_at_length, E.
    + destruct (find_block s) as [[b' r']|]; [|discriminate].
      intros [= _ <-]. specialize (IH b' eq_refl). simpl. lia.
Qed.

(** The count does not depend on the fuel once there is enough. *)
Lemma count_blocks_fuel n : forall s f1 f2,
  (String.length s < n)%nat ->
  (String.length s < f1)%nat -> (String.length s < f2)%nat ->
  count_blocks_from f1 s = count_blocks_from f2 s.
Proof.
  induction n as [|n IH]; intros s f1 f2 Hn H1 H2; [lia|].
  destruct f1 as [|f1]; [lia|]. destruct f2 as [|f2]; [lia|].
  cbn [count_blocks_from].
  destruct (find_block s) as [[b r]|] eqn:E; [|reflexivity].
  apply find_block_length in E. f_equal. apply IH; lia.
Qed.

Lemma count_blocks_from_S f s :
  count_blocks_from (S f) s =
  match find_block s with
  | Some (_, r) => S (count_blocks_from f r)
  | None => O
  end.
Proof. reflexivity. Qed.

Lemma count_blocks_found s b r :
  find_block s = Some (b, r) -> count_blocks s = S (count_blocks r).
Proof.
  intros H. unfold count_blocks.
  rewrite (count_blocks_from_S (String.length s) s), H. f_equal.
  apply find_block_length in H.
  apply (count_blocks_fuel (S (String.length r))); lia.
Qed.

Lemma count_blocks_none s : find_block s = None -> count_blocks s = 0%nat.
Proof.
  intros H. unfold count_blocks. rewrite count_blocks_from_S, H. reflexivity.
Qed.

(** *** Texts without a block *)

Lemma find_block_None_cons c s :
  find_block (String c s) = None ->
  match_block_at (String c s) = None /\ find_block s = None.
Proof.
  cbn [find_block]. destruct (match_block_at (String c s)); [discriminate|].
  destruct (find_block s) as [[? ?]|]; [discriminate | auto].
Qed.

Lemma find_block_skip_space s :
  find_block s = None -> find_block (JsString.skip_space s) = None.
Proof.
  induction s as [|c s IH]; [auto|].
  intros H. cbn [JsString.skip_space].
  destruct (JsString.is_space c); [|exact H].
  apply IH. apply (find_block_None_cons c s H).
Qed.

Lemma strip_prefix_app_r p s a w :
  JsString.strip_prefix p s = Some a -> JsString.strip_prefix p (s +:+ w) = Some (a +:+ w).
Proof.
  revert s. induction p as [|c p IH]; intros s; cbn [JsString.strip_prefix].
  - intros [= ->]. reflexivity.
  - destruct s as [|d s]; [discriminate|]. cbn [String.append].
    destruct (Ascii.eqb c d); [apply IH | discriminate].
Qed.

Lemma skip_space_app_r s w c r :
  JsString.skip_space s = String c r ->
  JsString.skip_space (s +:+ w) = String c r +:+ w.
Proof.
  induction s as [|d s IH]; [discriminate|]. cbn [String.append JsString.skip_space].
  destruct (JsString.is_space d); [exact IH|]. intros [= -> ->]. reflexivity.
Qed.

Lemma tag_open_app_r s s1 w :
  tag_open s = Some s1 -> tag_open (s +:+ w) = Some (s1 +:+ w).
Proof.
  unfold tag_open.
  destruct (JsString.strip_prefix "/*" s) as [a|] eqn:E; [|discriminate].
  rewrite (strip_prefix_app_r _ _ _ w E). intros H.
  destruct (JsString.skip_space a) as [|c r] eqn:Ea; [discriminate H|].
  rewrite (skip_space_app_r a w c r Ea). apply strip_prefix_app_r, H.
Qed.

Lemma after_close_app_r s r w :
  after_close s = Some r -> after_close (s +:+ w) = Some (r +:+ w).
Proof.
  induction s as [|c s IH]; [discriminate|].
  intros H. cbn [after_close] in H. cbn [String.append after_close].
  destruct (JsString.strip_prefix "*/" (String c s)) as [r'|] eqn:E.
  - injection H as ->. pose proof (strip_prefix_app_r _ _ _ w E) as E2.
    cbn [String.append] in E2. rewrite E2. reflexivity.
  - specialize (IH H).
    destruct (JsString.strip_prefix "*/" (String c (s +:+ w))) as [r''|] eqn:E'';
      [|exact IH].
    (* a close across the seam would need the star to end [s] *)
    cbn [JsString.strip_prefix] in E, E''.
    destruct (Ascii.eqb "*" c); [|discriminate].
    destruct s as [|d s]; [discriminate H|].
    cbn [String.append JsString.strip_prefix] in E, E''.
    destruct (Ascii.eqb "/" d); discriminate.
Qed.

Lemma match_block_at_app_r s r w :
  match_block_at s = Some r -> match_block_at (s +:+ w) <> None.
Proof.
  unfold match_block_at. destruct (tag_open s) as [s1|] eqn:E; [|discriminate].
  rewrite (tag_open_app_r s s1 w E).
  destruct (after_close s1) as [r'|] eqn:E'; [|discriminate].
  rewrite (after_close_app_r s1 r' w E'). discriminate.
Qed.

Lemma find_block_app_r s w :
  find_block s <> None -> find_block (s +:+ w) <> None.
Proof.
  induction s as [|c s IH].
  - intros H. exfalso. apply H. reflexivity.
  - cbn [find_block String.append].
    destruct (match_block_at (String c s)) as [r|] eqn:E.
    + intros _. pose proof (match_block_at_app_r _ _ w E) as H.
      cbn [String.append] in H.
      destruct (match_block_at (String c (s +:+ w))); [discriminate | congruence].
    + intros H. destruct (match_block_at (String c (s +:+ w))); [discriminate|].
      destruct (find_block s) as [[b r]|] eqn:E'; [|congruence].
      assert (H' : find_block (s +:+ w) <> None) by (apply IH; discriminate).
      destruct (find_block (s +:+ w)) as [[b' r']|]; [discriminate | congruence].
Qed.

Lemma trim_end_app s : exists w, s = JsString.trim_end s +:+ w.
Proof.
  induction s as [|c s [w IH]]; [exists EmptyString; reflexivity|].
  cbn [JsString.trim_end]. destruct (JsString.trim_end s) as [|d r] eqn:E.
  - destruct (JsString.is_space c).
    + exists (String c s). reflexivity.
    + exists w. rewrite IH at 1. reflexivity.
  - exists w. rewrite IH at 1. reflexivity.
Qed.

Lemma find_block_trim s : find_block s = None -> find_block (JsString.trim s) = None.
Proof.
  intros H. apply find_block_skip_space in H. unfold JsString.trim.
  destruct (trim_end_app (JsString.skip_space s)) as [w Hw].
  destruct (find_block (JsString.trim_end (JsString.skip_space s))) eqn:E; [|reflexivity].
  exfalso. apply (find_block_app_r (JsString.trim_end (JsString.skip_space s)) w).
  - rewrite E. discriminate.
  - rewrite <- Hw. exact H.
Qed.

(** [buildSyncCSS] as the new block and the cleaned text. *)
Lemma buildSyncCSS_block s existing :
  buildSyncCSS s existing =
  block_of (Json.stringify (JObj s)) +:+
  (if JsString.nonempty (JsString.trim (strip_block existing))
   then String "010" (JsString.trim (strip_block existing))
   else EmptyString).
Proof.
  unfold buildSyncCSS, block_of.
  destruct (JsString.nonempty _); [|rewrite app_nil_r_s; reflexivity].
  rewrite !app_assoc_s. reflexivity.
Qed.

Lemma trim_end_idem s : JsString.trim_end (JsString.trim_end s) = JsString.trim_end s.
Proof.
  induction s as [|c s IH]; [reflexivity|].
  cbn [JsString.trim_end].
  destruct (JsString.trim_end s) as [|d r] eqn:E.
  - destruct (JsString.is_space c) eqn:Ec; [reflexivity|].
    cbn [JsString.trim_end]. rewrite Ec. reflexivity.
  - change (JsString.trim_end (String c (String d r)))
      with (match JsString.trim_end (String d r) with
            | EmptyString =>
                if JsString.is_space c then EmptyString else String c EmptyString
            | r' => String c r'
            end).
    rewrite IH. reflexivity.
Qed.

Lemma trim_idem s : JsString.trim (JsString.trim s) = JsString.trim s.
Proof.
  unfold JsString.trim at 1. rewrite skip_space_trim.
  unfold JsString.trim. apply trim_end_idem.
Qed.

(** Syncing into a text that an earlier sync made of a text without a
    block: the earlier block goes and nothing else changes. *)
Lemma resync_replaces_block s s' existing :
  JsString.all_chars solid (Json.stringify (JObj s)) = true ->
  find_block existing = None ->
  buildSyncCSS s' (buildSyncCSS s existing) = buildSyncCSS s' existing.
Proof.
  intros Hsolid Hnone.
  assert (Hstrip : strip_block existing = existing).
  { unfold strip_block. rewrite Hnone. reflexivity. }
  assert (Hclean : JsString.trim (strip_block (buildSyncCSS s existing))
                   = JsString.trim existing).
  { rewrite (buildSyncCSS_block s existing), Hstrip.
    unfold strip_block. rewrite (find_block_block _ _ Hsolid).
    cbn [String.append].
    destruct (JsString.nonempty (JsString.trim existing)) eqn:En.
    - cbn [JsString.skip_space]. change (JsString.is_space "010") with true.
      cbn iota. rewrite skip_space_trim. apply trim_idem.
    - destruct (JsString.trim existing); [reflexivity | discriminate En]. }
  unfold buildSyncCSS at 1 3. rewrite Hclean, Hstrip. reflexivity.
Qed.

(** C7, as the script has it: for a settings mapping over the
    documented keys and any text of the style field, the text that
    [buildSyncCSS] makes parses back to the mapping; the first block of
    the old text is gone and the new one is in front: the count of
    blocks is one more than what is left of the old text holds, so
    exactly one when the old text held none; and a later sync into the
    text made from such an old text replaces the block. *)
Theorem sync_round_trip s existing :
  valid_settings s = true ->
  parseTagFromCSS (buildSyncCSS s existing) = JObj s /\
  count_blocks (buildSyncCSS s existing)
  = S (count_blocks (JsString.trim (strip_block existing))) /\
  (find_block existing = None ->
   count_blocks (buildSyncCSS s existing) = 1%nat /\
   forall s', buildSyncCSS s' (buildSyncCSS s existing) = buildSyncCSS s' existing).
Proof.
  intros H. pose proof (valid_settings_flat s H) as Hflat.
  pose proof (solid_stringify s Hflat) as Hsolid.
  rewrite buildSyncCSS_block.
  set (clean := JsString.trim (strip_block existing)).
  set (tail := if JsString.nonempty clean then String "010" clean else EmptyString).
  assert (Htail : JsString.skip_space tail = clean).
  { assert (Hclean : JsString.skip_space clean = clean) by apply skip_space_trim.
    subst tail. destruct (JsString.nonempty clean) eqn:En.
    - cbn [JsString.skip_space]. change (JsString.is_space "010") with true.
      cbn iota. exact Hclean.
    - destruct clean; [reflexivity | discriminate En]. }
  assert (Hcount : count_blocks (block_of (Json.stringify (JObj s)) +:+ tail)
                   = S (count_blocks clean)).
  { rewrite (count_blocks_found _ _ _ (find_block_block _ tail Hsolid)), Htail.
    reflexivity. }
  split; [|split; [exact Hcount|]].
  - unfold parseTagFromCSS. rewrite match_tag_block; [|exact Hsolid|].
    + rewrite (valid_settings_parse s H). reflexivity.
    + rewrite stringify_JObj_cons. discriminate.
  - intros Hnone. split.
    + rewrite Hcount. f_equal. apply count_blocks_none.
      subst clean. unfold strip_block. rewrite Hnone. apply find_block_trim, Hnone.
    + intros s'. subst tail clean. rewrite <- buildSyncCSS_block.
      apply resync_replaces_block; assumption.
Qed.

(** C7 to the letter fails: of two blocks in the old text only the first
    is removed. *)
Lemma second_block_survives_sync : ~ sync_leaves_one_block.
Proof.
  intros H. specialize (H DEFAULTS two_blocks eq_refl).
  vm_compute in H. discriminate H.
Qed.

(** Outside the documented values the block need not parse back: a
    value that holds the end of a comment cuts the block short. *)
Lemma comment_end_in_a_value_is_not_parsed :
  parseTagFromCSS (buildSyncCSS [("linkColor", JStr "*/")] EmptyString) = JNull.
Proof. vm_compute. reflexivity. Qed.

End ColorFacts.

(* ================================================================== *)
(** * The theorems at work on the sample pages *)
(* ================================================================== *)

Section Samples.
Import Dom Avatars Colors.

(** After one scan of the busy page three requests are in flight, which
    is the limit, and two lookups wait. *)
Lemma active_count_on_busy_page :
  let st := outcome_of (scanAll (at_time 0) (start busy_page)) in
  reachable st /\ activeCount st = 3 /\
  0 <= activeCount st <= MAX_CONCURRENT.
Proof.
  intros st.
  assert (Hr : reachable st).
  { apply reachable_scan, reachable_start. reflexivity. }
  split; [exact Hr|]. split; [reflexivity|].
  exact (proj1 (active_count_never_exceeds_max st Hr)).
Defined.


(** Syncing the sample settings into a text that has a block. *)
Lemma sample_sync_round_trip :
  valid_settings sample_settings = true /\
  parseTagFromCSS (buildSyncCSS sample_settings two_blocks) = JObj sample_settings.
Proof.
  split; [reflexivity|].
  exact (proj1 (sync_round_trip sample_settings two_blocks eq_refl)).
Defined.

(** Saving the sample settings and loading them again. *)
Lemma sample_settings_load_back :
  valid_settings (settings sample_panel) = true /\
  exists p',
    save sample_panel = Returns p' /\
    load (GetItem (stored p')) None = Returns sample_settings.
Proof.
  split; [reflexivity|].
  destruct (saved_settings_load_back sample_panel None eq_refl eq_refl)
    as ((p' & o & Hsave & _ & Hload & _ & _ & Hsame) & _).
  exists p'. split; [exact Hsave|].
  rewrite Hload. f_equal. apply Hsame. reflexivity.
Defined.

(** A colour typed into the field of the link colour, and a text that is
    none. *)
Lemma sample_hex_inputs :
  Obj.get "linkColor"
    (settings (snd (hex_change (Row "linkColor" "#5aa5ff" "#AAbbcc") fresh_panel)))
  = Some (JStr "#AAbbcc") /\
  hex_change (Row "linkColor" "#5aa5ff" "#AAbbc") fresh_panel
  = (Row "linkColor" "#5aa5ff" "#5aa5ff", fresh_panel).
Proof.
  split.
  - destruct (hex_input_is_validated (Row "linkColor" "#5aa5ff" "#AAbbcc")
                fresh_panel) as [Hok _];
      [vm_compute; lia|].
    apply Hok. reflexivity.
  - destruct (hex_input_is_validated (Row "linkColor" "#5aa5ff" "#AAbbc")
                fresh_panel) as [_ Hbad];
      [vm_compute; lia|].
    destruct (Hbad eq_refl) as [Hp Hrow].
    rewrite (surjective_pairing (hex_change _ _)), Hp,
      (proj2 (Hrow "#5aa5ff" eq_refl) eq_refl).
    reflexivity.
Defined.

End Samples.

(* ================================================================== *)
(** * Further properties of avatars.js: the page *)
(* ================================================================== *)

Section HostPage.
Import Dom Avatars.

Lemma strip_avatars_Node i t c a kids :
  strip_avatars (Node i t c a kids) = Node i t c a (strip_kids kids).
Proof.
  reflexivity.
Qed.

Lemma is_avatar_remove_first sel n :
  is_avatar (fst (remove_first sel n)) = is_avatar n.
Proof. apply is_avatar_info, pruned_info, remove_first_pruned. Qed.

Lemma strip_remove_first_in ks :
  Forall (fun k => strip_avatars (fst (remove_first is_avatar k)) = strip_avatars k) ks ->
  strip_kids (fst (remove_first_in is_avatar ks)) = strip_kids ks.
Proof.
  induction 1 as [|k ks Hk _ IH]; [reflexivity|].
  cbn [remove_first_in strip_kids].
  destruct (is_avatar k) eqn:Ek; [reflexivity|].
  pose proof (is_avatar_remove_first is_avatar k) as Hav.
  destruct (remove_first is_avatar k) as [k' found]. cbn [fst] in Hk, Hav.
  destruct found.
  - cbn [fst strip_kids]. rewrite Hav, Ek, Hk. reflexivity.
  - destruct (remove_first_in is_avatar ks) as [ks' found']. cbn [fst] in *.
    cbn [strip_kids]. rewrite Ek, IH. reflexivity.
Qed.

Lemma strip_remove_first n :
  strip_avatars (fst (remove_first is_avatar n)) = strip_avatars n.
Proof.
  induction n as [i t c a kids IH] using node_ind2.
  rewrite remove_first_Node. cbn [fst]. rewrite !strip_avatars_Node.
  f_equal. apply strip_remove_first_in, IH.
Qed.

Lemma is_avatar_update t f d :
  (forall n, is_avatar (f n) = is_avatar n) ->
  is_avatar (update_node t f d) = is_avatar d.
Proof.
  intros Hf. destruct d as [j tg c a kids]. rewrite update_node_Node.
  destruct (Nat.eqb j t); [apply Hf | reflexivity].
Qed.

(** A change inside an element that leaves its stripped form and its
    classes alone does not show in the stripped page. *)
Lemma strip_update t f d :
  (forall n, strip_avatars (f n) = strip_avatars n) ->
  (forall n, is_avatar (f n) = is_avatar n) ->
  strip_avatars (update_node t f d) = strip_avatars d.
Proof.
  intros Hs Ha. induction d as [j tg c a kids IH] using node_ind2.
  rewrite update_node_Node. destruct (Nat.eqb j t); [apply Hs|].
  rewrite !strip_avatars_Node. f_equal.
  induction IH as [|k kids Hk _ IHkids]; [reflexivity|].
  cbn [map strip_kids]. rewrite (is_avatar_update t f k Ha), Hk, IHkids.
  reflexivity.
Qed.

Lemma strip_prepend av n :
  is_avatar av = true -> strip_avatars (prepend av n) = strip_avatars n.
Proof.
  intros Hav. destruct n as [j tg c a kids]. cbn [prepend].
  rewrite !strip_avatars_Node. cbn [strip_kids]. rewrite Hav. reflexivity.
Qed.

Lemma created_is_avatar i n u ctx av :
  createAvatarEl i n u = Some av -> is_avatar (context_class ctx av) = true.
Proof.
  destruct u; try discriminate. intros [= <-]. destruct ctx; reflexivity.
Qed.

Lemma strip_detach t d :
  strip_avatars (update_node t (fun m => fst (remove_first is_avatar m)) d)
  = strip_avatars d.
Proof.
  apply strip_update; intros n; [apply strip_remove_first|].
  apply is_avatar_remove_first.
Qed.

Lemma strip_attach t av d :
  is_avatar av = true ->
  strip_avatars (update_node t (prepend av) d) = strip_avatars d.
Proof.
  intros Hav. apply strip_update; intros n; [apply strip_prepend, Hav|].
  destruct n. reflexivity.
Qed.

Lemma injectAvatar_strip el n u st :
  strip_avatars (doc (outcome_of (injectAvatar el n u st))) = strip_avatars (doc st).
Proof.
  destruct (injectAvatar_doc el n u st) as [->|(t & [->|(ctx & av & i & Hav & [->| ->])])].
  - reflexivity.
  - apply strip_detach.
  - apply strip_attach. eapply created_is_avatar, Hav.
  - rewrite strip_attach by (eapply created_is_avatar, Hav). apply strip_detach.
Qed.

Lemma injectAll_strip els n u st :
  strip_avatars (doc (outcome_of (injectAll els n u st))) = strip_avatars (doc st).
Proof.
  revert st. induction els as [|el els IH]; intros st; [reflexivity|].
  cbn [injectAll]. pose proof (injectAvatar_strip el n u st) as H.
  destruct (injectAvatar el n u st) as [st'|st']; cbn [outcome_of] in *.
  - rewrite IH. exact H.
  - exact H.
Qed.

Lemma processUserElement_strip now el st :
  strip_avatars (doc (outcome_of (processUserElement now el st)))
  = strip_avatars (doc st).
Proof.
  destruct (processUserElement_cases now el st) as
    [->|(e & ch & n & st1 & _ & _ & _ & _ & Hst1 & Hend)]; [reflexivity|].
  assert (H1 : strip_avatars (doc st1) = strip_avatars (doc st)).
  { destruct Hst1 as [[_ ->]|(old & _ & _ & ->)]; [reflexivity|].
    cbn [doc set_doc]. apply strip_detach. }
  destruct Hend as [(en & _ & _ & ->)|[[_ ->]|[[_ ->]|[_ ->]]]]; cbn [outcome_of].
  - rewrite injectAvatar_strip. exact H1.
  - exact H1.
  - rewrite enqueue_doc. exact H1.
  - rewrite enqueue_doc. exact H1.
Qed.

Lemma scan_strip clock els st :
  strip_avatars (doc (outcome_of (scan clock els st))) = strip_avatars (doc st).
Proof.
  revert clock st. induction els as [|el els IH]; intros clock st; [reflexivity|].
  cbn [scan]. pose proof (processUserElement_strip (clock 0%nat) el st) as H.
  destruct (processUserElement (clock 0%nat) el st) as [st'|st']; cbn [outcome_of] in *.
  - rewrite IH. exact H.
  - exact H.
Qed.

Lemma on_data_strip it data now st :
  strip_avatars (doc (outcome_of (on_data it data now st))) = strip_avatars (doc st).
Proof.
  unfold on_data. destruct (skip_static _) as [u|]; [|reflexivity].
  destruct (truthy u); [|reflexivity].
  unfold injectAllForNick. rewrite injectAll_strip. reflexivity.
Qed.

(** X1: the script adds and removes avatar elements and changes
    nothing else of the page: after a scan, and after the callbacks of
    an answered request (whatever the answer), the page without its
    avatar elements is what it was, element for element, attribute for
    attribute; and [.finally] does not touch the page. *)
Theorem host_page_is_left_alone st :
  (forall clock,
     strip_avatars (doc (outcome_of (scanAll clock st))) = strip_avatars (doc st)) /\
  (forall el n u,
     strip_avatars (doc (outcome_of (injectAvatar el n u st)))
     = strip_avatars (doc st)) /\
  (forall it r now,
     strip_avatars (doc (settle it r now st)) = strip_avatars (doc st)) /\
  doc (on_finally st) = doc st.
Proof.
  split; [|split; [|split]].
  - intros clock. apply scan_strip.
  - intros el n u. apply injectAvatar_strip.
  - intros it r now. unfold settle.
    destruct r as [|[] [data|]]; try reflexivity; try apply on_data_strip.
    pose proof (on_data_strip it data now st) as H.
    destruct (on_data it data now st); exact H.
  - unfold on_finally, drainQueue. rewrite drain_doc. reflexivity.
Qed.

End HostPage.

(* ================================================================== *)
(** * Further properties of avatars.js: when a lookup is made *)
(* ================================================================== *)

Section Lookups.
Import Dom Avatars.

(** [drainQueue] moves a prefix of the queue to the requests awaited
    and touches nothing else. *)
Lemma drain_split q st :
  exists pulled rest,
    q = pulled ++ rest /\
    queue (drain q st) = rest /\
    inflight (drain q st) = inflight st ++ pulled /\
    activeCount (drain q st) = activeCount st + Z.of_nat (length pulled) /\
    cache (drain q st) = cache st /\
    settled (drain q st) = settled st.
Proof.
  revert st. induction q as [|it q IH]; intros st; cbn [drain].
  - exists [], []. cbn. rewrite app_nil_r, Z.add_0_r. repeat split.
  - destruct (activeCount st <? MAX_CONCURRENT).
    + destruct (IH (doFetch it (set_queue q st))) as
        (pulled & rest & Hq & Hq' & Hin & Hac & Hc & Hs).
      exists (it :: pulled), rest. cbn in *.
      rewrite Hq', Hin, Hac, Hc, Hs, <- app_assoc. cbn.
      repeat split; try congruence. lia.
    + exists [], (it :: q). cbn. rewrite app_nil_r, Z.add_0_r. repeat split.
Qed.

Lemma enqueue_cache n st : cache (enqueue n st) = cache st.
Proof.
  unfold enqueue. destruct (cache_get _ _); try reflexivity.
  destruct (queued _ _); [reflexivity|].
  unfold drainQueue.
  destruct (drain_split (queue st ++ [Item n (JsString.toLowerCase n)])
              (set_queue (queue st ++ [Item n (JsString.toLowerCase n)]) st))
    as (_ & _ & _ & _ & _ & _ & Hc & _).
  exact Hc.
Qed.



Lemma cache_get_Own c k e : cache_get c k = Own e <-> c !! k = Some e.
Proof.
  unfold cache_get. destruct (c !! k) as [e'|].
  - split; intros [= ->]; reflexivity.
  - split; [destruct (inherited_name k)|]; discriminate.
Qed.


(** What one name element does to the cache: nothing, or the eviction
    of an entry without avatar that has reached [NEGATIVE_TTL]. *)
Lemma processUserElement_cache now el st :
  let st' := outcome_of (processUserElement now el st) in
  cache st' = cache st \/
  exists k en,
    cache st !! k = Some en /\ truthy (url en) = false /\
    NEGATIVE_TTL <= now - ts en /\ cache st' = delete k (cache st).
Proof.
  intros st'. subst st'.
  destruct (processUserElement_cases now el st) as
    [->|(e & ch & n & st1 & _ & _ & _ & _ & Hst1 & Hend)]; [left; reflexivity|].
  assert (H1 : cache st1 = cache st)
    by (destruct Hst1 as [[_ ->]|(? & _ & _ & ->)]; reflexivity).
  destruct Hend as [(en & _ & _ & ->)|[[_ ->]|[[(en & Hen & Hu & Hage) ->]|[_ ->]]]];
    cbn [outcome_of].
  - left. rewrite (cache_of_control st1) by apply injectAvatar_control. exact H1.
  - left. exact H1.
  - right. exists (JsString.toLowerCase n), en. apply cache_get_Own in Hen.
    rewrite enqueue_cache. cbn. rewrite H1. auto.
  - left. rewrite enqueue_cache. exact H1.
Qed.

Lemma scan_cache clock els st k :
  let st' := outcome_of (scan clock els st) in
  cache st' !! k = cache st !! k \/
  (cache st' !! k = None /\
   exists en i, cache st !! k = Some en /\ truthy (url en) = false /\
                NEGATIVE_TTL <= clock i - ts en).
Proof.
  revert clock st. induction els as [|el els IH]; intros clock st; [left; reflexivity|].
  cbn [scan].
  pose proof (processUserElement_cache (clock 0%nat) el st) as H. cbv zeta in H.
  assert (Hfirst :
    cache (outcome_of (processUserElement (clock 0%nat) el st)) !! k = cache st !! k \/
    (cache (outcome_of (processUserElement (clock 0%nat) el st)) !! k = None /\
     exists en, cache st !! k = Some en /\ truthy (url en) = false /\
                NEGATIVE_TTL <= clock 0%nat - ts en)).
  { destruct H as [->|(k' & en & Hk' & Hu & Hage & ->)]; [left; reflexivity|].
    destruct (decide (k' = k)) as [->|Hne].
    - right. rewrite lookup_delete_eq. eauto.
    - left. apply lookup_delete_ne, Hne. }
  clear H.
  destruct (processUserElement (clock 0%nat) el st) as [st1|st1]; cbn [outcome_of] in *.
  - specialize (IH (fun i => clock (S i)) st1). cbv zeta in IH.
    destruct Hfirst as [E|(E & en & Hen & Hu & Hage)].
    + rewrite E in IH. destruct IH as [IH|(IH & en & i & Hen & Hu & Hage)]; [left; exact IH|].
      right. split; [exact IH|]. exists en, (S i). auto.
    + right. split; [|exists en, 0%nat; auto].
      destruct IH as [-> | [IH _]]; assumption.
  - destruct Hfirst as [E|(E & en & Hen & Hu & Hage)]; [left; exact E|].
    right. split; [exact E|]. exists en, 0%nat. auto.
Qed.

(** X3: a scan never adds to the cache and never changes an entry.  It
    removes an entry only when the entry has no avatar and, at the time
    one of the name elements is processed, is [NEGATIVE_TTL] old or
    older; an entry with an avatar stays for good. *)
Theorem scans_only_evict_expired clock st k :
  let st' := outcome_of (scanAll clock st) in
  (cache st' !! k = cache st !! k \/
   (cache st' !! k = None /\
    exists en i, cache st !! k = Some en /\ truthy (url en) = false /\
                 NEGATIVE_TTL <= clock i - ts en)) /\
  (forall en, cache st !! k = Some en -> truthy (url en) = true ->
              cache st' !! k = Some en) /\
  (forall en, cache st !! k = Some en ->
              (forall i, clock i - ts en < NEGATIVE_TTL) ->
              cache st' !! k = Some en).
Proof.
  intros st'. subst st'. unfold scanAll.
  pose proof (scan_cache clock
                (map node_id (select_in_chat is_user false (doc st))) st k) as H.
  cbv zeta in H. split; [exact H|]. split.
  - intros en Hen Hu.
    destruct H as [->|(_ & en' & i & Hen' & Hu' & _)]; [exact Hen|]. congruence.
  - intros en Hen Hage.
    destruct H as [->|(_ & en' & i & Hen' & _ & Hage')]; [exact Hen|].
    assert (en' = en) as -> by congruence. specialize (Hage i). lia.
Qed.

End Lookups.

(* ================================================================== *)
(** * Further properties of avatars.js: what the runs keep *)
(* ================================================================== *)

Section RunInvariants.
Import Dom Avatars.

Lemma lower_char_idem c :
  JsString.lower_char (JsString.lower_char c) = JsString.lower_char c.
Proof. destruct c as [[] [] [] [] [] [] [] []]; vm_compute; reflexivity. Qed.

Lemma toLowerCase_idem s :
  JsString.toLowerCase (JsString.toLowerCase s) = JsString.toLowerCase s.
Proof.
  induction s as [|c s IH]; [reflexivity|].
  cbn [JsString.toLowerCase]. rewrite lower_char_idem, IH. reflexivity.
Qed.

Lemma enqueue_Forall (P : item -> Prop) n st :
  P (Item n (JsString.toLowerCase n)) ->
  Forall P (queue st ++ inflight st) ->
  Forall P (queue (enqueue n st) ++ inflight (enqueue n st)).
Proof.
  intros Hn H. unfold enqueue.
  destruct (cache_get _ _); try exact H.
  destruct (queued _ _); [exact H|].
  apply Forall_app in H as [Hq Hi].
  unfold drainQueue. apply drain_lookups; [|exact Hi]. cbn.
  apply Forall_app. split; [exact Hq|]. repeat constructor. exact Hn.
Qed.

Lemma Forall_lookups_control (P : item -> Prop) st st' :
  control st' = control st ->
  Forall P (queue st ++ inflight st) -> Forall P (queue st' ++ inflight st').
Proof. unfold control. intros [= _ -> _ -> _]. tauto. Qed.

Lemma processUserElement_Forall (P : item -> Prop) now el st :
  (forall n, P (Item n (JsString.toLowerCase n))) ->
  Forall P (queue st ++ inflight st) ->
  Forall P (queue (outcome_of (processUserElement now el st)) ++
            inflight (outcome_of (processUserElement now el st))).
Proof.
  intros HP H. unfold processUserElement.
  repeat (case_match; cbn [outcome_of]; try exact H);
    try (apply enqueue_Forall; [apply HP | exact H]);
    try (eapply Forall_lookups_control; [apply injectAvatar_control|]; exact H).
Qed.

Lemma scan_Forall (P : item -> Prop) clock els st :
  (forall n, P (Item n (JsString.toLowerCase n))) ->
  Forall P (queue st ++ inflight st) ->
  Forall P (queue (outcome_of (scan clock els st)) ++
            inflight (outcome_of (scan clock els st))).
Proof.
  intros HP. revert clock st.
  induction els as [|el els IH]; intros clock st H; [exact H|].
  cbn [scan]. pose proof (processUserElement_Forall P (clock 0%nat) el st HP H) as H'.
  destruct (processUserElement (clock 0%nat) el st); cbn [outcome_of] in *; auto.
Qed.

Lemma settled_of_control st st' : control st' = control st -> settled st' = settled st.
Proof. unfold control. intros [= _ _ _ _ ->]. reflexivity. Qed.

Lemma enqueue_settled n st : settled (enqueue n st) = settled st.
Proof.
  unfold enqueue. destruct (cache_get _ _); try reflexivity.
  destruct (queued _ _); [reflexivity|]. unfold drainQueue.
  destruct (drain_split (queue st ++ [Item n (JsString.toLowerCase n)])
              (set_queue (queue st ++ [Item n (JsString.toLowerCase n)]) st))
    as (_ & _ & _ & _ & _ & _ & _ & Hs).
  exact Hs.
Qed.

Lemma processUserElement_settled now el st :
  settled (outcome_of (processUserElement now el st)) = settled st.
Proof.
  destruct (processUserElement_cases now el st) as
    [->|(e & ch & n & st1 & _ & _ & _ & _ & Hst1 & Hend)]; [reflexivity|].
  assert (H1 : settled st1 = settled st)
    by (destruct Hst1 as [[_ ->]|(? & _ & _ & ->)]; reflexivity).
  destruct Hend as [(en & _ & _ & ->)|[[_ ->]|[[_ ->]|[_ ->]]]]; cbn [outcome_of].
  - rewrite (settled_of_control st1) by apply injectAvatar_control. exact H1.
  - exact H1.
  - rewrite enqueue_settled. exact H1.
  - rewrite enqueue_settled. exact H1.
Qed.

Lemma scan_settled clock els st :
  settled (outcome_of (scan clock els st)) = settled st.
Proof.
  revert clock st. induction els as [|el els IH]; intros clock st; [reflexivity|].
  cbn [scan]. pose proof (processUserElement_settled (clock 0%nat) el st) as H.
  destruct (processUserElement (clock 0%nat) el st); cbn [outcome_of] in *.
  - rewrite IH. exact H.
  - exact H.
Qed.

(** In every reachable state the key of a lookup, queued, awaited or
    handled, is its nickname in lower case. *)
Lemma reachable_keyed st :
  reachable st ->
  Forall keyed (queue st ++ inflight st) /\ Forall keyed (settled st).
Proof.
  induction 1 as [st (Hc & Hq & Ha & Hi & Hs & _)|st st' _ [IH IHs] Hstep].
  - rewrite Hq, Hi, Hs. split; constructor.
  - destruct Hstep as
      [clock st|i it data now st st' _ Hraise|i it r now st Hnth|j it st Hnth|d' st _].
    + split; [apply scan_Forall; [reflexivity | exact IH]|].
      unfold scanAll. rewrite scan_settled. exact IHs.
    + pose proof (on_data_control it data now st) as Hc. rewrite Hraise in Hc.
      cbn [outcome_of] in Hc. destruct Hc as (Hq' & _ & Hi' & Hs').
      rewrite Hq', Hi', Hs'. split; assumption.
    + destruct (settle_control it r now st) as (Hq' & _ & Hi' & Hs').
      cbn. rewrite Hq'. apply Forall_app in IH as [Hlq Hli]. split.
      * apply Forall_app. split; [exact Hlq | apply Forall_remove_nth, Hli].
      * apply Forall_app. split; [exact IHs|]. repeat constructor.
        rewrite Forall_forall in Hli.
        apply Hli, list_elem_of_In. eapply nth_error_In, Hnth.
    + apply Forall_app in IH as [Hlq Hli]. split.
      * unfold on_finally, drainQueue. apply drain_lookups; cbn; assumption.
      * unfold on_finally, drainQueue.
        match goal with
        | |- Forall keyed (settled (drain ?q ?s)) =>
            destruct (drain_split q s) as (_ & _ & _ & _ & _ & _ & _ & Hs)
        end.
        rewrite Hs. cbn. apply Forall_remove_nth, IHs.
    + split; assumption.
Qed.

(** X4: in every reachable state each lookup, whether queued, awaited
    or handled, carries as its key its nickname in lower case, and no
    two queued lookups have the same key. *)
Theorem lookups_are_keyed_by_lower_case st :
  reachable st ->
  (forall it, it ∈ queue st ++ inflight st ++ settled st ->
              key it = JsString.toLowerCase (nick it)) /\
  NoDup (map key (queue st)).
Proof.
  intros Hr. destruct (reachable_keyed st Hr) as [H1 H2].
  split; [|apply queue_keys_distinct, Hr].
  intros it Hit. rewrite app_assoc in Hit. apply elem_of_app in Hit as [Hit|Hit].
  - rewrite Forall_forall in H1. apply (H1 it Hit).
  - rewrite Forall_forall in H2. apply (H2 it Hit).
Qed.

(** *** What the cache holds *)

Lemma url_of_data_cases data :
  url_of_data data = JNull \/ truthy (url_of_data data) = true.
Proof.
  unfold url_of_data.
  destruct (truthy data); cbn [andb]; [|left; reflexivity].
  destruct (avatar_url data) as [v|]; cbn [truthy_opt]; [|left; reflexivity].
  destruct (truthy v) eqn:E; [right; exact E | left; reflexivity].
Qed.

Lemma skip_static_cacheable data u :
  skip_static (url_of_data data) = Some u -> cacheable u.
Proof.
  destruct (url_of_data_cases data) as [->|Ht]; [intros [= <-]; exact I|].
  unfold skip_static. rewrite Ht.
  destruct (url_of_data data) as [|b|z|s|l|o]; try discriminate.
  - intros [= <-]. destruct (JsString.startsWith "/static/" s) eqn:Es; [exact I|].
    split; [exact Ht | exact Es].
  - destruct l as [|[] l]; intros [= <-]; try exact I.
    destruct (String.eqb _ _); exact I.
Qed.

Lemma on_data_entries it data now st :
  map_Forall entry_ok (cache st) ->
  entry_ok (key it) (Entry JNull now) ->
  map_Forall entry_ok (cache (outcome_of (on_data it data now st))).
Proof.
  intros Hc (Hl & Hs & Hi & _). unfold on_data.
  destruct (skip_static _) as [u|] eqn:Eu; [|exact Hc].
  apply skip_static_cacheable in Eu.
  assert (H1 : map_Forall entry_ok (<[key it := Entry u now]> (cache st))).
  { apply map_Forall_insert_2; [|exact Hc]. repeat split; assumption. }
  destruct (truthy u); [|exact H1].
  rewrite (cache_of_control (set_cache (<[key it := Entry u now]> (cache st)) st))
    by apply injectAllForNick_control.
  exact H1.
Qed.

Lemma settle_entries it r now st :
  map_Forall entry_ok (cache st) ->
  entry_ok (key it) (Entry JNull now) ->
  map_Forall entry_ok (cache (settle it r now st)).
Proof.
  intros Hc Hk.
  assert (Herr : forall s, map_Forall entry_ok (cache s) ->
                           map_Forall entry_ok (cache (on_error it now s))).
  { intros s Hs. unfold on_error. cbn. apply map_Forall_insert_2; assumption. }
  pose proof (fun data => on_data_entries it data now st Hc Hk) as Hdata.
  unfold settle. destruct r as [|[] [data|]]; try (apply Herr, Hc); try apply Hdata.
  specialize (Hdata data).
  destruct (on_data it data now st); cbn [outcome_of] in Hdata; [exact Hdata|].
  apply Herr, Hdata.
Qed.

Lemma scan_entries clock els st :
  map_Forall entry_ok (cache st) ->
  map_Forall entry_ok (cache (outcome_of (scan clock els st))).
Proof.
  revert clock st. induction els as [|el els IH]; intros clock st Hc; [exact Hc|].
  cbn [scan].
  assert (H1 : map_Forall entry_ok
                 (cache (outcome_of (processUserElement (clock 0%nat) el st)))).
  { destruct (processUserElement_cache (clock 0%nat) el st)
      as [->|(k & en & _ & _ & _ & ->)]; [exact Hc|].
    apply map_Forall_delete, Hc. }
  destruct (processUserElement (clock 0%nat) el st); cbn [outcome_of] in *; auto.
Qed.

(** The key of a request awaited in a reachable state. *)
Lemma awaited_key_ok st i it now :
  reachable st -> nth_error (inflight st) i = Some it ->
  entry_ok (key it) (Entry JNull now).
Proof.
  intros Hr Hnth.
  destruct (reachable_keyed st Hr) as [Hk _].
  destruct (reachable_no_service st Hr) as [_ Hs].
  pose proof (reachable_own_keys st Hr) as Ho.
  pose proof (lookup_in_flight _ i it st Hk Hnth) as Hkey.
  pose proof (lookup_in_flight _ i it st Hs Hnth) as Hserv.
  pose proof (lookup_in_flight _ i it st Ho Hnth) as Hown.
  cbv beta in Hserv, Hown. unfold keyed in Hkey. unfold isServiceNick in Hserv.
  rewrite <- Hkey in Hserv.
  split; [rewrite Hkey; apply toLowerCase_idem|].
  split; [exact Hserv|]. split; [exact Hown | exact I].
Qed.

(** X5: in every reachable state a key of the cache is in lower case
    and is no service nickname and none of the names the cache object
    inherits, and the URL stored under it is [null], a string that is
    not empty and does not begin with [/static/], or, outside the
    documented answers, an array: a static avatar is never cached. *)
Theorem cache_entries_are_usable st :
  reachable st ->
  forall k e, cache st !! k = Some e -> entry_ok k e.
Proof.
  intros Hr. change (map_Forall entry_ok (cache st)).
  induction Hr as [st (Hc & _)|st st' Hr IH Hstep].
  - rewrite Hc. apply map_Forall_empty.
  - destruct Hstep as
      [clock st|i it data now st st' Hnth Hraise|i it r now st Hnth|j it st Hnth|d' st _].
    + apply scan_entries, IH.
    + pose proof (on_data_entries it data now st IH
                    (awaited_key_ok st i it now Hr Hnth)) as H.
      rewrite Hraise in H. exact H.
    + cbn. apply settle_entries; [exact IH|]. eapply awaited_key_ok; eassumption.
    + unfold on_finally, drainQueue.
      match goal with
      | |- map_Forall entry_ok (cache (drain ?q ?s)) =>
          destruct (drain_split q s) as (_ & _ & _ & _ & _ & _ & Hc & _)
      end.
      rewrite Hc. exact IH.
    + exact IH.
Qed.

End RunInvariants.

(* ================================================================== *)
(** * Further properties of avatars.js: the injected element *)
(* ================================================================== *)

Section Injection.
Import Dom Avatars.

Lemma createAvatarEl_markup i ctx n u :
  context_class ctx <$> createAvatarEl i n (JStr u) = Some (avatar_markup i ctx n u).
Proof.
  unfold createAvatarEl, avatar_markup.
  replace (if JsString.startsWith "/" u then AVATAR_ORIGIN +:+ u else u) with u
    by (destruct (JsString.startsWith "/" u); reflexivity).
  destruct ctx; reflexivity.
Qed.

(** The part of [injectAvatar] that follows the test of the context. *)
Lemma inject_into_target st e ch n u c :
  find_node (node_id (target_of c (e :: ch) e)) (doc st)
  = Some (target_of c (e :: ch) e) ->
  (forall old, querySelector is_avatar (target_of c (e :: ch) e) = Some old ->
               ~ records n old) ->
  exists st',
    (let target := target_of c (e :: ch) e in
     let t := node_id target in
     let old := querySelector is_avatar target in
     if match old with
        | Some o => same_nick (getAttribute "data-nick" o) n
        | None => false
        end
     then Normal st
     else
       let st1 :=
         match old with
         | Some _ =>
             set_doc (update_node t (fun m => fst (remove_first is_avatar m))
                        (doc st)) st
         | None => st
         end in
       match createAvatarEl (fresh st1) n (JStr u) with
       | None => Throw st1
       | Some avatar =>
           Normal
             (set_fresh (2 + fresh st1)
                (set_doc
                   (update_node t (prepend (context_class c avatar))
                      (doc st1)) st1))
       end) = Normal st' /\
    find_node (node_id (target_of c (e :: ch) e)) (doc st')
    = Some (prepend (avatar_markup (fresh st) c n u)
              (fst (remove_first is_avatar (target_of c (e :: ch) e)))) /\
    (querySelector is_avatar (target_of c (e :: ch) e) = None ->
     find_node (node_id (target_of c (e :: ch) e)) (doc st')
     = Some (prepend (avatar_markup (fresh st) c n u)
               (target_of c (e :: ch) e))) /\
    fresh st' = (2 + fresh st)%nat /\
    control st' = control st.
Proof.
  intros Hfind Hold. cbv zeta.
  pose proof (createAvatarEl_markup (fresh st) c n u) as Hmk.
  destruct (createAvatarEl (fresh st) n (JStr u)) as [av|] eqn:Eav; [|discriminate].
  cbn [fmap option_fmap option_map] in Hmk. injection Hmk as Hmk.
  set (target := target_of c (e :: ch) e) in *.
  assert (Hbase : querySelector is_avatar target = None ->
                  fst (remove_first is_avatar target) = target).
  { intros Hq. apply detach_first, querySelector_None_avatars, Hq. }
  destruct (querySelector is_avatar target) as [old|] eqn:Eq.
  - assert (Hsn : same_nick (getAttribute "data-nick" old) n = false).
    { destruct (same_nick _ n) eqn:Es; [|reflexivity].
      apply same_nick_records in Es. destruct (Hold old eq_refl Es). }
    rewrite Hsn. cbn [fresh set_doc]. rewrite Eav, Hmk.
    eexists. split; [reflexivity|]. cbn [doc set_doc set_fresh fresh].
    split; [|split; [discriminate | split; reflexivity]].
    rewrite !find_node_update, Hfind;
      [reflexivity | intros; apply node_id_remove_first
                   | intros; apply node_id_prepend].
  - rewrite Eav, Hmk.
    eexists. split; [reflexivity|]. cbn [doc set_doc set_fresh fresh].
    rewrite find_node_update, Hfind by (intros; apply node_id_prepend).
    cbn [fmap option_fmap option_map]. rewrite (Hbase eq_refl).
    repeat split; reflexivity.
Qed.

(** X6: on a page with distinct element identities, injecting an avatar
    for [n] with the URL [u] into the target of a name element that has
    a context, when the target does not already show an avatar for [n],
    ends normally and makes the new avatar the first child of the
    target: a [span.tl-avatar] that records [n], has the class of the
    context, and holds one lazily loaded image whose source is [u] as
    given and whose alternative text is [n].  The stale avatar, if there
    was one, is gone from the target, and the cache, the queue and the
    requests are as before. *)
Theorem injected_avatar_is_first_child st el e ch n u :
  distinct_ids (doc st) ->
  chain_to el (doc st) = Some (e :: ch) ->
  getContext (e :: ch) <> Other ->
  let ctx := getContext (e :: ch) in
  let target := target_of ctx (e :: ch) e in
  (forall old, querySelector is_avatar target = Some old -> ~ records n old) ->
  exists st',
    injectAvatar el n (JStr u) st = Normal st' /\
    find_node (node_id target) (doc st')
    = Some (prepend (avatar_markup (fresh st) ctx n u)
              (fst (remove_first is_avatar target))) /\
    (querySelector is_avatar target = None ->
     find_node (node_id target) (doc st')
     = Some (prepend (avatar_markup (fresh st) ctx n u) target)) /\
    fresh st' = (2 + fresh st)%nat /\
    control st' = control st.
Proof.
  intros Hd Hch Hctx ctx target Hold. subst target ctx.
  pose proof (target_found (doc st) el e ch (getContext (e :: ch)) Hd Hch) as Hfind.
  unfold injectAvatar. rewrite Hch.
  destruct (getContext (e :: ch)) eqn:Ectx; [| | |contradiction];
    apply inject_into_target; assumption.
Qed.

End Injection.

(* ================================================================== *)
(** * Further properties of avatars.js: the observer and its timers *)
(* ================================================================== *)

Section ObserverFacts.
Import Avatars Observer.

Lemma pending_app j l1 l2 : pending j (l1 ++ l2) = pending j l1 ++ pending j l2.
Proof. apply List.filter_app. Qed.

Lemma pending_without j i l :
  pending j (without i l)
  = List.filter (fun y => negb (Nat.eqb (tid y) i)) (pending j l).
Proof.
  unfold pending. induction l as [|x l IH]; [reflexivity|].
  cbn [without List.filter].
  destruct (Nat.eqb (tid x) i) eqn:Ei, (same_job (job x) j) eqn:Ej;
    cbn [List.filter]; rewrite ?Ei, ?Ej; cbn [negb]; rewrite IH; reflexivity.
Qed.

Lemma elem_of_pending j x l : x ∈ pending j l <-> x ∈ l /\ job x = j.
Proof.
  unfold pending. rewrite !list_elem_of_In, List.filter_In.
  destruct (job x), j; cbn; intuition congruence.
Qed.

Lemma filter_all {A} (f : A -> bool) l :
  (forall x, x ∈ l -> f x = true) -> List.filter f l = l.
Proof.
  induction l as [|x l IH]; intros H; [reflexivity|].
  cbn. rewrite (H x) by apply list_elem_of_here.
  f_equal. apply IH. intros y Hy. apply H, list_elem_of_further, Hy.
Qed.

(** Clearing an id that belongs to another task leaves the timeouts of
    the task [j] alone. *)
Lemma pending_without_other j i l :
  (forall x, x ∈ l -> tid x = i -> job x <> j) ->
  pending j (without i l) = pending j l.
Proof.
  intros H. rewrite pending_without. apply filter_all.
  intros x Hx. apply elem_of_pending in Hx as [Hx Hj].
  destruct (Nat.eqb_spec (tid x) i) as [E|_]; [|reflexivity].
  destruct (H x Hx E Hj).
Qed.

Lemma elem_of_without x i l : x ∈ without i l -> x ∈ l /\ tid x <> i.
Proof.
  induction l as [|y l IH]; cbn [without]; [intros H; inversion H|].
  destruct (Nat.eqb_spec (tid y) i) as [E|Hne].
  - intros H. destruct (IH H). split; [apply list_elem_of_further|]; assumption.
  - intros H. apply elem_of_cons in H as [->|H].
    + split; [apply list_elem_of_here | exact Hne].
    + destruct (IH H). split; [apply list_elem_of_further|]; assumption.
Qed.

Lemma without_sublist i l : without i l `sublist_of` l.
Proof.
  induction l as [|y l IH]; cbn [without]; [constructor|].
  destruct (Nat.eqb (tid y) i); [apply sublist_cons | apply sublist_skip]; exact IH.
Qed.

Lemma map_sublist {A B} (f : A -> B) (l k : list A) :
  l `sublist_of` k -> map f l `sublist_of` map f k.
Proof. induction 1; cbn; constructor; assumption. Qed.

Lemma Forall_sublist {A} (P : A -> Prop) (l k : list A) :
  l `sublist_of` k -> Forall P k -> Forall P l.
Proof.
  induction 1 as [|x l k _ IH|x l k _ IH]; intros H; [constructor| |].
  - apply Forall_cons in H as [Hx H]. constructor; auto.
  - apply Forall_cons in H as [_ H]. auto.
Qed.

Lemma sublist_elem {A} (x : A) (l k : list A) :
  l `sublist_of` k -> x ∈ l -> x ∈ k.
Proof.
  induction 1 as [|y l k _ IH|y l k _ IH]; intros H; [exact H| |].
  - apply elem_of_cons in H as [->|H];
      [apply list_elem_of_here | apply list_elem_of_further, IH, H].
  - apply list_elem_of_further, IH, H.
Qed.

Lemma NoDup_sublist_ids (l k : list timer) :
  l `sublist_of` k -> NoDup (map tid k) -> NoDup (map tid l).
Proof.
  intros Hs Hk. eapply sublist_NoDup; [exact Hk | apply map_sublist, Hs].
Qed.

Lemma without_absent i l : i ∉ map tid l -> without i l = l.
Proof.
  induction l as [|y l IH]; cbn [without map]; [reflexivity|].
  rewrite not_elem_of_cons. intros [Hne Hl].
  destruct (Nat.eqb_spec (tid y) i) as [E|_]; [congruence|].
  rewrite (IH Hl). reflexivity.
Qed.

(** With distinct ids, taking the timeout that fires off the list is
    clearing its id. *)
Lemma remove_nth_without i x l :
  NoDup (map tid l) -> nth_error l i = Some x -> remove_nth i l = without (tid x) l.
Proof.
  revert i. induction l as [|y l IH]; intros i Hd Hn; [destruct i; discriminate|].
  cbn [map] in Hd. apply NoDup_cons in Hd as [Hy Hd].
  destruct i as [|i]; cbn in Hn.
  - injection Hn as ->. cbn [without]. rewrite Nat.eqb_refl.
    rewrite without_absent by exact Hy. reflexivity.
  - unfold remove_nth in *. cbn [firstn skipn app without].
    destruct (Nat.eqb_spec (tid y) (tid x)) as [E|_].
    + exfalso. apply Hy. rewrite E. apply list_elem_of_In, in_map.
      eapply nth_error_In, Hn.
    + f_equal. apply (IH i Hd Hn).
Qed.

Lemma ids_ok_now t o : ids_ok o -> ids_ok (set_now t o).
Proof. exact (fun H => H). Qed.

(** Time passes. *)
Lemma observer_ok_now t o :
  now o <= t -> observer_ok o -> observer_ok (set_now t o).
Proof.
  intros Ht (Hi & Hth & Htr & Hsp). repeat split; try assumption; try apply Hi.
  unfold throttle_ok in *. cbn [throttleTimer set_now timers history now].
  destruct (throttleTimer o); [exact Hth|].
  destruct Hth as [Hp Hold]. split; [exact Hp|].
  intros t1 H1. specialize (Hold t1 H1). lia.
Qed.

(** A scan that is not a leading one. *)
Lemma observer_ok_scan clock o :
  observer_ok o -> observer_ok (outcome_of (run_scan false clock o)).
Proof.
  intros (Hi & Hth & Htr & Hsp).
  assert (H : forall p r,
    observer_ok (record (Scanned (now o) false r) (set_page p o))).
  { intros p r. split; [exact Hi|]. split; [|split; [|exact Hsp]].
    - unfold throttle_ok in *.
      cbn [throttleTimer record set_page timers history now].
      destruct (throttleTimer o) as [i|].
      + destruct Hth as (Hpos & d & Hp & Hold). split; [exact Hpos|].
        exists d. split; [exact Hp|]. intros t1 H1.
        apply elem_of_cons in H1 as [[=]|H1]. apply Hold, H1.
      + destruct Hth as [Hp Hold]. split; [exact Hp|]. intros t1 H1.
        apply elem_of_cons in H1 as [[=]|H1]. apply Hold, H1.
    - unfold trailing_ok in *.
      cbn [throttleTimer trailingTimer record set_page timers history now
           last_observed scans_since].
      destruct (pending TrailingScan (timers o)) as [|x [|y l]]; [|exact Htr|exact Htr].
      destruct (last_observed (history o)) as [t0|]; [|exact I].
      destruct Htr as (t' & Ht' & Hle). exists t'.
      split; [apply list_elem_of_further, Ht' | exact Hle]. }
  unfold run_scan. destruct (scanAll clock (page o)); apply H.
Qed.

(** The second half of the callback: the trailing scan is set anew. *)
Lemma observer_ok_rearm o : observer_ok o -> observer_ok (rearm o).
Proof.
  intros ((Hlt & Hnd & Hpos & Hj) & Hth & Htr & Hsp).
  set (l := match trailingTimer o with
            | Some j => without j (timers o)
            | None => timers o
            end).
  assert (Hclear : clearTimeout (trailingTimer o) o = set_timers l o)
    by (unfold clearTimeout, l; destruct (trailingTimer o); [|destruct o]; reflexivity).
  assert (Hsub : l `sublist_of` timers o)
    by (unfold l; destruct (trailingTimer o); [apply without_sublist | reflexivity]).
  assert (Hreset : pending ResetThrottle l = pending ResetThrottle (timers o)).
  { unfold l. destruct (trailingTimer o) as [j|]; [|reflexivity].
    apply pending_without_other. intros x Hx E.
    rewrite (proj2 Hj x Hx E). discriminate. }
  assert (Htrail : pending TrailingScan l = []).
  { unfold l, trailing_ok in *.
    destruct (pending TrailingScan (timers o)) as [|x [|y r]] eqn:Ep;
      [|destruct Htr as [Ej _]; rewrite Ej|destruct Htr].
    - destruct (trailingTimer o); [|exact Ep].
      rewrite pending_without, Ep. reflexivity.
    - rewrite pending_without, Ep. cbn. rewrite Nat.eqb_refl. reflexivity. }
  unfold rearm. rewrite Hclear.
  unfold observer_ok, ids_ok, throttle_ok, trailing_ok, setTimeout.
  cbn [timers next_id trailingTimer throttleTimer history now page record
       set_trailingTimer set_timers snd last_observed spaced].
  rewrite !pending_app, Hreset, Htrail.
  cbn [pending List.filter job same_job app tid due].
  split; [|split; [|split; [|exact Hsp]]].
  - split; [|split; [|split]].
    + apply Forall_app. split.
      * eapply Forall_impl; [eapply Forall_sublist; [exact Hsub | exact Hlt]|].
        cbn. intros x Hx. lia.
      * constructor; [cbn; lia | constructor].
    + rewrite map_app. apply NoDup_app. split; [|split].
      * eapply NoDup_sublist_ids; eassumption.
      * intros i Hi1 Hi2. cbn in Hi2. apply list_elem_of_singleton in Hi2. subst i.
        apply list_elem_of_In, in_map_iff in Hi1 as (x & Hx1 & Hx2).
        apply list_elem_of_In in Hx2.
        rewrite Forall_forall in Hlt.
        assert (x ∈ timers o) by (eapply sublist_elem; eassumption).
        specialize (Hlt x H). lia.
      * cbn. apply NoDup_singleton.
    + lia.
    + split; [lia|]. intros x Hx E. apply elem_of_app in Hx as [Hx|Hx].
      * rewrite Forall_forall in Hlt.
        assert (x ∈ timers o) by (eapply sublist_elem; eassumption).
        specialize (Hlt x H). lia.
      * apply list_elem_of_singleton in Hx. subst x. reflexivity.
  - rewrite app_nil_r. unfold throttle_ok in Hth.
    destruct (throttleTimer o) as [i|].
    + destruct Hth as (Hi & d & Hp & Hold). split; [exact Hi|]. exists d.
      split; [exact Hp|]. intros t1 H1.
      apply elem_of_cons in H1 as [[=]|H1]. apply Hold, H1.
    + destruct Hth as [Hp Hold]. split; [exact Hp|]. intros t1 H1.
      apply elem_of_cons in H1 as [[=]|H1]. apply Hold, H1.
  - split; [reflexivity|]. f_equal. lia.
Qed.

(** The callback of the observer. *)
Lemma observer_ok_callback clock o :
  observer_ok o -> observer_ok (outcome_of (callback clock o)).
Proof.
  intros Hok. pose proof Hok as ((Hlt & Hnd & Hpos & Hj) & Hth & Htr & Hsp).
  unfold callback. destruct (falsy (throttleTimer o)) eqn:Ef.
  - (* leading edge *)
    assert (Hnone : throttleTimer o = None).
    { unfold throttle_ok in Hth. destruct (throttleTimer o) as [i|]; [|reflexivity].
      destruct Hth as [Hi _]. cbn in Ef. apply Nat.eqb_eq in Ef. lia. }
    unfold throttle_ok in Hth. rewrite Hnone in Hth. destruct Hth as [Hp Hold].
    assert (Hscan : forall p r,
      let o1 := record (Scanned (now o) true r) (set_page p o) in
      ids_ok o1 /\ trailing_ok o1 /\ spaced (history o1) /\
      pending ResetThrottle (timers o1) = [] /\
      forall t, Scanned t true false ∈ history o1 -> t + THROTTLE_MS <= now o + THROTTLE_MS).
    { intros p r o1. subst o1. split; [exact (conj Hlt (conj Hnd (conj Hpos Hj)))|].
      split; [|split; [|split; [exact Hp|]]].
      - unfold trailing_ok in *.
        cbn [trailingTimer record set_page timers history last_observed scans_since].
        exact Htr.
      - cbn [history record set_page spaced]. split; [|exact Hsp].
        intros t1 H1. apply Hold, H1.
      - cbn [history record set_page]. intros t1 H1.
        apply elem_of_cons in H1 as [[= -> _]|H1]; [lia|].
        specialize (Hold t1 H1). unfold THROTTLE_MS in *. lia. }
    unfold run_scan. destruct (scanAll clock (page o)) as [p|p].
    + (* the scan returned: the throttle is set and the trailing scan armed *)
      destruct (Hscan p false) as (Hi1 & Htr1 & Hsp1 & Hp1 & Hold1).
      set (o1 := record (Scanned (now o) true false) (set_page p o)) in *.
      cbn [setTimeout]. cbv beta iota zeta.
      set (o2 := set_throttleTimer (Some (next_id o1))
                   (OState (throttleTimer o1) (trailingTimer o1)
                      (timers o1 ++ [Timer (next_id o1) (now o1 + THROTTLE_MS)
                                       ResetThrottle])
                      (S (next_id o1)) (page o1) (now o1) (history o1))).
      assert (Hok2 : observer_ok o2).
      { destruct Hi1 as (Hlt1 & Hnd1 & Hpos1 & Hj1).
        unfold observer_ok, ids_ok, throttle_ok, trailing_ok, o2.
        cbn [timers next_id trailingTimer throttleTimer history now page
             set_throttleTimer].
        assert (Hnow1 : now o1 = now o) by reflexivity.
        assert (Hnext1 : next_id o1 = next_id o) by reflexivity.
        clearbody o1. rewrite ?Hnext1 in *.
        rewrite !pending_app, Hp1.
        cbn [pending List.filter job same_job app].
        split; [|split; [|split; [|exact Hsp1]]].
        - split; [|split; [|split]].
          + apply Forall_app. split.
            * eapply Forall_impl; [exact Hlt1|]. cbn. intros x Hx. lia.
            * constructor; [cbn; lia | constructor].
          + rewrite map_app. apply NoDup_app. split; [exact Hnd1|split].
            * intros i Hi1' Hi2. cbn in Hi2. apply list_elem_of_singleton in Hi2.
              subst i. apply list_elem_of_In, in_map_iff in Hi1' as (x & Hx1 & Hx2).
              apply list_elem_of_In in Hx2.
              rewrite Forall_forall in Hlt1. specialize (Hlt1 x Hx2). lia.
            * cbn. apply NoDup_singleton.
          + lia.
          + destruct (trailingTimer o1) as [j|] eqn:Ej; [|exact I].
            destruct Hj1 as [Hjlt Hj1]. split; [lia|].
            intros x Hx E. apply elem_of_app in Hx as [Hx|Hx]; [apply (Hj1 x Hx E)|].
            apply list_elem_of_singleton in Hx. subst x. cbn in E.
            (* the id in [trailingTimer] is older than the new one *)
            lia.
        - split; [lia|]. eexists. split; [reflexivity|]. rewrite Hnow1. exact Hold1.
        - rewrite app_nil_r. exact Htr1. }
      exact (observer_ok_rearm o2 Hok2).
    + (* the scan raised: the callback ends *)
      destruct (Hscan p true) as (Hi1 & Htr1 & Hsp1 & Hp1 & Hold1).
      cbn [outcome_of]. split; [exact Hi1|]. split; [|split; assumption].
      unfold throttle_ok. cbn [throttleTimer record set_page timers history now].
      rewrite Hnone. split; [exact Hp|]. intros t1 H1.
      apply elem_of_cons in H1 as [[=]|H1]. apply Hold, H1.
  - exact (observer_ok_rearm o Hok).
Qed.

Lemma same_id_same_timer (l : list timer) x y :
  NoDup (map tid l) -> x ∈ l -> y ∈ l -> tid y = tid x -> y = x.
Proof.
  induction l as [|z l IH]; intros Hd Hx Hy E; [inversion Hx|].
  cbn [map] in Hd. apply NoDup_cons in Hd as [Hz Hd].
  assert (Hin : forall w, w ∈ l -> tid w ∈ map tid l)
    by (intros w Hw; apply list_elem_of_In, in_map, list_elem_of_In, Hw).
  apply elem_of_cons in Hx as [->|Hx]; apply elem_of_cons in Hy as [->|Hy].
  - reflexivity.
  - exfalso. apply Hz. rewrite <- E. apply Hin, Hy.
  - exfalso. apply Hz. rewrite E. apply Hin, Hx.
  - apply IH; assumption.
Qed.

(** A timeout fires. *)
Lemma observer_ok_fire i x t clock o :
  observer_ok o ->
  nth_error (timers o) i = Some x -> due x <= t -> now o <= t ->
  observer_ok (fire x clock (set_timers (remove_nth i (timers o)) (set_now t o))).
Proof.
  intros Hok Hnth Hdue Ht.
  pose proof (observer_ok_now t o Ht Hok) as ((Hlt & Hnd & Hpos & Hj) & Hth & Htr & Hsp).
  cbn [timers set_now next_id trailingTimer] in Hlt, Hnd, Hpos, Hj.
  rewrite (remove_nth_without i x (timers o) Hnd Hnth).
  assert (Hx : x ∈ timers o) by (apply list_elem_of_In; eapply nth_error_In, Hnth).
  assert (Hsub : without (tid x) (timers o) `sublist_of` timers o)
    by apply without_sublist.
  assert (Hids : forall p h th,
    ids_ok (OState th (trailingTimer o) (without (tid x) (timers o))
                   (next_id o) p t h)).
  { intros p h th. split; [|split; [|split]]; cbn [timers next_id trailingTimer].
    - eapply Forall_sublist; eassumption.
    - eapply NoDup_sublist_ids; eassumption.
    - exact Hpos.
    - destruct (trailingTimer o) as [j|]; [|exact I]. destruct Hj as [Hjlt Hj].
      split; [exact Hjlt|]. intros y Hy. apply Hj. eapply sublist_elem; eassumption. }
  assert (Hother : forall j, job x <> j ->
    pending j (without (tid x) (timers o)) = pending j (timers o)).
  { intros j Hne. apply pending_without_other. intros y Hy E.
    rewrite (same_id_same_timer (timers o) x y Hnd Hx Hy E). exact Hne. }
  assert (Hown : forall x', pending (job x) (timers o) = [x'] ->
    x' = x /\ pending (job x) (without (tid x) (timers o)) = []).
  { intros x' Hp.
    assert (x ∈ pending (job x) (timers o)) as Hin
      by (apply elem_of_pending; split; [exact Hx | reflexivity]).
    rewrite Hp in Hin. apply list_elem_of_singleton in Hin. subst x'.
    split; [reflexivity|]. rewrite pending_without, Hp. cbn.
    rewrite Nat.eqb_refl. reflexivity. }
  unfold fire. destruct (job x) eqn:Ejob.
  - (* the throttle is cleared *)
    unfold throttle_ok in Hth. cbn [throttleTimer set_now timers history now] in Hth.
    destruct (throttleTimer o) as [i0|] eqn:Eth.
    2:{ destruct Hth as [Hp _].
        assert (x ∈ pending ResetThrottle (timers o)) as Hin
          by (apply elem_of_pending; split; assumption).
        rewrite Hp in Hin. inversion Hin. }
    destruct Hth as (Hi0 & d & Hp & Hold).
    destruct (Hown _ Hp) as [Ex Hgone].
    split; [apply Hids|]. split; [|split; [|exact Hsp]].
    + unfold throttle_ok.
      cbn [throttleTimer set_throttleTimer set_timers set_now timers history now].
      split; [exact Hgone|]. intros t1 H1. specialize (Hold t1 H1).
      subst x. cbn in Hdue. lia.
    + unfold trailing_ok in *.
      cbn [throttleTimer trailingTimer set_throttleTimer set_timers set_now timers
           history now] in *.
      rewrite (Hother TrailingScan) by discriminate. exact Htr.
  - (* the trailing scan runs *)
    unfold trailing_ok in Htr.
    cbn [trailingTimer set_now timers history] in Htr.
    destruct (pending TrailingScan (timers o)) as [|x' [|y r]] eqn:Ep.
    { assert (x ∈ pending TrailingScan (timers o)) as Hin
        by (apply elem_of_pending; split; assumption).
      rewrite Ep in Hin. inversion Hin. }
    2:{ destruct Htr. }
    destruct (Hown _ eq_refl) as [-> Hgone]. destruct Htr as [Etr Elast].
    assert (H : forall p r,
      observer_ok
        (record (Scanned t false r)
           (set_page p (set_timers (without (tid x) (timers o)) (set_now t o))))).
    { intros p r. split; [apply Hids|]. split; [|split; [|exact Hsp]].
      - unfold throttle_ok in *.
        cbn [throttleTimer record set_page set_timers set_now timers history now] in *.
        rewrite (Hother ResetThrottle) by discriminate.
        destruct (throttleTimer o) as [i0|].
        + destruct Hth as (Hi0 & d & Hp & Hold). split; [exact Hi0|]. exists d.
          split; [exact Hp|]. intros t1 H1.
          apply elem_of_cons in H1 as [[=]|H1]. apply Hold, H1.
        + destruct Hth as [Hp Hold]. split; [exact Hp|]. intros t1 H1.
          apply elem_of_cons in H1 as [[=]|H1]. apply Hold, H1.
      - unfold trailing_ok.
        cbn [trailingTimer record set_page set_timers set_now timers history
             last_observed scans_since].
        rewrite Hgone, Elast. exists t. split; [apply list_elem_of_here | lia]. }
    unfold run_scan. cbn [page set_timers set_now now].
    destruct (scanAll clock (page o)); apply H.
Qed.

(** Other code takes ids. *)
Lemma observer_ok_foreign n o :
  observer_ok o -> observer_ok (set_next_id (next_id o + n) o).
Proof.
  intros ((Hlt & Hnd & Hpos & Hj) & Hth & Htr & Hsp).
  split; [|split; [exact Hth|split; [exact Htr | exact Hsp]]].
  split; [|split; [exact Hnd|split]]; cbn [set_next_id timers next_id trailingTimer].
  - eapply Forall_impl; [exact Hlt|]. cbn. intros x Hx. lia.
  - lia.
  - destruct (trailingTimer o) as [j|]; [|exact I].
    destruct Hj as [Hjlt Hj]. split; [lia | exact Hj].
Qed.

(** Every reachable state of the observer is in order. *)
Lemma oreachable_ok o : oreachable o -> observer_ok o.
Proof.
  induction 1 as [o (Hth & Htr & Ht & Hpos & Hh)|o o' _ IH Hstep].
  - unfold observer_ok, ids_ok, throttle_ok, trailing_ok.
    rewrite Hth, Htr, Ht, Hh. cbn.
    repeat split; try constructor; try exact Hpos; intros t H; inversion H.
  - destruct Hstep as [t clock o Ht|i x t clock o Hnth Hdue Ht|t clock o Ht|p o _|n o].
    + apply observer_ok_callback, observer_ok_now; assumption.
    + apply observer_ok_fire; assumption.
    + apply observer_ok_scan, observer_ok_now; assumption.
    + exact IH.
    + apply observer_ok_foreign, IH.
Qed.

(** X7: the leading edge is throttled.  In every reachable state of the
    observer at most one timeout stands to clear [throttleTimer], and
    in the record of the calls of [scanAll] a leading scan comes no
    sooner than [THROTTLE_MS] after any earlier leading scan that
    returned. *)
Theorem leading_scans_keep_their_distance o :
  oreachable o ->
  spaced (history o) /\
  (length (pending ResetThrottle (timers o)) <= 1)%nat /\
  (throttleTimer o = None -> pending ResetThrottle (timers o) = []).
Proof.
  intros Hr. destruct (oreachable_ok o Hr) as (_ & Hth & _ & Hsp).
  split; [exact Hsp|]. unfold throttle_ok in Hth.
  destruct (throttleTimer o) as [i|].
  - destruct Hth as (_ & d & -> & _). split; [cbn; lia | discriminate].
  - destruct Hth as [-> _]. split; [cbn; lia | reflexivity].
Qed.

(** X8: the trailing edge is never lost.  In every reachable state of
    the observer at most one trailing scan is set; and after a callback
    of the observer that ran to its end at time [t], either the
    trailing scan that [trailingTimer] names is set, due at
    [t + TRAILING_MS], or [scanAll] has run at [t + TRAILING_MS] or
    later: once the timeouts have fired, the page has been scanned
    after the last change. *)
Theorem trailing_scan_follows_the_last_change o :
  oreachable o ->
  (length (pending TrailingScan (timers o)) <= 1)%nat /\
  forall t,
    last_observed (history o) = Some t ->
    (exists x, pending TrailingScan (timers o) = [x] /\
               trailingTimer o = Some (tid x) /\ due x = t + TRAILING_MS) \/
    (pending TrailingScan (timers o) = [] /\
     exists t', t' ∈ scans_since (history o) /\ t + TRAILING_MS <= t').
Proof.
  intros Hr. destruct (oreachable_ok o Hr) as (_ & _ & Htr & _).
  unfold trailing_ok in Htr.
  destruct (pending TrailingScan (timers o)) as [|x [|y r]]; [| |destruct Htr].
  - split; [cbn; lia|]. intros t Ht. rewrite Ht in Htr. right. auto.
  - destruct Htr as [Etr Elast]. split; [cbn; lia|]. intros t Ht. left.
    exists x. rewrite Ht in Elast. injection Elast as ->.
    split; [reflexivity|]. split; [exact Etr | lia].
Qed.

End ObserverFacts.

(* ================================================================== *)
(** * Further properties of the colour settings: the panel *)
(* ================================================================== *)

Section PanelFacts.
Import Colors Panel.

(** Every row edits a documented key, whose default is of the type of
    the row. *)
Lemma has_row_default key t :
  has_row key t = true ->
  exists d, Obj.get key DEFAULTS = Some d /\
            forall v, same_kind d v = match t, v with
                                      | Toggle, JBool _ => true
                                      | Color, JStr h => is_hex_color h
                                      | _, _ => false
                                      end.
Proof.
  unfold has_row. rewrite existsb_exists. intros ([[k l] t'] & Hin & H).
  cbn [fst snd] in H. apply andb_true_iff in H as [Hk Ht].
  apply String.eqb_eq in Hk. subst k.
  assert (Hall : forallb (fun it : string * string * kind =>
                    match Obj.get (fst (fst it)) DEFAULTS, snd it with
                    | Some (JBool _), Toggle => true
                    | Some (JStr _), Color => true
                    | _, _ => false
                    end) items = true) by (vm_compute; reflexivity).
  rewrite forallb_forall in Hall. specialize (Hall _ Hin). cbn [fst snd] in Hall.
  destruct (Obj.get key DEFAULTS) as [d|]; [|discriminate].
  exists d. split; [reflexivity|].
  intros v. destruct d, t', t; try discriminate; destruct v; reflexivity.
Qed.

Lemma default_keys_distinct : NoDup (Obj.keys DEFAULTS).
Proof. apply (bool_decide_unpack (NoDup (Obj.keys DEFAULTS))). vm_compute. exact I. Qed.

Lemma valid_settings_has s k :
  valid_settings s = true -> is_Some (Obj.get k DEFAULTS) -> k ∈ Obj.keys s.
Proof.
  intros H [d Hd]. destruct (valid_settings_spec s H) as (_ & _ & Hvals).
  destruct (Hvals k d Hd) as (v & Hv & _).
  destruct (decide (k ∈ Obj.keys s)) as [?|Hn]; [assumption|].
  apply get_None_keys in Hn. congruence.
Qed.

(** Writing a value of the kind of its default under a documented
    key. *)
Lemma valid_settings_set k d v s :
  valid_settings s = true ->
  Obj.get k DEFAULTS = Some d -> same_kind d v = true ->
  valid_settings (Obj.set k v s) = true.
Proof.
  intros H Hd Hv. destruct (valid_settings_spec s H) as (Hnd & Hkeys & Hvals).
  assert (Hin : k ∈ Obj.keys s) by (apply valid_settings_has; eauto).
  unfold valid_settings. rewrite (keys_set_existing k v s Hin).
  rewrite bool_decide_eq_true_2 by exact Hnd. cbn [andb].
  apply andb_true_iff. split; apply forallb_forall.
  - intros [k' d'] Hin'. cbn [fst snd].
    apply list_elem_of_In, (elem_of_get _ _ _ default_keys_distinct) in Hin'.
    destruct (String.eqb_spec k' k) as [->|Hne].
    + rewrite get_set_same. congruence.
    + rewrite get_set_other by exact Hne.
      destruct (Hvals k' d' Hin') as (v' & -> & Hk'). exact Hk'.
  - intros k' Hk'. apply list_elem_of_In in Hk'.
    destruct (Hkeys k' Hk') as [d' Hd']. unfold has_key. rewrite Hd'. reflexivity.
Qed.

(** What the listeners leave in [settings]. *)
Lemma toggle_change_settings key checked p :
  settings (toggle_change key checked p) = Obj.set key (JBool checked) (settings p).
Proof.
  unfold toggle_change, save, applyAll, set_settings. cbn [settings writable].
  destruct (if checked then _ else _); [|reflexivity].
  destruct (writable p); reflexivity.
Qed.

Lemma swatch_input_settings row p :
  settings (snd (swatch_input row p))
  = Obj.set (row_key row) (JStr (swatch row)) (settings p).
Proof.
  unfold swatch_input, save, applyAll, set_settings. cbn [settings writable].
  destruct (writable p); reflexivity.
Qed.

Lemma hex_change_settings row p :
  settings (snd (hex_change row p))
  = if is_hex_color (JsString.trim (hex row))
    then Obj.set (row_key row) (JStr (JsString.trim (hex row))) (settings p)
    else settings p.
Proof.
  unfold hex_change, save, applyAll, set_settings. cbn [settings writable].
  destruct (is_hex_color _).
  - destruct (writable p); reflexivity.
  - destruct (dom_string _); reflexivity.
Qed.

Lemma sync_click_settings p : settings (fst (sync_click p)) = settings p.
Proof.
  unfold sync_click, save, syncToServer. cbn [settings writable userStyles].
  destruct (writable p); [|reflexivity]. cbn [userStyles].
  destruct (userStyles p); reflexivity.
Qed.

Lemma reset_settings p : settings (reset p) = DEFAULTS.
Proof.
  unfold reset, save, applyAll, set_settings. cbn [settings writable].
  destruct (writable p); reflexivity.
Qed.

(** For a documented key that [s] has, [Obj.set] changes that key
    only. *)
Lemma set_documented k d v s :
  valid_settings s = true -> Obj.get k DEFAULTS = Some d ->
  Obj.keys (Obj.set k v s) = Obj.keys s /\
  Obj.get k (Obj.set k v s) = Some v /\
  forall k', Some k <> Some k' -> Obj.get k' (Obj.set k v s) = Obj.get k' s.
Proof.
  intros H Hd. split; [|split].
  - apply keys_set_existing, valid_settings_has; eauto.
  - apply get_set_same.
  - intros k' Hne. apply get_set_other. congruence.
Qed.

(** The listeners keep settings over the documented keys such. *)
Lemma handle_keeps_valid (ev : event) (p : page) :
  valid_settings (settings p) = true ->
  from_panel ev = true ->
  valid_settings (settings (handle ev p)) = true.
Proof.
  intros H Hev. destruct ev as [key checked|row|row| |]; cbn [handle from_panel] in *.
  - rewrite toggle_change_settings.
    destruct (has_row_default key Toggle Hev) as (d & Hd & Hk).
    eapply valid_settings_set; [exact H | exact Hd | apply Hk].
  - rewrite swatch_input_settings. apply andb_true_iff in Hev as [Hrow Hcol].
    destruct (has_row_default _ Color Hrow) as (d & Hd & Hk).
    eapply valid_settings_set; [exact H | exact Hd | rewrite Hk; exact Hcol].
  - rewrite hex_change_settings.
    destruct (has_row_default _ Color Hev) as (d & Hd & Hk).
    destruct (is_hex_color (JsString.trim (hex row))) eqn:Ehex; [|exact H].
    eapply valid_settings_set; [exact H | exact Hd | rewrite Hk; exact Ehex].
  - rewrite sync_click_settings. exact H.
  - rewrite reset_settings. reflexivity.
Qed.

(** X9: the panel keeps the settings in order.  Whatever the user does
    in the panel (a checkbox, a colour input, a hex field, the sync
    button, the reset button), settings over the documented keys stay
    settings over the documented keys: each key once, a boolean for a
    toggle and a colour [#rrggbb] for a colour.  But for a reset, the
    keys keep their order and only the key of the row can change; a
    checkbox leaves its state there and a colour input its value. *)
Theorem panel_keeps_the_settings_valid (ev : event) (p : page) :
  valid_settings (settings p) = true ->
  from_panel ev = true ->
  valid_settings (settings (handle ev p)) = true /\
  (ev <> ResetClick ->
   Obj.keys (settings (handle ev p)) = Obj.keys (settings p) /\
   forall k, edited ev <> Some k ->
             Obj.get k (settings (handle ev p)) = Obj.get k (settings p)) /\
  match ev with
  | ToggleChange key checked =>
      Obj.get key (settings (handle ev p)) = Some (JBool checked)
  | SwatchInput row =>
      Obj.get (row_key row) (settings (handle ev p)) = Some (JStr (swatch row))
  | _ => True
  end.
Proof.
  intros H Hev. split; [apply handle_keeps_valid; assumption|].
  destruct ev as [key checked|row|row| |]; cbn [handle edited from_panel] in *.
  - rewrite toggle_change_settings.
    destruct (has_row_default key Toggle Hev) as (d & Hd & _).
    destruct (set_documented key d (JBool checked) _ H Hd) as (Hkeys & Hsame & Hother).
    split; [intros _; split; assumption | exact Hsame].
  - rewrite swatch_input_settings. apply andb_true_iff in Hev as [Hrow _].
    destruct (has_row_default _ Color Hrow) as (d & Hd & _).
    destruct (set_documented _ d (JStr (swatch row)) _ H Hd) as (Hkeys & Hsame & Hother).
    split; [intros _; split; assumption | exact Hsame].
  - rewrite hex_change_settings.
    destruct (has_row_default _ Color Hev) as (d & Hd & _).
    destruct (is_hex_color (JsString.trim (hex row))).
    + destruct (set_documented _ d (JStr (JsString.trim (hex row))) _ H Hd)
        as (Hkeys & _ & Hother).
      split; [intros _; split; assumption | exact I].
    + split; [intros _; split; reflexivity | exact I].
  - rewrite sync_click_settings. split; [intros _; split; reflexivity | exact I].
  - split; [intros Hne; contradiction | exact I].
Qed.

(** What a session loads from a stored text that [save] wrote. *)
Lemma stored_settings_restore s style :
  valid_settings s = true ->
  restores (load (GetItem (Some (Json.stringify (JObj s)))) style) s.
Proof.
  intros H. destruct (valid_settings_spec _ H) as (Hd & Hkeys & Hvals).
  exists (fold_left put s DEFAULTS). split; [apply load_saved, H|].
  assert (Hproto : "__proto__" ∉ Obj.keys s).
  { intros Hin. destruct (Hkeys _ Hin) as [d Hd']. discriminate Hd'. }
  split.
  - intros k. rewrite get_fold_put by assumption.
    destruct (Obj.get k s) as [v|] eqn:Ek; [reflexivity|].
    destruct (Obj.get k DEFAULTS) as [d|] eqn:Ed; [|reflexivity].
    destruct (Hvals k d Ed) as (v & Hv & _). congruence.
  - apply keys_fold_put. intros k Hin. destruct (Hkeys k Hin) as [d Hd'].
    destruct (decide (k ∈ Obj.keys DEFAULTS)) as [?|Hn]; [assumption|].
    apply get_None_keys in Hn. congruence.
Qed.

(** Where storage takes the write, a listener that changes a setting
    stores and shows what it leaves in [settings]. *)
Lemma saved_and_applied s p :
  writable p = true ->
  match save (set_settings s p) with
  | Returns p2 => applyAll p2
  | Raises => set_settings s p
  end
  = Page s (Some (Json.stringify (JObj s))) true (Some s) (userStyles p).
Proof.
  intros Hw. unfold save, applyAll, set_settings.
  cbn [settings writable stored applied userStyles]. rewrite Hw. reflexivity.
Qed.

Lemma swatch_input_page row p :
  snd (swatch_input row p)
  = match save (set_settings (Obj.set (row_key row) (JStr (swatch row)) (settings p)) p) with
    | Returns p2 => applyAll p2
    | Raises => set_settings (Obj.set (row_key row) (JStr (swatch row)) (settings p)) p
    end.
Proof. unfold swatch_input. destruct (save _); reflexivity. Qed.

Lemma hex_change_page row p :
  snd (hex_change row p)
  = if is_hex_color (JsString.trim (hex row)) then
      match save (set_settings (Obj.set (row_key row) (JStr (JsString.trim (hex row)))
                                        (settings p)) p) with
      | Returns p2 => applyAll p2
      | Raises => set_settings (Obj.set (row_key row) (JStr (JsString.trim (hex row)))
                                        (settings p)) p
      end
    else p.
Proof.
  unfold hex_change. destruct (is_hex_color _).
  - destruct (save _); reflexivity.
  - destruct (dom_string _); reflexivity.
Qed.

(** X10: with storage at hand, an edit is shown and survives a reload.
    Where [localStorage] takes the write and the page shows the
    settings in memory, after every event of the panel the page still
    shows the settings in memory.  A text in a hex field that is no
    colour changes nothing; after every other event storage holds the
    settings in memory, and a fresh session loads them back, whatever
    the style element holds. *)
Theorem edits_are_shown_and_survive_a_reload (ev : event) (p : page) :
  valid_settings (settings p) = true ->
  from_panel ev = true ->
  writable p = true ->
  shown p ->
  shown (handle ev p) /\
  (rejected ev = true -> handle ev p = p) /\
  (rejected ev = false ->
   persisted (handle ev p) /\
   forall style,
     restores (load (GetItem (stored (handle ev p))) style)
              (settings (handle ev p))).
Proof.
  intros H Hev Hw Hshown.
  pose proof (handle_keeps_valid ev p H Hev) as Hvalid.
  assert (Hload : persisted (handle ev p) ->
    persisted (handle ev p) /\
    forall style,
      restores (load (GetItem (stored (handle ev p))) style)
               (settings (handle ev p))).
  { intros Hp. split; [exact Hp|]. intros style. rewrite Hp.
    apply stored_settings_restore, Hvalid. }
  revert Hvalid Hload.
  destruct ev as [key checked|row|row| |]; cbn [handle rejected].
  - unfold toggle_change.
    assert (exists text,
      (if checked
       then dom_string (Obj.get "accentColor"
              (settings (set_settings (Obj.set key (JBool checked) (settings p)) p)))
       else Some "#2a3545") = Some text) as [text ->].
    { destruct checked; [|eauto]. cbn [settings set_settings].
      pose proof (handle_keeps_valid _ p H Hev) as Hv. cbn [handle] in Hv.
      rewrite toggle_change_settings in Hv.
      destruct (valid_settings_spec _ Hv) as (_ & _ & Hvals).
      destruct (Hvals "accentColor" _ eq_refl) as (v & -> & Hk).
      destruct v; try discriminate Hk. cbn. eauto. }
    rewrite (saved_and_applied _ p Hw). intros _ Hload.
    split; [reflexivity|]. split; [discriminate|]. intros _. apply Hload. reflexivity.
  - rewrite swatch_input_page, (saved_and_applied _ p Hw). intros _ Hload.
    split; [reflexivity|]. split; [discriminate|]. intros _. apply Hload. reflexivity.
  - rewrite hex_change_page.
    destruct (is_hex_color (JsString.trim (hex row))); cbn [negb].
    + rewrite (saved_and_applied _ p Hw). intros _ Hload.
      split; [reflexivity|]. split; [discriminate|]. intros _. apply Hload. reflexivity.
    + intros _ _. split; [exact Hshown|]. split; [reflexivity | discriminate].
  - unfold sync_click, save, syncToServer. rewrite Hw.
    cbn [settings stored writable applied userStyles].
    intros _ Hload. split; [|split; [discriminate|intros _; apply Hload]];
      destruct (userStyles p); try reflexivity; exact Hshown.
  - unfold reset. rewrite (saved_and_applied _ p Hw). intros _ Hload.
    split; [reflexivity|]. split; [discriminate|]. intros _. apply Hload. reflexivity.
Qed.

(** X11: without storage nothing is shown and nothing is synced.  Where
    [localStorage] takes no write, no event of the panel changes what
    is stored, what the page shows, or the text of the style field:
    the exception of [save] ends the listener before [applyAll] and
    before [syncToServer], and the sync button gets no answer to show.
    The variable [settings] changes all the same, as it does where
    storage takes the write, and the page does not show it. *)
Theorem nothing_is_shown_or_synced_without_storage (ev : event) (p : page) :
  writable p = false ->
  stored (handle ev p) = stored p /\
  applied (handle ev p) = applied p /\
  userStyles (handle ev p) = userStyles p /\
  writable (handle ev p) = false /\
  sync_click p = (p, None) /\
  settings (handle ev p) = settings (handle ev (with_storage p)).
Proof.
  intros Hw.
  assert (Hsave : forall s, save (set_settings s p) = Raises).
  { intros s. unfold save, set_settings. cbn [writable]. rewrite Hw. reflexivity. }
  assert (Hsync : sync_click p = (p, None)).
  { unfold sync_click, save. rewrite Hw. reflexivity. }
  assert (Hlast : settings (handle ev p) = settings (handle ev (with_storage p))).
  { destruct ev as [key checked|row|row| |]; cbn [handle].
    - rewrite !toggle_change_settings. reflexivity.
    - rewrite !swatch_input_settings. reflexivity.
    - rewrite !hex_change_settings. reflexivity.
    - rewrite !sync_click_settings. reflexivity.
    - rewrite !reset_settings. reflexivity. }
  revert Hlast.
  destruct ev as [key checked|row|row| |]; cbn [handle].
  - unfold toggle_change. rewrite Hsave.
    destruct (if checked then _ else _); repeat split; auto.
  - rewrite swatch_input_page, Hsave. repeat split; auto.
  - rewrite hex_change_page, Hsave.
    destruct (is_hex_color _); repeat split; auto.
  - rewrite Hsync. repeat split; auto.
  - unfold reset. rewrite Hsave. repeat split; auto.
Qed.

(** *** The style field *)

(** The text that [buildSyncCSS] makes parses back to the settings. *)
Lemma parse_synced s css :
  valid_settings s = true -> parseTagFromCSS (buildSyncCSS s css) = JObj s.
Proof.
  intros H. pose proof (solid_stringify s (valid_settings_flat s H)) as Hsolid.
  rewrite buildSyncCSS_block. unfold parseTagFromCSS.
  rewrite match_tag_block; [|exact Hsolid|].
  - rewrite (valid_settings_parse s H). reflexivity.
  - rewrite stringify_JObj_cons. discriminate.
Qed.

(** Taking the block out of the text that [buildSyncCSS] makes gives
    what [buildSyncCSS] kept of the old text. *)
Lemma strip_synced s css :
  valid_settings s = true ->
  strip_block (buildSyncCSS s css) = JsString.trim (strip_block css).
Proof.
  intros H. pose proof (solid_stringify s (valid_settings_flat s H)) as Hsolid.
  rewrite buildSyncCSS_block. unfold strip_block at 1.
  rewrite (find_block_block _ _ Hsolid). cbn [String.append].
  destruct (JsString.nonempty (JsString.trim (strip_block css))) eqn:En.
  - cbn [JsString.skip_space]. change (JsString.is_space "010") with true.
    cbn iota. apply skip_space_trim.
  - destruct (JsString.trim (strip_block css)); [reflexivity | discriminate En].
Qed.

(** X12: the settings travel through the style field.  After a click on
    the sync button, on a page that has the text area and whose storage
    takes the write, a session that has nothing stored, or the empty
    text, and whose style element holds the text of the text area loads
    the settings that were synced, whatever the text area held before.
    A stored text comes first: where it does not parse, the session
    gets the defaults and not what was synced. *)
Theorem synced_settings_reach_another_session (p : page) (css : string)
    (raw : option string) :
  valid_settings (settings p) = true ->
  writable p = true ->
  userStyles p = Some css ->
  raw = None \/ raw = Some EmptyString ->
  exists p',
    sync_click p = (p', Some true) /\
    settings p' = settings p /\
    userStyles p' = Some (buildSyncCSS (settings p) css) /\
    restores (load (GetItem raw) (userStyles p')) (settings p) /\
    forall text,
      text <> EmptyString -> Json.parse text = None ->
      load (GetItem (Some text)) (userStyles p') = Returns DEFAULTS.
Proof.
  intros H Hw Hcss Hraw.
  exists (Page (settings p) (Some (Json.stringify (JObj (settings p)))) true
               (applied p) (Some (buildSyncCSS (settings p) css))).
  split.
  { unfold sync_click, save, syncToServer. rewrite Hw.
    cbn [userStyles settings stored writable applied]. rewrite Hcss. reflexivity. }
  cbn [settings userStyles]. split; [reflexivity|]. split; [reflexivity|]. split.
  - assert (Hload : load (GetItem raw) (Some (buildSyncCSS (settings p) css))
                    = Returns (fold_left put (settings p) DEFAULTS)).
    { unfold load, load_try, loadFromUserStyles. rewrite (parse_synced _ css H).
      destruct Hraw as [-> | ->]; reflexivity. }
    destruct (stored_settings_restore (settings p) None H) as (o & Ho & Hmap & Hkeys).
    rewrite (load_saved _ None H) in Ho. injection Ho as <-.
    exists (fold_left put (settings p) DEFAULTS). auto.
  - intros text Hne Hparse. unfold load, load_try.
    destruct text as [|c text]; [contradiction|]. rewrite Hparse. reflexivity.
Qed.

(** X13: the last sync wins.  Whatever the style field holds, syncing
    settings into it and then syncing other settings gives the text
    that syncing the other settings at once gives: the block of the
    first sync is gone, and what the user wrote around it is neither
    doubled nor lost.  Syncing the same settings twice gives the text
    of syncing them once. *)
Theorem last_sync_wins (s s' : Obj.t) (css : string) :
  valid_settings s = true ->
  strip_block (buildSyncCSS s css) = JsString.trim (strip_block css) /\
  buildSyncCSS s' (buildSyncCSS s css) = buildSyncCSS s' css /\
  buildSyncCSS s (buildSyncCSS s css) = buildSyncCSS s css.
Proof.
  intros H.
  assert (Hre : forall s2, buildSyncCSS s2 (buildSyncCSS s css) = buildSyncCSS s2 css).
  { intros s2. unfold buildSyncCSS at 1 3.
    rewrite (strip_synced s css H), trim_idem. reflexivity. }
  split; [apply strip_synced, H|]. split; apply Hre.
Qed.

End PanelFacts.

(* ================================================================== *)
(** * The further theorems at work on the samples *)
(* ================================================================== *)

Section FurtherSamples.
Import Dom Avatars Colors Observer Panel.

(** After one scan of the busy page the two lookups that wait, for dave
    and for Alice, are keyed in lower case under distinct keys. *)
Lemma busy_page_lookups_are_keyed :
  let st := outcome_of (scanAll (at_time 0) (start busy_page)) in
  reachable st /\
  map key (queue st) = ["dave"; "alice"] /\
  NoDup (map key (queue st)) /\
  forall it, it ∈ queue st ++ inflight st ++ settled st ->
             key it = JsString.toLowerCase (nick it).
Proof.
  intros st.
  assert (Hr : reachable st).
  { apply reachable_scan, reachable_start. reflexivity. }
  split; [exact Hr|]. split; [reflexivity|].
  destruct (lookups_are_keyed_by_lower_case st Hr) as [Hkeys Hdistinct].
  split; [exact Hdistinct | exact Hkeys].
Defined.

(** After a scan of the sample page and the answer for alice, the entry
    of alice in the cache is one that can be used. *)
Lemma alice_entry_is_usable :
  let st := complete 0 (avatar_json (JStr "/media/a.png")) 10
              (outcome_of (scanAll (at_time 0) (start sample_page))) in
  reachable st /\ entry_ok "alice" (Entry (JStr "/media/a.png") 10).
Proof.
  intros st.
  assert (Hr : reachable st).
  { apply reachable_complete; [apply reachable_scan, reachable_start; reflexivity|].
    vm_compute. lia. }
  split; [exact Hr|].
  apply (cache_entries_are_usable st Hr "alice"). vm_compute. reflexivity.
Defined.

(** The nick-list entry of alice that carries the avatar of bob: the
    avatar of alice takes its place. *)
Lemma alice_avatar_takes_the_place_of_bobs :
  exists st',
    injectAvatar 3 "alice" (JStr "/media/a.png") stale_state = Normal st' /\
    find_node 3 (doc st')
    = Some (Node 3 "span" ["user"] [("data-name", "alice")]
              [avatar_markup 100 Nicklist "alice" "/media/a.png"]) /\
    fresh st' = 102%nat.
Proof.
  assert (Hd : distinct_ids (doc stale_state)).
  { unfold distinct_ids.
    apply (bool_decide_unpack (NoDup (map node_id (subtree (doc stale_state))))).
    vm_compute. exact I. }
  pose proof (injected_avatar_is_first_child stale_state 3 _ _ "alice" "/media/a.png"
                Hd eq_refl) as H.
  destruct H as (st' & Hrun & Hfind & _ & Hfresh & _).
  - vm_compute. discriminate.
  - intros old Hq. vm_compute in Hq. injection Hq as <-. vm_compute. discriminate.
  - exists st'. split; [exact Hrun|]. split; [exact Hfind | exact Hfresh].
Defined.

(** The sample run is a run of the observer. *)
Lemma sample_run_reachable : oreachable sample_run.
Proof.
  unfold sample_run. cbv zeta.
  eapply oreach_step;
    [eapply oreach_step;
       [eapply oreach_step;
          [eapply oreach_step;
             [eapply oreach_step; [apply (oreach_init sample_start)|]|]|]|]|].
  - repeat split. cbn. lia.
  - apply (step_mutation 0 (at_time 0) sample_start). cbn. lia.
  - apply (step_mutation 50 (at_time 50)). apply Z.leb_le. vm_compute. reflexivity.
  - apply (step_fire 0 (Timer 1 120 ResetThrottle) 130 (at_time 130)).
    + vm_compute. reflexivity.
    + cbn. lia.
    + apply Z.leb_le. vm_compute. reflexivity.
  - apply (step_fire 0 (Timer 3 300 TrailingScan) 300 (at_time 300)).
    + vm_compute. reflexivity.
    + cbn. lia.
    + apply Z.leb_le. vm_compute. reflexivity.
  - apply (step_mutation 400 (at_time 400)). apply Z.leb_le. vm_compute. reflexivity.
Qed.

(** In the sample run the leading scans, at 0 and at 400, are
    [THROTTLE_MS] apart, and one timeout stands to clear the
    throttle. *)
Lemma sample_run_is_throttled :
  spaced (history sample_run) /\
  pending ResetThrottle (timers sample_run) = [Timer 4 520 ResetThrottle].
Proof.
  destruct (leading_scans_keep_their_distance sample_run sample_run_reachable)
    as (Hspaced & _ & _).
  split; [exact Hspaced | reflexivity].
Defined.

(** In the sample run the change reported last, at 400, has its
    trailing scan set for 650. *)
Lemma sample_run_has_its_trailing_scan :
  exists x,
    pending TrailingScan (timers sample_run) = [x] /\
    trailingTimer sample_run = Some (tid x) /\ due x = 650.
Proof.
  destruct (trailing_scan_follows_the_last_change sample_run sample_run_reachable)
    as [_ Hlast].
  destruct (Hlast 400 eq_refl) as [(x & Hx & Hid & Hdue)|[Hnone _]].
  - exists x. split; [exact Hx|]. split; [exact Hid | exact Hdue].
  - vm_compute in Hnone. discriminate Hnone.
Defined.

(** Switching bold nicknames off in the sample panel. *)
Lemma bold_switched_off_in_the_sample_panel :
  let p := handle (ToggleChange "nickBold" false) sample_panel in
  valid_settings (settings p) = true /\
  Obj.get "nickBold" (settings p) = Some (JBool false) /\
  Obj.get "linkColor" (settings p) = Some (JStr "#AAbbcc").
Proof.
  intros p. subst p.
  destruct (panel_keeps_the_settings_valid (ToggleChange "nickBold" false)
              sample_panel eq_refl eq_refl) as (Hvalid & Hrest & Hset).
  split; [exact Hvalid|]. split; [exact Hset|].
  destruct (Hrest ltac:(discriminate)) as [_ Hother].
  rewrite (Hother "linkColor") by discriminate. reflexivity.
Defined.

(** A colour picked for the links in the panel that shows its
    settings. *)
Lemma picked_colour_is_shown_and_stored :
  let p := handle (SwatchInput sample_row) shown_panel in
  shown p /\ persisted p /\
  restores (load (GetItem (stored p)) None) (settings p).
Proof.
  intros p.
  destruct (edits_are_shown_and_survive_a_reload (SwatchInput sample_row) shown_panel
              eq_refl eq_refl eq_refl eq_refl) as (Hshown & _ & Hkept).
  destruct (Hkept eq_refl) as [Hstored Hload].
  split; [exact Hshown|]. split; [exact Hstored | apply Hload].
Defined.

(** The sync button where storage takes no write. *)
Lemma sync_without_storage_does_nothing :
  handle SyncClick denied_panel = denied_panel /\
  userStyles (handle (SwatchInput sample_row) denied_panel)
  = Some "a { color: red }" /\
  applied (handle (SwatchInput sample_row) denied_panel) = Some sample_settings.
Proof.
  split; [reflexivity|].
  destruct (nothing_is_shown_or_synced_without_storage (SwatchInput sample_row)
              denied_panel eq_refl) as (_ & Happlied & Hstyles & _).
  split; [exact Hstyles | exact Happlied].
Defined.

(** Syncing from the panel whose style field holds an old block. *)
Lemma sample_settings_reach_another_session :
  exists p',
    sync_click shown_panel = (p', Some true) /\
    restores (load (GetItem None) (userStyles p')) sample_settings.
Proof.
  destruct (synced_settings_reach_another_session shown_panel
              "b { } /* IRC4FUN_COLORS: {} */ a { color: red }" None
              eq_refl eq_refl eq_refl (or_introl eq_refl))
    as (p' & Hclick & _ & _ & Hload & _).
  exists p'. split; [exact Hclick | exact Hload].
Defined.

(** Syncing the defaults into the text of an earlier sync of the sample
    settings. *)
Lemma sample_sync_is_overwritten :
  valid_settings sample_settings = true /\
  buildSyncCSS DEFAULTS (buildSyncCSS sample_settings two_blocks)
  = buildSyncCSS DEFAULTS two_blocks.
Proof.
  split; [reflexivity|].
  exact (proj1 (proj2 (last_sync_wins sample_settings DEFAULTS two_blocks eq_refl))).
Defined.

End FurtherSamples.

(* ================================================================== *)
(** * What an injection does to the page *)
(* ================================================================== *)

Section TreeEdits.
Import Dom Avatars.

(** *** Detaching subtrees whose roots are known *)

Lemma pruned_by_pruned_both (P : node -> Prop) :
  (forall d d', pruned_by P d d' -> pruned d d') /\
  (forall ks ks', pruned_kids_by P ks ks' -> pruned_kids ks ks').
Proof.
  apply pruned_by_mutind.
  - intros i t c a ks ks' _ IH. constructor. exact IH.
  - constructor.
  - intros k ks ks' _ _ IH. apply pruned_drop, IH.
  - intros k k' ks ks' _ IHk _ IHks. apply pruned_keep; assumption.
Qed.

Lemma pruned_by_pruned P d d' : pruned_by P d d' -> pruned d d'.
Proof. apply pruned_by_pruned_both. Qed.

Lemma pruned_by_refl_both (P : node -> Prop) :
  (forall d, pruned_by P d d) /\ (forall ks, pruned_kids_by P ks ks).
Proof.
  assert (H : forall d, pruned_by P d d).
  { induction d as [i t c a kids IH] using node_ind2. constructor.
    induction IH; [apply pruned_by_nil | apply pruned_by_keep; assumption]. }
  split; [exact H|].
  induction ks; [apply pruned_by_nil | apply pruned_by_keep; auto].
Qed.

Lemma pruned_by_refl P d : pruned_by P d d.
Proof. apply pruned_by_refl_both. Qed.

Lemma pruned_by_impl_both (P Q : node -> Prop) :
  (forall k, P k -> Q k) ->
  (forall d d', pruned_by P d d' -> pruned_by Q d d') /\
  (forall ks ks', pruned_kids_by P ks ks' -> pruned_kids_by Q ks ks').
Proof.
  intros HPQ. apply pruned_by_mutind.
  - intros i t c a ks ks' _ IH. constructor. exact IH.
  - constructor.
  - intros k ks ks' Hk _ IH. apply pruned_by_drop; [apply HPQ, Hk | exact IH].
  - intros k k' ks ks' _ IHk _ IHks. apply pruned_by_keep; assumption.
Qed.

Lemma pruned_by_impl (P Q : node -> Prop) d d' :
  (forall k, P k -> Q k) -> pruned_by P d d' -> pruned_by Q d d'.
Proof. intros H. apply (pruned_by_impl_both P Q H). Qed.

Lemma pruned_by_info P d d' : pruned_by P d d' -> info d' = info d.
Proof. destruct 1. reflexivity. Qed.

(** An edit of the element [t] that detaches subtrees, seen from the
    page. *)
Lemma update_node_pruned_by P t f d :
  (forall m, m ∈ subtree d -> node_id m = t -> pruned_by P m (f m)) ->
  pruned_by P d (update_node t f d).
Proof.
  induction d as [i tg c a kids IH] using node_ind2. intros Hf.
  rewrite update_node_Node. destruct (Nat.eqb_spec i t) as [E|_].
  - apply Hf; [apply elem_of_subtree_self | exact E].
  - constructor.
    assert (Hk : forall k, k ∈ kids ->
              forall m, m ∈ subtree k -> node_id m = t -> pruned_by P m (f m)).
    { intros k Hk m Hm. apply Hf. eapply elem_of_subtree_kid; eassumption. }
    clear Hf. induction IH as [|k ks IHk _ IHks]; simpl; [apply pruned_by_nil|].
    apply pruned_by_keep.
    + apply IHk, Hk, list_elem_of_here.
    + apply IHks. intros k' Hk'. apply Hk, list_elem_of_further, Hk'.
Qed.

(** An edit of the element [t] that attaches subtrees, seen from the
    page. *)
Lemma update_node_grown_by P t f d :
  (forall m, pruned_by P (f m) m) ->
  pruned_by P (update_node t f d) d.
Proof.
  intros Hf. induction d as [i tg c a kids IH] using node_ind2.
  rewrite update_node_Node. destruct (Nat.eqb i t); [apply Hf|].
  constructor.
  induction IH; simpl; [apply pruned_by_nil | apply pruned_by_keep; assumption].
Qed.

Lemma prepend_grown av n : pruned_by (eq av) (prepend av n) n.
Proof.
  destruct n as [i t c a kids]. unfold prepend. constructor.
  apply pruned_by_drop; [reflexivity | apply pruned_by_refl_both].
Qed.

(** [remove_first] detaches the element that [querySelector] finds. *)
Lemma remove_first_found_both (sel : node -> bool) :
  (forall n,
     match List.find sel (descendants n) with
     | Some old => pruned_by (eq old) n (fst (remove_first sel n)) /\
                   snd (remove_first sel n) = true
     | None => remove_first sel n = (n, false)
     end) /\
  (forall ks,
     match List.find sel (flat_map subtree ks) with
     | Some old => pruned_kids_by (eq old) ks (fst (remove_first_in sel ks)) /\
                   snd (remove_first_in sel ks) = true
     | None => remove_first_in sel ks = (ks, false)
     end).
Proof.
  assert (Hks : forall ks,
    Forall (fun n =>
      match List.find sel (descendants n) with
      | Some old => pruned_by (eq old) n (fst (remove_first sel n)) /\
                    snd (remove_first sel n) = true
      | None => remove_first sel n = (n, false)
      end) ks ->
    match List.find sel (flat_map subtree ks) with
    | Some old => pruned_kids_by (eq old) ks (fst (remove_first_in sel ks)) /\
                  snd (remove_first_in sel ks) = true
    | None => remove_first_in sel ks = (ks, false)
    end).
  { induction 1 as [|k ks Hk _ IHks]; [reflexivity|].
    rewrite flat_map_cons. unfold subtree at 1. cbn [app List.find remove_first_in].
    destruct (sel k) eqn:Ek.
    - cbn [fst snd]. split; [|reflexivity].
      apply pruned_by_drop; [reflexivity | apply pruned_by_refl_both].
    - rewrite find_app. destruct (List.find sel (descendants k)) as [old|].
      + destruct Hk as [Hp Hfound].
        destruct (remove_first sel k) as [k' found]. cbn [fst snd] in *. subst found.
        cbn [fst snd]. split; [|reflexivity].
        apply pruned_by_keep; [exact Hp | apply pruned_by_refl_both].
      + rewrite Hk.
        destruct (List.find sel (flat_map subtree ks)) as [old|].
        * destruct IHks as [Hp Hfound].
          destruct (remove_first_in sel ks) as [ks'' found]. cbn [fst snd] in *.
          subst found. split; [|reflexivity].
          apply pruned_by_keep; [apply pruned_by_refl | exact Hp].
        * rewrite IHks. reflexivity. }
  assert (H : forall n,
    match List.find sel (descendants n) with
    | Some old => pruned_by (eq old) n (fst (remove_first sel n)) /\
                  snd (remove_first sel n) = true
    | None => remove_first sel n = (n, false)
    end).
  { induction n as [i t c a kids IH] using node_ind2.
    rewrite descendants_Node, remove_first_Node. specialize (Hks kids IH).
    destruct (List.find sel (flat_map subtree kids)) as [old|].
    - destruct Hks as [Hp Hfound]. cbn [fst snd]. split; [|exact Hfound].
      constructor. exact Hp.
    - rewrite Hks. reflexivity. }
  split; [exact H|]. intros ks. apply Hks. apply Forall_forall. intros n _. apply H.
Qed.

Lemma remove_first_found sel n old :
  querySelector sel n = Some old ->
  pruned_by (eq old) n (fst (remove_first sel n)).
Proof.
  intros Hq. pose proof (proj1 (remove_first_found_both sel) n) as H.
  unfold querySelector in Hq. rewrite Hq in H. apply H.
Qed.

(** *** Looking an element up after an edit *)

Lemma find_id_Some (l : list node) i T :
  List.find (fun n => Nat.eqb (node_id n) i) l = Some T ->
  node_id T = i /\ i ∈ map node_id l.
Proof.
  intros H. apply find_some in H as [Hin E]. apply Nat.eqb_eq in E.
  split; [exact E|]. rewrite <- E. apply list_elem_of_In, in_map, Hin.
Qed.

Lemma find_id_None (l : list node) i :
  i ∉ map node_id l -> List.find (fun n => Nat.eqb (node_id n) i) l = None.
Proof.
  intros H. destruct (List.find _ l) eqn:E; [|reflexivity].
  apply find_id_Some in E as [_ Hin]. contradiction.
Qed.

Lemma chain_to_elem i d ch : chain_to i d = Some ch -> i ∈ map node_id (subtree d).
Proof.
  intros H. destruct (decide (i ∈ map node_id (subtree d))) as [?|Hn]; [assumption|].
  apply chain_to_None in Hn. congruence.
Qed.

Lemma find_pruned_by_both P i :
  (forall d d', pruned_by P d d' -> distinct_ids d -> forall T',
     find_node i d' = Some T' ->
     exists T, find_node i d = Some T /\ pruned_by P T T') /\
  (forall ks ks', pruned_kids_by P ks ks' ->
     NoDup (map node_id (flat_map subtree ks)) -> forall T',
     List.find (fun n => Nat.eqb (node_id n) i) (flat_map subtree ks') = Some T' ->
     exists T,
       List.find (fun n => Nat.eqb (node_id n) i) (flat_map subtree ks) = Some T /\
       pruned_by P T T').
Proof.
  apply pruned_by_mutind.
  - intros j t c a ks ks' Hks IH Hd T'. rewrite !find_node_Node.
    destruct (Nat.eqb j i).
    + intros [= <-]. eexists. split; [reflexivity|]. constructor. exact Hks.
    + unfold distinct_ids in Hd. rewrite subtree_Node in Hd. simpl in Hd.
      apply NoDup_cons in Hd as [_ Hd]. apply IH, Hd.
  - intros _ T'. discriminate.
  - intros k ks ks' Hk Hks IH Hd T' Hf. rewrite flat_map_cons, map_app in Hd.
    apply NoDup_app in Hd as (_ & Hdis & Hd).
    destruct (IH Hd T' Hf) as (T & HT & Hp). exists T. split; [|exact Hp].
    rewrite flat_map_cons, find_app, find_id_None; [exact HT|].
    intros Hin. apply (Hdis i Hin). apply find_id_Some in HT as [_ HT]. exact HT.
  - intros k k' ks ks' Hk IHk Hks IHks Hd T'.
    rewrite flat_map_cons, map_app in Hd. apply NoDup_app in Hd as (Hdk & Hdis & Hd).
    rewrite !flat_map_cons, !find_app.
    destruct (List.find _ (subtree k')) as [T1|] eqn:E'.
    + intros [= <-]. destruct (IHk Hdk _ E') as (T & HT & Hp). exists T.
      unfold find_node in HT. rewrite HT. split; [reflexivity | exact Hp].
    + intros Hf. destruct (IHks Hd _ Hf) as (T & HT & Hp). exists T.
      split; [|exact Hp]. rewrite find_id_None; [exact HT|].
      intros Hin. apply (Hdis i Hin). apply find_id_Some in HT as [_ HT]. exact HT.
Qed.

Lemma find_pruned_by P i d d' T' :
  pruned_by P d d' -> distinct_ids d -> find_node i d' = Some T' ->
  exists T, find_node i d = Some T /\ pruned_by P T T'.
Proof. intros. eapply find_pruned_by_both; eassumption. Qed.

(** *** The first avatar after an edit *)

Lemma find_subtree_app (sel : node -> bool) k rest :
  List.find sel (subtree k ++ rest) =
  if sel k then Some k
  else match List.find sel (descendants k) with
       | Some x => Some x
       | None => List.find sel rest
       end.
Proof.
  unfold subtree. cbn [app List.find]. destruct (sel k); [reflexivity | apply find_app].
Qed.

(** The first avatar of the larger tree is a detached root, or it is
    the first avatar of the smaller tree. *)
Lemma first_avatar_pruned_by_both P :
  (forall k, P k -> is_avatar k = true) ->
  (forall d d', pruned_by P d d' ->
     match List.find is_avatar (descendants d) with
     | None => List.find is_avatar (descendants d') = None
     | Some a =>
         P a \/
         exists a', List.find is_avatar (descendants d') = Some a' /\
                    info a' = info a /\ pruned_by P a a'
     end) /\
  (forall ks ks', pruned_kids_by P ks ks' ->
     match List.find is_avatar (flat_map subtree ks) with
     | None => List.find is_avatar (flat_map subtree ks') = None
     | Some a =>
         P a \/
         exists a', List.find is_avatar (flat_map subtree ks') = Some a' /\
                    info a' = info a /\ pruned_by P a a'
     end).
Proof.
  intros HP. apply pruned_by_mutind.
  - intros i t c a ks ks' _ IH. rewrite !descendants_Node. exact IH.
  - reflexivity.
  - intros k ks ks' Hk _ _. rewrite flat_map_cons, find_subtree_app, (HP k Hk).
    left. exact Hk.
  - intros k k' ks ks' Hk IHk _ IHks. rewrite !flat_map_cons, !find_subtree_app.
    assert (E : is_avatar k' = is_avatar k)
      by (apply is_avatar_info, (pruned_by_info P), Hk).
    rewrite E. destruct (is_avatar k).
    + right. exists k'. split; [reflexivity|].
      split; [apply (pruned_by_info P), Hk | exact Hk].
    + destruct (List.find is_avatar (descendants k)) as [a|].
      * destruct IHk as [Hpa|(a' & -> & Hi & Hp)]; [left; exact Hpa|]. right. eauto.
      * rewrite IHk. exact IHks.
Qed.

Lemma records_info n a b : info a = info b -> records n a -> records n b.
Proof. unfold records. intros H. rewrite (getAttribute_info _ a b H). auto. Qed.

(** Detaching avatars that are not for [n] leaves the first avatar, if
    it is for [n], the first. *)
Lemma shows_after_detaching P n T T' :
  (forall k, P k -> is_avatar k = true /\ ~ records n k) ->
  pruned_by P T T' -> shows n T -> shows n T'.
Proof.
  intros HP Hp (a & Ha & Hrec).
  pose proof (proj1 (first_avatar_pruned_by_both P (fun k Hk => proj1 (HP k Hk)))
                T T' Hp) as H.
  unfold querySelector in Ha. rewrite Ha in H.
  destruct H as [Hpa|(a' & Ha' & Hi & _)].
  - destruct (HP a Hpa) as [_ Hn]. contradiction.
  - exists a'. split; [exact Ha'|]. eapply records_info; [symmetry; exact Hi | exact Hrec].
Qed.

(** Attaching avatars for [n] leaves the first avatar one for [n]. *)
Lemma shows_after_attaching P n T T' :
  (forall k, P k -> is_avatar k = true /\ records n k) ->
  pruned_by P T T' -> shows n T' -> shows n T.
Proof.
  intros HP Hp (a' & Ha' & Hrec).
  pose proof (proj1 (first_avatar_pruned_by_both P (fun k Hk => proj1 (HP k Hk)))
                T T' Hp) as H.
  unfold querySelector in Ha'.
  destruct (List.find is_avatar (descendants T)) as [a|] eqn:Ha; [|congruence].
  exists a. split; [exact Ha|].
  destruct H as [Hpa|(a2 & Ha2 & Hi & _)]; [apply HP, Hpa|].
  rewrite Ha' in Ha2. injection Ha2 as <-. eapply records_info; eassumption.
Qed.

(** *** The injection target after an edit *)

Lemma injection_target_Some el d T :
  injection_target el d = Some T ->
  exists e ch,
    chain_to el d = Some (e :: ch) /\ getContext (e :: ch) <> Other /\
    T = target_of (getContext (e :: ch)) (e :: ch) e.
Proof.
  unfold injection_target. destruct (chain_to el d) as [[|e ch]|]; try discriminate.
  destruct (getContext (e :: ch)) eqn:E; intros [= <-]; exists e, ch;
    rewrite E; repeat split; discriminate.
Qed.

Lemma injection_target_intro el d e ch :
  chain_to el d = Some (e :: ch) -> getContext (e :: ch) <> Other ->
  injection_target el d = Some (target_of (getContext (e :: ch)) (e :: ch) e).
Proof.
  intros Hch Hctx. unfold injection_target. rewrite Hch.
  destruct (getContext (e :: ch)); [reflexivity..|contradiction].
Qed.

Lemma injection_target_found el d T :
  distinct_ids d -> injection_target el d = Some T ->
  find_node (node_id T) d = Some T.
Proof.
  intros Hd HT. destruct (injection_target_Some _ _ _ HT) as (e & ch & Hch & _ & ->).
  eapply target_found; eassumption.
Qed.

(** The two chains of an element that is in the tree before and after
    subtrees were detached give the same context and targets of the
    same identity, one being the other with subtrees detached. *)
Lemma targets_of_same_element P big small el ch ch' :
  pruned_by P big small -> distinct_ids big ->
  chain_to el big = Some ch -> chain_to el small = Some ch' ->
  match injection_target el big, injection_target el small with
  | Some T, Some T' => pruned_by P T T'
  | None, None => True
  | _, _ => False
  end.
Proof.
  intros Hp Hd Hch Hch'. pose proof (pruned_by_pruned _ _ _ Hp) as Hpr.
  destruct (chain_pruned el big small ch Hpr Hd Hch) as [E|(ch2 & E & Hsame)];
    [congruence|].
  rewrite Hch' in E. injection E as <-.
  pose proof (getContext_same_chain _ _ Hsame) as Hctx.
  destruct Hsame as [|e e' ch0 ch0' He Hrest];
    [unfold injection_target; rewrite Hch, Hch'; exact I|].
  assert (Hsame : same_chain (e :: ch0) (e' :: ch0'))
    by (constructor; assumption).
  assert (Hcase : getContext (e :: ch0) = Other \/ getContext (e :: ch0) <> Other)
    by (destruct (getContext (e :: ch0)); [right; discriminate..|left; reflexivity]).
  destruct Hcase as [Ho|Hno].
  - unfold injection_target. rewrite Hch, Hch', Hctx, Ho. exact I.
  - rewrite (injection_target_intro _ _ _ _ Hch Hno).
    assert (Hno' : getContext (e' :: ch0') <> Other) by (rewrite Hctx; exact Hno).
    rewrite (injection_target_intro _ _ _ _ Hch' Hno'). rewrite Hctx.
    set (ctx := getContext (e :: ch0)).
    pose proof (target_id_same_chain ctx e ch0 e' ch0' Hsame) as Hid.
    pose proof (target_found big el e ch0 ctx Hd Hch) as Hfind.
    pose proof (target_found small el e' ch0' ctx
                  (pruned_distinct_ids _ _ Hpr Hd) Hch') as Hfind'.
    destruct (find_pruned_by P _ big small _ Hp Hd Hfind') as (T2 & HT2 & Hp2).
    rewrite Hid, Hfind in HT2. injection HT2 as <-. exact Hp2.
Qed.

(** *** The identities after an edit *)

Lemma update_node_absent t f d :
  t ∉ map node_id (subtree d) -> update_node t f d = d.
Proof.
  induction d as [i tg c a kids IH] using node_ind2. intros Hn.
  rewrite update_node_Node. rewrite subtree_Node in Hn. simpl in Hn.
  apply not_elem_of_cons in Hn as [Hne Hn].
  destruct (Nat.eqb_spec i t) as [E|_]; [congruence|]. f_equal.
  induction IH as [|k ks Hk _ IHks]; [reflexivity|].
  rewrite flat_map_cons, map_app in Hn. apply not_elem_of_app in Hn as [Hnk Hnks].
  simpl. f_equal; [apply Hk, Hnk | apply IHks, Hnks].
Qed.

Lemma map_update_absent t f ks :
  t ∉ map node_id (flat_map subtree ks) -> map (update_node t f) ks = ks.
Proof.
  induction ks as [|k ks IH]; [reflexivity|]. intros Hn.
  rewrite flat_map_cons, map_app in Hn. apply not_elem_of_app in Hn as [Hnk Hnks].
  simpl. f_equal; [apply update_node_absent, Hnk | apply IH, Hnks].
Qed.

Lemma ids_update_prepend t av d :
  distinct_ids d -> t ∈ map node_id (subtree d) ->
  map node_id (subtree (update_node t (prepend av) d))
  ≡ₚ map node_id (subtree av) ++ map node_id (subtree d).
Proof.
  unfold distinct_ids.
  induction d as [i tg c a kids IH] using node_ind2. intros Hd Ht.
  rewrite update_node_Node. destruct (Nat.eqb_spec i t) as [E|Hne].
  - unfold prepend.
    rewrite (subtree_Node i tg c a (av :: kids)), (subtree_Node i tg c a kids),
      flat_map_cons.
    cbn [map node_id]. rewrite map_app. apply Permutation_middle.
  - rewrite (subtree_Node i tg c a kids) in Hd, Ht.
    rewrite subtree_Node, (subtree_Node i tg c a kids).
    cbn [map node_id] in *.
    apply NoDup_cons in Hd as [_ Hd].
    apply elem_of_cons in Ht as [?|Ht]; [congruence|].
    rewrite <- Permutation_middle. apply perm_skip.
    induction IH as [|k ks Hk _ IHks]; [inversion Ht|].
    rewrite flat_map_cons, map_app in Hd, Ht.
    apply NoDup_app in Hd as (Hdk & Hdis & Hdks).
    cbn [map]. rewrite !flat_map_cons, !map_app.
    destruct (decide (t ∈ map node_id (subtree k))) as [Hin|Hout].
    + rewrite (map_update_absent t (prepend av) ks) by (intros Hx; exact (Hdis t Hin Hx)).
      rewrite (Hk Hdk Hin), <- app_assoc. reflexivity.
    + rewrite (update_node_absent t (prepend av) k Hout).
      apply elem_of_app in Ht as [?|Ht]; [contradiction|].
      rewrite (IHks Hdks Ht). apply Permutation_app_swap_app.
Qed.

Lemma ids_avatar_markup i ctx n u :
  map node_id (subtree (avatar_markup i ctx n u)) = [i; S i].
Proof. destruct ctx; reflexivity. Qed.

Lemma avatar_markup_is_avatar i ctx n u :
  is_avatar (avatar_markup i ctx n u) = true /\ records n (avatar_markup i ctx n u).
Proof. destruct ctx; split; reflexivity. Qed.

Lemma avatar_markup_no_user m i ctx n u inside :
  select_in_chat (is_user_named m) inside (avatar_markup i ctx n u) = [].
Proof. destruct ctx, inside; reflexivity. Qed.

Lemma ids_below_elem n d i :
  ids_below n d -> i ∈ map node_id (subtree d) -> (i < n)%nat.
Proof. unfold ids_below. rewrite Forall_forall. auto. Qed.

(** The page after a new avatar went into the element [t] of a page
    from which avatars were detached. *)
Lemma well_identified_edit P st d1 t ctx n u :
  well_identified st -> pruned_by P (doc st) d1 ->
  t ∈ map node_id (subtree d1) ->
  let d2 := update_node t (prepend (avatar_markup (fresh st) ctx n u)) d1 in
  distinct_ids d1 /\ distinct_ids d2 /\ ids_below (2 + fresh st) d2 /\
  (forall i, i ∈ map node_id (subtree d2) -> (i < fresh st)%nat ->
             i ∈ map node_id (subtree d1)).
Proof.
  intros [Hd Hb] Hp Ht d2. pose proof (pruned_by_pruned _ _ _ Hp) as Hpr.
  pose proof (pruned_distinct_ids _ _ Hpr Hd) as Hd1.
  assert (Hb1 : ids_below (fresh st) d1).
  { unfold ids_below in *. rewrite Forall_forall in *. intros i Hi. apply Hb.
    eapply elem_of_sublist; [exact Hi|]. apply pruned_ids_sublist, Hpr. }
  pose proof (ids_update_prepend t (avatar_markup (fresh st) ctx n u) d1 Hd1 Ht) as Hperm.
  fold d2 in Hperm. rewrite ids_avatar_markup in Hperm.
  split; [exact Hd1|]. split; [|split].
  - unfold distinct_ids. rewrite Hperm. cbn [app].
    apply NoDup_cons. split.
    + intros Hin. apply elem_of_cons in Hin as [?|Hin]; [lia|].
      pose proof (ids_below_elem _ _ _ Hb1 Hin). lia.
    + apply NoDup_cons. split; [|exact Hd1].
      intros Hin. pose proof (ids_below_elem _ _ _ Hb1 Hin). lia.
  - unfold ids_below. rewrite Hperm. cbn [app].
    repeat (apply Forall_cons; split; [lia|]).
    unfold ids_below in Hb1. eapply Forall_impl; [exact Hb1|]. cbn. intros. lia.
  - intros i Hi Hlt. rewrite Hperm in Hi. cbn [app] in Hi.
    apply elem_of_cons in Hi as [?|Hi]; [lia|].
    apply elem_of_cons in Hi as [?|Hi]; [lia | exact Hi].
Qed.

(** *** The elements that a selector matches after an edit *)

Lemma select_pruned_by_both P (sel : node -> bool) :
  (forall a b, info a = info b -> sel a = sel b) ->
  (forall d d', pruned_by P d d' -> forall inside,
     map node_id (select_in_chat sel inside d')
     `sublist_of` map node_id (select_in_chat sel inside d)) /\
  (forall ks ks', pruned_kids_by P ks ks' -> forall inside,
     map node_id (flat_map (select_in_chat sel inside) ks')
     `sublist_of` map node_id (flat_map (select_in_chat sel inside) ks)).
Proof.
  intros Hsel. apply pruned_by_mutind.
  - intros i t c a ks ks' _ IH inside. rewrite !select_in_chat_Node, !map_app.
    apply sublist_app; [|apply IH].
    rewrite (Hsel (Node i t c a ks') (Node i t c a ks) eq_refl).
    destruct (inside && sel (Node i t c a ks)); reflexivity.
  - intros inside. reflexivity.
  - intros k ks ks' _ _ IH inside. rewrite flat_map_cons, map_app.
    apply sublist_inserts_l, IH.
  - intros k k' ks ks' _ IHk _ IHks inside. rewrite !flat_map_cons, !map_app.
    apply sublist_app; [apply IHk | apply IHks].
Qed.

Lemma select_grown_by_both P (sel : node -> bool) :
  (forall a b, info a = info b -> sel a = sel b) ->
  (forall k, P k -> forall inside, select_in_chat sel inside k = []) ->
  (forall d d', pruned_by P d d' -> forall inside,
     map node_id (select_in_chat sel inside d)
     = map node_id (select_in_chat sel inside d')) /\
  (forall ks ks', pruned_kids_by P ks ks' -> forall inside,
     map node_id (flat_map (select_in_chat sel inside) ks)
     = map node_id (flat_map (select_in_chat sel inside) ks')).
Proof.
  intros Hsel HP. apply pruned_by_mutind.
  - intros i t c a ks ks' _ IH inside. rewrite !select_in_chat_Node, !map_app.
    rewrite IH. f_equal.
    rewrite (Hsel (Node i t c a ks') (Node i t c a ks) eq_refl).
    destruct (inside && sel (Node i t c a ks)); reflexivity.
  - intros inside. reflexivity.
  - intros k ks ks' Hk _ IH inside. rewrite flat_map_cons, (HP k Hk). apply IH.
  - intros k k' ks ks' _ IHk _ IHks inside. rewrite !flat_map_cons, !map_app.
    rewrite IHk, IHks. reflexivity.
Qed.

Lemma is_user_named_info m a b : info a = info b -> is_user_named m a = is_user_named m b.
Proof.
  intros H. unfold is_user_named.
  rewrite (has_class_info "user" a b H), (getAttribute_info "data-name" a b H).
  reflexivity.
Qed.

End TreeEdits.

(* ================================================================== *)
(** * An injection, step by step *)
(* ================================================================== *)

Section Injections.
Import Dom Avatars.

(** The part of [injectAvatar] that follows the test of the context, on
    the target [T0]: nothing happens when the target shows an avatar
    for [n]; else the first avatar of the target is detached, which
    gives the page [d1], and the new avatar goes in front. *)
Lemma inject_edit_at st n u c T0 :
  distinct_ids (doc st) ->
  find_node (node_id T0) (doc st) = Some T0 ->
  exists st',
    (let t := node_id T0 in
     let old := querySelector is_avatar T0 in
     if match old with
        | Some o => same_nick (getAttribute "data-nick" o) n
        | None => false
        end
     then Normal st
     else
       let st1 :=
         match old with
         | Some _ =>
             set_doc (update_node t (fun m => fst (remove_first is_avatar m))
                        (doc st)) st
         | None => st
         end in
       match createAvatarEl (fresh st1) n (JStr u) with
       | None => Throw st1
       | Some avatar =>
           Normal
             (set_fresh (2 + fresh st1)
                (set_doc
                   (update_node t (prepend (context_class c avatar))
                      (doc st1)) st1))
       end) = Normal st' /\
    ((st' = st /\ shows n T0) \/
     exists d1,
       ~ shows n T0 /\
       pruned_by (stale n) (doc st) d1 /\
       find_node (node_id T0) d1 = Some (fst (remove_first is_avatar T0)) /\
       doc st' = update_node (node_id T0)
                   (prepend (avatar_markup (fresh st) c n u)) d1 /\
       fresh st' = (2 + fresh st)%nat /\
       control st' = control st).
Proof.
  intros Hd Hfind. cbv zeta.
  pose proof (createAvatarEl_markup (fresh st) c n u) as Hmark.
  destruct (createAvatarEl (fresh st) n (JStr u)) as [av|] eqn:Eav; [|discriminate Hmark].
  cbn [fmap option_fmap option_map] in Hmark. injection Hmark as Hmark.
  destruct (querySelector is_avatar T0) as [o|] eqn:Hq.
  - destruct (same_nick (getAttribute "data-nick" o) n) eqn:Es.
    + exists st. split; [reflexivity|]. left. split; [reflexivity|].
      exists o. split; [exact Hq | apply same_nick_records, Es].
    + cbn [fresh set_doc]. rewrite Eav, Hmark. eexists. split; [reflexivity|]. right.
      exists (update_node (node_id T0) (fun m => fst (remove_first is_avatar m)) (doc st)).
      split; [|split; [|split; [|split; [|split]]]]; try reflexivity.
      * intros (a & Ha & Hr). rewrite Hq in Ha. injection Ha as <-.
        apply same_nick_records in Hr. congruence.
      * apply update_node_pruned_by. intros m Hm Eid.
        pose proof (find_node_distinct _ _ Hd Hm) as Hm'. rewrite Eid, Hfind in Hm'.
        injection Hm' as <-.
        eapply pruned_by_impl; [|apply remove_first_found, Hq].
        intros k <-. unfold querySelector in Hq. apply find_some in Hq as [_ Hav].
        split; [exact Hav|]. intros Hr. apply same_nick_records in Hr. congruence.
      * rewrite find_node_update by (intros; apply node_id_remove_first).
        rewrite Hfind. reflexivity.
  - rewrite Eav, Hmark. eexists. split; [reflexivity|]. right. exists (doc st).
    split; [|split; [|split; [|split; [|split]]]]; try reflexivity.
    + intros (a & Ha & _). congruence.
    + apply pruned_by_refl.
    + pose proof (proj1 (remove_first_found_both is_avatar) T0) as H.
      unfold querySelector in Hq. rewrite Hq in H. rewrite H. exact Hfind.
Qed.

(** [injectAvatar] with a string for the URL, on a page whose elements
    are told apart. *)
Lemma injectAvatar_edit el n u st :
  distinct_ids (doc st) ->
  exists st',
    injectAvatar el n (JStr u) st = Normal st' /\
    ((st' = st /\ forall T, injection_target el (doc st) = Some T -> shows n T) \/
     exists d1 c T0,
       injection_target el (doc st) = Some T0 /\
       ~ shows n T0 /\
       pruned_by (stale n) (doc st) d1 /\
       find_node (node_id T0) d1 = Some (fst (remove_first is_avatar T0)) /\
       doc st' = update_node (node_id T0)
                   (prepend (avatar_markup (fresh st) c n u)) d1 /\
       fresh st' = (2 + fresh st)%nat /\
       control st' = control st).
Proof.
  intros Hd. unfold injectAvatar.
  destruct (chain_to el (doc st)) as [[|e ch]|] eqn:Hch.
  - exists st. split; [reflexivity|]. left. split; [reflexivity|].
    intros T HT. unfold injection_target in HT. rewrite Hch in HT. discriminate.
  - pose proof (injection_target_intro el (doc st) e ch Hch) as Hin.
    pose proof (fun c => target_found (doc st) el e ch c Hd Hch) as Hfind.
    destruct (getContext (e :: ch)) eqn:Ectx.
    4:{ exists st. split; [reflexivity|]. left. split; [reflexivity|].
        intros T HT. unfold injection_target in HT. rewrite Hch, Ectx in HT.
        discriminate. }
    all: specialize (Hin ltac:(discriminate)).
    all: match goal with
         | |- context [target_of ?c _ _] =>
             destruct (inject_edit_at st n u c _ Hd (Hfind c)) as (st' & Hrun & Hcase)
         end.
    all: exists st'; split; [exact Hrun|].
    all: destruct Hcase as [[-> Hs]|(d1 & Hrest)];
      [left; split; [reflexivity|];
       intros T HT; rewrite Hin in HT; injection HT as <-; exact Hs
      |right; eexists d1, _, _; split; [exact Hin | exact Hrest]].
  - exists st. split; [reflexivity|]. left. split; [reflexivity|].
    intros T HT. unfold injection_target in HT. rewrite Hch in HT. discriminate.
Qed.

(** What follows for the page after the new avatar went in. *)
Lemma edit_facts st st' d1 t X c n u :
  well_identified st ->
  pruned_by (stale n) (doc st) d1 ->
  find_node t d1 = Some X ->
  doc st' = update_node t (prepend (avatar_markup (fresh st) c n u)) d1 ->
  fresh st' = (2 + fresh st)%nat ->
  well_identified st' /\
  distinct_ids d1 /\
  pruned_by (eq (avatar_markup (fresh st) c n u)) (doc st') d1 /\
  find_node t (doc st') = Some (prepend (avatar_markup (fresh st) c n u) X) /\
  (forall i, i ∈ map node_id (subtree (doc st')) -> (i < fresh st)%nat ->
             i ∈ map node_id (subtree d1)) /\
  (forall m, matching m (doc st') `sublist_of` matching m (doc st)).
Proof.
  intros Hw Hp HX Hdoc Hfresh.
  assert (Ht : t ∈ map node_id (subtree d1))
    by (unfold find_node in HX; apply find_id_Some in HX as [_ HX]; exact HX).
  destruct (well_identified_edit _ st d1 t c n u Hw Hp Ht) as (Hd1 & Hd2 & Hb2 & Hold).
  cbv zeta in Hd2, Hb2, Hold. rewrite <- Hdoc in Hd2, Hb2, Hold.
  assert (Hg : pruned_by (eq (avatar_markup (fresh st) c n u)) (doc st') d1).
  { rewrite Hdoc. apply update_node_grown_by. intros m. apply prepend_grown. }
  split; [split; [exact Hd2 | rewrite Hfresh; exact Hb2]|].
  split; [exact Hd1|]. split; [exact Hg|]. split; [|split; [exact Hold|]].
  - rewrite Hdoc, find_node_update by (intros; apply node_id_prepend).
    rewrite HX. reflexivity.
  - intros m. unfold matching.
    rewrite (proj1 (select_grown_by_both _ (is_user_named m) (is_user_named_info m)
                      (fun k Hk inside =>
                         eq_ind _ (fun k => select_in_chat (is_user_named m) inside k = [])
                           (avatar_markup_no_user m _ c n u inside) k Hk))
               _ _ Hg false).
    apply (proj1 (select_pruned_by_both _ (is_user_named m) (is_user_named_info m))
             _ _ Hp false).
Qed.

(** After [injectAvatar] for the element [el] and the nickname [n],
    the target of [el] shows an avatar for [n]. *)
Lemma injectAvatar_shows el n u st st' :
  well_identified st ->
  injectAvatar el n (JStr u) st = Normal st' ->
  forall T, injection_target el (doc st') = Some T -> shows n T.
Proof.
  intros Hw Hrun T HT. pose proof Hw as [Hd Hb].
  destruct (injectAvatar_edit el n u st Hd) as (st2 & Hrun2 & Hcase).
  rewrite Hrun in Hrun2. injection Hrun2 as <-.
  destruct Hcase as [[-> Hs]|(d1 & c & T0 & HT0 & _ & Hp & HX & Hdoc & Hfresh & _)];
    [apply Hs, HT|].
  destruct (edit_facts st st' d1 _ _ c n u Hw Hp HX Hdoc Hfresh)
    as ([Hd2 _] & Hd1 & Hg & Hfind & Hold & _).
  destruct (injection_target_Some _ _ _ HT0) as (e0 & ch0 & Hch0 & _ & _).
  destruct (injection_target_Some _ _ _ HT) as (e2 & ch2 & Hch2 & _ & _).
  assert (Hel : (el < fresh st)%nat)
    by (eapply ids_below_elem; [exact Hb | eapply chain_to_elem, Hch0]).
  assert (Hin1 : el ∈ map node_id (subtree d1))
    by (apply Hold; [eapply chain_to_elem, Hch2 | exact Hel]).
  destruct (chain_to el d1) as [ch1|] eqn:Hch1;
    [|apply chain_to_None in Hch1; contradiction].
  pose proof (targets_of_same_element _ _ _ el _ _ Hg Hd2 Hch2 Hch1) as H21.
  pose proof (targets_of_same_element _ _ _ el _ _ Hp Hd Hch0 Hch1) as H01.
  rewrite HT in H21. rewrite HT0 in H01.
  destruct (injection_target el d1) as [T1|]; [|contradiction].
  assert (Hid : node_id T = node_id T0).
  { pose proof (pruned_by_info _ _ _ H21) as E1.
    pose proof (pruned_by_info _ _ _ H01) as E2.
    rewrite <- (node_id_info _ _ E1). apply (node_id_info _ _ E2). }
  pose proof (injection_target_found _ _ _ Hd2 HT) as HfT.
  rewrite Hid, Hfind in HfT. injection HfT as <-.
  exists (avatar_markup (fresh st) c n u). split; [|apply avatar_markup_is_avatar].
  unfold querySelector. rewrite descendants_prepend, find_subtree_app.
  rewrite (proj1 (avatar_markup_is_avatar _ c n u)). reflexivity.
Qed.

(** An element whose target shows an avatar for [n] keeps showing one
    when [injectAvatar] runs for [n] on any element. *)
Lemma injectAvatar_keeps_shown el n u st st' el0 :
  well_identified st ->
  injectAvatar el n (JStr u) st = Normal st' ->
  (el0 < fresh st)%nat ->
  (forall T, injection_target el0 (doc st) = Some T -> shows n T) ->
  forall T, injection_target el0 (doc st') = Some T -> shows n T.
Proof.
  intros Hw Hrun Hel0 Hshown T HT. pose proof Hw as [Hd Hb].
  destruct (injectAvatar_edit el n u st Hd) as (st2 & Hrun2 & Hcase).
  rewrite Hrun in Hrun2. injection Hrun2 as <-.
  destruct Hcase as [[-> _]|(d1 & c & T0 & _ & _ & Hp & HX & Hdoc & Hfresh & _)];
    [apply Hshown, HT|].
  destruct (edit_facts st st' d1 _ _ c n u Hw Hp HX Hdoc Hfresh)
    as ([Hd2 _] & Hd1 & Hg & _ & Hold & _).
  destruct (injection_target_Some _ _ _ HT) as (e2 & ch2 & Hch2 & _ & _).
  assert (Hin1 : el0 ∈ map node_id (subtree d1))
    by (apply Hold; [eapply chain_to_elem, Hch2 | exact Hel0]).
  destruct (chain_to el0 d1) as [ch1|] eqn:Hch1;
    [|apply chain_to_None in Hch1; contradiction].
  assert (Hin0 : el0 ∈ map node_id (subtree (doc st))).
  { eapply elem_of_sublist; [exact Hin1|].
    apply pruned_ids_sublist, (pruned_by_pruned _ _ _ Hp). }
  destruct (chain_to el0 (doc st)) as [ch0|] eqn:Hch0;
    [|apply chain_to_None in Hch0; contradiction].
  pose proof (targets_of_same_element _ _ _ el0 _ _ Hg Hd2 Hch2 Hch1) as H21.
  pose proof (targets_of_same_element _ _ _ el0 _ _ Hp Hd Hch0 Hch1) as H01.
  rewrite HT in H21.
  destruct (injection_target el0 d1) as [T1|]; [|contradiction].
  destruct (injection_target el0 (doc st)) as [T00|] eqn:HT00; [|contradiction].
  apply (shows_after_attaching _ n T T1 (fun k Hk =>
           eq_ind _ (fun k => is_avatar k = true /\ records n k)
             (avatar_markup_is_avatar _ c n u) k Hk) H21).
  apply (shows_after_detaching (stale n) n T00 T1 (fun k Hk => Hk) H01).
  apply Hshown. reflexivity.
Qed.

Lemma injectAvatar_well_identified el n u st st' :
  well_identified st ->
  injectAvatar el n (JStr u) st = Normal st' ->
  well_identified st' /\ (fresh st <= fresh st')%nat /\
  forall m, matching m (doc st') `sublist_of` matching m (doc st).
Proof.
  intros Hw Hrun. pose proof Hw as [Hd Hb].
  destruct (injectAvatar_edit el n u st Hd) as (st2 & Hrun2 & Hcase).
  rewrite Hrun in Hrun2. injection Hrun2 as <-.
  destruct Hcase as [[-> _]|(d1 & c & T0 & _ & _ & Hp & HX & Hdoc & Hfresh & _)].
  - split; [exact Hw|]. split; [lia | reflexivity].
  - destruct (edit_facts st st' d1 _ _ c n u Hw Hp HX Hdoc Hfresh)
      as (Hw' & _ & _ & _ & _ & Hsel).
    split; [exact Hw'|]. split; [lia | exact Hsel].
Qed.

(** The loop of [injectAllForNick] over the elements [els]: it ends
    normally, and afterwards the target of each of them that is still
    on the page and has a context shows an avatar for [n]. *)
Lemma injectAll_shows n u : forall els st,
  well_identified st ->
  Forall (fun el => (el < fresh st)%nat) els ->
  exists st',
    injectAll els n (JStr u) st = Normal st' /\
    well_identified st' /\ (fresh st <= fresh st')%nat /\
    (forall m, matching m (doc st') `sublist_of` matching m (doc st)) /\
    (forall el0, (el0 < fresh st)%nat ->
       (forall T, injection_target el0 (doc st) = Some T -> shows n T) ->
       forall T, injection_target el0 (doc st') = Some T -> shows n T) /\
    (forall el, el ∈ els ->
       forall T, injection_target el (doc st') = Some T -> shows n T).
Proof.
  induction els as [|el els IH]; intros st Hw Hels.
  - exists st. split; [reflexivity|]. split; [exact Hw|]. split; [lia|].
    split; [reflexivity|]. split; [auto|]. intros el Hel. inversion Hel.
  - apply Forall_cons in Hels as [Hel Hels]. cbn [injectAll].
    destruct (injectAvatar_edit el n u st (proj1 Hw)) as (st1 & Hrun & _).
    rewrite Hrun.
    destruct (injectAvatar_well_identified el n u st st1 Hw Hrun) as (Hw1 & Hf1 & Hsel1).
    assert (Hels1 : Forall (fun el => (el < fresh st1)%nat) els)
      by (eapply Forall_impl; [exact Hels|]; cbn; intros; lia).
    destruct (IH st1 Hw1 Hels1) as (st' & Hall & Hw' & Hf' & Hsel' & Hkeep & Hdone).
    exists st'. split; [exact Hall|]. split; [exact Hw'|]. split; [lia|].
    split; [intros m; etransitivity; [apply Hsel' | apply Hsel1]|]. split.
    + intros el0 Hel0 Hshown. apply Hkeep; [lia|].
      exact (injectAvatar_keeps_shown el n u st st1 el0 Hw Hrun Hel0 Hshown).
    + intros el' Hin. apply elem_of_cons in Hin as [->|Hin]; [|apply Hdone, Hin].
      apply Hkeep; [lia|]. exact (injectAvatar_shows el n u st st1 Hw Hrun).
Qed.

Lemma select_in_subtree (sel : node -> bool) m : forall d inside,
  In m (select_in_chat sel inside d) -> In m (subtree d).
Proof.
  induction d as [i t c a kids IH] using node_ind2. intros inside.
  rewrite select_in_chat_Node, subtree_Node. intros Hm.
  apply in_app_or in Hm as [Hm|Hm].
  - destruct (inside && _); [|inversion Hm]. destruct Hm as [<-|[]]. left. reflexivity.
  - right. revert Hm. generalize (inside || match assoc "id" a with
                                             | Some v => String.eqb v "chat"
                                             | None => false
                                             end).
    intros inside'. induction IH as [|k ks Hk _ IHks]; [intros []|].
    rewrite !flat_map_cons. intros Hm. apply in_or_app.
    apply in_app_or in Hm as [Hm|Hm]; [left; eapply Hk, Hm | right; apply IHks, Hm].
Qed.

Lemma matching_below n st el :
  well_identified st -> el ∈ matching n (doc st) -> (el < fresh st)%nat.
Proof.
  intros [_ Hb] Hel. eapply ids_below_elem; [exact Hb|].
  unfold matching in Hel. apply list_elem_of_In, in_map_iff in Hel as (m & <- & Hm).
  apply list_elem_of_In, in_map. eapply select_in_subtree, Hm.
Qed.

(** [injectAllForNick] with a string for the URL, on a page whose
    elements are told apart: afterwards every name element that the
    selector matches and that has a context shows an avatar for the
    nickname in its target. *)
Lemma injectAllForNick_shows n u st :
  well_identified st ->
  exists st',
    injectAllForNick n (JStr u) st = Normal st' /\
    well_identified st' /\
    forall el T,
      el ∈ matching n (doc st') -> injection_target el (doc st') = Some T ->
      shows n T.
Proof.
  intros Hw. unfold injectAllForNick.
  destruct (injectAll_shows n u (matching n (doc st)) st Hw)
    as (st' & Hrun & Hw' & _ & Hsel & _ & Hdone).
  { apply Forall_forall. intros el Hel. eapply matching_below; eassumption. }
  exists st'. split; [exact Hrun|]. split; [exact Hw'|].
  intros el T Hel. apply Hdone. eapply elem_of_sublist; [exact Hel | apply Hsel].
Qed.

End Injections.

(* ================================================================== *)
(** * The answer to a lookup *)
(* ================================================================== *)

Section SettledLookups.
Import Dom Avatars.

(** C3, as the script has it, for a lookup whose key the cache does
    not inherit, which is every lookup of a run ([reachable_own_keys]).
    A response that is OK and whose body has a non-empty string
    [avatar_url] not beginning with [/static/] puts that URL in the
    cache with the current time and runs [injectAllForNick], which ends
    normally and changes nothing of the page but avatar elements; on a
    page whose elements are told apart, every name element that the
    selector matches afterwards and that has a context then shows an
    avatar for the nickname: the first avatar element in its target
    records it.  A failed request, a response that is not OK, a body
    that is not JSON, and a body whose [avatar_url] is [null], absent,
    the empty string, another value that is no array, or a string
    beginning with [/static/], put a [null] entry with the current time
    in the cache and leave the page alone.  For an array, which the
    interface does not document, the entry holds [null] or the
    array. *)
Theorem settled_lookup_is_cached st it r now :
  inherited_name (key it) = false ->
  match verdict_of r with
  | Positive s =>
      cache (settle it r now st) = <[key it := Entry (JStr s) now]> (cache st) /\
      injectAllForNick (nick it) (JStr s)
        (set_cache (<[key it := Entry (JStr s) now]> (cache st)) st)
      = Normal (settle it r now st) /\
      strip_avatars (doc (settle it r now st)) = strip_avatars (doc st) /\
      (well_identified st ->
       well_identified (settle it r now st) /\
       forall el T,
         el ∈ matching (nick it) (doc (settle it r now st)) ->
         injection_target el (doc (settle it r now st)) = Some T ->
         shows (nick it) T)
  | Negative =>
      settle it r now st
      = set_cache (<[key it := Entry JNull now]> (cache st)) st
  | Undocumented u =>
      exists e, cache (settle it r now st) !! key it = Some e /\
                ts e = now /\ (url e = JNull \/ url e = u)
  end.
Proof.
  intros _.
  destruct r as [|[] [data|]]; try reflexivity.
  unfold verdict_of, settle, on_data, url_of_data.
  destruct (avatar_url data) as [[|b|z|s|l|o]|] eqn:Eu;
    try (destruct (truthy data); reflexivity).
  - (* boolean *)
    destruct b; destruct (truthy data); reflexivity.
  - (* number *)
    assert (Hd : truthy data = true) by (destruct data; try discriminate; reflexivity).
    rewrite Hd. unfold skip_static. cbn [truthy_opt truthy default andb].
    destruct (z =? 0) eqn:Ez; cbn; rewrite ?Ez; reflexivity.
  - (* string *)
    assert (Hd : truthy data = true) by (destruct data; try discriminate; reflexivity).
    rewrite Hd. cbn [truthy_opt truthy default from_option id andb].
    destruct (JsString.nonempty s) eqn:Es; cbn [andb]; [|reflexivity].
    unfold skip_static. cbn [truthy]. rewrite Es.
    destruct (JsString.startsWith "/static/" s); cbn [negb truthy]; [reflexivity|].
    rewrite Es.
    set (st1 := set_cache (<[key it:=Entry (JStr s) now]> (cache st)) st).
    assert (Hrun : injectAllForNick (nick it) (JStr s) st1
                   = Normal (outcome_of (injectAllForNick (nick it) (JStr s) st1)))
      by (unfold injectAllForNick; apply injectAll_string).
    rewrite Hrun. cbn [outcome_of].
    split; [|split; [reflexivity|split]].
    + rewrite (cache_of_control st1) by apply injectAllForNick_control. reflexivity.
    + unfold injectAllForNick. rewrite injectAll_strip. reflexivity.
    + intros Hw.
      destruct (injectAllForNick_shows (nick it) s st1 Hw) as (st' & Hrun' & Hw' & Hshown).
      rewrite Hrun' in Hrun |- *. cbn [outcome_of]. split; [exact Hw' | exact Hshown].
  - (* array *)
    assert (Hd : truthy data = true) by (destruct data; try discriminate; reflexivity).
    rewrite Hd. cbn [truthy_opt truthy default from_option id andb].
    assert (Hs : skip_static (JArr l) = Some JNull \/ skip_static (JArr l) = Some (JArr l)).
    { unfold skip_static. cbn [truthy]. destruct l as [|[] l]; auto.
      destruct (String.eqb _ _); auto. }
    destruct Hs as [-> | ->]; cbn [truthy].
    + eexists. cbn [cache set_cache]. rewrite lookup_insert_eq. eauto.
    + pose proof (injectAllForNick_control (nick it) (JArr l)
                    (set_cache (<[key it:=Entry (JArr l) now]> (cache st)) st)) as Hc.
      apply cache_of_control in Hc.
      destruct (injectAllForNick _ _ _) as [st'|st']; cbn [outcome_of] in Hc.
      * eexists. rewrite Hc. cbn [cache set_cache]. rewrite lookup_insert_eq. eauto.
      * eexists. unfold on_error. cbn [cache set_cache]. rewrite lookup_insert_eq. eauto.
Qed.

End SettledLookups.

(* ================================================================== *)
(** * Reconciliation *)
(* ================================================================== *)

Section Reconciliation.
Import Dom Avatars.

Lemma pruned_to_by_both :
  (forall d d', pruned d d' -> pruned_by (fun _ => True) d d') /\
  (forall ks ks', pruned_kids ks ks' -> pruned_kids_by (fun _ => True) ks ks').
Proof.
  apply pruned_mutind.
  - intros i t c a ks ks' _ IH. constructor. exact IH.
  - constructor.
  - intros k ks ks' _ IH. apply pruned_by_drop; [exact I | exact IH].
  - intros k k' ks ks' _ IHk _ IHks. apply pruned_by_keep; assumption.
Qed.

(** The element [i] after subtrees were detached from the page is the
    element [i] of before with subtrees detached. *)
Lemma find_pruned i d d' T T' :
  pruned d d' -> distinct_ids d ->
  find_node i d = Some T -> find_node i d' = Some T' -> pruned T T'.
Proof.
  intros Hp Hd HT HT'.
  destruct (find_pruned_by _ i d d' T' (proj1 pruned_to_by_both _ _ Hp) Hd HT')
    as (T2 & HT2 & Hp2).
  rewrite HT in HT2. injection HT2 as <-. eapply pruned_by_pruned, Hp2.
Qed.

Lemma find_node_of_elem i d :
  i ∈ map node_id (subtree d) -> exists X, find_node i d = Some X.
Proof.
  intros Hin. destruct (find_node i d) as [X|] eqn:E; [eauto|].
  exfalso. apply list_elem_of_In, in_map_iff in Hin as (m & Hm & Hin).
  unfold find_node in E. apply (find_none _ _ E) in Hin.
  apply Nat.eqb_neq in Hin. contradiction.
Qed.

(** The identities of the larger tree are those of the smaller one and
    those of the subtrees that were detached. *)
Lemma ids_grown_both av :
  (forall d d', pruned_by (eq av) d d' -> forall j,
     j ∈ map node_id (subtree d) ->
     j ∈ map node_id (subtree d') \/ j ∈ map node_id (subtree av)) /\
  (forall ks ks', pruned_kids_by (eq av) ks ks' -> forall j,
     j ∈ map node_id (flat_map subtree ks) ->
     j ∈ map node_id (flat_map subtree ks') \/ j ∈ map node_id (subtree av)).
Proof.
  apply pruned_by_mutind.
  - intros i t c a ks ks' _ IH j. rewrite !subtree_Node. cbn [map node_id].
    intros Hj. apply elem_of_cons in Hj as [->|Hj]; [left; apply list_elem_of_here|].
    destruct (IH j Hj) as [H|H]; [left; apply list_elem_of_further, H | right; exact H].
  - intros j Hj. inversion Hj.
  - intros k ks ks' <- _ IH j. rewrite flat_map_cons, map_app. intros Hj.
    apply elem_of_app in Hj as [Hj|Hj]; [right; exact Hj | apply IH, Hj].
  - intros k k' ks ks' _ IHk _ IHks j. rewrite !flat_map_cons, !map_app. intros Hj.
    apply elem_of_app in Hj as [Hj|Hj].
    + destruct (IHk j Hj) as [H|H]; [left; apply elem_of_app; left; exact H | right; exact H].
    + destruct (IHks j Hj) as [H|H]; [left; apply elem_of_app; right; exact H | right; exact H].
Qed.

(** The element that [querySelector] finds is gone after
    [remove_first]. *)
Lemma removed_gone_both (sel : node -> bool) :
  (forall n old,
     NoDup (map node_id (subtree n)) ->
     List.find sel (descendants n) = Some old ->
     node_id old ∉ map node_id (subtree (fst (remove_first sel n)))) /\
  (forall ks old,
     NoDup (map node_id (flat_map subtree ks)) ->
     List.find sel (flat_map subtree ks) = Some old ->
     node_id old ∉ map node_id (flat_map subtree (fst (remove_first_in sel ks)))).
Proof.
  assert (Hin : forall (l : list node) old,
            List.find sel l = Some old -> node_id old ∈ map node_id l).
  { intros l old H. apply find_some in H as [H _].
    apply list_elem_of_In, in_map, H. }
  assert (Hsub : forall n, map node_id (subtree (fst (remove_first sel n)))
                           `sublist_of` map node_id (subtree n))
    by (intros n; apply pruned_ids_sublist, remove_first_pruned).
  assert (Hks : forall ks old,
    Forall (fun n => forall old,
              NoDup (map node_id (subtree n)) ->
              List.find sel (descendants n) = Some old ->
              node_id old ∉ map node_id (subtree (fst (remove_first sel n)))) ks ->
    NoDup (map node_id (flat_map subtree ks)) ->
    List.find sel (flat_map subtree ks) = Some old ->
    node_id old ∉ map node_id (flat_map subtree (fst (remove_first_in sel ks)))).
  { intros ks old H. revert old.
    induction H as [|k ks Hk _ IHks]; intros old Hd Hf; [discriminate Hf|].
    rewrite flat_map_cons, map_app in Hd. apply NoDup_app in Hd as (Hdk & Hdis & Hdks).
    rewrite flat_map_cons, find_subtree_app in Hf. cbn [remove_first_in].
    destruct (sel k) eqn:Ek.
    - injection Hf as <-. cbn [fst]. apply Hdis.
      unfold subtree. cbn [map]. apply list_elem_of_here.
    - destruct (List.find sel (descendants k)) as [o|] eqn:Efk.
      + injection Hf as <-.
        pose proof (proj1 (remove_first_found_both sel) k) as Hfound.
        rewrite Efk in Hfound. destruct Hfound as [_ Hfound].
        pose proof (Hk o Hdk eq_refl) as Hgone.
        destruct (remove_first sel k) as [k' found]. cbn [fst snd] in *. subst found.
        cbn [fst]. rewrite flat_map_cons, map_app. intros Hx.
        apply elem_of_app in Hx as [Hx|Hx]; [contradiction|].
        apply (Hdis (node_id o)); [|exact Hx].
        unfold subtree. cbn [map]. apply list_elem_of_further, Hin, Efk.
      + pose proof (proj1 (remove_first_found_both sel) k) as Hfound.
        rewrite Efk in Hfound. rewrite Hfound.
        pose proof (IHks old Hdks Hf) as Hgone.
        destruct (remove_first_in sel ks) as [ks'' found]. cbn [fst] in *.
        rewrite flat_map_cons, map_app. intros Hx.
        apply elem_of_app in Hx as [Hx|Hx]; [|contradiction].
        apply (Hdis (node_id old) Hx), Hin, Hf. }
  assert (H : forall n old,
     NoDup (map node_id (subtree n)) ->
     List.find sel (descendants n) = Some old ->
     node_id old ∉ map node_id (subtree (fst (remove_first sel n)))).
  { induction n as [i t c a kids IH] using node_ind2. intros old Hd Hf.
    rewrite descendants_Node in Hf. rewrite remove_first_Node. cbn [fst].
    rewrite subtree_Node in *. cbn [map node_id] in *.
    apply NoDup_cons in Hd as [Hi Hd]. intros Hx.
    apply elem_of_cons in Hx as [Hx|Hx].
    - apply Hi. rewrite <- Hx. apply Hin, Hf.
    - exact (Hks kids old IH Hd Hf Hx). }
  split; [exact H|]. intros ks old. apply Hks. apply Forall_forall. intros n _. apply H.
Qed.

Lemma subtree_ids_sublist T : forall d,
  T ∈ subtree d -> map node_id (subtree T) `sublist_of` map node_id (subtree d).
Proof.
  induction d as [i t c a kids IH] using node_ind2. intros HT.
  rewrite subtree_Node in HT. apply elem_of_cons in HT as [->|HT]; [reflexivity|].
  rewrite (subtree_Node i t c a kids). cbn [map]. apply sublist_cons.
  induction IH as [|k ks Hk _ IHks]; [inversion HT|].
  rewrite flat_map_cons in HT. rewrite flat_map_cons, map_app.
  apply elem_of_app in HT as [HT|HT].
  - apply sublist_inserts_r, Hk, HT.
  - apply sublist_inserts_l, IHks, HT.
Qed.

Lemma find_node_elem i d T : find_node i d = Some T -> T ∈ subtree d.
Proof.
  unfold find_node. intros H. apply find_some in H as [H _]. apply list_elem_of_In, H.
Qed.

Lemma find_node_distinct_ids i d T :
  distinct_ids d -> find_node i d = Some T -> NoDup (map node_id (subtree T)).
Proof.
  intros Hd HT. eapply sublist_NoDup; [exact Hd|].
  apply subtree_ids_sublist, (find_node_elem i), HT.
Qed.

(** The first avatar of an element of the page is gone from the
    element once it was detached, and is older than the elements made
    next. *)
Lemma stale_avatar_gone st T old :
  well_identified st ->
  find_node (node_id T) (doc st) = Some T ->
  querySelector is_avatar T = Some old ->
  (node_id old ∉ map node_id (subtree (fst (remove_first is_avatar T)))) /\
  (node_id old < fresh st)%nat.
Proof.
  intros [Hd Hb] HT Hq. split.
  - apply (proj1 (removed_gone_both is_avatar)); [|exact Hq].
    eapply find_node_distinct_ids; eassumption.
  - eapply ids_below_elem; [exact Hb|].
    eapply elem_of_sublist;
      [|apply subtree_ids_sublist, (find_node_elem _ _ _ HT)].
    unfold subtree. cbn [map]. apply list_elem_of_further.
    unfold querySelector in Hq. apply find_some in Hq as [Hq _].
    apply list_elem_of_In, in_map, Hq.
Qed.

(** The page after [injectAvatar], whatever the element and the URL:
    the first avatar of an element [t] may have been detached, and a
    new avatar may have gone into [t] thereafter. *)
Lemma injectAvatar_doc_shape el n u st :
  exists t d1,
    (d1 = doc st \/
     d1 = update_node t (fun m => fst (remove_first is_avatar m)) (doc st)) /\
    (doc (outcome_of (injectAvatar el n u st)) = d1 \/
     exists c s,
       doc (outcome_of (injectAvatar el n u st))
       = update_node t (prepend (avatar_markup (fresh st) c n s)) d1).
Proof.
  assert (Hsame : doc (outcome_of (Normal st)) = doc st) by reflexivity.
  unfold injectAvatar.
  destruct (chain_to el (doc st)) as [[|e ch]|];
    try (exists 0%nat, (doc st); split; [left; reflexivity | left; exact Hsame]).
  destruct (getContext (e :: ch)) eqn:Ec;
    try (exists 0%nat, (doc st); split; [left; reflexivity | left; exact Hsame]).
  all: match goal with
       | |- context [target_of ?c _ _] =>
           set (ctx := c); set (tg := target_of ctx (e :: ch) e)
       end.
  all: exists (node_id tg).
  all: destruct (querySelector is_avatar tg) as [old|];
    [destruct (same_nick (getAttribute "data-nick" old) n);
     [exists (doc st); split; [left; reflexivity | left; exact Hsame]
     |exists (update_node (node_id tg)
                (fun m => fst (remove_first is_avatar m)) (doc st));
      split; [right; reflexivity|]]
    |exists (doc st); split; [left; reflexivity|]].
  all: cbn [doc set_doc fresh].
  all: destruct u as [|b|z|s|l|o]; try (left; reflexivity).
  all: right; exists ctx, s.
  all: pose proof (createAvatarEl_markup (fresh st) ctx n s) as Hm.
  all: destruct (createAvatarEl (fresh st) n (JStr s)) as [av|]; [|discriminate Hm].
  all: cbn [fmap option_fmap option_map] in Hm; injection Hm as Hm.
  all: subst ctx; cbn [outcome_of doc set_doc set_fresh context_class] in *.
  all: rewrite Hm; reflexivity.
Qed.

(** An element of the page after [injectAvatar] holds, of the elements
    that were on the page before, only ones it held before. *)
Lemma ids_after_inject el n u st i0 X X' :
  well_identified st ->
  find_node i0 (doc st) = Some X ->
  find_node i0 (doc (outcome_of (injectAvatar el n u st))) = Some X' ->
  forall j, j ∈ map node_id (subtree X') -> (j < fresh st)%nat ->
            j ∈ map node_id (subtree X).
Proof.
  intros Hw HX HX' j Hj Hlt. pose proof Hw as [Hd Hb].
  destruct (injectAvatar_doc_shape el n u st) as (t & d1 & Hd1 & Hout).
  assert (Hp : pruned (doc st) d1).
  { destruct Hd1 as [->| ->]; [apply pruned_refl|].
    apply update_node_pruned. intros m. apply remove_first_pruned. }
  pose proof (pruned_distinct_ids _ _ Hp Hd) as Hdd1.
  assert (Hsmall : forall X1, find_node i0 d1 = Some X1 ->
            forall k, k ∈ map node_id (subtree X1) -> k ∈ map node_id (subtree X)).
  { intros X1 HX1 k Hk. eapply elem_of_sublist; [exact Hk|].
    apply pruned_ids_sublist. eapply find_pruned; eassumption. }
  destruct Hout as [E|(c & s & E)]; rewrite E in HX'; [eapply Hsmall; eassumption|].
  destruct (decide (t ∈ map node_id (subtree d1))) as [Ht|Ht].
  2:{ rewrite (update_node_absent _ _ _ Ht) in HX'. eapply Hsmall; eassumption. }
  destruct (well_identified_edit _ st d1 t c n s Hw (proj1 pruned_to_by_both _ _ Hp) Ht)
    as (_ & Hd2 & _ & Hold).
  cbv zeta in Hd2, Hold.
  assert (Hg : pruned_by (eq (avatar_markup (fresh st) c n s))
                 (update_node t (prepend (avatar_markup (fresh st) c n s)) d1) d1)
    by (apply update_node_grown_by; intros m; apply prepend_grown).
  assert (Hi0 : i0 ∈ map node_id (subtree d1)).
  { apply Hold.
    - unfold find_node in HX'. apply find_id_Some in HX' as [_ H]. exact H.
    - eapply ids_below_elem; [exact Hb|].
      unfold find_node in HX. apply find_id_Some in HX as [_ H]. exact H. }
  destruct (find_node_of_elem _ _ Hi0) as (X1 & HX1).
  destruct (find_pruned_by _ i0 _ _ X1 Hg Hd2 HX1) as (T & HT & HpT).
  rewrite HX' in HT. injection HT as <-.
  destruct (proj1 (ids_grown_both _) _ _ HpT j Hj) as [H|H];
    [eapply Hsmall; eassumption|].
  rewrite ids_avatar_markup in H.
  apply elem_of_cons in H as [?|H]; [lia|].
  apply elem_of_cons in H as [?|H]; [lia | inversion H].
Qed.

Lemma not_records_same_nick n old :
  ~ records n old -> same_nick (getAttribute "data-nick" old) n = false.
Proof.
  intros H. destruct (same_nick _ n) eqn:E; [|reflexivity].
  apply same_nick_records in E. contradiction.
Qed.

(** [injectAvatar] on an element whose target shows an avatar for
    another nickname leaves the target with that avatar detached, and
    the new avatar, if it could be made, in front. *)
Lemma injectAvatar_stale el n u st e ch old :
  distinct_ids (doc st) ->
  chain_to el (doc st) = Some (e :: ch) ->
  getContext (e :: ch) <> Other ->
  let target := target_of (getContext (e :: ch)) (e :: ch) e in
  querySelector is_avatar target = Some old -> ~ records n old ->
  let base := fst (remove_first is_avatar target) in
  find_node (node_id target) (doc (outcome_of (injectAvatar el n u st))) = Some base \/
  exists av,
    map node_id (subtree av) = [fresh st; S (fresh st)] /\
    find_node (node_id target) (doc (outcome_of (injectAvatar el n u st)))
    = Some (prepend av base).
Proof.
  intros Hd Hch Hctx target Hq Hrec base.
  pose proof (target_found _ _ _ _ (getContext (e :: ch)) Hd Hch) as Hfind.
  pose proof (not_records_same_nick _ _ Hrec) as Es.
  subst base target. unfold injectAvatar. rewrite Hch.
  revert Hq Hfind. destruct (getContext (e :: ch)); [| | |contradiction].
  all: intros Hq Hfind; rewrite Hq, Es; cbn [fresh doc set_doc].
  all: destruct u as [|b|z|s|l|o]; cbn [createAvatarEl outcome_of doc set_doc set_fresh].
  all: try (left; rewrite find_node_update by (intros; apply node_id_remove_first);
            rewrite Hfind; reflexivity).
  all: right; eexists; split;
    [|rewrite find_node_update by (intros; apply node_id_prepend);
      rewrite find_node_update by (intros; apply node_id_remove_first);
      rewrite Hfind; reflexivity].
  all: reflexivity.
Qed.

(** [processUserElement] on an element whose target shows an avatar for
    another nickname: the avatar is detached, and then the cache
    decides: nothing more, a lookup, or [injectAvatar] on the page
    without that avatar. *)
Lemma processUserElement_stale now el st e ch n old :
  chain_to el (doc st) = Some (e :: ch) ->
  getAttribute "data-name" e = Some n ->
  JsString.nonempty n = true -> isServiceNick n = false ->
  getContext (e :: ch) <> Other ->
  let target := target_of (getContext (e :: ch)) (e :: ch) e in
  querySelector is_avatar target = Some old -> ~ records n old ->
  let st1 :=
    set_doc (update_node (node_id target)
               (fun m => fst (remove_first is_avatar m)) (doc st)) st in
  doc (outcome_of (processUserElement now el st)) = doc st1 \/
  exists u,
    doc (outcome_of (processUserElement now el st))
    = doc (outcome_of (injectAvatar el n u st1)).
Proof.
  intros Hch Hn Hne Hserv Hctx target Hq Hrec st1.
  pose proof (not_records_same_nick _ _ Hrec) as Es.
  subst st1 target. unfold processUserElement. rewrite Hch, Hn, Hne, Hserv.
  cbn [negb]. revert Hq. destruct (getContext (e :: ch)); [| | |contradiction].
  all: intros Hq; rewrite Hq, Es.
  all: destruct (cache_get (cache st) (JsString.toLowerCase n)) as [| |en];
    cbn [outcome_of]; rewrite ?enqueue_doc; try (left; reflexivity).
  all: destruct (truthy (url en)); [right; eexists; reflexivity|].
  all: destruct (now - ts en <? NEGATIVE_TTL); cbn [outcome_of];
    rewrite ?enqueue_doc; left; reflexivity.
Qed.

Lemma ids_prepend av B j :
  j ∈ map node_id (subtree (prepend av B)) ->
  j ∈ map node_id (subtree av) \/ j ∈ map node_id (subtree B).
Proof.
  unfold subtree at 1. rewrite descendants_prepend. cbn [map].
  rewrite node_id_prepend, map_app. intros Hj. apply elem_of_cons in Hj as [->|Hj].
  - right. unfold subtree. cbn [map]. apply list_elem_of_here.
  - apply elem_of_app in Hj as [Hj|Hj]; [left; exact Hj|].
    right. unfold subtree. cbn [map]. apply list_elem_of_further, Hj.
Qed.

Lemma well_identified_detach st t :
  well_identified st ->
  well_identified
    (set_doc (update_node t (fun m => fst (remove_first is_avatar m)) (doc st)) st).
Proof.
  intros [Hd Hb].
  assert (Hp : pruned (doc st)
                 (update_node t (fun m => fst (remove_first is_avatar m)) (doc st)))
    by (apply update_node_pruned; intros m; apply remove_first_pruned).
  split; cbn [doc set_doc fresh].
  - eapply pruned_distinct_ids; eassumption.
  - unfold ids_below in *. rewrite Forall_forall in *. intros i Hi. apply Hb.
    eapply elem_of_sublist; [exact Hi | apply pruned_ids_sublist, Hp].
Qed.

(** Reconciliation at one element, on a page whose elements are told
    apart: for a name element [el] with the nickname [n] and a context,
    whose injection target is [target].  Reconciliation is idempotent: when
    the target shows an avatar for [n], [injectAvatar] and
    [processUserElement] return with the state as it was.  Else, the
    avatar that the target shows, one for another nickname, is detached
    before anything goes in: after [injectAvatar], and after
    [processUserElement] for a nickname that is not empty and no
    service nickname, it is no longer in the target; [injectAvatar]
    with a string for the URL then puts the new avatar in front of what
    is left.  The target ends with at most one avatar if it had at most
    one, and never with more than it had, if it had some. *)
Lemma reconciliation_at_element st el e ch n :
  well_identified st ->
  chain_to el (doc st) = Some (e :: ch) ->
  getContext (e :: ch) <> Other ->
  getAttribute "data-name" e = Some n ->
  let ctx := getContext (e :: ch) in
  let target := target_of ctx (e :: ch) e in
  (shows n target ->
   (forall u, injectAvatar el n u st = Normal st) /\
   (forall now, processUserElement now el st = Normal st)) /\
  (~ shows n target ->
   (forall s, exists st',
      injectAvatar el n (JStr s) st = Normal st' /\
      find_node (node_id target) (doc st')
      = Some (prepend (avatar_markup (fresh st) ctx n s)
                (fst (remove_first is_avatar target)))) /\
   (forall st',
      (exists u, st' = outcome_of (injectAvatar el n u st)) \/
      (exists now, JsString.nonempty n = true /\ isServiceNick n = false /\
                   st' = outcome_of (processUserElement now el st)) ->
      exists target',
        find_node (node_id target) (doc st') = Some target' /\
        (forall old, querySelector is_avatar target = Some old ->
                     node_id old ∉ map node_id (subtree target')) /\
        (length (avatars_of target')
         <= Nat.max 1 (length (avatars_of target)))%nat /\
        ((length (avatars_of target) <= 1)%nat ->
         (length (avatars_of target') <= 1)%nat))).
Proof.
  intros Hw Hch Hctx Hn ctx target. pose proof Hw as [Hd Hb].
  pose proof (target_found _ _ _ _ ctx Hd Hch) as Hfind. fold target in Hfind.
  assert (Hsame_i : forall u old, querySelector is_avatar target = Some old ->
            records n old -> injectAvatar el n u st = Normal st).
  { intros u. apply (injectAvatar_reconciles el n u st e ch Hd Hch Hctx). }
  assert (Hsame_p : forall now old, querySelector is_avatar target = Some old ->
            records n old -> processUserElement now el st = Normal st).
  { intros now. apply (processUserElement_reconciles now el st e ch n Hd Hch Hn). }
  split.
  - intros (a & Ha & Hrec). split; [intros u | intros now]; eauto.
  - intros Hnot.
    assert (Hstale : forall old, querySelector is_avatar target = Some old ->
              ~ records n old).
    { intros old Hq Hrec. apply Hnot. exists old. split; assumption. }
    split.
    + intros s. subst target ctx. unfold injectAvatar. rewrite Hch.
      revert Hfind Hstale. destruct (getContext (e :: ch)); [| | |contradiction].
      all: intros Hfind Hstale.
      all: destruct (inject_into_target st e ch n s _ Hfind Hstale)
             as (st' & Hrun & Hnew & _).
      all: exists st'; split; [exact Hrun | exact Hnew].
    + assert (Hgone : forall st' target',
        find_node (node_id target) (doc st') = Some target' ->
        (forall old, querySelector is_avatar target = Some old ->
           find_node (node_id target) (doc st')
           = Some (fst (remove_first is_avatar target)) \/
           (exists av, map node_id (subtree av) = [fresh st; S (fresh st)] /\
                       find_node (node_id target) (doc st')
                       = Some (prepend av (fst (remove_first is_avatar target)))) \/
           (forall j, j ∈ map node_id (subtree target') -> (j < fresh st)%nat ->
                      j ∈ map node_id (subtree (fst (remove_first is_avatar target))))) ->
        forall old, querySelector is_avatar target = Some old ->
                    node_id old ∉ map node_id (subtree target')).
      { intros st' target' Hf Hcases old Hq.
        destruct (stale_avatar_gone st target old Hw Hfind Hq) as [Hout Hlt].
        destruct (Hcases old Hq) as [E|[(av & Hav & E)|Hsub]].
        - rewrite Hf in E. injection E as ->. exact Hout.
        - rewrite Hf in E. injection E as ->. intros Hx.
          apply ids_prepend in Hx as [Hx|Hx]; [|contradiction].
          rewrite Hav in Hx.
          apply elem_of_cons in Hx as [?|Hx]; [lia|].
          apply elem_of_cons in Hx as [?|Hx]; [lia | inversion Hx].
        - intros Hx. apply Hout, Hsub; assumption. }
      intros st' [[u ->]|(now & Hne & Hserv & ->)].
      * destruct (injectAvatar_reconciles el n u st e ch Hd Hch Hctx)
          as [(target' & Hf & Hlen & _) _].
        fold ctx target in Hf, Hlen. exists target'. split; [exact Hf|].
        split; [|split; [exact Hlen | lia]].
        apply (Hgone _ _ Hf). intros old Hq.
        destruct (injectAvatar_stale el n u st e ch old Hd Hch Hctx Hq (Hstale old Hq))
          as [E|E]; [left; exact E | right; left; exact E].
      * destruct (processUserElement_reconciles now el st e ch n Hd Hch Hn)
          as [(target' & Hf & Hlen & _) _].
        fold ctx target in Hf, Hlen. exists target'. split; [exact Hf|].
        split; [|split; [exact Hlen | lia]].
        apply (Hgone _ _ Hf). intros old Hq.
        pose proof (processUserElement_stale now el st e ch n old Hch Hn Hne Hserv
                      Hctx Hq (Hstale old Hq)) as Hdoc.
        cbv zeta in Hdoc. fold ctx target in Hdoc.
        set (st1 := set_doc (update_node (node_id target)
                               (fun m => fst (remove_first is_avatar m)) (doc st)) st)
          in *.
        assert (Hf1 : find_node (node_id target) (doc st1)
                      = Some (fst (remove_first is_avatar target))).
        { subst st1. cbn [doc set_doc].
          rewrite find_node_update by (intros; apply node_id_remove_first).
          rewrite Hfind. reflexivity. }
        destruct Hdoc as [E|(u & E)].
        -- left. rewrite E. exact Hf1.
        -- right. right. intros j Hj Hlt.
           rewrite E in Hf.
           apply (ids_after_inject el n u st1 _ _ _
                    (well_identified_detach st _ Hw) Hf1 Hf j Hj Hlt).
Qed.

End Reconciliation.

(* ================================================================== *)
(** * Pages whose injection targets lie apart *)
(* ================================================================== *)

Section OrderlyPages.
Import Dom Avatars.

Lemma is_user_info a b : info a = info b -> is_user a = is_user b.
Proof.
  intros H. unfold is_user.
  rewrite (has_class_info "user" a b H), (getAttribute_info "data-name" a b H).
  reflexivity.
Qed.

(** *** Name elements before and after subtrees were detached *)

Lemma chain_up P big small el ch' :
  pruned_by P big small -> distinct_ids big ->
  chain_to el small = Some ch' ->
  exists ch, chain_to el big = Some ch /\ same_chain ch ch'.
Proof.
  intros Hp Hd Hch'. pose proof (pruned_by_pruned _ _ _ Hp) as Hpr.
  assert (Hin : el ∈ map node_id (subtree big)).
  { eapply elem_of_sublist; [eapply chain_to_elem, Hch'|].
    apply pruned_ids_sublist, Hpr. }
  destruct (chain_to el big) as [ch|] eqn:Hch.
  - exists ch. split; [reflexivity|].
    destruct (chain_pruned el big small ch Hpr Hd Hch) as [E|(ch2 & E & Hsame)];
      [congruence|].
    rewrite Hch' in E. injection E as <-. exact Hsame.
  - apply chain_to_None in Hch. contradiction.
Qed.

Lemma chain_down P big small el ch :
  pruned_by P big small -> distinct_ids big ->
  chain_to el big = Some ch -> el ∈ map node_id (subtree small) ->
  exists ch', chain_to el small = Some ch' /\ same_chain ch ch'.
Proof.
  intros Hp Hd Hch Hin. pose proof (pruned_by_pruned _ _ _ Hp) as Hpr.
  destruct (chain_pruned el big small ch Hpr Hd Hch) as [E|(ch2 & E & Hsame)].
  - apply chain_to_None in E. contradiction.
  - exists ch2. split; assumption.
Qed.

Lemma same_chain_head_user e ch e' ch' :
  same_chain (e :: ch) (e' :: ch') -> is_user e' = is_user e.
Proof.
  intros H. inversion H as [|? ? ? ? [Hi _] _]; subst. apply is_user_info, Hi.
Qed.

Lemma same_chain_shape ch ch' :
  same_chain ch ch' -> (ch = [] /\ ch' = []) \/
  exists e r e' r', ch = e :: r /\ ch' = e' :: r'.
Proof. intros [|e e' r r' _ _]; [left; split; reflexivity | right; eauto 8]. Qed.

(** A name element of the smaller page is one of the larger page, and
    its target there is the same element. *)
Lemma name_target_up P big small el T' :
  pruned_by P big small -> distinct_ids big ->
  name_target small el T' ->
  exists T, name_target big el T /\ pruned_by P T T'.
Proof.
  intros Hp Hd [(e' & ch' & Hch' & Hu) HT'].
  destruct (chain_up P big small el _ Hp Hd Hch') as (ch & Hch & Hsame).
  destruct (same_chain_shape _ _ Hsame) as [[_ ?]|(e & r & e2 & r2 & -> & E)];
    [discriminate|].
  injection E as <- <-.
  pose proof (targets_of_same_element P big small el _ _ Hp Hd Hch Hch') as Ht.
  rewrite HT' in Ht.
  destruct (injection_target el big) as [T|] eqn:HT; [|contradiction].
  exists T. split; [|exact Ht]. split; [|exact HT].
  exists e, r. split; [exact Hch|].
  rewrite <- (same_chain_head_user _ _ _ _ Hsame). exact Hu.
Qed.

(** A name element of the larger page that is still in the smaller one
    is a name element there, with the same target. *)
Lemma name_target_down P big small el T :
  pruned_by P big small -> distinct_ids big ->
  name_target big el T -> el ∈ map node_id (subtree small) ->
  exists T', name_target small el T' /\ pruned_by P T T'.
Proof.
  intros Hp Hd [(e & ch & Hch & Hu) HT] Hin.
  destruct (chain_down P big small el _ Hp Hd Hch Hin) as (ch' & Hch' & Hsame).
  destruct (same_chain_shape _ _ Hsame) as [[? _]|(e1 & r & e' & r' & E & ->)];
    [discriminate|].
  injection E as <- <-.
  pose proof (targets_of_same_element P big small el _ _ Hp Hd Hch Hch') as Ht.
  rewrite HT in Ht.
  destruct (injection_target el small) as [T'|] eqn:HT'; [|contradiction].
  exists T'. split; [|exact Ht]. split; [|exact HT'].
  exists e', r'. split; [exact Hch'|].
  rewrite (same_chain_head_user _ _ _ _ Hsame). exact Hu.
Qed.

Lemma name_or_absent_up P big small el :
  pruned_by P big small -> distinct_ids big ->
  name_or_absent big el -> name_or_absent small el.
Proof.
  intros Hp Hd Hn e' ch' Hch'.
  destruct (chain_up P big small el _ Hp Hd Hch') as (ch & Hch & Hsame).
  destruct (same_chain_shape _ _ Hsame) as [[_ ?]|(e & r & e2 & r2 & -> & E)];
    [discriminate|].
  injection E as <- <-.
  rewrite (same_chain_head_user _ _ _ _ Hsame). eapply Hn, Hch.
Qed.

Lemma name_or_absent_down P big small el :
  pruned_by P big small -> distinct_ids big ->
  name_or_absent small el ->
  (el ∈ map node_id (subtree big) -> el ∈ map node_id (subtree small)) ->
  name_or_absent big el.
Proof.
  intros Hp Hd Hn Hin e ch Hch.
  destruct (chain_down P big small el _ Hp Hd Hch (Hin (chain_to_elem _ _ _ Hch)))
    as (ch' & Hch' & Hsame).
  destruct (same_chain_shape _ _ Hsame) as [[? _]|(e1 & r & e' & r' & E & ->)];
    [discriminate|].
  injection E as <- <-.
  rewrite <- (same_chain_head_user _ _ _ _ Hsame). eapply Hn, Hch'.
Qed.

(** *** Counting avatars *)

Lemma avatars_pruned_both :
  (forall d d', pruned d d' ->
     (length (filter is_avatar (subtree d')) <= length (filter is_avatar (subtree d)))%nat) /\
  (forall ks ks', pruned_kids ks ks' ->
     (length (filter is_avatar (flat_map subtree ks'))
      <= length (filter is_avatar (flat_map subtree ks)))%nat).
Proof.
  apply pruned_mutind.
  - intros i t c a ks ks' _ IH. rewrite !subtree_Node, !filter_cons.
    rewrite (is_avatar_info (Node i t c a ks') (Node i t c a ks) eq_refl).
    destruct (decide (is_avatar (Node i t c a ks))); cbn [length]; lia.
  - reflexivity.
  - intros k ks ks' _ IH. rewrite flat_map_cons, filter_app, length_app. lia.
  - intros k k' ks ks' _ IHk _ IHks.
    rewrite !flat_map_cons, !filter_app, !length_app. lia.
Qed.

Lemma avatars_of_pruned T T' :
  pruned T T' -> (length (avatars_of T') <= length (avatars_of T))%nat.
Proof.
  intros H. destruct H as [i t c a ks ks' Hks]. unfold avatars_of.
  rewrite !descendants_Node. apply (proj2 avatars_pruned_both), Hks.
Qed.

Lemma descendants_ids_pruned T T' :
  pruned T T' ->
  map node_id (descendants T') `sublist_of` map node_id (descendants T).
Proof.
  intros H. destruct H as [i t c a ks ks' Hks].
  rewrite !descendants_Node. apply pruned_kids_ids_sublist, Hks.
Qed.

(** Detaching subtrees keeps the targets apart, and gives no target
    more avatars. *)
Lemma detach_keeps_apart P d d1 :
  pruned_by P d d1 -> distinct_ids d ->
  (targets_apart d -> targets_apart d1) /\
  (one_avatar_each d -> one_avatar_each d1).
Proof.
  intros Hp Hd. split.
  - intros Ha el1 T1' el2 T2' H1 H2 Hne.
    destruct (name_target_up P d d1 el1 T1' Hp Hd H1) as (T1 & HT1 & Hp1).
    destruct (name_target_up P d d1 el2 T2' Hp Hd H2) as (T2 & HT2 & Hp2).
    pose proof (node_id_info _ _ (pruned_by_info _ _ _ Hp1)) as E1.
    pose proof (node_id_info _ _ (pruned_by_info _ _ _ Hp2)) as E2.
    rewrite E1, E2 in Hne. rewrite E1. intros Hin.
    apply (Ha el1 T1 el2 T2 HT1 HT2 Hne).
    eapply elem_of_sublist; [exact Hin|].
    apply descendants_ids_pruned, (pruned_by_pruned P), Hp2.
  - intros Ho el T' H.
    destruct (name_target_up P d d1 el T' Hp Hd H) as (T & HT & HpT).
    pose proof (avatars_of_pruned _ _ (pruned_by_pruned _ _ _ HpT)).
    pose proof (Ho el T HT). lia.
Qed.

(** *** A new avatar in an element that holds none *)

Lemma elem_grown_both av :
  (forall d d', pruned_by (eq av) d d' -> forall m,
     m ∈ subtree d ->
     m ∈ subtree av \/ node_id m ∈ map node_id (subtree d')) /\
  (forall ks ks', pruned_kids_by (eq av) ks ks' -> forall m,
     m ∈ flat_map subtree ks ->
     m ∈ subtree av \/ node_id m ∈ map node_id (flat_map subtree ks')).
Proof.
  apply pruned_by_mutind.
  - intros i t c a ks ks' _ IH m. rewrite !subtree_Node. cbn [map node_id].
    intros Hm. apply elem_of_cons in Hm as [->|Hm];
      [right; apply list_elem_of_here|].
    destruct (IH m Hm) as [H|H]; [left; exact H | right; apply list_elem_of_further, H].
  - intros m Hm. inversion Hm.
  - intros k ks ks' <- _ IH m. rewrite flat_map_cons. intros Hm.
    apply elem_of_app in Hm as [Hm|Hm]; [left; exact Hm | apply IH, Hm].
  - intros k k' ks ks' _ IHk _ IHks m. rewrite !flat_map_cons, !map_app. intros Hm.
    apply elem_of_app in Hm as [Hm|Hm].
    + destruct (IHk m Hm) as [H|H]; [left; exact H | right; apply elem_of_app; left; exact H].
    + destruct (IHks m Hm) as [H|H]; [left; exact H | right; apply elem_of_app; right; exact H].
Qed.

Lemma avatar_markup_not_user i ctx n u m :
  m ∈ subtree (avatar_markup i ctx n u) -> is_user m = false.
Proof.
  intros Hm.
  assert (E : subtree (avatar_markup i ctx n u)
              = [avatar_markup i ctx n u;
                 Node (S i) "img" ["tl-avatar-img"]
                   [("src", u); ("alt", n); ("loading", "lazy")] []])
    by reflexivity.
  rewrite E in Hm.
  apply elem_of_cons in Hm as [->|Hm]; [destruct ctx; reflexivity|].
  apply elem_of_cons in Hm as [->|Hm]; [reflexivity | inversion Hm].
Qed.

(** An element that does not hold the element [t] is the same after
    something went into [t]. *)
Lemma kept_by_prepend t av T : forall d,
  T ∈ subtree d -> t ∉ map node_id (subtree T) ->
  T ∈ subtree (update_node t (prepend av) d).
Proof.
  induction d as [i tg c a kids IH] using node_ind2. intros HT Ht.
  rewrite update_node_Node. destruct (Nat.eqb_spec i t) as [E|Hne].
  - rewrite subtree_Node in HT. apply elem_of_cons in HT as [->|HT].
    + exfalso. apply Ht. rewrite subtree_Node. cbn [map node_id]. rewrite E.
      apply list_elem_of_here.
    + unfold prepend. rewrite subtree_Node, flat_map_cons.
      apply list_elem_of_further, elem_of_app. right. exact HT.
  - rewrite subtree_Node in HT. apply elem_of_cons in HT as [->|HT].
    + pose proof (update_node_absent t (prepend av) _ Ht) as Hsame.
      rewrite update_node_Node in Hsame.
      pose proof (proj2 (Nat.eqb_neq i t) Hne) as Hb. rewrite Hb in Hsame.
      rewrite Hsame. unfold subtree. apply list_elem_of_here.
    + rewrite subtree_Node. apply list_elem_of_further.
      induction IH as [|k ks Hk _ IHks]; [inversion HT|].
      rewrite flat_map_cons in HT. cbn [map]. rewrite flat_map_cons.
      apply elem_of_app in HT as [HT|HT]; apply elem_of_app;
        [left; apply Hk; assumption | right; apply IHks, HT].
Qed.

Lemma not_in_subtree t T :
  node_id T <> t -> t ∉ map node_id (descendants T) -> t ∉ map node_id (subtree T).
Proof.
  intros Hne Hn. unfold subtree. cbn [map]. intros H.
  apply elem_of_cons in H as [?|H]; [congruence | contradiction].
Qed.

(** The name elements after a new avatar went into [t], which holds
    [T1]: they were name elements before, and the target of each is the
    same but for the new avatar. *)
Lemma target_after_attach st t T1 c n u el T' :
  well_identified st ->
  find_node t (doc st) = Some T1 ->
  (forall el T, name_target (doc st) el T -> node_id T <> t ->
                t ∉ map node_id (descendants T)) ->
  name_target (doc (attached st t c n u)) el T' ->
  exists T,
    name_target (doc st) el T /\ node_id T' = node_id T /\
    ((T = T1 /\ T' = prepend (avatar_markup (fresh st) c n u) T1) \/
     (node_id T <> t /\ T' = T)).
Proof.
  intros Hw HT1 Hapart Hname.
  destruct (edit_facts st (attached st t c n u) (doc st) t T1 c n u Hw
              (pruned_by_refl _ _) HT1 eq_refl eq_refl)
    as (Hw' & Hd & Hg & Hfind & Hold & _).
  destruct Hw' as [Hd' _].
  assert (Hin : el ∈ map node_id (subtree (doc st))).
  { destruct Hname as [(e' & ch' & Hch' & Hu) _].
    destruct (chain_to_Some _ _ _ Hch') as [(e0 & r0 & E & Hid) Hall].
    injection E as <- <-. apply Forall_cons in Hall as [He' _].
    destruct (proj1 (elem_grown_both _) _ _ Hg e' He') as [Hav|Hold'].
    - rewrite (avatar_markup_not_user _ _ _ _ _ Hav) in Hu. discriminate.
    - rewrite Hid in Hold'. exact Hold'. }
  destruct (name_target_down _ _ _ el T' Hg Hd' Hname Hin) as (T & HT & Hp).
  exists T. split; [exact HT|].
  pose proof (node_id_info _ _ (pruned_by_info _ _ _ Hp)) as Eid.
  split; [symmetry; exact Eid|].
  pose proof (injection_target_found _ _ _ Hd' (proj2 Hname)) as HfT'.
  pose proof (injection_target_found _ _ _ Hd (proj2 HT)) as HfT.
  destruct (Nat.eq_dec (node_id T) t) as [E|Hne].
  - left. rewrite E in HfT. rewrite HT1 in HfT. injection HfT as ->.
    rewrite <- Eid, E, Hfind in HfT'. injection HfT' as <-. split; reflexivity.
  - right. split; [exact Hne|].
    pose proof (kept_by_prepend t (avatar_markup (fresh st) c n u) T (doc st)
                  (find_node_elem _ _ _ HfT)
                  (not_in_subtree _ _ Hne (Hapart el T HT Hne))) as HTin.
    pose proof (find_node_distinct _ _ Hd' HTin) as HfT2.
    rewrite <- Eid in HfT'. cbn [attached doc set_fresh set_doc] in HfT', HfT2.
    rewrite HfT2 in HfT'. injection HfT' as <-. reflexivity.
Qed.

(** A new avatar in an element that holds none, and that no other
    target holds, keeps the page orderly. *)
Lemma attach_keeps_orderly st t T1 c n u :
  orderly st ->
  find_node t (doc st) = Some T1 -> avatars_of T1 = [] ->
  (forall el T, name_target (doc st) el T -> node_id T <> t ->
                t ∉ map node_id (descendants T)) ->
  orderly (attached st t c n u).
Proof.
  intros (Hw & Ha & Ho) HT1 Hnone Hapart.
  destruct (edit_facts st (attached st t c n u) (doc st) t T1 c n u Hw
              (pruned_by_refl _ _) HT1 eq_refl eq_refl)
    as (Hw' & Hd & _).
  split; [exact Hw'|]. split.
  - intros el1 T1' el2 T2' H1 H2 Hne.
    destruct (target_after_attach st t T1 c n u el1 T1' Hw HT1 Hapart H1)
      as (A & HA & EA & _).
    destruct (target_after_attach st t T1 c n u el2 T2' Hw HT1 Hapart H2)
      as (B & HB & EB & HcaseB).
    rewrite EA, EB in Hne. rewrite EA.
    pose proof (Ha el1 A el2 B HA HB Hne) as Hout.
    destruct HcaseB as [[-> ->]|[_ ->]]; [|exact Hout].
    rewrite descendants_prepend, map_app, ids_avatar_markup. intros Hin.
    apply elem_of_app in Hin as [Hin|Hin]; [|contradiction].
    assert (Hlt : (node_id A < fresh st)%nat).
    { eapply ids_below_elem; [exact (proj2 Hw)|].
      pose proof (injection_target_found _ _ _ Hd (proj2 HA)) as HfA.
      apply find_node_elem in HfA. apply list_elem_of_In, in_map.
      apply list_elem_of_In, HfA. }
    apply elem_of_cons in Hin as [?|Hin]; [lia|].
    apply elem_of_cons in Hin as [?|Hin]; [lia | inversion Hin].
  - intros el T' H.
    destruct (target_after_attach st t T1 c n u el T' Hw HT1 Hapart H)
      as (A & HA & _ & [[-> ->]|[_ ->]]); [|exact (Ho el A HA)].
    unfold avatars_of. rewrite descendants_prepend, filter_app, length_app.
    fold (avatars_of T1). rewrite Hnone. cbn [length].
    destruct c; vm_compute; lia.
Qed.

End OrderlyPages.

(* ================================================================== *)
(** * What the script does to an orderly page *)
(* ================================================================== *)

Section OrderlySteps.
Import Dom Avatars.

Lemma drain_fresh q st : fresh (drain q st) = fresh st.
Proof.
  revert st. induction q as [|it q IH]; intros st; simpl; [reflexivity|].
  destruct (activeCount st <? MAX_CONCURRENT); [|reflexivity].
  rewrite IH. reflexivity.
Qed.

Lemma enqueue_fresh n st : fresh (enqueue n st) = fresh st.
Proof.
  unfold enqueue. destruct (cache_get _ _); try reflexivity.
  destruct (queued _ _); [reflexivity|].
  unfold drainQueue. rewrite drain_fresh. reflexivity.
Qed.

Lemma orderly_same st st' :
  doc st' = doc st -> fresh st' = fresh st -> orderly st -> orderly st'.
Proof.
  unfold orderly, well_identified. intros -> ->. exact (fun H => H).
Qed.

Lemma carried_over_refl st : carried_over st st.
Proof. split; [lia | auto]. Qed.

Lemma carried_over_same st st' :
  doc st' = doc st -> fresh st' = fresh st -> carried_over st st'.
Proof. unfold carried_over. intros -> ->. split; [lia | auto]. Qed.

Lemma carried_over_trans a b c :
  carried_over a b -> carried_over b c -> carried_over a c.
Proof.
  intros [H1 K1] [H2 K2]. split; [lia|].
  intros el Hlt Hn. apply K2; [lia|]. apply K1; assumption.
Qed.

(** Detaching the first avatar of the element [t]. *)
Lemma detach_step st t :
  orderly st ->
  let st1 := set_doc (update_node t (fun m => fst (remove_first is_avatar m))
                        (doc st)) st in
  orderly st1 /\ carried_over st st1 /\
  (forall el T, name_target (doc st1) el T ->
     exists T0, name_target (doc st) el T0 /\ node_id T0 = node_id T /\
                map node_id (descendants T) `sublist_of` map node_id (descendants T0)).
Proof.
  intros (Hw & Ha & Ho) st1.
  assert (Hp : pruned_by (fun _ => True) (doc st) (doc st1)).
  { apply (proj1 pruned_to_by_both). cbn [doc st1 set_doc].
    apply update_node_pruned. intros m. apply remove_first_pruned. }
  destruct (detach_keeps_apart _ _ _ Hp (proj1 Hw)) as [Ha1 Ho1].
  split; [|split].
  - split; [apply well_identified_detach, Hw|]. split; [apply Ha1, Ha | apply Ho1, Ho].
  - split; [cbn; lia|]. intros el _ Hn.
    eapply name_or_absent_up; [exact Hp | exact (proj1 Hw) | exact Hn].
  - intros el T HT.
    destruct (name_target_up _ _ _ el T Hp (proj1 Hw) HT) as (T0 & HT0 & HpT).
    exists T0. split; [exact HT0|]. split.
    + symmetry. apply node_id_info, (pruned_by_info _ _ _ HpT).
    + apply descendants_ids_pruned, (pruned_by_pruned _ _ _ HpT).
Qed.

(** A new avatar in front of what the element [t] holds. *)
Lemma attach_step st t T1 c n u :
  orderly st ->
  find_node t (doc st) = Some T1 -> avatars_of T1 = [] ->
  (forall el T, name_target (doc st) el T -> node_id T <> t ->
                t ∉ map node_id (descendants T)) ->
  orderly (attached st t c n u) /\ carried_over st (attached st t c n u).
Proof.
  intros Ho HT1 Hnone Hapart.
  split; [apply (attach_keeps_orderly st t T1); assumption|].
  destruct (edit_facts st (attached st t c n u) (doc st) t T1 c n u (proj1 Ho)
              (pruned_by_refl _ _) HT1 eq_refl eq_refl)
    as (Hw' & Hd & Hg & _ & Hold & _).
  split; [cbn; lia|]. intros el Hlt Hn.
  eapply name_or_absent_down; [exact Hg | exact (proj1 Hw') | exact Hn|].
  intros Hin. apply Hold; assumption.
Qed.

(** The end of [injectAvatar], from the making of the new element on. *)
Lemma create_step st t T1 c n u :
  orderly st ->
  find_node t (doc st) = Some T1 -> avatars_of T1 = [] ->
  (forall el T, name_target (doc st) el T -> node_id T <> t ->
                t ∉ map node_id (descendants T)) ->
  let r := match createAvatarEl (fresh st) n u with
           | None => Throw st
           | Some avatar =>
               Normal
                 (set_fresh (2 + fresh st)
                    (set_doc (update_node t (prepend (context_class c avatar))
                                (doc st)) st))
           end in
  orderly (outcome_of r) /\ carried_over st (outcome_of r).
Proof.
  intros Ho HT1 Hnone Hapart r. subst r.
  destruct u as [| | |s| |];
    try (cbn [createAvatarEl outcome_of]; split; [exact Ho | apply carried_over_refl]).
  pose proof (createAvatarEl_markup (fresh st) c n s) as Hm.
  destruct (createAvatarEl (fresh st) n (JStr s)) as [av|]; [|discriminate Hm].
  cbn [fmap option_fmap option_map] in Hm. injection Hm as ->.
  cbn [outcome_of]. exact (attach_step st t T1 c n s Ho HT1 Hnone Hapart).
Qed.

(** What [injectAvatar] and [processUserElement] find at a name
    element that has a context. *)
Lemma name_element_facts st el e ch :
  orderly st -> name_or_absent (doc st) el ->
  chain_to el (doc st) = Some (e :: ch) -> getContext (e :: ch) <> Other ->
  let T0 := target_of (getContext (e :: ch)) (e :: ch) e in
  name_target (doc st) el T0 /\
  find_node (node_id T0) (doc st) = Some T0 /\
  (length (avatars_of T0) <= 1)%nat /\
  (el < fresh st)%nat /\
  (forall el2 T, name_target (doc st) el2 T -> node_id T <> node_id T0 ->
                 node_id T0 ∉ map node_id (descendants T)).
Proof.
  intros (Hw & Ha & Ho) Hn Hch Hctx T0.
  assert (HT0 : name_target (doc st) el T0).
  { split; [exists e, ch; split; [exact Hch | eapply Hn, Hch]|].
    apply injection_target_intro; assumption. }
  split; [exact HT0|]. split; [|split; [|split]].
  - apply target_found with (el := el); [exact (proj1 Hw) | exact Hch].
  - exact (Ho el T0 HT0).
  - eapply ids_below_elem; [exact (proj2 Hw) | eapply chain_to_elem, Hch].
  - intros el2 T HT Hne. apply (Ha el T0 el2 T HT0 HT). congruence.
Qed.

(** The state after the first avatar of the target was detached. *)
Lemma detached_target st T0 :
  orderly st ->
  find_node (node_id T0) (doc st) = Some T0 ->
  (length (avatars_of T0) <= 1)%nat ->
  (forall el2 T, name_target (doc st) el2 T -> node_id T <> node_id T0 ->
                 node_id T0 ∉ map node_id (descendants T)) ->
  let st1 := set_doc (update_node (node_id T0)
                        (fun m => fst (remove_first is_avatar m)) (doc st)) st in
  orderly st1 /\ carried_over st st1 /\
  find_node (node_id T0) (doc st1) = Some (fst (remove_first is_avatar T0)) /\
  avatars_of (fst (remove_first is_avatar T0)) = [] /\
  (forall el T, name_target (doc st1) el T -> node_id T <> node_id T0 ->
                node_id T0 ∉ map node_id (descendants T)).
Proof.
  intros Ho Hfind Hone Hapart st1.
  destruct (detach_step st (node_id T0) Ho) as (Ho1 & Hc1 & Hup). fold st1 in Ho1, Hc1, Hup.
  split; [exact Ho1|]. split; [exact Hc1|]. split; [|split].
  - cbn [st1 doc set_doc].
    rewrite find_node_update by (intros; apply node_id_remove_first).
    rewrite Hfind. reflexivity.
  - destruct (detach_first T0) as (_ & Hsub & _). cbv zeta in Hsub.
    apply sublist_length in Hsub.
    destruct (avatars_of (fst (remove_first is_avatar T0))) as [|x l]; [reflexivity|].
    destruct (avatars_of T0) as [|y [|z l']]; cbn [tail length] in *; lia.
  - intros el T HT Hne. destruct (Hup el T HT) as (T2 & HT2 & Eid & Hsub).
    intros Hin. apply (Hapart el T2 HT2); [congruence|].
    eapply elem_of_sublist; eassumption.
Qed.

(** [injectAvatar], whatever the URL, keeps an orderly page orderly. *)
Lemma injectAvatar_keeps_orderly el n u st :
  orderly st -> name_or_absent (doc st) el ->
  orderly (outcome_of (injectAvatar el n u st)) /\
  carried_over st (outcome_of (injectAvatar el n u st)).
Proof.
  intros Ho Hn.
  assert (Hstay : orderly st /\ carried_over st st)
    by (split; [exact Ho | apply carried_over_refl]).
  unfold injectAvatar.
  destruct (chain_to el (doc st)) as [[|e ch]|] eqn:Hch; try exact Hstay.
  pose proof (name_element_facts st el e ch Ho Hn Hch) as Hfacts.
  destruct (getContext (e :: ch)) eqn:Ectx; try exact Hstay.
  all: specialize (Hfacts ltac:(discriminate)); cbv zeta in Hfacts.
  all: destruct Hfacts as (HT0 & Hfind & Hone & Hlt & Hapart).
  all: match goal with
       | |- context [target_of ?c _ _] => set (T0 := target_of c (e :: ch) e) in *
       end.
  all: destruct (querySelector is_avatar T0) as [o|] eqn:Hq.
  all: try (destruct (same_nick (getAttribute "data-nick" o) n); [exact Hstay|]).
  all: try (destruct (detached_target st T0 Ho Hfind Hone Hapart)
              as (Ho1 & Hc1 & Hf1 & Hnone1 & Hapart1);
            match goal with
            | |- context [createAvatarEl _ _ _] =>
                match goal with
                | |- context [context_class ?c _] =>
                    destruct (create_step _ (node_id T0) _ c n u Ho1 Hf1 Hnone1 Hapart1)
                      as [Hres Hcar]
                end
            end;
            split; [exact Hres | exact (carried_over_trans _ _ _ Hc1 Hcar)]).
  all: match goal with
       | |- context [context_class ?c _] =>
           exact (create_step st (node_id T0) T0 c n u Ho Hfind
                    (querySelector_None_avatars _ Hq) Hapart)
       end.
Qed.

(** The end of [processUserElement], from the look at the cache on. *)
Lemma cached_step st el n k now (cached : cache_value) :
  orderly st -> name_or_absent (doc st) el ->
  let r := match cached with
           | Own e =>
               if truthy (url e) then injectAvatar el n (url e) st
               else if now - ts e <? NEGATIVE_TTL then Normal st
               else Normal (enqueue n (set_cache (delete k (cache st)) st))
           | Inherited => Normal (enqueue n st)
           | Undefined => Normal (enqueue n st)
           end in
  orderly (outcome_of r) /\ carried_over st (outcome_of r).
Proof.
  intros Ho Hn r. subst r.
  assert (Hq : forall st2, doc st2 = doc st -> fresh st2 = fresh st ->
                 orderly (enqueue n st2) /\ carried_over st (enqueue n st2)).
  { intros st2 Ed Ef. split.
    - apply (orderly_same st); [rewrite enqueue_doc; exact Ed
                               | rewrite enqueue_fresh; exact Ef | exact Ho].
    - apply carried_over_same; [rewrite enqueue_doc; exact Ed
                               | rewrite enqueue_fresh; exact Ef]. }
  destruct cached as [| |e]; cbn [outcome_of]; try (apply Hq; reflexivity).
  destruct (truthy (url e)); [apply injectAvatar_keeps_orderly; assumption|].
  destruct (now - ts e <? NEGATIVE_TTL); cbn [outcome_of].
  - split; [exact Ho | apply carried_over_refl].
  - apply Hq; reflexivity.
Qed.

(** [processUserElement] keeps an orderly page orderly. *)
Lemma processUserElement_keeps_orderly now el st :
  orderly st -> name_or_absent (doc st) el ->
  orderly (outcome_of (processUserElement now el st)) /\
  carried_over st (outcome_of (processUserElement now el st)).
Proof.
  intros Ho Hn.
  assert (Hstay : orderly st /\ carried_over st st)
    by (split; [exact Ho | apply carried_over_refl]).
  unfold processUserElement.
  destruct (chain_to el (doc st)) as [[|e ch]|] eqn:Hch; try exact Hstay.
  destruct (getAttribute "data-name" e) as [n|]; [|exact Hstay].
  destruct (negb (JsString.nonempty n)); [exact Hstay|].
  destruct (isServiceNick n); [exact Hstay|].
  pose proof (name_element_facts st el e ch Ho Hn Hch) as Hfacts.
  destruct (getContext (e :: ch)) eqn:Ectx; try exact Hstay.
  all: specialize (Hfacts ltac:(discriminate)); cbv zeta in Hfacts.
  all: destruct Hfacts as (HT0 & Hfind & Hone & Hlt & Hapart).
  all: match goal with
       | |- context [target_of ?c _ _] => set (T0 := target_of c (e :: ch) e) in *
       end.
  all: destruct (querySelector is_avatar T0) as [o|] eqn:Hq.
  all: try (destruct (same_nick (getAttribute "data-nick" o) n); [exact Hstay|]).
  all: try (destruct (detached_target st T0 Ho Hfind Hone Hapart)
              as (Ho1 & Hc1 & _);
            match goal with
            | |- context [cache_get ?c ?k] =>
                match goal with
                | |- context [injectAvatar _ _ _ ?st1] =>
                    destruct (cached_step st1 el n k now (cache_get c k) Ho1
                                (proj2 Hc1 el Hlt Hn)) as [Hres Hcar]
                end
            end;
            split; [exact Hres | exact (carried_over_trans _ _ _ Hc1 Hcar)]).
  all: match goal with
       | |- context [cache_get ?c ?k] =>
           exact (cached_step st el n k now (cache_get c k) Ho Hn)
       end.
Qed.

(** *** The loops *)

Lemma select_sel (sel : node -> bool) m : forall d inside,
  In m (select_in_chat sel inside d) -> sel m = true.
Proof.
  induction d as [i t c a kids IH] using node_ind2. intros inside.
  rewrite select_in_chat_Node. intros Hm.
  apply in_app_or in Hm as [Hm|Hm].
  - destruct inside; cbn [andb] in Hm; [|inversion Hm].
    destruct (sel (Node i t c a kids)) eqn:E; [|inversion Hm].
    destruct Hm as [<-|[]]. exact E.
  - revert Hm. generalize (inside || match assoc "id" a with
                                     | Some v => String.eqb v "chat"
                                     | None => false
                                     end).
    intros inside'. induction IH as [|k ks Hk _ IHks]; [intros []|].
    rewrite !flat_map_cons. intros Hm.
    apply in_app_or in Hm as [Hm|Hm]; [eapply Hk, Hm | apply IHks, Hm].
Qed.

(** The elements that a selector for name elements matches are name
    elements of the page. *)
Lemma selected_name_elements (sel : node -> bool) st :
  (forall m, sel m = true -> is_user m = true) ->
  well_identified st ->
  Forall (fun el => (el < fresh st)%nat /\ name_or_absent (doc st) el)
    (map node_id (select_in_chat sel false (doc st))).
Proof.
  intros Hsel [Hd Hb]. apply Forall_forall. intros el Hel.
  apply list_elem_of_In, in_map_iff in Hel as (m & <- & Hm).
  pose proof (select_in_subtree sel m _ _ Hm) as Hin.
  pose proof (Hsel m (select_sel sel m _ _ Hm)) as Hu.
  split.
  - eapply ids_below_elem; [exact Hb|]. apply list_elem_of_In, in_map, Hin.
  - intros e ch Hch.
    destruct (chain_to_Some _ _ _ Hch) as [(e0 & r0 & E & Hid) Hall].
    injection E as <- <-. apply Forall_cons in Hall as [He _].
    pose proof (find_node_distinct _ _ Hd He) as H1.
    pose proof (find_node_distinct _ _ Hd (proj2 (list_elem_of_In _ _) Hin)) as H2.
    rewrite Hid, H2 in H1. injection H1 as <-. exact Hu.
Qed.

Lemma carried_list st st' els :
  carried_over st st' ->
  Forall (fun el => (el < fresh st)%nat /\ name_or_absent (doc st) el) els ->
  Forall (fun el => (el < fresh st')%nat /\ name_or_absent (doc st') el) els.
Proof.
  intros [Hle Hc] H. eapply Forall_impl; [exact H|]. cbn beta. intros el [Hlt Hn].
  split; [lia | apply Hc; assumption].
Qed.

Lemma scan_keeps_orderly : forall els clock st,
  orderly st ->
  Forall (fun el => (el < fresh st)%nat /\ name_or_absent (doc st) el) els ->
  orderly (outcome_of (scan clock els st)) /\
  carried_over st (outcome_of (scan clock els st)).
Proof.
  induction els as [|el els IH]; intros clock st Ho Hels; cbn [scan].
  - split; [exact Ho | apply carried_over_refl].
  - apply Forall_cons in Hels as [[_ Hn] Hels].
    destruct (processUserElement_keeps_orderly (clock 0%nat) el st Ho Hn) as [Ho1 Hc1].
    destruct (processUserElement (clock 0%nat) el st) as [st1|st1];
      cbn [outcome_of] in *; [|split; assumption].
    destruct (IH (fun k => clock (S k)) st1 Ho1 (carried_list _ _ _ Hc1 Hels))
      as [Ho2 Hc2].
    split; [exact Ho2 | exact (carried_over_trans _ _ _ Hc1 Hc2)].
Qed.

Lemma injectAll_keeps_orderly n u : forall els st,
  orderly st ->
  Forall (fun el => (el < fresh st)%nat /\ name_or_absent (doc st) el) els ->
  orderly (outcome_of (injectAll els n u st)) /\
  carried_over st (outcome_of (injectAll els n u st)).
Proof.
  induction els as [|el els IH]; intros st Ho Hels; cbn [injectAll].
  - split; [exact Ho | apply carried_over_refl].
  - apply Forall_cons in Hels as [[_ Hn] Hels].
    destruct (injectAvatar_keeps_orderly el n u st Ho Hn) as [Ho1 Hc1].
    destruct (injectAvatar el n u st) as [st1|st1];
      cbn [outcome_of] in *; [|split; assumption].
    destruct (IH st1 Ho1 (carried_list _ _ _ Hc1 Hels)) as [Ho2 Hc2].
    split; [exact Ho2 | exact (carried_over_trans _ _ _ Hc1 Hc2)].
Qed.

Lemma is_user_named_user n m : is_user_named n m = true -> is_user m = true.
Proof.
  unfold is_user_named, is_user. destruct (has_class "user" m); [|discriminate].
  destruct (getAttribute "data-name" m); [reflexivity|].
  cbn. discriminate.
Qed.

Lemma scanAll_keeps_orderly clock st :
  orderly st -> orderly (outcome_of (scanAll clock st)).
Proof.
  intros Ho. unfold scanAll. apply scan_keeps_orderly; [exact Ho|].
  apply selected_name_elements; [auto | exact (proj1 Ho)].
Qed.

Lemma injectAllForNick_keeps_orderly n u st :
  orderly st -> orderly (outcome_of (injectAllForNick n u st)).
Proof.
  intros Ho. unfold injectAllForNick. apply injectAll_keeps_orderly; [exact Ho|].
  apply selected_name_elements; [apply is_user_named_user | exact (proj1 Ho)].
Qed.

Lemma on_data_keeps_orderly it data now st :
  orderly st -> orderly (outcome_of (on_data it data now st)).
Proof.
  intros Ho. unfold on_data.
  destruct (skip_static (url_of_data data)) as [u|]; [|exact Ho].
  destruct (truthy u); [|exact Ho].
  apply injectAllForNick_keeps_orderly. exact Ho.
Qed.

Lemma settle_keeps_orderly it r now st :
  orderly st -> orderly (settle it r now st).
Proof.
  intros Ho. unfold settle.
  destruct r as [|[|] [data|]]; try exact Ho.
  pose proof (on_data_keeps_orderly it data now st Ho) as H.
  destruct (on_data it data now st); exact H.
Qed.

Lemma on_finally_keeps_orderly st : orderly st -> orderly (on_finally st).
Proof.
  intros Ho. unfold on_finally, drainQueue.
  eapply orderly_same; [| |exact Ho].
  - rewrite drain_doc. reflexivity.
  - rewrite drain_fresh. reflexivity.
Qed.

(** Whatever the script does to an orderly page gives an orderly
    page. *)
Lemma script_keeps_orderly st st' :
  orderly st -> script_result st st' -> orderly st'.
Proof.
  intros Ho Hr. destruct Hr as [clock|it r now|it data now| |el n u Hn|now el Hn].
  - apply scanAll_keeps_orderly, Ho.
  - apply settle_keeps_orderly, Ho.
  - apply on_data_keeps_orderly, Ho.
  - apply on_finally_keeps_orderly, Ho.
  - apply injectAvatar_keeps_orderly; assumption.
  - apply processUserElement_keeps_orderly; assumption.
Qed.

End OrderlySteps.

(* ================================================================== *)
(** * C6: reconciliation *)
(* ================================================================== *)

Section ReconciliationInvariant.
Import Dom Avatars.

Lemma step_keeps_orderly st st' :
  orderly st -> step st st' ->
  orderly st' \/ exists d', host_render (doc st) d' /\ st' = set_doc d' st.
Proof.
  intros Ho Hs. destruct Hs as [clock st|i it data now st st' _ Hrun|i it r now st _
                               |j it st _|d' st Hh].
  - left. apply scanAll_keeps_orderly, Ho.
  - left. pose proof (on_data_keeps_orderly it data now st Ho) as H.
    rewrite Hrun in H. exact H.
  - left. eapply orderly_same; [| |apply (settle_keeps_orderly it r now st Ho)];
      reflexivity.
  - left. apply on_finally_keeps_orderly.
    eapply orderly_same; [| |exact Ho]; reflexivity.
  - right. exists d'. split; [exact Hh | reflexivity].
Qed.

(** C6, as the script has it, on a page whose elements are told apart.
    At most one avatar per injection target is kept, not established,
    and on pages whose targets do not lie inside one another: if no
    injection target of the page lies inside another one and each
    holds at most one avatar element, the same is true after a scan,
    after the callbacks of a lookup, after [injectAvatar] and after
    [processUserElement] on a name element, and after every step of a
    run but a render of the host application.  For a name element [el]
    with the nickname [n] and a context, whose injection target is
    [target], reconciliation is idempotent: when the target shows an
    avatar for [n], [injectAvatar] and [processUserElement] return with
    the state as it was.  Else, the avatar that the target shows, one
    for another nickname, is detached before anything goes in: after
    [injectAvatar], and after [processUserElement] for a nickname that
    is not empty and no service nickname, it is no longer in the
    target; [injectAvatar] with a string for the URL then puts the new
    avatar in front of what is left. *)
Theorem reconciliation_keeps_at_most_one_avatar st :
  well_identified st ->
  (targets_apart (doc st) -> one_avatar_each (doc st) ->
   (forall st', script_result st st' ->
      well_identified st' /\ targets_apart (doc st') /\ one_avatar_each (doc st')) /\
   (forall st', step st st' ->
      (well_identified st' /\ targets_apart (doc st') /\ one_avatar_each (doc st')) \/
      exists d', host_render (doc st) d' /\ st' = set_doc d' st)) /\
  (forall el e ch n,
     chain_to el (doc st) = Some (e :: ch) ->
     getContext (e :: ch) <> Other ->
     getAttribute "data-name" e = Some n ->
     let ctx := getContext (e :: ch) in
     let target := target_of ctx (e :: ch) e in
     (shows n target ->
      (forall u, injectAvatar el n u st = Normal st) /\
      (forall now, processUserElement now el st = Normal st)) /\
     (~ shows n target ->
      (forall s, exists st',
         injectAvatar el n (JStr s) st = Normal st' /\
         find_node (node_id target) (doc st')
         = Some (prepend (avatar_markup (fresh st) ctx n s)
                   (fst (remove_first is_avatar target)))) /\
      (forall st',
         (exists u, st' = outcome_of (injectAvatar el n u st)) \/
         (exists now, JsString.nonempty n = true /\ isServiceNick n = false /\
                      st' = outcome_of (processUserElement now el st)) ->
         exists target',
           find_node (node_id target) (doc st') = Some target' /\
           (forall old, querySelector is_avatar target = Some old ->
                        node_id old ∉ map node_id (subtree target')) /\
           (length (avatars_of target') <= Nat.max 1 (length (avatars_of target)))%nat /\
           ((length (avatars_of target) <= 1)%nat ->
            (length (avatars_of target') <= 1)%nat)))).
Proof.
  intros Hw. split.
  - intros Ha Ho.
    assert (Hord : orderly st) by (split; [exact Hw | split; assumption]).
    split; intros st' Hrun.
    + exact (script_keeps_orderly st st' Hord Hrun).
    + exact (step_keeps_orderly st st' Hord Hrun).
  - intros el e ch n Hch Hctx Hname.
    exact (reconciliation_at_element st el e ch n Hw Hch Hctx Hname).
Qed.

End ReconciliationInvariant.

(* ================================================================== *)
(** * The sample pages, once more *)
(* ================================================================== *)

Section SamplePages.
Import Dom Avatars.

(** *** The injection targets of a page, listed *)

Lemma name_target_listed d el T : name_target d el T -> T ∈ name_targets d.
Proof.
  intros [(e & ch & Hch & Hu) HT].
  destruct (chain_to_Some _ _ _ Hch) as [(e0 & r0 & E & Hid) Hall].
  injection E as <- <-. apply Forall_cons in Hall as [He _].
  unfold name_targets. apply list_elem_of_omap. exists e. split; [exact He|].
  rewrite Hu, Hid. exact HT.
Qed.

Lemma targets_apart_listed d : targets_apart_in (name_targets d) -> targets_apart d.
Proof.
  unfold targets_apart_in. rewrite Forall_forall.
  intros H el1 T1 el2 T2 H1 H2 Hne.
  pose proof (H T1 (name_target_listed _ _ _ H1)) as H'.
  rewrite Forall_forall in H'.
  destruct (H' T2 (name_target_listed _ _ _ H2)) as [E|Hout];
    [contradiction | exact Hout].
Qed.

Lemma one_avatar_listed d : one_avatar_in (name_targets d) -> one_avatar_each d.
Proof.
  unfold one_avatar_in. rewrite Forall_forall.
  intros H el T HT. apply H, (name_target_listed _ _ _ HT).
Qed.

Lemma stale_state_well_identified : well_identified stale_state.
Proof.
  split.
  - unfold distinct_ids.
    apply (bool_decide_unpack (NoDup (map node_id (subtree (doc stale_state))))).
    vm_compute. exact I.
  - unfold ids_below.
    apply (bool_decide_unpack
             (Forall (fun i => (i < fresh stale_state)%nat)
                (map node_id (subtree (doc stale_state))))).
    vm_compute. exact I.
Qed.

(** C6, the first half read to the letter, does not hold: on the
    nested page, where the target of alice, the paragraph of the whois
    reply, holds the nick list with bob, the scan and the two answers
    leave two avatar elements in the target of alice. *)
Lemma nested_targets_hold_two_avatars : ~ one_avatar_per_target.
Proof.
  intros H.
  assert (Hr : reachable nested_state).
  { unfold nested_state.
    apply reachable_complete; [|vm_compute; lia].
    apply reachable_complete; [|vm_compute; lia].
    apply reachable_scan, reachable_start. reflexivity. }
  assert (HT : exists T, name_target (doc nested_state) 4 T /\
                         length (avatars_of T) = 2%nat).
  { eexists. split; [split|].
    - eexists _, _. split; [vm_compute; reflexivity | reflexivity].
    - vm_compute. reflexivity.
    - vm_compute. reflexivity. }
  destruct HT as (T & HT & Hlen).
  pose proof (H nested_state Hr 4%nat T HT) as Hle. lia.
Qed.

(** The nick-list entry of alice with the avatar of bob still in it:
    after [processUserElement] the page is orderly as before and the
    avatar of bob is gone from the entry; [injectAvatar] leaves the
    avatar of alice there, and nothing else. *)
Lemma stale_avatar_is_replaced :
  let st' := outcome_of (processUserElement 10 3 stale_state) in
  (targets_apart (doc st') /\ one_avatar_each (doc st')) /\
  (exists st2,
     injectAvatar 3 "alice" (JStr "/media/a.png") stale_state = Normal st2 /\
     find_node 3 (doc st2)
     = Some (Node 3 "span" ["user"] [("data-name", "alice")]
               [avatar_markup 100 Nicklist "alice" "/media/a.png"])) /\
  (exists target',
     find_node 3 (doc st') = Some target' /\
     50%nat ∉ map node_id (subtree target')).
Proof.
  intros st'.
  destruct (reconciliation_keeps_at_most_one_avatar stale_state
              stale_state_well_identified) as [Hinv Hel].
  split.
  - destruct Hinv as [Hscript _].
    + apply targets_apart_listed.
      apply (bool_decide_unpack (targets_apart_in (name_targets (doc stale_state)))).
      vm_compute. exact I.
    + apply one_avatar_listed.
      apply (bool_decide_unpack (one_avatar_in (name_targets (doc stale_state)))).
      vm_compute. exact I.
    + destruct (Hscript st') as (_ & Ha & Ho); [|split; assumption].
      apply result_process. intros e ch Hch. vm_compute in Hch.
      injection Hch as <- _. reflexivity.
  - specialize (Hel 3%nat _ _ "alice" eq_refl). cbv zeta in Hel.
    destruct Hel as [_ Hstale]; [vm_compute; discriminate | reflexivity|].
    destruct Hstale as [Hinj Hgone].
    { intros (a & Ha & Hr). vm_compute in Ha. injection Ha as <-.
      vm_compute in Hr. discriminate. }
    split.
    + destruct (Hinj "/media/a.png") as (st2 & Hrun & Hfind).
      exists st2. split; [exact Hrun | exact Hfind].
    + destruct (Hgone st') as (target' & Hf & Hold & _).
      { right. exists 10. repeat split. }
      exists target'. split; [exact Hf | exact (Hold _ eq_refl)].
Defined.

(** The lookup for alice on the sample page settles with an avatar:
    the URL is in the cache, and her entry in the nick list and her
    message both show her avatar; with the static avatar the entry is
    [null] and the page is left alone. *)
Lemma alice_lookup_settles :
  let st := start sample_page in
  let it := Item "alice" "alice" in
  let st' := settle it (avatar_json (JStr "/media/a.png")) 10 st in
  cache st' = <["alice" := Entry (JStr "/media/a.png") 10]> ∅ /\
  (exists T, injection_target 3 (doc st') = Some T /\ shows "alice" T) /\
  (exists T, injection_target 7 (doc st') = Some T /\ shows "alice" T) /\
  settle it (avatar_json (JStr "/static/none.png")) 10 st
  = set_cache (<["alice" := Entry JNull 10]> ∅) st.
Proof.
  intros st it st'.
  pose proof (settled_lookup_is_cached st it
                (avatar_json (JStr "/media/a.png")) 10 eq_refl) as H.
  change (verdict_of (avatar_json (JStr "/media/a.png")))
    with (Positive "/media/a.png") in H.
  cbv iota beta in H. destruct H as (Hcache & _ & _ & Hshows).
  destruct Hshows as [_ Hshows].
  { split.
    - unfold distinct_ids.
      apply (bool_decide_unpack (NoDup (map node_id (subtree (doc st))))).
      vm_compute. exact I.
    - unfold ids_below.
      apply (bool_decide_unpack
               (Forall (fun i => (i < fresh st)%nat) (map node_id (subtree (doc st))))).
      vm_compute. exact I. }
  split; [exact Hcache|]. split; [|split].
  - eexists. split; [vm_compute; reflexivity|].
    apply (Hshows 3%nat); [|vm_compute; reflexivity].
    apply (bool_decide_unpack (3%nat ∈ matching "alice" (doc st'))).
    vm_compute. exact I.
  - eexists. split; [vm_compute; reflexivity|].
    apply (Hshows 7%nat); [|vm_compute; reflexivity].
    apply (bool_decide_unpack (7%nat ∈ matching "alice" (doc st'))).
    vm_compute. exact I.
  - exact (settled_lookup_is_cached st it
             (avatar_json (JStr "/static/none.png")) 10 eq_refl).
Defined.


End SamplePages.
